(** * Information-flow constraints over the two-point lattice {L, H}

    A shallow embedding of the constraint kit ([LHConstraintKit]), of its two
    solvers (the classical worklist solver [LHConsSoln] and the propagation
    solver [PartialSolution]) and of the parts of the [Infoflow] pass that
    create constraint variables and constraints, followed by the properties
    proved about them.

    Conventions of the embedding.
    - An object of the C++ program is named by its address.  Constraint
      variables are numbered in allocation order ([newVar]), so a variable
      is its number; [PartialSolution] objects live in an explicit heap and
      are named by their index in it.
    - [std::set<T*>] and the LLVM pointer sets are finite sets ([gset]);
      iterating one visits [elements s], which stands for the address
      order of the members.
    - A failed [assert] aborts the program: functions that can reach one
      return in the [result] monad. *)

From Stdlib Require OrderedTypeEx.
From stdpp Require Import gmap strings list fin_maps sets countable.

Set Default Proof Using "Type".
Set Warnings "-clear-no-such-hyp".
Local Open Scope string_scope.
Local Open Scope list_scope.

(** ** Outcomes of a call *)

Inductive result (A : Type) : Type :=
| Ok (a : A)
| AssertionFailed (msg : string)
| NullDereference
| OutOfFuel.
Arguments Ok {A} a.
Arguments AssertionFailed {A} msg.
Arguments NullDereference {A}.
Arguments OutOfFuel {A}.

#[global] Instance result_ret : MRet result := fun A a => Ok a.

#[global] Instance result_bind : MBind result := fun A B k r =>
match r with
| Ok a => k a
| AssertionFailed msg => AssertionFailed msg
| NullDereference => NullDereference
| OutOfFuel => OutOfFuel
end.

Definition is_Ok {A : Type} (r : result A) : bool :=
match r with Ok _ => true | _ => false end.

Definition is_fatal {A : Type} (r : result A) : bool :=
match r with AssertionFailed _ => true | _ => false end.

(** [assert(b && msg)] *)
Definition cassert (b : bool) (msg : string) : result unit :=
if b then Ok tt else AssertionFailed msg.

(** A loop over a container whose body can abort. *)
Fixpoint foldM {A B : Type} (f : A -> B -> result A) (a : A) (l : list B)
  : result A :=
match l with
| [] => Ok a
| x :: r => a' ← f a x; foldM f a' r
end.

(** ** LHConstraints.h / LHConstraints.cpp: the elements *)

Inductive LHLevel : Type := LOW | HIGH.

#[global] Instance LHLevel_eq_dec : EqDecision LHLevel.
Proof. solve_decision. Defined.

Local Unset Elimination Schemes.
(** [ConsElem] with its three concrete classes.  A join holds the set of the
    elements it joins, listed in iteration order. *)
Inductive ConsElem : Type :=
| LHConstant (level : LHLevel)
| LHConsVar (id : nat)
| LHJoin (elems : list ConsElem).
Local Set Elimination Schemes.

Section ConsElem_induction.
Variable Q : ConsElem -> Prop.
Hypothesis Hconst : forall l, Q (LHConstant l).
Hypothesis Hvar : forall v, Q (LHConsVar v).
Hypothesis Hjoin : forall es, Forall Q es -> Q (LHJoin es).

Fixpoint ConsElem_ind (e : ConsElem) : Q e :=
match e with
| LHConstant l => Hconst l
| LHConsVar v => Hvar v
| LHJoin es =>
    Hjoin es
      ((fix go (l : list ConsElem) : Forall Q l :=
          match l with
          | [] => Forall_nil_2 Q
          | x :: r => Forall_cons_2 Q x r (ConsElem_ind x) (go r)
          end) es)
end.
End ConsElem_induction.

(** Elements are keys of pointer sets: they are countable. *)
Fixpoint elem_encode (e : ConsElem) : gen_tree (bool + nat) :=
match e with
| LHConstant LOW => GenLeaf (inl false)
| LHConstant HIGH => GenLeaf (inl true)
| LHConsVar v => GenLeaf (inr v)
| LHJoin es => GenNode 0 (map elem_encode es)
end.

Fixpoint elem_decode (t : gen_tree (bool + nat)) : ConsElem :=
match t with
| GenLeaf (inl false) => LHConstant LOW
| GenLeaf (inl true) => LHConstant HIGH
| GenLeaf (inr v) => LHConsVar v
| GenNode _ ts => LHJoin (map elem_decode ts)
end.

Lemma elem_decode_encode e : elem_decode (elem_encode e) = e.
Proof.
  induction e as [[]| |es IH] using ConsElem_ind; simpl; try done.
  f_equal. induction IH as [|x r Hx _ IHr]; simpl; [done|].
  by rewrite Hx, IHr.
Qed.

#[global] Instance ConsElem_eq_dec : EqDecision ConsElem.
Proof.
  intros x y. destruct (decide (elem_encode x = elem_encode y)) as [E|E].
  - left. rewrite <- (elem_decode_encode x), <- (elem_decode_encode y).
    by rewrite E.
  - right. intros ->. by apply E.
Defined.

#[global] Instance ConsElem_countable : Countable ConsElem :=
  inj_countable' elem_encode elem_decode elem_decode_encode.

(** [LHConstant::low()] and [LHConstant::high()]: the two singletons. *)
Definition low : LHLevel := LOW.
Definition high : LHLevel := HIGH.

(** [llvm::isa<LHJoin>] *)
Definition isa_LHJoin (e : ConsElem) : bool :=
match e with LHJoin _ => true | _ => false end.

(** [LHConstant::leq]: false when the other element is not a constant. *)
Definition LHConstant_leq (level : LHLevel) (elem : ConsElem) : bool :=
match elem with
| LHConstant other =>
    bool_decide (level = LOW) || bool_decide (other = HIGH)
| _ => false
end.

(** [LHConstant::join] *)
Definition LHConstant_join (level other : LHLevel) : LHLevel :=
if bool_decide (level = LOW) then other else level.



(** [ConsElem::variables]: adds the variables of the element to [vars]. *)
Fixpoint variables (e : ConsElem) (vars : gset nat) : gset nat :=
match e with
| LHConstant _ => vars
| LHConsVar id => {[ id ]} ∪ vars
| LHJoin es =>
    (fix each (l : list ConsElem) (acc : gset nat) : gset nat :=
       match l with
       | [] => acc
       | x :: r => each r (variables x acc)
       end) es vars
end.

(** The constructor [LHJoin(std::set<const ConsElem *>)]. *)
Definition LHJoin_of (elements_ : gset ConsElem) : ConsElem :=
  LHJoin (elements elements_).

(** [LHJoin::elements] *)
Definition LHJoin_elements (es : list ConsElem) : gset ConsElem :=
  list_to_set es.

(** [LHJoin::create]: a join argument contributes its members, any other
    element contributes itself. *)
Definition LHJoin_create (e1 e2 : ConsElem) : ConsElem :=
let elements0 : gset ConsElem := ∅ in
let elements1 :=
  match e1 with
  | LHJoin j1 => elements0 ∪ LHJoin_elements j1
  | _ => elements0 ∪ {[ e1 ]}
  end in
let elements2 :=
  match e2 with
  | LHJoin j2 => elements1 ∪ LHJoin_elements j2
  | _ => elements1 ∪ {[ e2 ]}
  end in
LHJoin_of elements2.

(** ** LHConstraint.h *)

Record LHConstraint : Type := mkLHConstraint { lhs : ConsElem; rhs : ConsElem }.

#[global] Instance LHConstraint_eq_dec : EqDecision LHConstraint.
Proof. solve_decision. Defined.

(** ** LHConsSoln.h / LHConsSoln.cpp: the classical worklist solver

    The solver holds a vector of pointers to constraints; a pointer is
    modelled by the position of the constraint in that vector. *)

Inductive SolnClass : Type := LHConsLeastSoln | LHConsGreatestSoln.

Record LHConsSoln : Type := mkLHConsSoln {
  soln_class : SolnClass;
  defaultValue : LHLevel;
  soln_constraints : option (list LHConstraint);
  queue : list nat;
  queueSet : gset nat;
  changed : gset nat;
  solved : bool;
  (** [invalidIfIncreased] of the least solver, [invalidIfDecreased] of
      the greatest one *)
  invalidIf : gmap nat (list nat)
}.

Definition set_queue (s : LHConsSoln) (q : list nat) (qs : gset nat) :=
  mkLHConsSoln (soln_class s) (defaultValue s) (soln_constraints s) q qs
    (changed s) (solved s) (invalidIf s).

Definition set_changed (s : LHConsSoln) (ch : gset nat) :=
  mkLHConsSoln (soln_class s) (defaultValue s) (soln_constraints s) (queue s)
    (queueSet s) ch (solved s) (invalidIf s).

Definition set_solved (s : LHConsSoln) (b : bool) :=
  mkLHConsSoln (soln_class s) (defaultValue s) (soln_constraints s) (queue s)
    (queueSet s) (changed s) b (invalidIf s).

Definition set_invalidIf (s : LHConsSoln) (m : gmap nat (list nat)) :=
  mkLHConsSoln (soln_class s) (defaultValue s) (soln_constraints s) (queue s)
    (queueSet s) (changed s) (solved s) m.

(** The body of [LHConsSoln::subst] after its call to [solve]: the value of
    an element under the current [changed] set.  A join starts from
    [defaultValue]. *)
Fixpoint subst_eval (dflt : LHLevel) (chg : gset nat) (elem : ConsElem)
  : LHLevel :=
match elem with
| LHConsVar var =>
    let other := if bool_decide (dflt = low) then high else low in
    if bool_decide (var ∈ chg) then other else dflt
| LHConstant level => level
| LHJoin elements_ =>
    (fix each (l : list ConsElem) (substVal : LHLevel) : LHLevel :=
       match l with
       | [] => substVal
       | x :: r => each r (LHConstant_join substVal (subst_eval dflt chg x))
       end) elements_ dflt
end.

Definition soln_subst (s : LHConsSoln) (elem : ConsElem) : LHLevel :=
  subst_eval (defaultValue s) (changed s) elem.

(** [LHConsSoln::enqueueConstraints] *)
Definition enqueueConstraints (s : LHConsSoln) (cs : list nat) : LHConsSoln :=
  foldl (fun s elem =>
           if bool_decide (elem ∈ queueSet s) then s
           else set_queue s (queue s ++ [elem]) ({[ elem ]} ∪ queueSet s))
        s cs.

(** Removing the constraint at position [i] of the queue. *)
Definition dequeueConstraintAt (i : nat) (s : LHConsSoln)
  : option (nat * LHConsSoln) :=
match queue s !! i with
| Some c => Some (c, set_queue s (delete i (queue s)) (queueSet s ∖ {[ c ]}))
| None => None
end.

(** [LHConsSoln::dequeueConstraint]: the front of the queue. *)
Definition dequeueConstraint (s : LHConsSoln) : option (nat * LHConsSoln) :=
  dequeueConstraintAt 0 s.

(** [getOrCreateInvalidIfIncreasedSet] / [getOrCreateInvalidIfDecreasedSet]:
    the vector stored for [var], empty when there was none. *)
Definition getOrCreateInvalidIfSet (s : LHConsSoln) (var : nat) : list nat :=
  default [] (invalidIf s !! var).

(** [addInvalidIfIncreased] / [addInvalidIfDecreased] *)
Definition addInvalidIf (m : gmap nat (list nat)) (var c : nat)
  : gmap nat (list nat) :=
  <[ var := default [] (m !! var) ++ [c] ]> m.

(** [LHConsLeastSoln::satisfyConstraint] *)
Definition LHConsLeastSoln_satisfyConstraint (s : LHConsSoln)
  (left right : ConsElem) : result LHConsSoln :=
let vars := variables right ∅ in
let L := soln_subst s left in
foldM (fun s var =>
         let R := soln_subst s (LHConsVar var) in
         if negb (LHConstant_leq L (LHConstant R)) then
           let s := set_changed s ({[ var ]} ∪ changed s) in
           Ok (enqueueConstraints s (getOrCreateInvalidIfSet s var))
         else Ok s)
      s (elements vars).

(** [LHConsGreatestSoln::satisfyConstraint] *)
Definition LHConsGreatestSoln_satisfyConstraint (s : LHConsSoln)
  (left right : ConsElem) : result LHConsSoln :=
let vars := variables left ∅ in
let R := soln_subst s right in
foldM (fun s var =>
         let L := soln_subst s (LHConsVar var) in
         if LHConstant_leq L (LHConstant R) then Ok s
         else if LHConstant_leq R (LHConstant L) then
           let s := set_changed s ({[ var ]} ∪ changed s) in
           Ok (enqueueConstraints s (getOrCreateInvalidIfSet s var))
         else AssertionFailed "Meets not supported yet... not sure what to do...")
      s (elements vars).

(** The virtual [satisfyConstraint]. *)
Definition satisfyConstraint (s : LHConsSoln) (left right : ConsElem)
  : result LHConsSoln :=
match soln_class s with
| LHConsLeastSoln => LHConsLeastSoln_satisfyConstraint s left right
| LHConsGreatestSoln => LHConsGreatestSoln_satisfyConstraint s left right
end.

(** The index built by the two constructors: every constraint is filed
    under the variables of its left-hand side (least) or of its right-hand
    side (greatest). *)
Definition indexed_side (cls : SolnClass) (c : LHConstraint) : ConsElem :=
match cls with
| LHConsLeastSoln => lhs c
| LHConsGreatestSoln => rhs c
end.

Definition build_invalidIf (cls : SolnClass) (cs : list LHConstraint)
  : gmap nat (list nat) :=
  foldl (fun m ic =>
           let sideVariables := variables (indexed_side cls ic.2) ∅ in
           foldl (fun m var => addInvalidIf m var ic.1) m
                 (elements sideVariables))
        ∅ (imap (fun i c => (i, c)) cs).

(** The constructors [LHConsLeastSoln(kit, constraints)] and
    [LHConsGreatestSoln(kit, constraints)]. *)
Definition new_LHConsSoln (cls : SolnClass) (cs : list LHConstraint)
  : LHConsSoln :=
  mkLHConsSoln cls
    (match cls with LHConsLeastSoln => low | LHConsGreatestSoln => high end)
    (Some cs) [] ∅ ∅ false (build_invalidIf cls cs).

(** The loop of [LHConsSoln::solve].  [order] chooses which queued
    constraint is taken next; the program always takes the front
    ([order = fun _ => 0]). *)
Fixpoint solve_loop (order : LHConsSoln -> nat) (fuel : nat)
  (cs : list LHConstraint) (s : LHConsSoln) : result LHConsSoln :=
match queue s with
| [] => Ok s
| _ :: _ =>
    match fuel with
    | 0 => OutOfFuel
    | S fuel =>
        match dequeueConstraintAt (order s mod length (queue s)) s with
        | None => NullDereference
        | Some (c, s) =>
            match cs !! c with
            | None => NullDereference
            | Some c =>
                let left := lhs c in
                let right := rhs c in
                s ← (if LHConstant_leq (soln_subst s left)
                          (LHConstant (soln_subst s right))
                     then Ok s
                     else satisfyConstraint s left right);
                solve_loop order fuel cs s
            end
        end
    end
end.

(** All the variables of a constraint vector. *)
Definition constraint_variables (cs : list LHConstraint) : gset nat :=
  foldr (fun c acc => variables (lhs c) (variables (rhs c) acc)) ∅ cs.

(** Number of iterations after which the queue has drained. *)
Definition solve_fuel (cs : list LHConstraint) : nat :=
  (size (constraint_variables cs) + 1) * (length cs + 1).

(** [LHConsSoln::solve] *)
Definition solve_with (order : LHConsSoln -> nat) (s : LHConsSoln)
  : result LHConsSoln :=
if solved s then Ok s
else
  let s := set_solved s true in
  match soln_constraints s with
  | None => NullDereference
  | Some cs =>
      let s := enqueueConstraints s (seq 0 (length cs)) in
      s ← solve_loop order (solve_fuel cs) cs s;
      (* delete constraints; constraints = NULL; releaseMemory() *)
      Ok (mkLHConsSoln (soln_class s) (defaultValue s) None (queue s)
            (queueSet s) (changed s) (solved s) ∅)
  end.

Definition fifo : LHConsSoln -> nat := fun _ => 0.

Definition solve (s : LHConsSoln) : result LHConsSoln := solve_with fifo s.


(** ** PartialSolution.h / PartialSolution.cpp: the propagation solver

    [PartialSolution] objects refer to each other through [Chained]; they
    live in a heap (a list of objects) and a pointer is an index in it. *)

Record PartialSolution : Type := mkPartialSolution {
  ps_P : gmap nat (list nat);
  ps_VSet : gset nat;
  ps_Chained : list nat;
  ps_initial : bool
}.

Definition deref (h : list PartialSolution) (p : nat) : result PartialSolution :=
match h !! p with
| Some ps => Ok ps
| None => NullDereference
end.

(** The objects a chain points to, in the order of the chain. *)
Fixpoint chain_objects (h : list PartialSolution) (chained : list nat)
  : result (list PartialSolution) :=
match chained with
| [] => Ok []
| p :: r => ps ← deref h p; objs ← chain_objects h r; Ok (ps :: objs)
end.

(** [boolToLHC] *)
Definition boolToLHC (B : bool) : LHLevel := if B then high else low.

(** [PartialSolution::isChanged], over the objects of [Chained]. *)
Definition isChanged (objs : list PartialSolution) (V : nat) : bool :=
  existsb (fun o => bool_decide (V ∈ ps_VSet o)) objs.

(** The body of [PartialSolution::subst].  A join starts from [low]. *)
Fixpoint PS_subst_eval (initial : bool) (objs : list PartialSolution)
  (E : ConsElem) : LHLevel :=
match E with
| LHConsVar V => boolToLHC (xorb initial (isChanged objs V))
| LHConstant LHC => LHC
| LHJoin elements_ =>
    (fix each (l : list ConsElem) (substVal : LHLevel) : LHLevel :=
       match l with
       | [] => substVal
       | x :: r => each r (LHConstant_join substVal (PS_subst_eval initial objs x))
       end) elements_ low
end.

(** [PartialSolution::subst] *)
Definition PartialSolution_subst (h : list PartialSolution) (this : nat)
  (E : ConsElem) : result LHLevel :=
  ps ← deref h this;
  objs ← chain_objects h (ps_Chained ps);
  Ok (PS_subst_eval (ps_initial ps) objs E).

(** [std::sort] followed by [std::unique] and [erase] on a chain. *)
Definition chain_normalize (chained : list nat) : list nat :=
  elements (list_to_set chained : gset nat).

Definition VSet_insert (o : PartialSolution) (vs : gset nat) : PartialSolution :=
  mkPartialSolution (ps_P o) (vs ∪ ps_VSet o) (ps_Chained o) (ps_initial o).

(** One constraint of the loop of [PartialSolution::initialize]: [o] is the
    object under construction, whose chain is itself alone. *)
Definition initialize_step (o : PartialSolution) (I : LHConstraint)
  : PartialSolution :=
let From := if ps_initial o then rhs I else lhs I in
let To := if ps_initial o then lhs I else rhs I in
let vars := variables From ∅ in
let targets := variables To ∅ in
if bool_decide (targets = ∅) then o
else
  let P := foldl (fun P var =>
                    <[ var := default [] (P !! var) ++ elements targets ]> P)
                 (ps_P o) (elements vars) in
  let o := mkPartialSolution P (ps_VSet o) (ps_Chained o) (ps_initial o) in
  if ps_initial o then
    if LHConstant_leq (PS_subst_eval (ps_initial o) [o] From) (LHConstant low)
    then VSet_insert o targets else o
  else
    if negb (LHConstant_leq (PS_subst_eval (ps_initial o) [o] From)
               (LHConstant low))
    then VSet_insert o targets else o.

(** [PartialSolution::initialize] for the object at address [this]. *)
Definition initialize (this : nat) (initial : bool) (C : list LHConstraint)
  : PartialSolution :=
  foldl initialize_step (mkPartialSolution ∅ ∅ [this] initial) C.

(** The two inner loops of [PartialSolution::propagate] for the dequeued
    variable [V]: [pos] is the position of [this] in the chain. *)
Definition propagate_updates (pos : nat) (V : nat)
  (st : list PartialSolution * list nat) : list PartialSolution * list nat :=
  foldl (fun st P =>
           match P !! V with
           | None => st
           | Some Updates =>
               foldl (fun (st : list PartialSolution * list nat) I =>
                        if negb (isChanged st.1 I)
                        then (alter (fun o => VSet_insert o {[ I ]}) pos st.1,
                              st.2 ++ [I])
                        else st)
                     st Updates
           end)
        st (map ps_P st.1).

Fixpoint propagate_loop (fuel : nat) (pos : nat) (objs : list PartialSolution)
  (workList : list nat) : result (list PartialSolution) :=
match workList with
| [] => Ok objs
| V :: workList =>
    match fuel with
    | 0 => OutOfFuel
    | S fuel =>
        let st := propagate_updates pos V (objs, workList) in
        propagate_loop fuel pos st.1 st.2
    end
end.

(** Every variable some propagation map of the chain can update. *)
Definition propagate_targets (objs : list PartialSolution) : gset nat :=
  ⋃ (map (fun o => ⋃ (map (fun kv => list_to_set kv.2) (map_to_list (ps_P o))))
         objs).

Definition position (this : nat) (chained : list nat) : option nat :=
  fst <$> list_find (fun p => p = this) chained.

(** [PartialSolution::propagate] *)
Definition propagate (h : list PartialSolution) (this : nat)
  : result (list PartialSolution) :=
  ps ← deref h this;
  _ ← cassert (negb (bool_decide (ps_Chained ps = []))) "!Chained.empty()";
  match position this (ps_Chained ps) with
  | None =>
      AssertionFailed
        "std::find(Chained.begin(), Chained.end(), this) != Chained.end()"
  | Some pos =>
      objs ← chain_objects h (ps_Chained ps);
      let workList := concat (map (fun o => elements (ps_VSet o)) objs) in
      let fuel := length workList + size (propagate_targets objs) in
      objs ← propagate_loop fuel pos objs workList;
      match objs !! pos with
      | None => NullDereference
      | Some ps => Ok (<[ this := ps ]> h)
      end
  end.

(** [new PartialSolution(C, initial)]: returns the heap and the address of
    the new object. *)
Definition new_PartialSolution (h : list PartialSolution)
  (C : list LHConstraint) (initial : bool)
  : result (list PartialSolution * nat) :=
  let this := length h in
  let h := h ++ [initialize this initial C] in
  h ← propagate h this;
  Ok (h, this).

(** [new PartialSolution(P)]: the copy constructor. *)
Definition copy_PartialSolution (h : list PartialSolution) (P : nat)
  : result (list PartialSolution * nat) :=
  let this := length h in
  p ← deref h P;
  let chained := chain_normalize ([this] ++ ps_Chained p) in
  _ ← cassert (bool_decide (P ∈ chained))
        "std::find(Chained.begin(), Chained.end(), &P) != Chained.end()";
  Ok (h ++ [mkPartialSolution ∅ ∅ chained (ps_initial p)], this).

(** [PartialSolution::mergeIn] *)
Definition mergeIn (h : list PartialSolution) (this : nat) (P : nat)
  : result (list PartialSolution) :=
  ps ← deref h this;
  p ← deref h P;
  _ ← cassert (bool_decide (ps_initial ps = ps_initial p)) "initial == P.initial";
  let chained := chain_normalize (ps_Chained ps ++ ps_Chained p) in
  _ ← cassert (bool_decide (P ∈ chained))
        "std::find(Chained.begin(), Chained.end(), &P) != Chained.end()";
  let h := <[ this := mkPartialSolution (ps_P ps) (ps_VSet ps) chained
                        (ps_initial ps) ]> h in
  propagate h this.

(** ** LHConstraintKit.h / LHConstraintKit.cpp / MTSolve.cpp: the kit

    [joins] is the [std::set<LHJoin>] of interned joins, listed in the
    order the instances were allocated: the position of a join in it
    names the instance.  A cached solution is a pointer that can be null
    (the entry [StringMap::operator[]] creates). *)

Record LHConstraintKit : Type := mkLHConstraintKit {
  constraints : gmap string (list LHConstraint);
  lockedConstraintKinds : gset string;
  vars : list string;
  joins : list ConsElem;
  leastSolutions : gmap string (option nat);
  greatestSolutions : gmap string (option nat);
  heap : list PartialSolution;
  explicitLHConstraints : nat;
  implicitLHConstraints : nat
}.

Definition LHConstraintKit_new : LHConstraintKit :=
  mkLHConstraintKit ∅ ∅ [] [] ∅ ∅ [] 0 0.

Definition set_constraints (k : LHConstraintKit) (c : gmap string (list LHConstraint)) :=
  mkLHConstraintKit c (lockedConstraintKinds k) (vars k) (joins k)
    (leastSolutions k) (greatestSolutions k) (heap k)
    (explicitLHConstraints k) (implicitLHConstraints k).

Definition set_locked (k : LHConstraintKit) (l : gset string) :=
  mkLHConstraintKit (constraints k) l (vars k) (joins k)
    (leastSolutions k) (greatestSolutions k) (heap k)
    (explicitLHConstraints k) (implicitLHConstraints k).

Definition set_vars (k : LHConstraintKit) (v : list string) :=
  mkLHConstraintKit (constraints k) (lockedConstraintKinds k) v (joins k)
    (leastSolutions k) (greatestSolutions k) (heap k)
    (explicitLHConstraints k) (implicitLHConstraints k).

Definition set_joins (k : LHConstraintKit) (j : list ConsElem) :=
  mkLHConstraintKit (constraints k) (lockedConstraintKinds k) (vars k) j
    (leastSolutions k) (greatestSolutions k) (heap k)
    (explicitLHConstraints k) (implicitLHConstraints k).

Definition set_heap (k : LHConstraintKit) (h : list PartialSolution) :=
  mkLHConstraintKit (constraints k) (lockedConstraintKinds k) (vars k) (joins k)
    (leastSolutions k) (greatestSolutions k) h
    (explicitLHConstraints k) (implicitLHConstraints k).

Definition set_counters (k : LHConstraintKit) (e i : nat) :=
  mkLHConstraintKit (constraints k) (lockedConstraintKinds k) (vars k) (joins k)
    (leastSolutions k) (greatestSolutions k) (heap k) e i.

(** The cache of least solutions ([greatest = false]) or of greatest
    solutions ([greatest = true]). *)
Definition solutions (greatest : bool) (k : LHConstraintKit)
  : gmap string (option nat) :=
  if greatest then greatestSolutions k else leastSolutions k.

Definition set_solutions (greatest : bool) (k : LHConstraintKit)
  (m : gmap string (option nat)) :=
  if greatest then
    mkLHConstraintKit (constraints k) (lockedConstraintKinds k) (vars k)
      (joins k) (leastSolutions k) m (heap k)
      (explicitLHConstraints k) (implicitLHConstraints k)
  else
    mkLHConstraintKit (constraints k) (lockedConstraintKinds k) (vars k)
      (joins k) m (greatestSolutions k) (heap k)
      (explicitLHConstraints k) (implicitLHConstraints k).

(** [LHConstraintKit::newVar] *)
Definition newVar (k : LHConstraintKit) (description : string)
  : LHConstraintKit * ConsElem :=
  (set_vars k (vars k ++ [description]), LHConsVar (length (vars k))).

(** [lowConstant] and [highConstant] *)
Definition lowConstant : ConsElem := LHConstant low.
Definition highConstant : ConsElem := LHConstant high.

(** [joins.insert(join).first]: the instance equal to [join] when the set
    holds one, a new instance otherwise.  Returns the set and the position
    of the instance. *)
Definition joins_insert (js : list ConsElem) (join : ConsElem)
  : list ConsElem * nat :=
match list_find (fun j => j = join) js with
| Some (i, _) => (js, i)
| None => (js ++ [join], length js)
end.

(** The instance of the kit at a position of [joins]. *)
Definition join_instance (k : LHConstraintKit) (i : nat) : option ConsElem :=
  joins k !! i.

(** [upperBound] on two references, with the position of the returned
    instance. *)
Definition upperBound_at (k : LHConstraintKit) (e1 e2 : ConsElem)
  : LHConstraintKit * nat :=
  let join := LHJoin_create e1 e2 in
  let J := joins_insert (joins k) join in
  (set_joins k J.1, J.2).

Definition upperBound (k : LHConstraintKit) (e1 e2 : ConsElem)
  : LHConstraintKit * ConsElem :=
  let r := upperBound_at k e1 e2 in
  (r.1, default (LHJoin_create e1 e2) (join_instance r.1 r.2)).

(** [upperBound] on pointers: the arguments and the result may be null. *)
Definition upperBound_ptr (k : LHConstraintKit) (e1 e2 : option ConsElem)
  : LHConstraintKit * option ConsElem :=
match e1, e2 with
| None, _ => (k, e2)
| _, None => (k, e1)
| Some e1, Some e2 => let r := upperBound k e1 e2 in (r.1, Some r.2)
end.

(** [upperBound] on a set of elements. *)
Definition upperBound_set_at (k : LHConstraintKit) (elems : gset ConsElem)
  : LHConstraintKit * nat :=
  let join := LHJoin_of elems in
  let J := joins_insert (joins k) join in
  (set_joins k J.1, J.2).

Definition upperBound_set (k : LHConstraintKit) (elems : gset ConsElem)
  : LHConstraintKit * ConsElem :=
  let r := upperBound_set_at k elems in
  (r.1, default (LHJoin_of elems) (join_instance r.1 r.2)).

(** [getOrCreateConstraintSet]: the entry is created when it is missing. *)
Definition getOrCreateConstraintSet (k : LHConstraintKit) (kind : string)
  : LHConstraintKit * list LHConstraint :=
match constraints k !! kind with
| Some set => (k, set)
| None => (set_constraints k (<[ kind := [] ]> (constraints k)), [])
end.

(** [LHConstraintKit::addConstraint] *)
Definition addConstraint (k : LHConstraintKit) (kind : string)
  (lhs_ rhs_ : ConsElem) : result LHConstraintKit :=
  _ ← cassert (negb (bool_decide (kind ∈ lockedConstraintKinds k)))
        "Have already started solving this kind and cannot add more constraints.";
  let k := set_counters k
             (if bool_decide (kind = "default")
              then S (explicitLHConstraints k) else explicitLHConstraints k)
             (if bool_decide (kind = "implicit")
              then S (implicitLHConstraints k) else implicitLHConstraints k) in
  let '(k, set) := getOrCreateConstraintSet k kind in
  _ ← cassert (negb (isa_LHJoin rhs_)) "We shouldn't have joins on rhs!";
  match lhs_ with
  | LHJoin elems =>
      Ok (set_constraints k
            (<[ kind := set ++ map (fun elem => mkLHConstraint elem rhs_) elems ]>
               (constraints k)))
  | _ =>
      Ok (set_constraints k
            (<[ kind := set ++ [mkLHConstraint lhs_ rhs_] ]> (constraints k)))
  end.

(** [LHConstraintKit::freeUnneededConstraints] *)
Definition freeUnneededConstraints (k : LHConstraintKit) (kind : string)
  : LHConstraintKit :=
if bool_decide (kind ∈ lockedConstraintKinds k)
   && bool_decide (is_Some (leastSolutions k !! kind))
   && bool_decide (is_Some (greatestSolutions k !! kind))
then
  let '(k, _) := getOrCreateConstraintSet k kind in
  set_constraints k (<[ kind := [] ]> (constraints k))
else k.

(** One iteration of the loop of [leastSolution] ([greatest = false]) and
    of [greatestSolution] ([greatest = true]); the two bodies differ in
    the cache they use and in the flag they pass to [PartialSolution]. *)
Definition solution_step (greatest : bool)
  (st : LHConstraintKit * option nat) (kind : string)
  : result (LHConstraintKit * option nat) :=
  let '(k, PS) := st in
  k ← (if bool_decide (is_Some (solutions greatest k !! kind)) then Ok k
       else
         let k := set_locked k ({[ kind ]} ∪ lockedConstraintKinds k) in
         let '(k, C) := getOrCreateConstraintSet k kind in
         '(h, p) ← new_PartialSolution (heap k) C greatest;
         let k := set_heap k h in
         let k := set_solutions greatest k
                    (<[ kind := Some p ]> (solutions greatest k)) in
         Ok (freeUnneededConstraints k kind));
  match solutions greatest k !! kind with
  | Some (Some P) =>
      match PS with
      | None =>
          '(h, ps) ← copy_PartialSolution (heap k) P;
          Ok (set_heap k h, Some ps)
      | Some ps =>
          h ← mergeIn (heap k) ps P;
          Ok (set_heap k h, Some ps)
      end
  | _ => NullDereference
  end.

Definition kit_solution (greatest : bool) (k : LHConstraintKit)
  (kinds : gset string) : result (LHConstraintKit * nat) :=
  '(k, PS) ← foldM (solution_step greatest) (k, None) (elements kinds);
  match PS with
  | Some ps => Ok (k, ps)
  | None => AssertionFailed "No kinds given?"
  end.

(** [LHConstraintKit::leastSolution] *)
Definition kit_leastSolution := kit_solution false.

(** [LHConstraintKit::greatestSolution] *)
Definition kit_greatestSolution := kit_solution true.

(** [LHConstraintKit::solveMT]: the two solver threads only read the
    constraint vector, and each builds an object of its own. *)
Definition kit_solveMT (k : LHConstraintKit) (kind : string)
  : result LHConstraintKit :=
  _ ← cassert (negb (bool_decide (kind ∈ lockedConstraintKinds k))) "Already solved";
  let k := set_locked k ({[ kind ]} ∪ lockedConstraintKinds k) in
  _ ← cassert (negb (bool_decide (is_Some (leastSolutions k !! kind))))
        "!leastSolutions.count(kind)";
  _ ← cassert (negb (bool_decide (is_Some (greatestSolutions k !! kind))))
        "!greatestSolutions.count(kind)";
  let k := set_solutions true k (<[ kind := None ]> (greatestSolutions k)) in
  let k := set_solutions false k (<[ kind := None ]> (leastSolutions k)) in
  let '(k, C) := getOrCreateConstraintSet k kind in
  '(h, G) ← new_PartialSolution (heap k) C true;
  '(h, L) ← new_PartialSolution h C false;
  let k := set_heap k h in
  let k := set_solutions true k (<[ kind := Some G ]> (greatestSolutions k)) in
  let k := set_solutions false k (<[ kind := Some L ]> (leastSolutions k)) in
  Ok (freeUnneededConstraints k kind).

(** [merge], the body of a worker thread of [solveLeastMT]. *)
Definition merge (h : list PartialSolution) (Default DefaultSinks : option nat)
  (useDefaultSinks : bool) (Mergees : list nat) : result (list PartialSolution) :=
  foldM (fun h I =>
           h ← match Default with
               | Some d => mergeIn h I d
               | None => NullDereference
               end;
           if useDefaultSinks then
             match DefaultSinks with
             | Some ds => mergeIn h I ds
             | None => NullDereference
             end
           else Ok h)
        h Mergees.

(** The round-robin distribution of [solveLeastMT]: [ToMerge] is emptied
    from its back into the [T] work lists. *)
Fixpoint round_robin (T : nat) (TID : nat) (rev_ToMerge : list nat)
  (MI : list (list nat)) : list (list nat) :=
match rev_ToMerge with
| [] => MI
| x :: r => round_robin T ((TID + 1) mod T) r (alter (fun M => M ++ [x]) TID MI)
end.

(** [LHConstraintKit::solveLeastMT].  A worker changes only the copies on
    its own list, so the workers are run one after the other. *)
Definition kit_solveLeastMT (k : LHConstraintKit) (kinds : list string)
  (useDefaultSinks : bool) : result (LHConstraintKit * list nat) :=
  _ ← cassert (bool_decide (is_Some (leastSolutions k !! "default")))
        "leastSolutions.count(default)";
  let P := default None (leastSolutions k !! "default") in
  let DS := default None (leastSolutions k !! "default-sinks") in
  let k := match leastSolutions k !! "default-sinks" with
           | Some _ => k
           | None => set_solutions false k
                       (<[ "default-sinks" := None ]> (leastSolutions k))
           end in
  '(k, ToMerge) ←
    foldM (fun (st : LHConstraintKit * list nat) kind =>
             let '(k, ToMerge) := st in
             _ ← cassert (negb (bool_decide (kind ∈ lockedConstraintKinds k)))
                   "Already solved";
             let k := set_locked k ({[ kind ]} ∪ lockedConstraintKinds k) in
             _ ← cassert (negb (bool_decide (is_Some (leastSolutions k !! kind))))
                   "!leastSolutions.count(*kind)";
             let '(k, C) := getOrCreateConstraintSet k kind in
             '(h, p) ← new_PartialSolution (heap k) C false;
             let k := set_solutions false (set_heap k h)
                        (<[ kind := Some p ]> (leastSolutions k)) in
             '(h, c) ← copy_PartialSolution (heap k) p;
             Ok (set_heap k h, ToMerge ++ [c]))
          (k, []) kinds;
  let Merged := ToMerge in
  let T := 16 in
  let MI := round_robin T 0 (rev ToMerge) (replicate T []) in
  h ← foldM (fun h Mergees => merge h P DS useDefaultSinks Mergees) (heap k) MI;
  Ok (set_heap k h, Merged).

(** ** FlowRecord.h

    Values, functions, basic blocks and abstract locations are named by
    their addresses.  A [Function] and a [BasicBlock] are [Value]s: the
    upcast keeps the address. *)

Record FlowRecord : Type := mkFlowRecord {
  implicit : bool;
  valueSources : gset nat;
  directPtrSources : gset nat;
  reachPtrSources : gset nat;
  valueSinks : gset nat;
  directPtrSinks : gset nat;
  reachPtrSinks : gset nat;
  vargSources : gset nat;
  vargSinks : gset nat;
  sourceCtxt : nat;
  sinkCtxt : nat
}.

(** [FlowRecord(bool type, ContextID source, ContextID sink)] *)
Definition FlowRecord_new (type : bool) (source sink : nat) : FlowRecord :=
  mkFlowRecord type ∅ ∅ ∅ ∅ ∅ ∅ ∅ ∅ source sink.

(** [DefaultID] *)
Definition DefaultID : nat := 0.

Definition addSourceValue (r : FlowRecord) (V : nat) : FlowRecord :=
  mkFlowRecord (implicit r) ({[ V ]} ∪ valueSources r) (directPtrSources r)
    (reachPtrSources r) (valueSinks r) (directPtrSinks r) (reachPtrSinks r)
    (vargSources r) (vargSinks r) (sourceCtxt r) (sinkCtxt r).

Definition addSourceDirectPtr (r : FlowRecord) (V : nat) : FlowRecord :=
  mkFlowRecord (implicit r) (valueSources r) ({[ V ]} ∪ directPtrSources r)
    (reachPtrSources r) (valueSinks r) (directPtrSinks r) (reachPtrSinks r)
    (vargSources r) (vargSinks r) (sourceCtxt r) (sinkCtxt r).

Definition addSinkValue (r : FlowRecord) (V : nat) : FlowRecord :=
  mkFlowRecord (implicit r) (valueSources r) (directPtrSources r)
    (reachPtrSources r) ({[ V ]} ∪ valueSinks r) (directPtrSinks r)
    (reachPtrSinks r) (vargSources r) (vargSinks r) (sourceCtxt r) (sinkCtxt r).

Definition addSinkDirectPtr (r : FlowRecord) (V : nat) : FlowRecord :=
  mkFlowRecord (implicit r) (valueSources r) (directPtrSources r)
    (reachPtrSources r) (valueSinks r) ({[ V ]} ∪ directPtrSinks r)
    (reachPtrSinks r) (vargSources r) (vargSinks r) (sourceCtxt r) (sinkCtxt r).

Definition addSourceVarg (r : FlowRecord) (F : nat) : FlowRecord :=
  mkFlowRecord (implicit r) (valueSources r) (directPtrSources r)
    (reachPtrSources r) (valueSinks r) (directPtrSinks r) (reachPtrSinks r)
    ({[ F ]} ∪ vargSources r) (vargSinks r) (sourceCtxt r) (sinkCtxt r).

Definition addSinkVarg (r : FlowRecord) (F : nat) : FlowRecord :=
  mkFlowRecord (implicit r) (valueSources r) (directPtrSources r)
    (reachPtrSources r) (valueSinks r) (directPtrSinks r) (reachPtrSinks r)
    (vargSources r) ({[ F ]} ∪ vargSinks r) (sourceCtxt r) (sinkCtxt r).

Definition addSourceReachablePtr (r : FlowRecord) (V : nat) : FlowRecord :=
  mkFlowRecord (implicit r) (valueSources r) (directPtrSources r)
    ({[ V ]} ∪ reachPtrSources r) (valueSinks r) (directPtrSinks r)
    (reachPtrSinks r) (vargSources r) (vargSinks r) (sourceCtxt r) (sinkCtxt r).

Definition addSinkReachablePtr (r : FlowRecord) (V : nat) : FlowRecord :=
  mkFlowRecord (implicit r) (valueSources r) (directPtrSources r)
    (reachPtrSources r) (valueSinks r) (directPtrSinks r)
    ({[ V ]} ∪ reachPtrSinks r) (vargSources r) (vargSinks r) (sourceCtxt r)
    (sinkCtxt r).

(** The overloads that insert a range of values. *)
Definition addSourceValues (r : FlowRecord) (Vs : gset nat) : FlowRecord :=
  mkFlowRecord (implicit r) (valueSources r ∪ Vs) (directPtrSources r)
    (reachPtrSources r) (valueSinks r) (directPtrSinks r) (reachPtrSinks r)
    (vargSources r) (vargSinks r) (sourceCtxt r) (sinkCtxt r).

Definition addSourceDirectPtrs (r : FlowRecord) (Vs : gset nat) : FlowRecord :=
  mkFlowRecord (implicit r) (valueSources r) (directPtrSources r ∪ Vs)
    (reachPtrSources r) (valueSinks r) (directPtrSinks r) (reachPtrSinks r)
    (vargSources r) (vargSinks r) (sourceCtxt r) (sinkCtxt r).

Definition addSourceReachablePtrs (r : FlowRecord) (Vs : gset nat) : FlowRecord :=
  mkFlowRecord (implicit r) (valueSources r) (directPtrSources r)
    (reachPtrSources r ∪ Vs) (valueSinks r) (directPtrSinks r) (reachPtrSinks r)
    (vargSources r) (vargSinks r) (sourceCtxt r) (sinkCtxt r).

Definition addSinkValues (r : FlowRecord) (Vs : gset nat) : FlowRecord :=
  mkFlowRecord (implicit r) (valueSources r) (directPtrSources r)
    (reachPtrSources r) (valueSinks r ∪ Vs) (directPtrSinks r) (reachPtrSinks r)
    (vargSources r) (vargSinks r) (sourceCtxt r) (sinkCtxt r).

Definition addSinkDirectPtrs (r : FlowRecord) (Vs : gset nat) : FlowRecord :=
  mkFlowRecord (implicit r) (valueSources r) (directPtrSources r)
    (reachPtrSources r) (valueSinks r) (directPtrSinks r ∪ Vs) (reachPtrSinks r)
    (vargSources r) (vargSinks r) (sourceCtxt r) (sinkCtxt r).

Definition addSinkReachablePtrs (r : FlowRecord) (Vs : gset nat) : FlowRecord :=
  mkFlowRecord (implicit r) (valueSources r) (directPtrSources r)
    (reachPtrSources r) (valueSinks r) (directPtrSinks r) (reachPtrSinks r ∪ Vs)
    (vargSources r) (vargSinks r) (sourceCtxt r) (sinkCtxt r).

(** ** InfoflowSignature.h / InfoflowSignature.cpp

    Of a call site ([ImmutableCallSite]) the signatures and the rule for
    callees read the call instruction as a value, its block, the called
    value, the name of the called function when the call is direct
    ([getCalledFunction] is null otherwise), the arguments, each with
    whether its type is a pointer type, whether the type of the call is
    void, and the number of parameters of the type of the callee (none
    when the casts of [getValues] yield null). *)

Record CallSite : Type := mkCallSite {
  cs_instruction : nat;
  cs_parent : nat;
  cs_calledValue : nat;
  cs_calledFunction : option string;
  cs_args : list (nat * bool);
  cs_isVoidTy : bool;
  cs_calleeNumParams : option nat
}.

Definition arg_size (cs : CallSite) : nat := length (cs_args cs).

Definition arg_empty (cs : CallSite) : bool :=
  bool_decide (length (cs_args cs) = 0).

Definition getArgument (cs : CallSite) (i : nat) : result nat :=
match cs_args cs !! i with
| Some (v, _) => Ok v
| None => NullDereference
end.

(** The interface [Signature]. *)
Record Signature : Type := mkSignature {
  accept : nat -> CallSite -> bool;
  process : nat -> CallSite -> result (list FlowRecord)
}.

(** [SignatureRegistrar]: the vector [sigs]. *)
Definition SignatureRegistrar : Type := list Signature.

(** [SignatureRegistrar::registerSignature] *)
Definition registerSignature (sigs : SignatureRegistrar) (si : Signature)
  : SignatureRegistrar :=
  sigs ++ [si].

(** [SignatureRegistrar::process] *)
Fixpoint SignatureRegistrar_process (sigs : SignatureRegistrar) (ctxt : nat)
  (cs : CallSite) : result (list FlowRecord) :=
match sigs with
| [] => AssertionFailed "No signature matched call site."
| sig :: sigs =>
    if accept sig ctxt cs then process sig ctxt cs
    else SignatureRegistrar_process sigs ctxt cs
end.

(** ** SignatureLibrary.h / SignatureLibrary.cpp *)

(** The body of the loop of [TaintReachable::process] over the
    arguments. *)
Definition TaintReachable_arg (st : FlowRecord * FlowRecord) (arg : nat * bool)
  : FlowRecord * FlowRecord :=
  let '(exp, imp) := st in
  let exp := addSourceValue exp arg.1 in
  if arg.2 then
    let exp := addSourceReachablePtr exp arg.1 in
    let imp := addSourceValue imp arg.1 in
    let exp := addSinkReachablePtr exp arg.1 in
    let imp := addSinkReachablePtr imp arg.1 in
    (exp, imp)
  else (exp, imp).

(** [TaintReachable::process] *)
Definition TaintReachable_process (ctxt : nat) (cs : CallSite)
  : result (list FlowRecord) :=
  let exp := FlowRecord_new false ctxt ctxt in
  let imp := FlowRecord_new true ctxt ctxt in
  let imp := addSourceValue imp (cs_parent cs) in
  let imp := addSourceValue imp (cs_calledValue cs) in
  let '(exp, imp) := foldl TaintReachable_arg (exp, imp) (cs_args cs) in
  let '(exp, imp) :=
    if negb (cs_isVoidTy cs) then
      let imp := addSinkValue imp (cs_instruction cs) in
      let exp := addSinkValue exp (cs_instruction cs) in
      (exp, imp)
    else (exp, imp) in
  Ok [imp; exp].

Definition TaintReachable : Signature :=
  mkSignature (fun _ _ => true) TaintReachable_process.

(** [ArgsToRet::process] *)
Definition ArgsToRet_process (ctxt : nat) (cs : CallSite)
  : result (list FlowRecord) :=
  if negb (cs_isVoidTy cs) then
    let exp := FlowRecord_new false ctxt ctxt in
    let exp := foldl (fun exp arg => addSourceValue exp arg.1) exp (cs_args cs) in
    let exp := addSinkValue exp (cs_instruction cs) in
    Ok [exp]
  else Ok [].

Definition ArgsToRet : Signature :=
  mkSignature (fun _ _ => true) ArgsToRet_process.

(** [NoFlows] *)
Definition NoFlows : Signature :=
  mkSignature (fun _ _ => true) (fun _ _ => Ok []).

(** [OverflowChecks::accept] *)
Definition OverflowChecks_accept (ctxt : nat) (cs : CallSite) : bool :=
match cs_calledFunction cs with
| Some name => String.prefix "____jf_check" name
| None => false
end.

(** [OverflowChecks::process] *)
Definition OverflowChecks_process (ctxt : nat) (cs : CallSite)
  : result (list FlowRecord) :=
  let exp := FlowRecord_new false ctxt ctxt in
  let imp := FlowRecord_new true ctxt ctxt in
  let imp := addSourceValue imp (cs_parent cs) in
  let exp := foldl (fun exp arg => addSourceValue exp arg.1) exp (cs_args cs) in
  _ ← cassert (negb (cs_isVoidTy cs)) "Found 'void' overflow check?";
  let exp := addSinkValue exp (cs_instruction cs) in
  let imp := addSinkValue imp (cs_instruction cs) in
  Ok [imp; exp].

Definition OverflowChecks : Signature :=
  mkSignature OverflowChecks_accept OverflowChecks_process.

(** ** StdLibSignatures.h / StdLibSignatures.cpp *)

Module StdLibSignatures.

Inductive TSpecifier : Type :=
| Ret | Arg0 | Arg1 | Arg2 | Arg3 | Arg4 | AllArgs | VarArgs.

Inductive TClass : Type := V | D | R.

Inductive TEnd : Type := T_Source | T_Sink.

Definition TEnd_eq (a b : TEnd) : bool :=
match a, b with
| T_Source, T_Source | T_Sink, T_Sink => true
| _, _ => false
end.

Record TaintDecl : Type := mkTaintDecl {
  which : TSpecifier;
  what : TClass;
  end_ : TEnd
}.

(** [Source(TS, TC)] and [Sink(TS, TC)]; the table below writes the
    default arguments out ([TC = V], [TS = Ret]). *)
Definition Source (TS : TSpecifier) (TC : TClass) : TaintDecl :=
  mkTaintDecl TS TC T_Source.

Definition Sink (TS : TSpecifier) (TC : TClass) : TaintDecl :=
  mkTaintDecl TS TC T_Sink.

Record CallSummary : Type := mkCallSummary {
  Name : string;
  Sources : list TaintDecl;
  Sinks : list TaintDecl
}.

(** [CallSummary::process] *)
Definition CallSummary_process (S : CallSummary) (TD : TaintDecl) : CallSummary :=
match end_ TD with
| T_Source => mkCallSummary (Name S) (Sources S ++ [TD]) (Sinks S)
| T_Sink => mkCallSummary (Name S) (Sources S) (Sinks S ++ [TD])
end.

(** [CallSummary::verify] *)
Definition CallSummary_verify (S : CallSummary) : result unit :=
  _ ← cassert (negb (bool_decide (length (Sources S) = 0))) "Must have a source!";
  cassert (negb (bool_decide (length (Sinks S) = 0))) "Must have a sink!".

(** The constructors of [CallSummary]: the one of a name alone, and
    those of a name and two, three or four declarations, which
    [verify]. *)
Definition CallSummary_new (name : string) (TDs : list TaintDecl)
  : result CallSummary :=
  let S := foldl CallSummary_process (mkCallSummary name [] []) TDs in
  match TDs with
  | [] => Ok S
  | _ => _ ← CallSummary_verify S; Ok S
  end.

Definition CallTable_entries : list (string * list TaintDecl) :=
  [("calloc", [Source AllArgs V; Sink Ret V; Sink Ret D]);
   ("free", []);
   ("malloc", [Source AllArgs V; Sink Ret V; Sink Ret D]);
   ("realloc", [Source AllArgs D; Sink AllArgs D; Sink Ret D]);
   ("_IO_getc", [Source AllArgs V; Sink Ret V]);
   ("_IO_putc", [Source AllArgs V; Sink Ret V]);
   ("close", [Source AllArgs V; Sink Ret V]);
   ("fclose", [Source AllArgs V; Sink Ret V]);
   ("feof", [Source AllArgs V; Sink Ret V]);
   ("ferror", [Source AllArgs V; Sink Ret V]);
   ("fflush", [Source Arg0 V; Sink Ret V]);
   ("fgetc", [Source AllArgs V; Sink Ret V]);
   ("fileno", [Source AllArgs V; Sink Ret V]);
   ("fopen", [Source AllArgs D; Source AllArgs V; Sink Ret V]);
   ("fprintf", [Source AllArgs D; Source AllArgs V; Sink Ret V]);
   ("fputc", [Source AllArgs V; Sink Ret V]);
   ("fputs", [Source AllArgs D; Source AllArgs V; Sink Ret V]);
   ("fread", [Source AllArgs V; Sink Ret V; Sink Arg0 D]);
   ("fwrite", [Source Arg0 D; Source AllArgs V; Sink Ret V]);
   ("getc", [Source AllArgs V; Sink Ret V]);
   ("open", [Source AllArgs V; Sink Ret V]);
   ("printf", [Source AllArgs D; Source AllArgs V; Sink Ret V]);
   ("putc", [Source AllArgs V; Sink Ret V]);
   ("putchar", [Source AllArgs V; Sink Ret V]);
   ("puts", [Source Arg0 D; Sink Ret V]);
   ("read", [Source AllArgs V; Sink Ret V; Sink Arg1 D]);
   ("ungetc", [Source AllArgs V; Sink Ret V]);
   ("vprintf", [Source AllArgs V; Source AllArgs D; Sink Ret V]);
   ("fseek", []);
   ("ftell", []);
   ("lseek", []);
   ("write", []);
   ("strlen", [Source AllArgs D; Sink Ret V]);
   ("strcpy", [Source Arg1 D; Sink Arg0 D]);
   ("strcmp", [Source AllArgs D; Sink Ret V]);
   ("strncmp", [Source AllArgs D; Sink Ret V]);
   ("strchr", [Source AllArgs D; Sink Ret V]);
   ("strrchr", [Source AllArgs D; Sink Ret V]);
   ("memchr", [Source AllArgs D; Sink Ret V]);
   ("sprintf", [Source AllArgs D; Sink Arg0 R; Sink Ret V]);
   ("snprintf", [Source AllArgs D; Sink Arg0 R; Sink Ret V]);
   ("strtod", [Source AllArgs D; Sink Arg1 R]);
   ("atof", []);
   ("memcmp", []);
   ("strcat", []);
   ("strcspn", []);
   ("strerror", []);
   ("strncat", []);
   ("strncpy", []);
   ("strpbrk", []);
   ("strspn", []);
   ("strstr", []);
   ("strtok", []);
   ("strtol", []);
   ("strtoul", []);
   ("vsprintf", []);
   ("abort", []);
   ("clock", []);
   ("exit", []);
   ("_exit", []);
   ("fork", []);
   ("signal", []);
   ("unlink", []);
   ("time", []);
   ("getcwd", []);
   ("getenv", []);
   ("getpagesize", []);
   ("getpwd", []);
   ("localtime", []);
   ("strftime", []);
   ("ceil", [Source AllArgs V; Sink Ret V]);
   ("cos", [Source AllArgs V; Sink Ret V]);
   ("exp", [Source AllArgs V; Sink Ret V]);
   ("floor", [Source AllArgs V; Sink Ret V]);
   ("log", [Source AllArgs V; Sink Ret V]);
   ("pow", [Source AllArgs V; Sink Ret V]);
   ("powf", [Source AllArgs V; Sink Ret V]);
   ("sin", [Source AllArgs V; Sink Ret V]);
   ("sqrt", [Source AllArgs V; Sink Ret V]);
   ("tan", [Source AllArgs V; Sink Ret V]);
   ("exp2", []);
   ("fabs", []);
   ("ldexp", []);
   ("log10", []);
   ("__errno_location", []);
   ("qsort", []);
   ("____jf_return_arg", [Source AllArgs V; Sink Ret V]);
   ("_ZNSo3putEc", []);
   ("_ZNSo5flushEv", []);
   ("_ZNSolsEi", []);
   ("_ZSt17__throw_bad_allocv", []);
   ("_ZSt9terminatev", []);
   ("_ZdaPv", []);
   ("_Znam", []);
   ("__cxa_allocate_exception", []);
   ("__cxa_begin_catch", []);
   ("__cxa_end_catch", []);
   ("__cxa_free_exception", []);
   ("__cxa_throw", []);
   ("__isoc99_fscanf", []);
   ("__ctype_b_loc", []);
   ("_setjmp", []);
   ("longjmp", []);
   ("setjmp", []);
   (EmptyString, [])].

(** [CallTable]: the static initialisation runs the constructors in
    order. *)
Definition CallTable : result (list CallSummary) :=
  foldM (fun table entry =>
           S_ ← CallSummary_new entry.1 entry.2; Ok (table ++ [S_]))
        [] CallTable_entries.

(** [NameCompare] and [NameSearch] *)
Definition NameCompare (LHS RHS : CallSummary) : bool :=
  String.ltb (Name LHS) (Name RHS).

Definition NameSearch (LHS : CallSummary) (RHS : string) : bool :=
  String.ltb (Name LHS) RHS.

(** [std::sort] with [NameCompare]: by insertion.  On names that are
    pairwise distinct the sorted vector does not depend on the
    algorithm. *)
Fixpoint sort_insert (c : CallSummary) (l : list CallSummary) : list CallSummary :=
match l with
| [] => [c]
| d :: r => if NameCompare d c then d :: sort_insert c r else c :: l
end.

Definition sort_by_name (l : list CallSummary) : list CallSummary :=
  foldr sort_insert [] l.

(** The first loop of [StdLib::initCalls]: the entries before the first
    one with an empty name. *)
Fixpoint before_sentinel (table : list CallSummary) : list CallSummary :=
match table with
| [] => []
| c :: r =>
    if bool_decide (Name c = EmptyString) then [] else c :: before_sentinel r
end.

(** [StdLib::initCalls] *)
Definition initCalls (table : list CallSummary) : list CallSummary :=
  sort_by_name (before_sentinel table).

(** [std::lower_bound] with [NameSearch]: the suffix that starts at the
    first entry that is not below the name, on a vector that is sorted by
    name. *)
Fixpoint lower_bound (Calls : list CallSummary) (name : string)
  : list CallSummary :=
match Calls with
| [] => []
| c :: r => if NameSearch c name then lower_bound r name else Calls
end.

(** [StdLib::findEntry] *)
Definition findEntry (Calls : list CallSummary) (cs : CallSite)
  : option CallSummary :=
match cs_calledFunction cs with
| None => None
| Some name =>
    match lower_bound Calls name with
    | [] => None
    | c :: _ => if bool_decide (Name c <> name) then None else Some c
    end
end.

(** [getValues] *)
Definition getValues (cs : CallSite) (TS : TSpecifier) : result (gset nat) :=
  let arg (i : nat) : result (gset nat) :=
    _ ← cassert (bool_decide (i < arg_size cs)) "i < cs.arg_size()";
    a ← getArgument cs i; Ok {[ a ]} in
  match TS with
  | Ret =>
      _ ← cassert (negb (cs_isVoidTy cs))
            "!cs.getInstruction()->getType()->isVoidTy()";
      Ok {[ cs_instruction cs ]}
  | Arg0 => arg 0
  | Arg1 => arg 1
  | Arg2 => arg 2
  | Arg3 => arg 3
  | Arg4 => arg 4
  | AllArgs =>
      _ ← cassert (negb (arg_empty cs)) "!cs.arg_empty()";
      Ok (list_to_set (cs_args cs).*1)
  | VarArgs =>
      match cs_calleeNumParams cs with
      | Some n => Ok (list_to_set (drop n (cs_args cs)).*1)
      | None => NullDereference
      end
  end.

(** [StdLib::accept] *)
Definition StdLib_accept (Calls : list CallSummary) (ctxt : nat) (cs : CallSite)
  : bool :=
  bool_decide (is_Some (findEntry Calls cs)).

(** [StdLib::process] *)
Definition StdLib_process (Calls : list CallSummary) (ctxt : nat) (cs : CallSite)
  : result (list FlowRecord) :=
match findEntry Calls cs with
| None => AssertionFailed "found"
| Some S_ =>
    if bool_decide (length (Sources S_) = 0) || arg_empty cs then Ok []
    else
      let flow := FlowRecord_new false ctxt ctxt in
      flow ← foldM (fun flow TD =>
                      _ ← cassert (TEnd_eq (end_ TD) T_Source)
                            "TD.end == T_Source";
                      Values ← getValues cs (which TD);
                      match what TD with
                      | V => Ok (addSourceValues flow Values)
                      | D => Ok (addSourceDirectPtrs flow Values)
                      | R => Ok (addSourceReachablePtrs flow Values)
                      end) flow (Sources S_);
      flow ← foldM (fun flow TD =>
                      _ ← cassert (TEnd_eq (end_ TD) T_Sink)
                            "TD.end == T_Sink";
                      Values ← getValues cs (which TD);
                      match what TD with
                      | V => Ok (addSinkValues flow Values)
                      | D => Ok (addSinkDirectPtrs flow Values)
                      | R => Ok (addSinkReachablePtrs flow Values)
                      end) flow (Sinks S_);
      Ok [flow]
end.

(** The constructor [StdLib()]: the signature with its sorted vector
    [Calls]. *)
Definition StdLib (table : list CallSummary) : Signature :=
  let Calls := initCalls table in
  mkSignature (StdLib_accept Calls) (StdLib_process Calls).

End StdLibSignatures.

(** [Infoflow::registerSignatures], on the registrar that
    [doInitialization] has created; it fails when the static
    initialisation of the table does. *)
Definition registerSignatures : result SignatureRegistrar :=
  table ← StdLibSignatures.CallTable;
  let signatureRegistrar := [] in
  let signatureRegistrar := registerSignature signatureRegistrar OverflowChecks in
  let signatureRegistrar :=
    registerSignature signatureRegistrar (StdLibSignatures.StdLib table) in
  let signatureRegistrar := registerSignature signatureRegistrar ArgsToRet in
  Ok signatureRegistrar.

(** ** Infoflow.h / Infoflow.cpp *)

Record Infoflow : Type := mkInfoflow {
  kit : LHConstraintKit;
  valueConstraintMap : gmap nat (gmap nat ConsElem);
  locConstraintMap : gmap nat ConsElem;
  vargConstraintMap : gmap nat (gmap nat ConsElem);
  summarySinkValueConstraintMap : gmap nat ConsElem;
  summarySourceValueConstraintMap : gmap nat ConsElem;
  summarySinkVargConstraintMap : gmap nat ConsElem;
  summarySourceVargConstraintMap : gmap nat ConsElem
}.

Definition Infoflow_new : Infoflow :=
  mkInfoflow LHConstraintKit_new ∅ ∅ ∅ ∅ ∅ ∅ ∅.

Definition set_kit (fl : Infoflow) (k : LHConstraintKit) : Infoflow :=
  mkInfoflow k (valueConstraintMap fl) (locConstraintMap fl)
    (vargConstraintMap fl) (summarySinkValueConstraintMap fl)
    (summarySourceValueConstraintMap fl) (summarySinkVargConstraintMap fl)
    (summarySourceVargConstraintMap fl).

(** [InfoflowSolution]: the solved [PartialSolution], the default answer,
    and the maps it refers to, which are the summary-sink maps of the pass
    for a least solution and its summary-source maps for a greatest one
    ([over_sources]). *)
Record InfoflowSolution : Type := mkInfoflowSolution {
  soln : nat;
  defaultTainted : bool;
  over_sources : bool
}.

(** [LHConstant::operator==] *)
Definition LHConstant_eq (level : LHLevel) (elem : ConsElem) : bool :=
match elem with
| LHConstant other => bool_decide (level = other)
| _ => false
end.

Section Infoflow.

(** The external collaborators: the names of values, the points-to
    provider, the source/sink identification service and the
    [deps-drop-sink-flows] flag. *)
Variable getName : nat -> string.
Variable locsForValue : nat -> gset nat.
Variable reachableLocsForValue : nat -> gset nat.
Variable DepsDropAtSink : bool.
Variable valueIsSink : nat -> bool.
Variable vargIsSink : nat -> bool.
Variable directPtrIsSink : nat -> bool.
Variable reachPtrIsSink : nat -> bool.

(** [Infoflow::kindFromImplicitSink] *)
Definition kindFromImplicitSink (implicit_ sink : bool) : string :=
if implicit_ then
  if sink then "implicit-sinks" else "implicit"
else
  if sink then "default-sinks" else "default".

(** [Infoflow::getOrCreateConsElemSummarySource] *)
Definition getOrCreateConsElemSummarySource (fl : Infoflow) (value : nat)
  : Infoflow * ConsElem :=
match summarySourceValueConstraintMap fl !! value with
| None =>
    let '(k, elem) := newVar (kit fl) (getName value) in
    (mkInfoflow k (valueConstraintMap fl) (locConstraintMap fl)
       (vargConstraintMap fl) (summarySinkValueConstraintMap fl)
       (<[ value := elem ]> (summarySourceValueConstraintMap fl))
       (summarySinkVargConstraintMap fl) (summarySourceVargConstraintMap fl),
     elem)
| Some curElem => (fl, curElem)
end.

(** [Infoflow::putOrConstrainConsElemSummarySource] *)
Definition putOrConstrainConsElemSummarySource (fl : Infoflow) (kind : string)
  (value : nat) (lub : ConsElem) : result Infoflow :=
  let '(fl, current) := getOrCreateConsElemSummarySource fl value in
  k ← addConstraint (kit fl) kind lub current;
  Ok (set_kit fl k).

(** [Infoflow::getOrCreateConsElemSummarySink] *)
Definition getOrCreateConsElemSummarySink (fl : Infoflow) (value : nat)
  : Infoflow * ConsElem :=
match summarySinkValueConstraintMap fl !! value with
| None =>
    let '(k, elem) := newVar (kit fl) (getName value) in
    (mkInfoflow k (valueConstraintMap fl) (locConstraintMap fl)
       (vargConstraintMap fl)
       (<[ value := elem ]> (summarySinkValueConstraintMap fl))
       (summarySourceValueConstraintMap fl)
       (summarySinkVargConstraintMap fl) (summarySourceVargConstraintMap fl),
     elem)
| Some curElem => (fl, curElem)
end.

(** [Infoflow::putOrConstrainConsElemSummarySink] *)
Definition putOrConstrainConsElemSummarySink (fl : Infoflow) (kind : string)
  (value : nat) (lub : ConsElem) : result Infoflow :=
  let '(fl, current) := getOrCreateConsElemSummarySink fl value in
  k ← addConstraint (kit fl) kind lub current;
  Ok (set_kit fl k).

(** [Infoflow::getOrCreateConsElem(ContextID, Value)].  The inner map of a
    context that has none yet is the empty one. *)
Definition getOrCreateConsElem (fl : Infoflow) (ctxt : nat) (value : nat)
  : result (Infoflow * ConsElem) :=
let valueMap := default ∅ (valueConstraintMap fl !! ctxt) in
match valueMap !! value with
| None =>
    let '(k, elem) := newVar (kit fl) (getName value) in
    let fl := mkInfoflow k
               (<[ ctxt := <[ value := elem ]> valueMap ]> (valueConstraintMap fl))
               (locConstraintMap fl) (vargConstraintMap fl)
               (summarySinkValueConstraintMap fl)
               (summarySourceValueConstraintMap fl)
               (summarySinkVargConstraintMap fl)
               (summarySourceVargConstraintMap fl) in
    (* Hook up the summaries for non-context sensitive interface *)
    let '(fl, summarySource) := getOrCreateConsElemSummarySource fl value in
    k ← addConstraint (kit fl) "default" summarySource elem;
    fl ← putOrConstrainConsElemSummarySink (set_kit fl k) "default" value elem;
    Ok (fl, elem)
| Some curElem => Ok (fl, curElem)
end.

(** [Infoflow::putOrConstrainConsElem(bool, bool, ContextID, Value, lub)] *)
Definition putOrConstrainConsElem (fl : Infoflow) (implicit_ sink : bool)
  (ctxt : nat) (value : nat) (lub : ConsElem) : result Infoflow :=
  '(fl, current) ← getOrCreateConsElem fl ctxt value;
  k ← addConstraint (kit fl) (kindFromImplicitSink implicit_ sink) lub current;
  Ok (set_kit fl k).

(** [Infoflow::getOrCreateVargConsElemSummarySource] *)
Definition getOrCreateVargConsElemSummarySource (fl : Infoflow) (value : nat)
  : Infoflow * ConsElem :=
match summarySourceVargConstraintMap fl !! value with
| None =>
    let '(k, elem) := newVar (kit fl) (getName value) in
    (mkInfoflow k (valueConstraintMap fl) (locConstraintMap fl)
       (vargConstraintMap fl) (summarySinkValueConstraintMap fl)
       (summarySourceValueConstraintMap fl) (summarySinkVargConstraintMap fl)
       (<[ value := elem ]> (summarySourceVargConstraintMap fl)),
     elem)
| Some curElem => (fl, curElem)
end.

(** [Infoflow::putOrConstrainVargConsElemSummarySource] *)
Definition putOrConstrainVargConsElemSummarySource (fl : Infoflow)
  (kind : string) (value : nat) (lub : ConsElem) : result Infoflow :=
  let '(fl, current) := getOrCreateVargConsElemSummarySource fl value in
  k ← addConstraint (kit fl) kind lub current;
  Ok (set_kit fl k).

(** [Infoflow::getOrCreateVargConsElemSummarySink] *)
Definition getOrCreateVargConsElemSummarySink (fl : Infoflow) (value : nat)
  : Infoflow * ConsElem :=
match summarySinkVargConstraintMap fl !! value with
| None =>
    let '(k, elem) := newVar (kit fl) (getName value) in
    (mkInfoflow k (valueConstraintMap fl) (locConstraintMap fl)
       (vargConstraintMap fl) (summarySinkValueConstraintMap fl)
       (summarySourceValueConstraintMap fl)
       (<[ value := elem ]> (summarySinkVargConstraintMap fl))
       (summarySourceVargConstraintMap fl),
     elem)
| Some curElem => (fl, curElem)
end.

(** [Infoflow::putOrConstrainVargConsElemSummarySink] *)
Definition putOrConstrainVargConsElemSummarySink (fl : Infoflow)
  (kind : string) (value : nat) (lub : ConsElem) : result Infoflow :=
  let '(fl, current) := getOrCreateVargConsElemSummarySink fl value in
  k ← addConstraint (kit fl) kind lub current;
  Ok (set_kit fl k).

(** [Infoflow::getOrCreateVargConsElem(ContextID, Function)].  The summary
    source it hooks up is the one of [getOrCreateConsElemSummarySource],
    called on the function as a [Value]. *)
Definition getOrCreateVargConsElem (fl : Infoflow) (ctxt : nat) (value : nat)
  : result (Infoflow * ConsElem) :=
let valueMap := default ∅ (vargConstraintMap fl !! ctxt) in
match valueMap !! value with
| None =>
    let '(k, elem) := newVar (kit fl) (getName value) in
    let fl := mkInfoflow k (valueConstraintMap fl) (locConstraintMap fl)
               (<[ ctxt := <[ value := elem ]> valueMap ]> (vargConstraintMap fl))
               (summarySinkValueConstraintMap fl)
               (summarySourceValueConstraintMap fl)
               (summarySinkVargConstraintMap fl)
               (summarySourceVargConstraintMap fl) in
    (* Hook up the summaries for non-context sensitive interface *)
    let '(fl, summarySource) := getOrCreateConsElemSummarySource fl value in
    k ← addConstraint (kit fl) "default" summarySource elem;
    fl ← putOrConstrainVargConsElemSummarySink (set_kit fl k) "default" value elem;
    Ok (fl, elem)
| Some curElem => Ok (fl, curElem)
end.

(** [Infoflow::putOrConstrainVargConsElem(bool, bool, ContextID, Function, lub)] *)
Definition putOrConstrainVargConsElem (fl : Infoflow) (implicit_ sink : bool)
  (ctxt : nat) (value : nat) (lub : ConsElem) : result Infoflow :=
  '(fl, current) ← getOrCreateVargConsElem fl ctxt value;
  k ← addConstraint (kit fl) (kindFromImplicitSink implicit_ sink) lub current;
  Ok (set_kit fl k).

(** [Infoflow::getOrCreateConsElem(AbstractLoc)] *)
Definition getOrCreateLocConsElem (fl : Infoflow) (loc : nat)
  : Infoflow * ConsElem :=
match locConstraintMap fl !! loc with
| None =>
    let '(k, elem) := newVar (kit fl) "an absloc" in
    (mkInfoflow k (valueConstraintMap fl)
       (<[ loc := elem ]> (locConstraintMap fl))
       (vargConstraintMap fl) (summarySinkValueConstraintMap fl)
       (summarySourceValueConstraintMap fl) (summarySinkVargConstraintMap fl)
       (summarySourceVargConstraintMap fl),
     elem)
| Some curElem => (fl, curElem)
end.

(** [Infoflow::putOrConstrainConsElem(bool, bool, AbstractLoc, lub)] *)
Definition putOrConstrainLocConsElem (fl : Infoflow) (implicit_ sink : bool)
  (loc : nat) (lub : ConsElem) : result Infoflow :=
  let '(fl, current) := getOrCreateLocConsElem fl loc in
  k ← addConstraint (kit fl) (kindFromImplicitSink implicit_ sink) lub current;
  Ok (set_kit fl k).

(** The first half of [Infoflow::constrainFlowRecord]: the elements of the
    sources, split into [Sources] and [sinkSources]. *)
Definition collect_source (isSink : nat -> bool)
  (get : Infoflow -> nat -> result (Infoflow * ConsElem))
  (st : Infoflow * gset ConsElem * gset ConsElem) (source : nat)
  : result (Infoflow * gset ConsElem * gset ConsElem) :=
  let '(fl, Sources, sinkSources) := st in
  '(fl, e) ← get fl source;
  if negb DepsDropAtSink || negb (isSink source)
  then Ok (fl, {[ e ]} ∪ Sources, sinkSources)
  else Ok (fl, Sources, {[ e ]} ∪ sinkSources).

Definition collect_source_locs (isSink : nat -> bool) (locs : nat -> gset nat)
  (st : gset nat * gset nat) (source : nat) : gset nat * gset nat :=
  let '(SourceLocs, sinkSourceLocs) := st in
  if negb DepsDropAtSink || negb (isSink source)
  then (SourceLocs ∪ locs source, sinkSourceLocs)
  else (SourceLocs, sinkSourceLocs ∪ locs source).

Definition collect_loc_elems (st : Infoflow * gset ConsElem) (loc : nat)
  : Infoflow * gset ConsElem :=
  let '(fl, acc) := st in
  let '(fl, e) := getOrCreateLocConsElem fl loc in
  (fl, {[ e ]} ∪ acc).

(** [Infoflow::constrainFlowRecord] *)
Definition constrainFlowRecord (fl : Infoflow) (record : FlowRecord)
  : result Infoflow :=
  (* First, build up the set of ConsElem's that represent the sources *)
  st ← foldM (collect_source valueIsSink
                (fun fl v => getOrCreateConsElem fl (sourceCtxt record) v))
             (fl, ∅, ∅) (elements (valueSources record));
  '(fl, Sources, sinkSources) ←
    foldM (collect_source vargIsSink
             (fun fl f => getOrCreateVargConsElem fl (sourceCtxt record) f))
          st (elements (vargSources record));
  let locs := foldl (collect_source_locs directPtrIsSink locsForValue)
                    (∅, ∅) (elements (directPtrSources record)) in
  let '(SourceLocs, sinkSourceLocs) :=
    foldl (collect_source_locs reachPtrIsSink reachableLocsForValue)
          locs (elements (reachPtrSources record)) in
  let '(fl, Sources) := foldl collect_loc_elems (fl, Sources) (elements SourceLocs) in
  let '(fl, sinkSources) :=
    foldl collect_loc_elems (fl, sinkSources) (elements sinkSourceLocs) in
  let regFlow := negb (bool_decide (Sources = ∅)) in
  let sinkFlow := negb (bool_decide (sinkSources = ∅)) in
  (* Take join of all sources, this is sourceElem *)
  let '(k, sourceElem) :=
    if regFlow then
      let r := upperBound_set (kit fl) Sources in (r.1, Some r.2)
    else (kit fl, None) in
  let '(k, sinkSourceElem) :=
    if sinkFlow then
      let r := upperBound_set k sinkSources in (r.1, Some r.2)
    else (k, None) in
  let fl := set_kit fl k in
  let implicit_ := implicit record in
  let to_sink (put : Infoflow -> bool -> ConsElem -> result Infoflow)
      (fl : Infoflow) : result Infoflow :=
    fl ← match sourceElem with
        | Some e => put fl false e
        | None => Ok fl
        end;
    match sinkSourceElem with
    | Some e => put fl true e
    | None => Ok fl
    end in
  (* For values and varargs, just do this directly *)
  fl ← foldM (fun fl sink =>
               to_sink (fun fl s e =>
                          putOrConstrainConsElem fl implicit_ s (sinkCtxt record) sink e) fl)
            fl (elements (valueSinks record));
  fl ← foldM (fun fl sink =>
               to_sink (fun fl s e =>
                          putOrConstrainVargConsElem fl implicit_ s (sinkCtxt record) sink e) fl)
            fl (elements (vargSinks record));
  (* gather memory locations as before *)
  let SinkLocs := foldl (fun acc sink => acc ∪ locsForValue sink) ∅
                        (elements (directPtrSinks record)) in
  let SinkLocs := foldl (fun acc sink => acc ∪ reachableLocsForValue sink)
                        SinkLocs (elements (reachPtrSinks record)) in
  foldM (fun fl loc =>
           to_sink (fun fl s e => putOrConstrainLocConsElem fl implicit_ s loc e) fl)
        fl (elements SinkLocs).

(** [InfoflowSolution::isTainted] *)
Definition isTainted (fl : Infoflow) (S : InfoflowSolution) (value : nat)
  : result bool :=
let valueMap := if over_sources S then summarySourceValueConstraintMap fl
                else summarySinkValueConstraintMap fl in
match valueMap !! value with
| Some elem =>
    r ← PartialSolution_subst (heap (kit fl)) (soln S) elem;
    Ok (LHConstant_eq r highConstant)
| None => Ok (defaultTainted S)
end.

(** [InfoflowSolution::isVargTainted] *)
Definition isVargTainted (fl : Infoflow) (S : InfoflowSolution) (fun_ : nat)
  : result bool :=
let vargMap := if over_sources S then summarySourceVargConstraintMap fl
               else summarySinkVargConstraintMap fl in
match vargMap !! fun_ with
| Some elem =>
    r ← PartialSolution_subst (heap (kit fl)) (soln S) elem;
    Ok (LHConstant_eq r highConstant)
| None => Ok (defaultTainted S)
end.

(** The loop of [InfoflowSolution::isDirectPtrTainted] and of
    [isReachPtrTainted] over the locations of the value: a location that
    is not in [locMap] stops it at [assert(false)]. *)
Fixpoint locs_tainted_loop (fl : Infoflow) (S : InfoflowSolution)
  (locs : list nat) : result bool :=
match locs with
| [] => Ok false
| loc :: locs =>
    match locConstraintMap fl !! loc with
    | Some elem =>
        r ← PartialSolution_subst (heap (kit fl)) (soln S) elem;
        if LHConstant_eq r highConstant then Ok true
        else locs_tainted_loop fl S locs
    | None => AssertionFailed "abstract location not in solution!"
    end
end.

(** [InfoflowSolution::isDirectPtrTainted] *)
Definition isDirectPtrTainted (fl : Infoflow) (S : InfoflowSolution)
  (value : nat) : result bool :=
  locs_tainted_loop fl S (elements (locsForValue value)).

(** [InfoflowSolution::isReachPtrTainted] *)
Definition isReachPtrTainted (fl : Infoflow) (S : InfoflowSolution)
  (value : nat) : result bool :=
  locs_tainted_loop fl S (elements (reachableLocsForValue value)).

Definition not_default_or_implicit (kind : string) : result unit :=
  _ ← cassert (negb (bool_decide (kind = "default")))
        "Cannot add constraints to the default kind";
  cassert (negb (bool_decide (kind = "implicit")))
        "Cannot add constraints to the implicit kind".

(** [Infoflow::setUntainted] *)
Definition setUntainted (fl : Infoflow) (kind : string) (value : nat)
  : result Infoflow :=
  _ ← not_default_or_implicit kind;
  let '(fl, current) := getOrCreateConsElemSummarySink fl value in
  k ← addConstraint (kit fl) kind current lowConstant;
  Ok (set_kit fl k).

(** [Infoflow::setTainted] *)
Definition setTainted (fl : Infoflow) (kind : string) (value : nat)
  : result Infoflow :=
  _ ← not_default_or_implicit kind;
  putOrConstrainConsElemSummarySource fl kind value highConstant.

(** [Infoflow::setVargUntainted] *)
Definition setVargUntainted (fl : Infoflow) (kind : string) (fun_ : nat)
  : result Infoflow :=
  _ ← not_default_or_implicit kind;
  let '(fl, current) := getOrCreateVargConsElemSummarySink fl fun_ in
  k ← addConstraint (kit fl) kind current lowConstant;
  Ok (set_kit fl k).

(** [Infoflow::setVargTainted] *)
Definition setVargTainted (fl : Infoflow) (kind : string) (fun_ : nat)
  : result Infoflow :=
  _ ← not_default_or_implicit kind;
  putOrConstrainVargConsElemSummarySource fl kind fun_ highConstant.

(** The loop shared by [setDirectPtrUntainted] and [setReachPtrUntainted]. *)
Definition set_locs_untainted (fl : Infoflow) (kind : string) (locs : gset nat)
  : result Infoflow :=
  foldM (fun fl loc =>
           let '(fl, current) := getOrCreateLocConsElem fl loc in
           k ← addConstraint (kit fl) kind current lowConstant;
           Ok (set_kit fl k))
        fl (elements locs).

(** The loop shared by [setDirectPtrTainted] and [setReachPtrTainted]. *)
Definition set_locs_tainted (fl : Infoflow) (kind : string) (locs : gset nat)
  : result Infoflow :=
  foldM (fun fl loc =>
           let '(fl, current) := getOrCreateLocConsElem fl loc in
           k ← addConstraint (kit fl) kind highConstant current;
           Ok (set_kit fl k))
        fl (elements locs).

(** [Infoflow::setDirectPtrUntainted] *)
Definition setDirectPtrUntainted (fl : Infoflow) (kind : string) (value : nat)
  : result Infoflow :=
  _ ← not_default_or_implicit kind;
  set_locs_untainted fl kind (locsForValue value).

(** [Infoflow::setDirectPtrTainted] *)
Definition setDirectPtrTainted (fl : Infoflow) (kind : string) (value : nat)
  : result Infoflow :=
  _ ← not_default_or_implicit kind;
  set_locs_tainted fl kind (locsForValue value).

(** [Infoflow::setReachPtrUntainted] *)
Definition setReachPtrUntainted (fl : Infoflow) (kind : string) (value : nat)
  : result Infoflow :=
  _ ← not_default_or_implicit kind;
  set_locs_untainted fl kind (reachableLocsForValue value).

(** [Infoflow::setReachPtrTainted] *)
Definition setReachPtrTainted (fl : Infoflow) (kind : string) (value : nat)
  : result Infoflow :=
  _ ← not_default_or_implicit kind;
  set_locs_tainted fl kind (reachableLocsForValue value).

(** The kinds [Infoflow::leastSolution] solves. *)
Definition least_kinds (kinds : gset string) (implicit_ sinks : bool)
  : gset string :=
  let kinds := {[ "default" ]} ∪ kinds in
  let kinds := if sinks then {[ "default-sinks" ]} ∪ kinds else kinds in
  let kinds := if implicit_ then {[ "implicit" ]} ∪ kinds else kinds in
  if implicit_ && sinks then {[ "implicit-sinks" ]} ∪ kinds else kinds.

(** [Infoflow::leastSolution] *)
Definition leastSolution (fl : Infoflow) (kinds : gset string)
  (implicit_ sinks : bool) : result (Infoflow * InfoflowSolution) :=
  '(k, ps) ← kit_leastSolution (kit fl) (least_kinds kinds implicit_ sinks);
  Ok (set_kit fl k, mkInfoflowSolution ps false false).

(** The kinds [Infoflow::greatestSolution] solves. *)
Definition greatest_kinds (kinds : gset string) (implicit_ : bool)
  : gset string :=
  let kinds := {[ "default" ]} ∪ kinds in
  let kinds := {[ "default-sinks" ]} ∪ kinds in
  if implicit_ then {[ "implicit-sinks" ]} ∪ ({[ "implicit" ]} ∪ kinds)
  else kinds.

(** [Infoflow::greatestSolution] *)
Definition greatestSolution (fl : Infoflow) (kinds : gset string)
  (implicit_ : bool) : result (Infoflow * InfoflowSolution) :=
  '(k, ps) ← kit_greatestSolution (kit fl) (greatest_kinds kinds implicit_);
  Ok (set_kit fl k, mkInfoflowSolution ps true true).

(** [Infoflow::solveMT] *)
Definition solveMT (fl : Infoflow) (kind : string) : result Infoflow :=
  k ← kit_solveMT (kit fl) kind; Ok (set_kit fl k).

(** [Infoflow::solveLeastMT] *)
Definition solveLeastMT (fl : Infoflow) (kinds : list string)
  (useDefaultSinks : bool) : result (Infoflow * list InfoflowSolution) :=
  '(k, PS) ← kit_solveLeastMT (kit fl) kinds useDefaultSinks;
  Ok (set_kit fl k, map (fun p => mkInfoflowSolution p false false) PS).

(** *** The instructions

    Of an instruction the rules read its address as a value, its parent
    block, the function of that block, its operands, and its class with
    the operands the class names. *)

Inductive Intrinsic : Type :=
| Intrinsic_vastart | Intrinsic_vaend | Intrinsic_vacopy
| Intrinsic_memcpy | Intrinsic_memmove | Intrinsic_memset
| Intrinsic_sqrt | Intrinsic_powi | Intrinsic_sin | Intrinsic_cos
| Intrinsic_pow | Intrinsic_exp | Intrinsic_log | Intrinsic_fma
| Intrinsic_other.

Inductive InstClass : Type :=
| AtomicCmpXchgInst (PointerOperand CompareOperand NewValOperand : nat)
| AtomicRMWInst (PointerOperand ValOperand : nat)
| BinaryOperator
| CallInst (intr : option Intrinsic)
| CmpInst
| ExtractElementInst
| FenceInst
| GetElementPtrInst
| InsertElementInst
| InsertValueInst
| LandingPadInst
| PHINode
| SelectInst
| ShuffleVectorInst
| StoreInst (ValueOperand PointerOperand : nat)
| BranchInst (Condition : option nat)
| IndirectBrInst (Address : nat)
| InvokeInst (CalledValue : nat)
| ReturnInst
| ResumeInst
| SwitchInst (Condition : nat)
| UnreachableInst
| OtherTerminatorInst
| AllocaInst
| CastInst
| ExtractValueInst
| LoadInst (PointerOperand : nat)
| VAArgInst (PointerOperand : nat)
| OtherUnaryInstruction
| OtherInstruction.

Record Instruction : Type := mkInstruction {
  inst_value : nat;
  inst_parent : nat;
  inst_function : nat;
  inst_operands : list nat;
  inst_class : InstClass
}.

Definition isa_TerminatorInst (c : InstClass) : bool :=
match c with
| BranchInst _ | IndirectBrInst _ | InvokeInst _ | ReturnInst | ResumeInst
| SwitchInst _ | UnreachableInst | OtherTerminatorInst => true
| _ => false
end.

Definition isa_UnaryInstruction (c : InstClass) : bool :=
match c with
| AllocaInst | CastInst | ExtractValueInst | LoadInst _ | VAArgInst _
| OtherUnaryInstruction => true
| _ => false
end.

(** The context under analysis, the successors of the terminator of a
    block, the post-dominator tree ([pdt.dominates(a, b)]) and the rule
    for call sites, which belongs to the interprocedural driver. *)
Variable currentContext : nat.
Variable successors : nat -> list nat.
Variable pdt_dominates : nat -> nat -> bool.
Variable constrainCallSite :
  Instruction -> bool -> list FlowRecord -> result (list FlowRecord).

(** [Infoflow::currentContextFlowRecord] *)
Definition currentContextFlowRecord (implicit_ : bool) : FlowRecord :=
  FlowRecord_new implicit_ currentContext currentContext.

(** [Infoflow::operandsAndPCtoValue] *)
Definition operandsAndPCtoValue (inst : Instruction) (flows : list FlowRecord)
  : list FlowRecord :=
  let exp := currentContextFlowRecord false in
  let imp := currentContextFlowRecord true in
  let imp := addSourceValue imp (inst_parent inst) in
  let exp := foldl addSourceValue exp (inst_operands inst) in
  let exp := addSinkValue exp (inst_value inst) in
  let imp := addSinkValue imp (inst_value inst) in
  flows ++ [exp; imp].

(** The loop of [Infoflow::constrainConditionalSuccessors]. *)
Fixpoint conditionalSuccessors_loop (fuel : nat) (bb : nat)
  (visited : gset nat) (workqueue : list nat) (rec : FlowRecord)
  : result FlowRecord :=
match workqueue with
| [] => Ok rec
| cur :: workqueue =>
    match fuel with
    | 0 => OutOfFuel
    | S fuel =>
        let visited := {[ cur ]} ∪ visited in
        if negb (pdt_dominates cur bb) then
          let rec := addSinkValue rec cur in
          let workqueue :=
            foldl (fun wq succ =>
                     if negb (bool_decide (cur ∈ visited)) then wq ++ [succ]
                     else wq)
                  workqueue (successors cur) in
          conditionalSuccessors_loop fuel bb visited workqueue rec
        else conditionalSuccessors_loop fuel bb visited workqueue rec
    end
end.

(** [Infoflow::constrainConditionalSuccessors], for the terminator of the
    block [bb]. *)
Definition constrainConditionalSuccessors (bb : nat) (rec : FlowRecord)
  : result FlowRecord :=
  let workqueue := successors bb in
  conditionalSuccessors_loop (length workqueue) bb ∅ workqueue rec.

(** [Infoflow::constrainAtomicRMWInst] *)
Definition constrainAtomicRMWInst (inst : Instruction) (ptr val : nat)
  (flows : list FlowRecord) : list FlowRecord :=
  let expToMem := currentContextFlowRecord false in
  let impToMem := currentContextFlowRecord true in
  let impToMem := addSourceValue impToMem (inst_parent inst) in
  let expToMem := addSourceValue expToMem val in
  let impToMem := addSourceValue impToMem ptr in
  let impToMem := addSinkDirectPtr impToMem ptr in
  let expToMem := addSinkDirectPtr expToMem ptr in
  flows ++ [impToMem; expToMem].

(** [Infoflow::constrainAtomicCmpXchgInst] *)
Definition constrainAtomicCmpXchgInst (inst : Instruction) (ptr cmp new : nat)
  (flows : list FlowRecord) : list FlowRecord :=
  let expToMem := currentContextFlowRecord false in
  let impToMem := currentContextFlowRecord true in
  let impToMem := addSourceValue impToMem (inst_parent inst) in
  let impToMem := addSourceValue impToMem ptr in
  let expToMem := addSourceValue expToMem cmp in
  let expToMem := addSourceValue expToMem new in
  let expToMem := addSinkDirectPtr expToMem ptr in
  let impToMem := addSinkDirectPtr impToMem ptr in
  let expFromMem := currentContextFlowRecord false in
  let impFromMem := currentContextFlowRecord true in
  let impFromMem := addSourceValue impFromMem (inst_parent inst) in
  let impFromMem := addSourceValue impFromMem ptr in
  let expFromMem := addSourceDirectPtr expFromMem ptr in
  let expFromMem := addSinkValue expFromMem (inst_value inst) in
  let impFromMem := addSinkValue impFromMem (inst_value inst) in
  flows ++ [expToMem; impToMem; expFromMem; impFromMem].

(** [Infoflow::constrainStoreInst] *)
Definition constrainStoreInst (inst : Instruction) (val ptr : nat)
  (flows : list FlowRecord) : list FlowRecord :=
  let exp := currentContextFlowRecord false in
  let imp := currentContextFlowRecord true in
  let imp := addSourceValue imp (inst_parent inst) in
  let imp := addSourceValue imp ptr in
  let exp := addSourceValue exp val in
  let exp := addSinkDirectPtr exp ptr in
  let imp := addSinkDirectPtr imp ptr in
  flows ++ [imp; exp].

(** [Infoflow::constrainLoadInst] *)
Definition constrainLoadInst (inst : Instruction) (ptr : nat)
  (flows : list FlowRecord) : list FlowRecord :=
  let exp := currentContextFlowRecord false in
  let imp := currentContextFlowRecord true in
  let imp := addSourceValue imp (inst_parent inst) in
  let imp := addSourceValue imp ptr in
  let exp := addSourceDirectPtr exp ptr in
  let exp := addSinkValue exp (inst_value inst) in
  let imp := addSinkValue imp (inst_value inst) in
  flows ++ [exp; imp].

(** [Infoflow::constrainVAArgInst] *)
Definition constrainVAArgInst (inst : Instruction) (ptr : nat)
  (flows : list FlowRecord) : list FlowRecord :=
  let exp := currentContextFlowRecord false in
  let imp := currentContextFlowRecord true in
  let imp := addSourceValue imp (inst_parent inst) in
  let imp := addSourceValue imp ptr in
  let exp := addSourceDirectPtr exp ptr in
  let imp := addSourceVarg imp (inst_function inst) in
  let exp := addSinkValue exp (inst_value inst) in
  let imp := addSinkValue imp (inst_value inst) in
  let imp := addSinkDirectPtr imp ptr in
  let imp := addSinkVarg imp (inst_function inst) in
  flows ++ [exp; imp].

(** [Infoflow::constrainFenceInst] *)
Definition constrainFenceInst (inst : Instruction) (flows : list FlowRecord)
  : result (list FlowRecord) :=
  AssertionFailed "Unsupported instruction type: fence".

(** [Infoflow::constraintUnreachableInst] *)
Definition constraintUnreachableInst (inst : Instruction)
  (flows : list FlowRecord) : result (list FlowRecord) :=
  Ok flows.

(** The implicit record of a terminator whose successors depend on
    [cond]: the body shared by [constrainBranchInst] (when conditional),
    [constrainIndirectBrInst], [constrainSwitchInst] and the second half
    of [constrainInvokeInst]. *)
Definition conditional_flow (inst : Instruction) (cond : nat)
  (flows : list FlowRecord) : result (list FlowRecord) :=
  let flow := currentContextFlowRecord true in
  let flow := addSourceValue flow (inst_parent inst) in
  let flow := addSourceValue flow cond in
  flow ← constrainConditionalSuccessors (inst_parent inst) flow;
  Ok (flows ++ [flow]).

(** [Infoflow::constrainBranchInst] *)
Definition constrainBranchInst (inst : Instruction) (cond : option nat)
  (flows : list FlowRecord) : result (list FlowRecord) :=
match cond with
| None => Ok flows
| Some c => conditional_flow inst c flows
end.

(** [Infoflow::constrainInvokeInst] *)
Definition constrainInvokeInst (inst : Instruction) (called : nat)
  (analyzeCallees : bool) (flows : list FlowRecord)
  : result (list FlowRecord) :=
  flows ← constrainCallSite inst analyzeCallees flows;
  conditional_flow inst called flows.

(** [Infoflow::constrainReturnInst] *)
Definition constrainReturnInst (inst : Instruction) (flows : list FlowRecord)
  : list FlowRecord :=
  if negb (bool_decide (length (inst_operands inst) = 0))
  then operandsAndPCtoValue inst flows else flows.

Definition getArgOperand (inst : Instruction) (i : nat) : result nat :=
match inst_operands inst !! i with
| Some v => Ok v
| None => NullDereference
end.

(** [constrainMemcpyOrmove] *)
Definition constrainMemcpyOrmove (intr : Instruction) (flows : list FlowRecord)
  : result (list FlowRecord) :=
  a0 ← getArgOperand intr 0; a1 ← getArgOperand intr 1;
  a2 ← getArgOperand intr 2; a3 ← getArgOperand intr 3;
  let imp := FlowRecord_new true DefaultID DefaultID in
  let exp := FlowRecord_new false DefaultID DefaultID in
  let exp := addSourceDirectPtr exp a1 in
  let imp := addSourceValue imp a1 in
  let imp := addSourceValue imp a2 in
  let imp := addSourceValue imp a3 in
  let exp := addSinkDirectPtr exp a0 in
  let imp := addSinkDirectPtr imp a0 in
  Ok (flows ++ [exp; imp]).

(** [constrainMemset] *)
Definition constrainMemset (intr : Instruction) (flows : list FlowRecord)
  : result (list FlowRecord) :=
  a0 ← getArgOperand intr 0; a1 ← getArgOperand intr 1;
  a2 ← getArgOperand intr 2; a3 ← getArgOperand intr 3;
  let exp := FlowRecord_new false DefaultID DefaultID in
  let imp := FlowRecord_new true DefaultID DefaultID in
  let exp := addSourceValue exp a1 in
  let imp := addSourceValue imp a2 in
  let imp := addSourceValue imp a3 in
  let exp := addSinkDirectPtr exp a0 in
  let imp := addSinkDirectPtr imp a0 in
  Ok (flows ++ [exp; imp]).

(** [Infoflow::constrainIntrinsic] *)
Definition constrainIntrinsic (intr : Instruction) (id : Intrinsic)
  (flows : list FlowRecord) : result (list FlowRecord) :=
match id with
| Intrinsic_vastart | Intrinsic_vaend | Intrinsic_vacopy => Ok flows
| Intrinsic_memcpy | Intrinsic_memmove => constrainMemcpyOrmove intr flows
| Intrinsic_memset => constrainMemset intr flows
| Intrinsic_sqrt | Intrinsic_powi | Intrinsic_sin | Intrinsic_cos
| Intrinsic_pow | Intrinsic_exp | Intrinsic_log | Intrinsic_fma =>
    Ok (operandsAndPCtoValue intr flows)
| Intrinsic_other => Ok flows
end.

(** [Infoflow::constrainCallInst] *)
Definition constrainCallInst (inst : Instruction) (intr : option Intrinsic)
  (analyzeCallees : bool) (flows : list FlowRecord)
  : result (list FlowRecord) :=
match intr with
| Some id => constrainIntrinsic inst id flows
| None => constrainCallSite inst analyzeCallees flows
end.

(** Of a callee ([Function]) the rule reads the function as a value, its
    entry block, its parameters, whether it is of variable arity, and the
    terminator of each of its blocks, when the block has one. *)
Record Callee : Type := mkCallee {
  fn_value : nat;
  fn_entryBlock : nat;
  fn_args : list nat;
  fn_isVarArg : bool;
  fn_terminators : list (option Instruction)
}.

(** [Infoflow::constrainCallee] *)
Definition constrainCallee (calleeContext : nat) (callee : Callee)
  (cs : CallSite) (flows : list FlowRecord) : result (list FlowRecord) :=
  let callerContext := currentContext in
  let pcFlow := FlowRecord_new true callerContext calleeContext in
  let pcFlow := addSourceValue pcFlow (cs_parent cs) in
  let pcFlow := addSourceValue pcFlow (cs_calledValue cs) in
  let pcFlow := addSinkValue pcFlow (fn_entryBlock callee) in
  let flows := flows ++ [pcFlow] in
  let numArgs := arg_size cs in
  let numParams := length (fn_args callee) in
  _ ← cassert (negb (fn_isVarArg callee) || bool_decide (numParams <= numArgs))
        "variable arity function called with two few arguments";
  _ ← cassert (fn_isVarArg callee || bool_decide (numArgs = numParams))
        "function called with the wrong number of arguments";
  flows ← foldM (fun flows i =>
                   a ← getArgument cs i;
                   match fn_args callee !! i with
                   | Some param =>
                       let argFlow :=
                         FlowRecord_new false callerContext calleeContext in
                       let argFlow := addSourceValue argFlow a in
                       let argFlow := addSinkValue argFlow param in
                       Ok (flows ++ [argFlow])
                   | None => NullDereference
                   end) flows (seq 0 numParams);
  flows ←
    (if bool_decide (numParams < numArgs) then
       varargFlow ←
         foldM (fun varargFlow i =>
                  a ← getArgument cs i; Ok (addSourceValue varargFlow a))
               (FlowRecord_new false callerContext calleeContext)
               (seq numParams (numArgs - numParams));
       let varargFlow := addSinkVarg varargFlow (fn_value callee) in
       Ok (flows ++ [varargFlow])
     else Ok flows);
  Ok (foldl (fun flows terminator =>
               match terminator with
               | Some retInst =>
                   match inst_class retInst with
                   | ReturnInst =>
                       let retFlow :=
                         FlowRecord_new false calleeContext callerContext in
                       let retFlow := addSourceValue retFlow (inst_value retInst) in
                       let retFlow := addSinkValue retFlow (cs_instruction cs) in
                       flows ++ [retFlow]
                   | _ => flows
                   end
               | None => flows
               end) flows (fn_terminators callee)).

(** [Infoflow::constrainTerminatorInst] *)
Definition constrainTerminatorInst (inst : Instruction) (callees : bool)
  (flows : list FlowRecord) : result (list FlowRecord) :=
match inst_class inst with
| BranchInst cond => constrainBranchInst inst cond flows
| IndirectBrInst addr => conditional_flow inst addr flows
| InvokeInst called => constrainInvokeInst inst called callees flows
| ReturnInst => Ok (constrainReturnInst inst flows)
| ResumeInst => Ok (operandsAndPCtoValue inst flows)
| SwitchInst cond => conditional_flow inst cond flows
| UnreachableInst => constraintUnreachableInst inst flows
| _ => AssertionFailed "Unsupported terminator instruction type!"
end.

(** [Infoflow::constrainUnaryInstruction] *)
Definition constrainUnaryInstruction (inst : Instruction)
  (flows : list FlowRecord) : result (list FlowRecord) :=
match inst_class inst with
| AllocaInst | CastInst | ExtractValueInst =>
    Ok (operandsAndPCtoValue inst flows)
| LoadInst ptr => Ok (constrainLoadInst inst ptr flows)
| VAArgInst ptr => Ok (constrainVAArgInst inst ptr flows)
| _ => AssertionFailed "Unsupported unary instruction type!"
end.

(** [Infoflow::getInstructionFlowsInternal] *)
Definition getInstructionFlowsInternal (inst : Instruction) (callees : bool)
  (flows : list FlowRecord) : result (list FlowRecord) :=
match inst_class inst with
| AtomicCmpXchgInst ptr cmp new =>
    Ok (constrainAtomicCmpXchgInst inst ptr cmp new flows)
| AtomicRMWInst ptr val => Ok (constrainAtomicRMWInst inst ptr val flows)
| BinaryOperator => Ok (operandsAndPCtoValue inst flows)
| CallInst intr => constrainCallInst inst intr callees flows
| CmpInst => Ok (operandsAndPCtoValue inst flows)
| ExtractElementInst => Ok (operandsAndPCtoValue inst flows)
| FenceInst => constrainFenceInst inst flows
| GetElementPtrInst => Ok (operandsAndPCtoValue inst flows)
| InsertElementInst => Ok (operandsAndPCtoValue inst flows)
| InsertValueInst => Ok (operandsAndPCtoValue inst flows)
| LandingPadInst => Ok (operandsAndPCtoValue inst flows)
| PHINode => Ok (operandsAndPCtoValue inst flows)
| SelectInst => Ok (operandsAndPCtoValue inst flows)
| ShuffleVectorInst => Ok (operandsAndPCtoValue inst flows)
| StoreInst val ptr => Ok (constrainStoreInst inst val ptr flows)
| c =>
    if isa_TerminatorInst c then constrainTerminatorInst inst callees flows
    else if isa_UnaryInstruction c then constrainUnaryInstruction inst flows
    else AssertionFailed "Unsupported instruction type!"
end.

(** [Infoflow::generateBasicBlockConstraints] *)
Definition generateBasicBlockConstraints (bb : list Instruction)
  (flows : list FlowRecord) : result (list FlowRecord) :=
  foldM (fun flows inst => getInstructionFlowsInternal inst true flows) flows bb.

(** [Infoflow::generateFunctionConstraints]: a function is the list of its
    basic blocks. *)
Definition generateFunctionConstraints (fl : Infoflow)
  (f : list (list Instruction)) : result Infoflow :=
  flows ← foldM (fun flows bb => generateBasicBlockConstraints bb flows) [] f;
  foldM constrainFlowRecord fl flows.

(** [Infoflow::getInstructionFlows] *)
Definition getInstructionFlows (inst : Instruction) : result (list FlowRecord) :=
  getInstructionFlowsInternal inst false [].

(** [Infoflow::signatureForExternalCall], with the registrar of the
    pass. *)
Definition signatureForExternalCall (signatureRegistrar : SignatureRegistrar)
  (fl : Infoflow) (cs : CallSite) : result Infoflow :=
  flowRecords ← SignatureRegistrar_process signatureRegistrar currentContext cs;
  foldM constrainFlowRecord fl flowRecords.

(** The calls a client of the pass can make that touch the constraints. *)
Inductive InfoflowCall : Type :=
| call_constrainFlowRecord (record : FlowRecord)
| call_setUntainted (kind : string) (value : nat)
| call_setTainted (kind : string) (value : nat)
| call_setVargUntainted (kind : string) (fun_ : nat)
| call_setVargTainted (kind : string) (fun_ : nat)
| call_setDirectPtrUntainted (kind : string) (value : nat)
| call_setDirectPtrTainted (kind : string) (value : nat)
| call_setReachPtrUntainted (kind : string) (value : nat)
| call_setReachPtrTainted (kind : string) (value : nat)
| call_leastSolution (kinds : gset string) (implicit_ sinks : bool)
| call_greatestSolution (kinds : gset string) (implicit_ : bool)
| call_solveMT (kind : string)
| call_solveLeastMT (kinds : list string) (useDefaultSinks : bool).

Definition run_call (fl : Infoflow) (c : InfoflowCall) : result Infoflow :=
match c with
| call_constrainFlowRecord record => constrainFlowRecord fl record
| call_setUntainted kind value => setUntainted fl kind value
| call_setTainted kind value => setTainted fl kind value
| call_setVargUntainted kind f => setVargUntainted fl kind f
| call_setVargTainted kind f => setVargTainted fl kind f
| call_setDirectPtrUntainted kind value => setDirectPtrUntainted fl kind value
| call_setDirectPtrTainted kind value => setDirectPtrTainted fl kind value
| call_setReachPtrUntainted kind value => setReachPtrUntainted fl kind value
| call_setReachPtrTainted kind value => setReachPtrTainted fl kind value
| call_leastSolution kinds i s => r ← leastSolution fl kinds i s; Ok r.1
| call_greatestSolution kinds i => r ← greatestSolution fl kinds i; Ok r.1
| call_solveMT kind => solveMT fl kind
| call_solveLeastMT kinds u => r ← solveLeastMT fl kinds u; Ok r.1
end.

(** The states of the pass: the fresh one and those a sequence of
    successful calls leads to. *)
Inductive reachable : Infoflow -> Prop :=
| reachable_new : reachable Infoflow_new
| reachable_call fl c fl' :
    reachable fl -> run_call fl c = Ok fl' -> reachable fl'.

End Infoflow.

(** * Properties *)

(** ** The lattice and the elements *)




Lemma LHConstant_join_HIGH a b :
  LHConstant_join a b = HIGH <-> a = HIGH \/ b = HIGH.
Proof. destruct a, b; simpl; intuition congruence. Qed.

Lemma LHConstant_join_LOW_l b : LHConstant_join LOW b = b.
Proof. done. Qed.

Lemma LHConstant_join_LOW_r a : LHConstant_join a LOW = a.
Proof. by destruct a. Qed.

Lemma LHConstant_leq_spec a b :
  LHConstant_leq a (LHConstant b) = true <-> (a = HIGH -> b = HIGH).
Proof. destruct a, b; simpl; intuition congruence. Qed.


Lemma joins_insert_find js e :
  list_find (fun j => j = e) (joins_insert js e).1
  = Some ((joins_insert js e).2, e).
Proof.
  unfold joins_insert.
  destruct (list_find (fun j => j = e) js) as [[i x]|] eqn:E; simpl.
  - pose proof E as E'. apply list_find_Some in E' as (_ & -> & _). done.
  - apply list_find_Some. split; [|split; [done|]].
    + rewrite lookup_app_r, Nat.sub_diag; done.
    + intros j y Hj Hlt Hy. rewrite lookup_app_l in Hj by done.
      eapply list_find_None in E. rewrite Forall_forall in E.
      apply (E y); [|done]. apply list_elem_of_In.
      by eapply list_elem_of_lookup_2.
Qed.






(** ** The constraint store *)

(** A kit is in stored form when no constraint of any kind has a join on
    its right-hand side. *)
Definition no_join_on_rhs (cs : list LHConstraint) : Prop :=
  Forall (fun c => isa_LHJoin (rhs c) = false) cs.

Definition stored_form (k : LHConstraintKit) : Prop :=
  forall kind cs, constraints k !! kind = Some cs -> no_join_on_rhs cs.

(** The constraints one call of [addConstraint] appends. *)
Definition expanded (lhs_ rhs_ : ConsElem) : list LHConstraint :=
match lhs_ with
| LHJoin members => map (fun member => mkLHConstraint member rhs_) members
| _ => [mkLHConstraint lhs_ rhs_]
end.

Lemma expanded_length_join members rhs_ :
  length (expanded (LHJoin members) rhs_) = length members.
Proof. apply length_map. Qed.

Lemma expanded_no_join lhs_ rhs_ :
  isa_LHJoin rhs_ = false -> no_join_on_rhs (expanded lhs_ rhs_).
Proof.
  intros Hr. unfold no_join_on_rhs.
  destruct lhs_; simpl; try by repeat constructor.
  by apply Forall_map, Forall_true.
Qed.

Lemma getOrCreateConstraintSet_set k kind :
  (getOrCreateConstraintSet k kind).2 = default [] (constraints k !! kind).
Proof. unfold getOrCreateConstraintSet. by destruct (constraints k !! kind). Qed.

(** What a successful [addConstraint] does to the kit. *)
Lemma addConstraint_Ok k kind lhs_ rhs_ :
  kind ∉ lockedConstraintKinds k ->
  isa_LHJoin rhs_ = false ->
  exists k',
    addConstraint k kind lhs_ rhs_ = Ok k' /\
    constraints k' =
      <[ kind := default [] (constraints k !! kind) ++ expanded lhs_ rhs_ ]>
        (constraints k) /\
    lockedConstraintKinds k' = lockedConstraintKinds k /\
    vars k' = vars k /\ joins k' = joins k /\
    leastSolutions k' = leastSolutions k /\
    greatestSolutions k' = greatestSolutions k /\
    heap k' = heap k.
Proof.
  intros Hl Hr. unfold addConstraint.
  rewrite (bool_decide_eq_false_2 _ Hl). cbn [negb cassert mbind result_bind].
  unfold getOrCreateConstraintSet. cbn [constraints set_counters].
  destruct (constraints k !! kind) as [set|] eqn:E;
    rewrite Hr; cbn [negb cassert mbind result_bind];
    destruct lhs_; eexists; (split; [reflexivity|]); cbn;
    rewrite ?insert_insert_eq; done.
Qed.

Lemma addConstraint_inv k kind lhs_ rhs_ k' :
  addConstraint k kind lhs_ rhs_ = Ok k' ->
  (kind ∉ lockedConstraintKinds k) /\ isa_LHJoin rhs_ = false.
Proof.
  unfold addConstraint. intros H.
  destruct (decide (kind ∈ lockedConstraintKinds k)) as [Hin|Hin].
  { rewrite (bool_decide_eq_true_2 _ Hin) in H. done. }
  split; [done|].
  rewrite (bool_decide_eq_false_2 _ Hin) in H.
  cbn [negb cassert mbind result_bind] in H.
  destruct (getOrCreateConstraintSet _ kind) as [k1 set].
  by destruct (isa_LHJoin rhs_).
Qed.

Lemma addConstraint_stored_form k kind lhs_ rhs_ k' :
  stored_form k -> addConstraint k kind lhs_ rhs_ = Ok k' -> stored_form k'.
Proof.
  intros Hk H. destruct (addConstraint_inv _ _ _ _ _ H) as [Hl Hr].
  destruct (addConstraint_Ok k kind lhs_ rhs_ Hl Hr) as (k2 & H2 & Hc & _).
  rewrite H in H2. injection H2 as <-.
  intros kind' cs. rewrite Hc. rewrite lookup_insert.
  case_decide as Heq.
  - intros [= <-]. apply Forall_app. split; [|by apply expanded_no_join].
    destruct (constraints k !! kind) as [old|] eqn:E; simpl; [|constructor].
    by eapply Hk.
  - apply Hk.
Qed.

(** C6.  [addConstraint] is a fatal error on a locked kind, and on a join
    as right-hand side; otherwise it appends to the kind one constraint
    per member of a join on the left (as many as the join has members),
    each with the same right-hand side, or the single constraint
    [(lhs, rhs)] when the left is not a join, and leaves the other kinds
    alone.  It keeps the store free of joins on right-hand sides, so every
    kit built from the empty one by calls of [addConstraint] is. *)
Theorem addConstraint_contract :
  forall k kind lhs_ rhs_,
    (if bool_decide (kind ∈ lockedConstraintKinds k)
     then is_fatal (addConstraint k kind lhs_ rhs_) = true
     else if isa_LHJoin rhs_
     then is_fatal (addConstraint k kind lhs_ rhs_) = true
     else
       exists k',
         addConstraint k kind lhs_ rhs_ = Ok k' /\
         constraints k' !! kind =
           Some (default [] (constraints k !! kind) ++ expanded lhs_ rhs_) /\
         (forall members, lhs_ = LHJoin members ->
            expanded lhs_ rhs_
            = map (fun member => mkLHConstraint member rhs_) members /\
            length (expanded lhs_ rhs_) = length members) /\
         (isa_LHJoin lhs_ = false ->
            expanded lhs_ rhs_ = [mkLHConstraint lhs_ rhs_]) /\
         (forall kind', kind' <> kind ->
            constraints k' !! kind' = constraints k !! kind')) /\
    (forall k', stored_form k -> addConstraint k kind lhs_ rhs_ = Ok k' ->
                stored_form k') /\
    (forall (calls : list (string * ConsElem * ConsElem)) k',
        foldM (fun k c => addConstraint k c.1.1 c.1.2 c.2)
              LHConstraintKit_new calls = Ok k' ->
        stored_form k').
Proof.
  intros k kind lhs_ rhs_. split; [|split].
  - case_bool_decide as Hl.
    { unfold addConstraint. by rewrite (bool_decide_eq_true_2 _ Hl). }
    destruct (isa_LHJoin rhs_) eqn:Hr.
    { unfold addConstraint. rewrite (bool_decide_eq_false_2 _ Hl).
      cbn [negb cassert mbind result_bind].
      destruct (getOrCreateConstraintSet _ kind) as [k1 set].
      by rewrite Hr. }
    destruct (addConstraint_Ok k kind lhs_ rhs_ Hl Hr) as (k' & H & Hc & _).
    exists k'. split; [done|]. rewrite Hc.
    split; [by rewrite lookup_insert_eq|].
    split; [intros members ->; split; [done|apply expanded_length_join]|].
    split; [by destruct lhs_|].
    intros kind' Hne. by rewrite lookup_insert_ne.
  - intros k'. apply addConstraint_stored_form.
  - intros calls.
    assert (G : forall k0, stored_form k0 -> forall k',
               foldM (fun k c => addConstraint k c.1.1 c.1.2 c.2) k0 calls = Ok k' ->
               stored_form k').
    { induction calls as [|c r IH]; intros k0 H0 k'; cbn [foldM].
      - by intros [= <-].
      - destruct (addConstraint k0 c.1.1 c.1.2 c.2) as [k1| | |] eqn:E;
          cbn [mbind result_bind]; try done.
        apply IH. by eapply addConstraint_stored_form. }
    apply G. intros kind' cs. cbn. by rewrite lookup_empty.
Qed.

(** ** Control dependence of the successors of a terminator *)

(** The region the rule for conditional terminators is meant to reach: the
    blocks found from the successors of the terminator of [bb] by going
    through blocks that do not post-dominate [bb]. *)
Inductive control_region (successors : nat -> list nat)
  (pdt_dominates : nat -> nat -> bool) (bb : nat) : nat -> Prop :=
| region_successor s :
    s ∈ successors bb -> pdt_dominates s bb = false ->
    control_region successors pdt_dominates bb s
| region_step b s :
    control_region successors pdt_dominates bb b ->
    s ∈ successors b -> pdt_dominates s bb = false ->
    control_region successors pdt_dominates bb s.

(** The inner loop pushes nothing: [cur] has just been marked visited. *)
Lemma conditionalSuccessors_no_push (cur : nat) (visited : gset nat)
  (wq succs : list nat) :
  foldl (fun wq succ =>
           if negb (bool_decide (cur ∈ {[ cur ]} ∪ visited)) then wq ++ [succ]
           else wq) wq succs = wq.
Proof.
  rewrite bool_decide_eq_true_2 by set_solver. cbn [negb].
  induction succs as [|s r IH]; cbn [foldl]; done.
Qed.

Lemma conditionalSuccessors_loop_filter successors pdt_dominates bb :
  forall workqueue fuel visited rec,
    length workqueue <= fuel ->
    conditionalSuccessors_loop successors pdt_dominates fuel bb visited
      workqueue rec
    = Ok (foldl addSinkValue rec
            (filter (fun cur => pdt_dominates cur bb = false) workqueue)).
Proof.
  induction workqueue as [|cur wq IH]; intros fuel visited rec Hf.
  - by destruct fuel.
  - destruct fuel as [|fuel]; [simpl in Hf; lia|].
    cbn [conditionalSuccessors_loop]. rewrite filter_cons.
    destruct (pdt_dominates cur bb) eqn:E; cbn [negb].
    + rewrite decide_False by done. apply IH. simpl in Hf. lia.
    + rewrite decide_True by done. rewrite conditionalSuccessors_no_push.
      cbn [foldl]. apply IH. simpl in Hf. lia.
Qed.

(** The sinks the rule adds are the immediate successors of the
    terminator that do not post-dominate its block, and no other block. *)
Lemma constrainConditionalSuccessors_sinks successors pdt_dominates bb rec :
  exists rec',
    constrainConditionalSuccessors successors pdt_dominates bb rec = Ok rec' /\
    forall s, s ∈ valueSinks rec' <->
              s ∈ valueSinks rec \/
              (s ∈ successors bb /\ pdt_dominates s bb = false).
Proof.
  unfold constrainConditionalSuccessors.
  rewrite conditionalSuccessors_loop_filter by done.
  eexists. split; [done|]. intros s.
  generalize (successors bb). intros l. revert rec.
  induction l as [|x l IH]; intros rec.
  - rewrite filter_nil. cbn [foldl]. set_solver.
  - rewrite filter_cons. destruct (decide (pdt_dominates x bb = false)) as [E|E].
    + cbn [foldl]. rewrite IH. unfold addSinkValue; cbn [valueSinks].
      rewrite elem_of_union, elem_of_singleton, elem_of_cons.
      split; [intros [[->|?]|[? ?]]|intros [?|[[->|?] ?]]]; eauto.
    + rewrite IH, elem_of_cons. split; [intros [?|[? ?]]|intros [?|[[->|?] ?]]]; eauto.
      done.
Qed.

(** A diamond with a two-block arm: 0 branches to 1 and 2, 1 goes to 3,
    3 goes to 2, and 2 returns.  Block 2 post-dominates every block. *)
Definition diamond_successors (b : nat) : list nat :=
match b with
| 0 => [1; 2]
| 1 => [3]
| 3 => [2]
| _ => []
end.

Definition diamond_pdt (a b : nat) : bool :=
  bool_decide (a = b) || bool_decide (a = 2) || (bool_decide (a = 3) && bool_decide (b = 1)).

(** C1.  On the diamond the rule for the branch of block 0 makes block 1
    its only sink, although block 3 is reached from the successors of the
    branch through block 1, which does not post-dominate block 0, and does
    not post-dominate block 0 itself: the search stops at the immediate
    successors. *)
Theorem conditional_successors_stop_at_immediate :
  (exists rec,
      constrainConditionalSuccessors diamond_successors diamond_pdt 0
        (FlowRecord_new true 0 0) = Ok rec /\
      valueSinks rec = {[ 1 ]} /\ 3 ∉ valueSinks rec) /\
  control_region diamond_successors diamond_pdt 0 3.
Proof.
  split.
  - eexists. split; [vm_compute; reflexivity|]. split.
    + apply leibniz_equiv. vm_compute. set_solver.
    + vm_compute. set_solver.
  - apply (region_step _ _ _ 1).
    + apply region_successor; [|done]. cbn. set_solver.
    + cbn. set_solver.
    + done.
Qed.

(** ** Instructions without flows *)







(** ** Evaluation of elements *)

Lemma variables_join_foldl es (acc : gset nat) :
  variables (LHJoin es) acc = foldl (fun acc x => variables x acc) acc es.
Proof.
  cbn [variables]. revert acc.
  induction es as [|x r IH]; intros acc; cbn; [done|]. apply IH.
Qed.

Lemma variables_acc e (acc : gset nat) : variables e acc = variables e ∅ ∪ acc.
Proof.
  revert acc. induction e as [l|v|es IH] using ConsElem_ind; intros acc.
  - cbn. set_solver.
  - cbn. set_solver.
  - rewrite !variables_join_foldl.
    assert (G : forall acc : gset nat,
               foldl (fun acc x => variables x acc) acc es
               = ⋃ (map (fun x => variables x ∅) es) ∪ acc).
    { clear acc. induction IH as [|x r Hx _ IHr]; intros acc; cbn.
      - set_solver.
      - rewrite IHr, (Hx acc). set_solver. }
    rewrite (G acc), (G ∅). set_solver.
Qed.

Lemma variables_join es :
  variables (LHJoin es) ∅ = ⋃ (map (fun x => variables x ∅) es).
Proof.
  rewrite variables_join_foldl.
  assert (G : forall acc : gset nat,
             foldl (fun acc x => variables x acc) acc es
             = ⋃ (map (fun x => variables x ∅) es) ∪ acc).
  { induction es as [|x r IH]; intros acc; cbn.
    - set_solver.
    - rewrite IH, (variables_acc x acc). set_solver. }
  rewrite G. set_solver.
Qed.

Lemma elem_of_variables_join v es :
  v ∈ variables (LHJoin es) ∅ <-> exists x, x ∈ es /\ v ∈ variables x ∅.
Proof.
  rewrite variables_join, elem_of_union_list. split.
  - intros (X & HX & Hv). apply list_elem_of_fmap in HX as (x & -> & Hx). eauto.
  - intros (x & Hx & Hv). exists (variables x ∅). split; [|done].
    apply list_elem_of_fmap. eauto.
Qed.

Lemma subst_eval_join dflt chg es :
  subst_eval dflt chg (LHJoin es)
  = foldl (fun acc x => LHConstant_join acc (subst_eval dflt chg x)) dflt es.
Proof.
  cbn [subst_eval]. generalize dflt at 2 4 as acc.
  induction es as [|x r IH]; intros acc; cbn; [done|]. apply IH.
Qed.

Lemma PS_subst_eval_join initial objs es :
  PS_subst_eval initial objs (LHJoin es)
  = foldl (fun acc x => LHConstant_join acc (PS_subst_eval initial objs x)) low es.
Proof.
  cbn [PS_subst_eval]. generalize low as acc.
  induction es as [|x r IH]; intros acc; cbn; [done|]. apply IH.
Qed.

Lemma foldl_join_HIGH {A : Type} (f : A -> LHLevel) (l : list A) acc :
  foldl (fun acc x => LHConstant_join acc (f x)) acc l = HIGH
  <-> acc = HIGH \/ exists x, x ∈ l /\ f x = HIGH.
Proof.
  revert acc. induction l as [|y r IH]; intros acc; cbn [foldl].
  - split; [by left|]. intros [?|(x & Hx & _)]; [done|]. by apply elem_of_nil in Hx.
  - rewrite IH, LHConstant_join_HIGH. split.
    + intros [[?|?]|(x & Hx & ?)]; [by left|right..].
      * exists y. split; [left|done].
      * exists x. split; [by right|done].
    + intros [?|(x & Hx & ?)]; [by left; left|].
      apply elem_of_cons in Hx as [->|Hx]; [by left; right|right; eauto].
Qed.

Lemma foldl_join_from_HIGH {A : Type} (f : A -> LHLevel) (l : list A) :
  foldl (fun acc x => LHConstant_join acc (f x)) HIGH l = HIGH.
Proof. apply foldl_join_HIGH. by left. Qed.

(** In a greatest worklist solution every join evaluates to H. *)
Lemma subst_eval_HIGH_join chg es : subst_eval HIGH chg (LHJoin es) = HIGH.
Proof. rewrite subst_eval_join. apply foldl_join_from_HIGH. Qed.

(** An element evaluates to H from default L exactly when it holds the
    constant H or a changed variable. *)
Lemma subst_eval_LOW_mono chg chg' e :
  chg ⊆ chg' -> subst_eval LOW chg e = HIGH -> subst_eval LOW chg' e = HIGH.
Proof.
  intros Hsub. induction e as [l|v|es IH] using ConsElem_ind.
  - done.
  - cbn. repeat case_bool_decide; try done. set_solver.
  - rewrite !subst_eval_join, !foldl_join_HIGH.
    intros [?|(x & Hx & Hh)]; [done|]. right. exists x. split; [done|].
    rewrite list.Forall_forall in IH. by apply IH.
Qed.

(** The value of an element depends on the changed set only through the
    variables of the element. *)
Lemma subst_eval_local dflt chg chg' e :
  (forall v, v ∈ variables e ∅ -> (v ∈ chg <-> v ∈ chg')) ->
  subst_eval dflt chg e = subst_eval dflt chg' e.
Proof.
  induction e as [l|v|es IH] using ConsElem_ind; intros Hloc.
  - done.
  - cbn. specialize (Hloc v). cbn in Hloc.
    assert (v ∈ chg <-> v ∈ chg') as Hv by (apply Hloc; set_solver).
    repeat case_bool_decide; tauto.
  - rewrite !subst_eval_join. generalize dflt at 2 4 as acc.
    assert (Hes : forall x, x ∈ es ->
                   subst_eval dflt chg x = subst_eval dflt chg' x).
    { intros x Hx. rewrite list.Forall_forall in IH. apply IH; [done|].
      intros v Hv. apply Hloc. apply elem_of_variables_join. eauto. }
    clear IH Hloc. induction es as [|x r IHr]; intros acc; cbn [foldl]; [done|].
    rewrite (Hes x) by left. apply IHr. intros y Hy. apply Hes. by right.
Qed.

(** ** The worklist solver *)

(** *** The queue *)

(** The queue and its set side hold the same pointers, once each, and
    every pointer is below [n]. *)
Definition queue_inv (n : nat) (s : LHConsSoln) : Prop :=
  NoDup (queue s) /\
  (forall c, c ∈ queue s <-> c ∈ queueSet s) /\
  (forall c, c ∈ queue s -> c < n).

Lemma enqueueConstraints_fields s cs :
  soln_class (enqueueConstraints s cs) = soln_class s /\
  defaultValue (enqueueConstraints s cs) = defaultValue s /\
  soln_constraints (enqueueConstraints s cs) = soln_constraints s /\
  changed (enqueueConstraints s cs) = changed s /\
  solved (enqueueConstraints s cs) = solved s /\
  invalidIf (enqueueConstraints s cs) = invalidIf s.
Proof.
  revert s. unfold enqueueConstraints.
  induction cs as [|c r IH]; intros s; cbn [foldl]; [done|].
  case_bool_decide; [apply IH|].
  destruct (IH (set_queue s (queue s ++ [c]) ({[c]} ∪ queueSet s)))
    as (-> & -> & -> & -> & -> & ->). done.
Qed.

Lemma enqueueConstraints_queue n s cs :
  queue_inv n s -> (forall c, c ∈ cs -> c < n) ->
  queue_inv n (enqueueConstraints s cs) /\
  (forall c, c ∈ queue (enqueueConstraints s cs) <-> c ∈ queue s \/ c ∈ cs) /\
  (exists extra, queue (enqueueConstraints s cs) = queue s ++ extra).
Proof.
  revert s. unfold enqueueConstraints.
  induction cs as [|c r IH]; intros s Hq Hcs; cbn [foldl].
  - split; [done|]. split; [|exists []; by rewrite app_nil_r].
    intros c. rewrite elem_of_nil. tauto.
  - assert (Hr : forall c0, c0 ∈ r -> c0 < n) by (intros; apply Hcs; by right).
    destruct Hq as (Hnd & Hset & Hlt).
    case_bool_decide as Hin.
    + destruct (IH s) as (Hq' & Hmem & Hext); [done|done|].
      split; [done|]. split; [|done].
      intros c0. rewrite Hmem, elem_of_cons.
      split; [tauto|]. intros [?|[->|?]]; try tauto. left. by apply Hset.
    + destruct (IH (set_queue s (queue s ++ [c]) ({[c]} ∪ queueSet s)))
        as (Hq' & Hmem & (extra & Hext)).
      * unfold queue_inv. cbn [queue queueSet set_queue]. split; [|split].
        -- apply list.NoDup_app. split; [done|]. split; [|apply list.NoDup_singleton].
           intros x Hx Hx'. apply list_elem_of_singleton in Hx' as ->.
           apply Hin. by apply Hset.
        -- intros c0. rewrite elem_of_app, list_elem_of_singleton,
             elem_of_union, elem_of_singleton, Hset. tauto.
        -- intros c0. rewrite elem_of_app, list_elem_of_singleton.
           intros [?| ->]; [by apply Hlt|]. apply Hcs. by left.
      * done.
      * split; [done|]. split.
        -- intros c0. rewrite Hmem. cbn [queue set_queue].
           rewrite elem_of_app, list_elem_of_singleton, elem_of_cons. tauto.
        -- exists ([c] ++ extra). rewrite Hext. cbn [queue set_queue].
           by rewrite <- app_assoc.
Qed.

Lemma dequeueConstraintAt_spec n s i :
  queue_inv n s -> i < length (queue s) ->
  exists c s',
    dequeueConstraintAt i s = Some (c, s') /\
    queue s !! i = Some c /\
    queue s' = delete i (queue s) /\
    queue_inv n s' /\
    (c ∉ queue s') /\
    (forall c', c' ∈ queue s <-> c' = c \/ c' ∈ queue s') /\
    length (queue s) = S (length (queue s')) /\
    soln_class s' = soln_class s /\ defaultValue s' = defaultValue s /\
    changed s' = changed s /\ invalidIf s' = invalidIf s /\
    solved s' = solved s.
Proof.
  intros (Hnd & Hset & Hlt) Hi.
  destruct (lookup_lt_is_Some_2 _ _ Hi) as [c Hc].
  unfold dequeueConstraintAt. rewrite Hc.
  eexists c, _. split; [done|]. cbn [queue queueSet set_queue soln_class
    defaultValue changed invalidIf solved].
  assert (Hsplit : queue s = take i (queue s) ++ c :: drop (S i) (queue s)).
  { symmetry. by apply take_drop_middle. }
  assert (Hdel : delete i (queue s) = take i (queue s) ++ drop (S i) (queue s)).
  { apply delete_take_drop. }
  assert (Hnd' : NoDup (take i (queue s) ++ c :: drop (S i) (queue s)))
    by by rewrite <- Hsplit.
  apply list.NoDup_app in Hnd' as (Hnd1 & Hdisj & Hnd2).
  apply list.NoDup_cons in Hnd2 as (Hc2 & Hnd2).
  assert (Hnotin : c ∉ delete i (queue s)).
  { rewrite Hdel, elem_of_app. intros [H1|H2]; [|done].
    apply (Hdisj c H1). by left. }
  assert (Hmem : forall c', c' ∈ queue s <-> c' = c \/ c' ∈ delete i (queue s)).
  { intros c'. rewrite Hdel. rewrite Hsplit at 1.
    rewrite !elem_of_app, elem_of_cons. tauto. }
  split; [done|]. split; [done|]. split; [|split; [done|split; [done|split]]].
  - unfold queue_inv. cbn [queue queueSet set_queue]. split; [|split].
    + rewrite Hdel. apply list.NoDup_app. split; [done|]. split; [|done].
      intros x H1 H2. apply (Hdisj x H1). by right.
    + intros c'. rewrite elem_of_difference, elem_of_singleton, <- Hset, Hmem.
      split; [|tauto]. intros H. split; [by right|]. by intros ->.
    + intros c' H. apply Hlt. apply Hmem. by right.
  - rewrite Hsplit at 1. rewrite Hdel, !length_app. cbn. lia.
  - done.
Qed.

(** *** The index of the constructors *)

Lemma addInvalidIf_fold (vs : list nat) m i0 v i :
  i ∈ default [] (foldl (fun m var => addInvalidIf m var i0) m vs !! v)
  <-> i ∈ default [] (m !! v) \/ (i = i0 /\ v ∈ vs).
Proof.
  revert m. induction vs as [|x r IH]; intros m; cbn [foldl].
  - rewrite elem_of_nil. tauto.
  - rewrite IH. unfold addInvalidIf. rewrite lookup_insert.
    case_decide as E; simpl.
    + subst x. rewrite elem_of_app, list_elem_of_singleton, elem_of_cons. tauto.
    + rewrite elem_of_cons. split; [tauto|]. intros [?|[? [?|?]]]; try tauto.
      congruence.
Qed.

Lemma build_invalidIf_spec cls cs v i :
  i ∈ default [] (build_invalidIf cls cs !! v)
  <-> exists c, cs !! i = Some c /\ v ∈ variables (indexed_side cls c) ∅.
Proof.
  unfold build_invalidIf.
  induction cs as [|c0 r IH] using rev_ind.
  - cbn. rewrite lookup_empty. cbn. rewrite elem_of_nil.
    split; [done|]. by intros (c & ? & _).
  - rewrite imap_app, foldl_app. cbn [imap foldl fst snd].
    rewrite addInvalidIf_fold, IH, elem_of_elements, Nat.add_0_r.
    split.
    + intros [(c & Hc & Hv)|[-> Hv]].
      * exists c. split; [by apply lookup_app_l_Some|done].
      * exists c0. split; [|done]. by rewrite lookup_app_r, Nat.sub_diag.
    + intros (c & Hc & Hv). apply lookup_app_Some in Hc as [Hc|[Hge Hc]].
      * left. eauto.
      * right. destruct (i - length r) as [|k] eqn:E; cbn in Hc; [|done].
        injection Hc as ->. split; [lia|done].
Qed.

(** *** Satisfying a violated constraint *)

(** Every variable of [vs] that has not changed yet is marked changed, and
    the constraints filed under it are enqueued. *)
Definition raise (s : LHConsSoln) (vs : list nat) : LHConsSoln :=
  foldl (fun s var =>
           if bool_decide (var ∈ changed s) then s
           else
             let s := set_changed s ({[ var ]} ∪ changed s) in
             enqueueConstraints s (getOrCreateInvalidIfSet s var))
        s vs.

Lemma satisfy_least_raise s left right :
  defaultValue s = LOW -> soln_subst s left = HIGH ->
  LHConsLeastSoln_satisfyConstraint s left right
  = Ok (raise s (elements (variables right ∅))).
Proof.
  intros Hd HL. unfold LHConsLeastSoln_satisfyConstraint, raise.
  cbv zeta. rewrite HL. clear HL.
  generalize (elements (variables right ∅)) as l. intros l. revert s Hd.
  induction l as [|var r IH]; intros s Hd; cbn [foldM foldl]; [done|].
  unfold soln_subst. cbn [subst_eval]. rewrite Hd.
  case_bool_decide as Hin; cbn.
  - by apply IH.
  - apply IH. by rewrite (proj1 (proj2 (enqueueConstraints_fields _ _))).
Qed.

Lemma satisfy_greatest_raise s left right :
  defaultValue s = HIGH -> soln_subst s right = LOW ->
  LHConsGreatestSoln_satisfyConstraint s left right
  = Ok (raise s (elements (variables left ∅))).
Proof.
  intros Hd HR. unfold LHConsGreatestSoln_satisfyConstraint, raise.
  cbv zeta. rewrite HR. clear HR.
  generalize (elements (variables left ∅)) as l. intros l. revert s Hd.
  induction l as [|var r IH]; intros s Hd; cbn [foldM foldl]; [done|].
  unfold soln_subst. cbn [subst_eval]. rewrite Hd.
  case_bool_decide as Hin; cbn.
  - by apply IH.
  - apply IH. by rewrite (proj1 (proj2 (enqueueConstraints_fields _ _))).
Qed.

Lemma raise_spec n s vs :
  queue_inv n s ->
  (forall v c, c ∈ getOrCreateInvalidIfSet s v -> c < n) ->
  soln_class (raise s vs) = soln_class s /\
  defaultValue (raise s vs) = defaultValue s /\
  invalidIf (raise s vs) = invalidIf s /\
  solved (raise s vs) = solved s /\
  changed (raise s vs) = changed s ∪ list_to_set vs /\
  queue_inv n (raise s vs) /\
  (forall c, c ∈ queue (raise s vs) <->
             c ∈ queue s \/
             exists v, v ∈ vs /\ (v ∉ changed s) /\ c ∈ getOrCreateInvalidIfSet s v) /\
  (list_to_set vs ⊆ changed s -> raise s vs = s).
Proof.
  revert s. unfold raise.
  induction vs as [|x r IH]; intros s Hq Hinv; cbn [foldl].
  - split_and!; try done.
    + cbn. set_solver.
    + intros c. split; [by left|].
      intros [?|(v & Hv & _)]; [done|]. by apply elem_of_nil in Hv.
  - case_bool_decide as Hin.
    + destruct (IH s Hq Hinv) as (-> & -> & -> & -> & -> & Hq' & Hmem & Hid).
      split_and!; try done.
      * cbn [list_to_set]. set_solver.
      * intros c. rewrite Hmem. split.
        -- intros [?|(v & Hv & Hn & Hc)]; [by left|].
           right. exists v. split; [by right|done].
        -- intros [?|(v & Hv & Hn & Hc)]; [by left|].
           apply elem_of_cons in Hv as [->|Hv]; [done|]. right. eauto.
      * intros Hsub. apply Hid. cbn [list_to_set] in Hsub. set_solver.
    + set (s1 := set_changed s ({[x]} ∪ changed s)).
      assert (Hq1 : queue_inv n s1) by done.
      assert (Hinv1 : forall c, c ∈ getOrCreateInvalidIfSet s1 x -> c < n)
        by (intros c; apply Hinv).
      destruct (enqueueConstraints_fields s1 (getOrCreateInvalidIfSet s1 x))
        as (Ec & Ed & _ & Ech & Eso & Ei).
      destruct (enqueueConstraints_queue n s1 (getOrCreateInvalidIfSet s1 x) Hq1 Hinv1)
        as (Hq2 & Hmem2 & _).
      set (s2 := enqueueConstraints s1 (getOrCreateInvalidIfSet s1 x)) in *.
      assert (Hinv2 : forall v c, c ∈ getOrCreateInvalidIfSet s2 v -> c < n).
      { intros v c. unfold getOrCreateInvalidIfSet. rewrite Ei. apply Hinv. }
      destruct (IH s2 Hq2 Hinv2) as (-> & -> & -> & -> & -> & Hq' & Hmem & Hid).
      rewrite Ec, Ed, Ei, Ech, Eso. subst s1. cbn [soln_class defaultValue
        invalidIf changed set_changed queue solved] in *.
      split_and!; try done.
      * cbn [list_to_set]. set_solver.
      * intros c. rewrite Hmem, Hmem2. split.
        -- intros [[?|?]|(v & Hv & Hn & Hc)].
           ++ by left.
           ++ right. exists x. split; [by left|done].
           ++ right. exists v. split; [by right|]. split; [set_solver|].
              unfold getOrCreateInvalidIfSet in *. by rewrite Ei in Hc.
        -- intros [?|(v & Hv & Hn & Hc)]; [by left; left|].
           apply elem_of_cons in Hv as [->|Hv]; [by left; right|].
           destruct (decide (v = x)) as [->|Hne]; [by left; right|].
           right. exists v. split; [done|]. split; [set_solver|].
           unfold getOrCreateInvalidIfSet in *. by rewrite Ei.
      * intros Hsub. exfalso. apply Hin. cbn [list_to_set] in Hsub. set_solver.
Qed.

(** *** What the solver computes *)

(** The default value of a class of solution. *)
Definition class_default (cls : SolnClass) : LHLevel :=
match cls with LHConsLeastSoln => low | LHConsGreatestSoln => high end.

(** The side of a constraint whose variables the solver may change. *)
Definition target_side (cls : SolnClass) (c : LHConstraint) : ConsElem :=
match cls with
| LHConsLeastSoln => rhs c
| LHConsGreatestSoln => lhs c
end.

Definition targets (cls : SolnClass) (c : LHConstraint) : gset nat :=
  variables (target_side cls c) ∅.

Definition sources (cls : SolnClass) (c : LHConstraint) : gset nat :=
  variables (indexed_side cls c) ∅.

(** A constraint is triggered under the changed set [chg] when its other
    side has left the default value: then its targets must change. *)
Definition triggered (cls : SolnClass) (chg : gset nat) (c : LHConstraint) : Prop :=
  subst_eval (class_default cls) chg (indexed_side cls c) <> class_default cls.

(** A set of changed variables is closed when it holds the targets of
    every triggered constraint. *)
Definition closed (cls : SolnClass) (cs : list LHConstraint) (chg : gset nat)
  : Prop :=
  forall c, c ∈ cs -> triggered cls chg c -> targets cls c ⊆ chg.

(** The test of the loop of [solve]. *)
Definition fires (cls : SolnClass) (chg : gset nat) (c : LHConstraint) : bool :=
  negb (LHConstant_leq (subst_eval (class_default cls) chg (lhs c))
          (LHConstant (subst_eval (class_default cls) chg (rhs c)))).

Definition all_targets (cls : SolnClass) (cs : list LHConstraint) : gset nat :=
  ⋃ (map (targets cls) cs).

(** The least solver needs right-hand sides that are not joins. *)
Definition wf_for (cls : SolnClass) (cs : list LHConstraint) : Prop :=
  cls = LHConsLeastSoln -> no_join_on_rhs cs.

Lemma fires_inv cls chg c :
  fires cls chg c = true ->
  subst_eval (class_default cls) chg (lhs c) = HIGH /\
  subst_eval (class_default cls) chg (rhs c) = LOW.
Proof.
  unfold fires.
  by destruct (subst_eval _ chg (lhs c)), (subst_eval _ chg (rhs c)).
Qed.

Lemma fires_triggered cls chg c : fires cls chg c = true -> triggered cls chg c.
Proof.
  intros [Hl Hr]%fires_inv. unfold triggered.
  destruct cls; cbn [indexed_side class_default] in *; unfold low, high in *;
    congruence.
Qed.

Lemma fires_satisfy cls s c :
  soln_class s = cls -> defaultValue s = class_default cls ->
  fires cls (changed s) c = true ->
  satisfyConstraint s (lhs c) (rhs c) = Ok (raise s (elements (targets cls c))).
Proof.
  intros Hc Hd [Hl Hr]%fires_inv. unfold satisfyConstraint, targets.
  rewrite Hc. destruct cls; cbn [class_default target_side] in *;
    unfold low, high in *.
  - apply satisfy_least_raise; [done|]. unfold soln_subst. by rewrite Hd.
  - apply satisfy_greatest_raise; [done|]. unfold soln_subst. by rewrite Hd.
Qed.

Lemma not_fires_stable cls chg c :
  (cls = LHConsLeastSoln -> isa_LHJoin (rhs c) = false) ->
  fires cls chg c = false -> triggered cls chg c -> targets cls c ⊆ chg.
Proof.
  intros Hwf Hf Ht. unfold fires, triggered, targets in *.
  destruct cls; cbn [class_default indexed_side target_side] in *;
    unfold low, high in *.
  - specialize (Hwf eq_refl).
    destruct (subst_eval LOW chg (lhs c)) eqn:El; [by destruct Ht|].
    destruct (rhs c) as [l|v|es]; [cbn; set_solver| |done].
    cbn in Hf |- *. destruct (decide (v ∈ chg)) as [Hv|Hv]; [set_solver|].
    rewrite (bool_decide_eq_false_2 _ Hv) in Hf. by vm_compute in Hf.
  - destruct (subst_eval HIGH chg (rhs c)) eqn:Er; [|by destruct Ht].
    destruct (lhs c) as [l|v|es].
    + cbn. set_solver.
    + cbn in Hf |- *. destruct (decide (v ∈ chg)) as [Hv|Hv]; [set_solver|].
      rewrite (bool_decide_eq_false_2 _ Hv) in Hf. by vm_compute in Hf.
    + by rewrite (subst_eval_HIGH_join chg es) in Hf.
Qed.

Lemma triggered_mono cls chg chg' c :
  chg ⊆ chg' -> triggered cls chg c -> triggered cls chg' c.
Proof.
  intros Hsub. unfold triggered.
  destruct cls; cbn [class_default indexed_side]; unfold low, high.
  - intros H. assert (subst_eval LOW chg (lhs c) = HIGH) as H'
      by by destruct (subst_eval LOW chg (lhs c)).
    by rewrite (subst_eval_LOW_mono chg chg' _ Hsub H').
  - destruct (rhs c) as [l|v|es].
    + done.
    + cbn. repeat case_bool_decide; try done. set_solver.
    + by rewrite !subst_eval_HIGH_join.
Qed.

Lemma triggered_local cls chg chg' c :
  (forall v, v ∈ sources cls c -> (v ∈ chg <-> v ∈ chg')) ->
  triggered cls chg c <-> triggered cls chg' c.
Proof.
  intros H. unfold triggered. by rewrite (subst_eval_local _ chg chg' _ H).
Qed.

(** A constraint that becomes triggered when the changed set grows has a
    source among the new variables. *)
Lemma triggered_new_source cls chg chg' c :
  chg ⊆ chg' -> ~ triggered cls chg c -> triggered cls chg' c ->
  exists v, v ∈ sources cls c /\ v ∈ chg' /\ v ∉ chg.
Proof.
  intros Hsub Hn Ht.
  destruct (decide (sources cls c ∩ (chg' ∖ chg) = ∅)) as [E|E].
  - exfalso. apply Hn. apply (triggered_local cls chg chg' c); [|done].
    intros v Hv. split; [set_solver|]. intros Hv'.
    destruct (decide (v ∈ chg)); [done|]. set_solver.
  - apply set_choose_L in E as [v Hv]. exists v. set_solver.
Qed.

Lemma targets_all_targets cls cs c : c ∈ cs -> targets cls c ⊆ all_targets cls cs.
Proof.
  intros Hc. unfold all_targets.
  intros v Hv. apply elem_of_union_list. exists (targets cls c).
  split; [|done]. apply list_elem_of_fmap. eauto.
Qed.

Lemma NoDup_bounded_length (l : list nat) n :
  NoDup l -> (forall x, x ∈ l -> x < n) -> length l <= n.
Proof.
  intros Hnd Hlt. transitivity (length (seq 0 n)); [|by rewrite length_seq].
  apply submseteq_length, NoDup_submseteq; [done|].
  intros x Hx. apply elem_of_seq. specialize (Hlt x Hx). lia.
Qed.

(** *** The loop of [solve] *)

Lemma solve_loop_unfold order fuel cs s :
  queue s <> [] ->
  solve_loop order (S fuel) cs s
  = match dequeueConstraintAt (order s mod length (queue s)) s with
    | None => NullDereference
    | Some (c, s) =>
        match cs !! c with
        | None => NullDereference
        | Some c =>
            s ← (if LHConstant_leq (soln_subst s (lhs c))
                      (LHConstant (soln_subst s (rhs c)))
                 then Ok s
                 else satisfyConstraint s (lhs c) (rhs c));
            solve_loop order fuel cs s
        end
    end.
Proof. intros H. cbn [solve_loop]. by destruct (queue s). Qed.

Section Worklist.
Variable cls : SolnClass.
Variable cs : list LHConstraint.
Variable order : LHConsSoln -> nat.

(** What every state of the loop satisfies. *)
Definition term_inv (s : LHConsSoln) : Prop :=
  soln_class s = cls /\
  defaultValue s = class_default cls /\
  invalidIf s = build_invalidIf cls cs /\
  solved s = true /\
  queue_inv (length cs) s /\
  changed s ⊆ all_targets cls cs.

(** What it satisfies besides on a constraint vector in stored form: the
    changed set is below every closed set, and a constraint that is not
    queued has its targets changed when it is triggered. *)
Definition corr_inv (s : LHConsSoln) : Prop :=
  (forall T, closed cls cs T -> changed s ⊆ T) /\
  (forall i c, cs !! i = Some c -> i ∉ queue s ->
               triggered cls (changed s) c -> targets cls c ⊆ changed s).

Definition loop_measure (s : LHConsSoln) : nat :=
  size (all_targets cls cs ∖ changed s) * S (length cs) + length (queue s).

Lemma invalidIf_bounded s v c :
  invalidIf s = build_invalidIf cls cs ->
  c ∈ getOrCreateInvalidIfSet s v -> c < length cs.
Proof.
  intros E. unfold getOrCreateInvalidIfSet. rewrite E.
  intros (c0 & Hc0 & _)%build_invalidIf_spec. by eapply lookup_lt_Some.
Qed.

Lemma solve_loop_step s fuel :
  term_inv s -> queue s <> [] ->
  exists s2,
    solve_loop order (S fuel) cs s = solve_loop order fuel cs s2 /\
    term_inv s2 /\ loop_measure s2 < loop_measure s /\
    (wf_for cls cs -> corr_inv s -> corr_inv s2) /\
    changed s ⊆ changed s2 /\
    (forall c, c ∈ queue s2 ->
               c ∈ queue s \/
               exists v, v ∈ changed s2 /\ (v ∉ changed s) /\
                         c ∈ getOrCreateInvalidIfSet s v).
Proof.
  intros (Hcls & Hd & Hidx & Hso & Hq & Hb) Hne.
  assert (Hi : order s mod length (queue s) < length (queue s)).
  { apply Nat.mod_upper_bound. by destruct (queue s). }
  destruct (dequeueConstraintAt_spec _ _ _ Hq Hi)
    as (c & s1 & Hdq & Hat & _ & Hq1 & Hnotin & Hmem & Hlen & Ecls & Ed & Ech
          & Eidx & Eso).
  assert (Hclt : c < length cs).
  { destruct Hq as (_ & _ & Hlt). apply Hlt. apply Hmem. by left. }
  destruct (lookup_lt_is_Some_2 _ _ Hclt) as [cons Hcons].
  rewrite (solve_loop_unfold _ _ _ _ Hne), Hdq, Hcons.
  assert (Hin : cons ∈ cs) by by eapply list_elem_of_lookup_2.
  assert (Htest : LHConstant_leq (soln_subst s1 (lhs cons))
                    (LHConstant (soln_subst s1 (rhs cons)))
                  = negb (fires cls (changed s1) cons)).
  { unfold fires, soln_subst. rewrite Ed, Hd. by rewrite negb_involutive. }
  rewrite Htest.
  destruct (fires cls (changed s1) cons) eqn:Hf; cbn [negb].
  - (* the constraint is violated *)
    rewrite (fires_satisfy cls s1 cons) by congruence.
    cbn [mbind result_bind].
    assert (Hinv1 : forall v c0, c0 ∈ getOrCreateInvalidIfSet s1 v -> c0 < length cs).
    { intros v c0. apply invalidIf_bounded. congruence. }
    destruct (raise_spec _ s1 (elements (targets cls cons)) Hq1 Hinv1)
      as (Rc & Rd & Ri & Rso & Rch & Rq & Rmem & Rid).
    set (s2 := raise s1 (elements (targets cls cons))) in *.
    assert (Rch' : changed s2 = changed s ∪ targets cls cons).
    { rewrite Rch, Ech. f_equal. apply leibniz_equiv. intros x.
      by rewrite elem_of_list_to_set, elem_of_elements. }
    exists s2. split; [done|]. split; [|split; [|split; [|split]]];
      [| | |rewrite Rch'; set_solver|].
    4:{ intros c0 [H|(v & Hv & Hn & Hc0)]%Rmem.
        - left. apply Hmem. by right.
        - right. exists v. rewrite Rch'. apply elem_of_elements in Hv.
          split; [set_solver|]. split; [by rewrite <- Ech|].
          unfold getOrCreateInvalidIfSet in *. by rewrite <- Eidx. }
    + split_and!; try congruence. rewrite Rch'.
      pose proof (targets_all_targets cls cs cons Hin). set_solver.
    + unfold loop_measure.
      destruct (decide (targets cls cons ⊆ changed s)) as [Hsub|Hsub].
      * rewrite Rid.
        -- rewrite Ech, Hlen. lia.
        -- rewrite Ech. intros x. rewrite elem_of_list_to_set, elem_of_elements.
           apply Hsub.
      * assert (Hlt : size (all_targets cls cs ∖ changed s2)
                      < size (all_targets cls cs ∖ changed s)).
        { apply subset_size. rewrite Rch'.
          pose proof (targets_all_targets cls cs cons Hin).
          split; [set_solver|].
          intros Hback. apply Hsub. intros x Hx.
          destruct (decide (x ∈ changed s)) as [|Hn]; [done|].
          assert (x ∈ all_targets cls cs ∖ changed s) as Hx' by set_solver.
          apply Hback in Hx'. set_solver. }
        assert (Hql : length (queue s2) <= length cs).
        { destruct Rq as (Hnd & _ & Hbound). by apply NoDup_bounded_length. }
        nia.
    + intros Hwf (Hsound & Hstable). split.
      * intros T HT. rewrite Rch'. specialize (Hsound T HT).
        assert (targets cls cons ⊆ T); [|set_solver].
        apply HT; [done|]. apply (triggered_mono cls (changed s1)).
        -- by rewrite Ech.
        -- by apply fires_triggered.
      * intros i c' Hc' Hnq Ht. rewrite Rch'.
        destruct (decide (i = c)) as [->|Hic].
        { assert (c' = cons) as -> by congruence. set_solver. }
        assert (Hnq1 : i ∉ queue s1).
        { intros H. apply Hnq. apply Rmem. by left. }
        assert (Hnq0 : i ∉ queue s).
        { intros H. apply Hmem in H as [?|?]; done. }
        destruct (decide (triggered cls (changed s) c')) as [Ht0|Ht0].
        { specialize (Hstable i c' Hc' Hnq0 Ht0). set_solver. }
        exfalso. rewrite Rch' in Ht.
        destruct (triggered_new_source cls (changed s)
                    (changed s ∪ targets cls cons) c'
                    ltac:(set_solver) Ht0 Ht) as (v & Hv & Hv' & Hvn).
        apply Hnq. apply Rmem. right. exists v.
        split; [apply elem_of_elements; set_solver|]. split; [by rewrite Ech|].
        unfold getOrCreateInvalidIfSet. rewrite Eidx, Hidx.
        apply build_invalidIf_spec. eauto.
  - (* the constraint is satisfied *)
    cbn [mbind result_bind]. exists s1.
    split; [done|]. split; [|split; [|split; [|split]]];
      [| | |by rewrite Ech|].
    4:{ intros c0 H. left. apply Hmem. by right. }
    + split_and!; [congruence|congruence|congruence|congruence|done|by rewrite Ech].
    + unfold loop_measure. rewrite Ech, Hlen. lia.
    + intros Hwf (Hsound & Hstable). split.
      * intros T HT. rewrite Ech. by apply Hsound.
      * intros i c' Hc' Hnq Ht. rewrite Ech in Ht |- *.
        destruct (decide (i = c)) as [->|Hic].
        -- assert (c' = cons) as -> by congruence.
           apply (not_fires_stable cls); [|by rewrite <- Ech|done].
           intros Hl. specialize (Hwf Hl).
           unfold no_join_on_rhs in Hwf. rewrite list.Forall_forall in Hwf.
           by apply Hwf.
        -- apply (Hstable i c' Hc'); [|done].
           intros H. apply Hmem in H as [?|?]; done.
Qed.

Lemma solve_loop_terminates fuel s :
  term_inv s -> loop_measure s <= fuel ->
  exists s', solve_loop order fuel cs s = Ok s' /\
             term_inv s' /\ queue s' = [] /\
             (wf_for cls cs -> corr_inv s -> corr_inv s').
Proof.
  revert s. induction fuel as [|fuel IH]; intros s Hinv Hm.
  - exists s. assert (queue s = []) as Hq.
    { unfold loop_measure in Hm. destruct (queue s); [done|]. cbn in Hm. lia. }
    split; [|done]. cbn. by rewrite Hq.
  - destruct (queue s) eqn:Hq.
    + exists s. split; [|done]. cbn. by rewrite Hq.
    + destruct (solve_loop_step s fuel Hinv) as (s2 & -> & Hinv2 & Hlt & Hc & _).
      { by rewrite Hq. }
      destruct (IH s2 Hinv2) as (s' & Hs' & Hi' & Hq' & Hc'); [lia|].
      exists s'. split; [done|]. split; [done|]. split; [done|].
      intros Hwf Hcorr. apply Hc'; [done|]. by apply Hc.
Qed.

End Worklist.

Lemma all_targets_variables cls cs : all_targets cls cs ⊆ constraint_variables cs.
Proof.
  unfold all_targets, constraint_variables, targets.
  induction cs as [|c r IH]; cbn [map foldr union_list]; [done|].
  rewrite (variables_acc (lhs c)), (variables_acc (rhs c)).
  destruct cls; cbn [target_side]; set_solver.
Qed.

(** The state [solve] starts its loop from. *)
Definition solve_start (cls : SolnClass) (cs : list LHConstraint) : LHConsSoln :=
  enqueueConstraints (set_solved (new_LHConsSoln cls cs) true) (seq 0 (length cs)).

Lemma solve_start_inv cls cs :
  term_inv cls cs (solve_start cls cs) /\ corr_inv cls cs (solve_start cls cs) /\
  changed (solve_start cls cs) = ∅.
Proof.
  unfold solve_start.
  set (s0 := set_solved (new_LHConsSoln cls cs) true).
  assert (Hq0 : queue_inv (length cs) s0).
  { split; [constructor|]. split; intros c; cbn; set_solver. }
  destruct (enqueueConstraints_fields s0 (seq 0 (length cs)))
    as (Ec & Ed & _ & Ech & Eso & Ei).
  destruct (enqueueConstraints_queue _ s0 (seq 0 (length cs)) Hq0)
    as (Hq & Hmem & _).
  { intros c Hc%elem_of_seq. lia. }
  split; [|split].
  - split_and!; [by rewrite Ec|rewrite Ed; by destruct cls|by rewrite Ei
                 |by rewrite Eso|done|rewrite Ech; cbn; set_solver].
  - split.
    + intros T _. rewrite Ech. cbn. set_solver.
    + intros i c Hc Hnq. exfalso. apply Hnq. apply Hmem. right.
      apply elem_of_seq. apply lookup_lt_Some in Hc. lia.
  - by rewrite Ech.
Qed.

Lemma solve_start_measure cls cs :
  loop_measure cls cs (solve_start cls cs) <= solve_fuel cs.
Proof.
  destruct (solve_start_inv cls cs) as ((_ & _ & _ & _ & Hq & _) & _ & Hch).
  unfold loop_measure, solve_fuel. rewrite Hch.
  assert (length (queue (solve_start cls cs)) <= length cs).
  { destruct Hq as (Hnd & _ & Hb). by apply NoDup_bounded_length. }
  assert (size (all_targets cls cs ∖ ∅) <= size (constraint_variables cs)).
  { apply subseteq_size. pose proof (all_targets_variables cls cs). set_solver. }
  nia.
Qed.

(** [solve] returns on every constraint vector, with the queue drained
    and a changed set made of variables of the constraints; when the
    vector suits the class, the changed set is closed and below every
    closed set. *)
Lemma solve_with_spec cls cs order :
  exists s,
    solve_with order (new_LHConsSoln cls cs) = Ok s /\
    queue s = [] /\ solved s = true /\
    soln_class s = cls /\ defaultValue s = class_default cls /\
    changed s ⊆ constraint_variables cs /\
    (wf_for cls cs ->
     closed cls cs (changed s) /\
     forall T, closed cls cs T -> changed s ⊆ T).
Proof.
  destruct (solve_start_inv cls cs) as (Hinv & Hcorr & _).
  destruct (solve_loop_terminates cls cs order (solve_fuel cs) _ Hinv
              (solve_start_measure cls cs))
    as (s' & Hs' & (Hc & Hd & _ & Hso & _ & Hb) & Hq & Hcorr').
  unfold solve_with. cbn [solved new_LHConsSoln soln_constraints set_solved].
  fold (solve_start cls cs). rewrite Hs'. cbn [mbind result_bind].
  eexists. split; [done|]. cbn [queue solved soln_class defaultValue changed].
  split; [done|]. split; [done|].
  split; [done|]. split; [done|].
  split; [pose proof (all_targets_variables cls cs); set_solver|].
  intros Hwf. destruct (Hcorr' Hwf Hcorr) as (Hsound & Hstable).
  split; [|done].
  intros c [i Hi]%list_elem_of_lookup_1 Ht.
  apply (Hstable i c Hi); [|done]. rewrite Hq. apply not_elem_of_nil.
Qed.

(** ** The propagation solver *)

(** The variables some solution of a chain holds in its [VSet]. *)
Definition covered (objs : list PartialSolution) : gset nat :=
  ⋃ (map ps_VSet objs).

(** The updates the propagation maps [Ps] list for [V], in the order the
    loops of [propagate] visit them. *)
Definition updates_of (Ps : list (gmap nat (list nat))) (V : nat) : list nat :=
  concat (omap (fun P => P !! V) Ps).

(** [T] is closed under the propagation maps. *)
Definition edges_closed (Ps : list (gmap nat (list nat))) (T : gset nat) : Prop :=
  forall v w, v ∈ T -> w ∈ updates_of Ps v -> w ∈ T.

(** [T] holds the changed variables of the chain and is closed under its
    propagation maps. *)
Definition models (objs : list PartialSolution) (T : gset nat) : Prop :=
  covered objs ⊆ T /\ edges_closed (map ps_P objs) T.

Lemma isChanged_covered objs V : isChanged objs V = true <-> V ∈ covered objs.
Proof.
  unfold isChanged, covered. rewrite existsb_exists, elem_of_union_list. split.
  - intros (o & Ho & Hv). exists (ps_VSet o). split.
    + apply list_elem_of_fmap. exists o. split; [done|]. by apply list_elem_of_In.
    + by apply bool_decide_eq_true in Hv.
  - intros (X & HX & Hv). apply list_elem_of_fmap in HX as (o & -> & Ho).
    exists o. split; [by apply list_elem_of_In|]. by apply bool_decide_eq_true.
Qed.

Lemma isChanged_not_covered objs V : isChanged objs V = false <-> V ∉ covered objs.
Proof.
  rewrite <- isChanged_covered. by destruct (isChanged objs V).
Qed.

Lemma elem_of_concat {A : Type} (x : A) (ls : list (list A)) :
  x ∈ concat ls <-> exists l, x ∈ l /\ l ∈ ls.
Proof.
  induction ls as [|l0 r IH]; cbn [concat].
  - split; [by intros ?%elem_of_nil|]. by intros (l & _ & ?%elem_of_nil).
  - rewrite elem_of_app, IH. split.
    + intros [?|(l & ? & ?)]; [exists l0|exists l]; split; try done; [left|by right].
    + intros (l & Hx & [->|?]%elem_of_cons); [by left|right; eauto].
Qed.

Lemma elem_of_updates_of Ps V w :
  w ∈ updates_of Ps V <-> exists P Updates, P ∈ Ps /\ P !! V = Some Updates /\ w ∈ Updates.
Proof.
  unfold updates_of. rewrite elem_of_concat. split.
  - intros (l & Hw & Hl). apply list_elem_of_omap in Hl as (P & HP & Hl). eauto.
  - intros (P & U & HP & HU & Hw). exists U. split; [done|].
    apply list_elem_of_omap. eauto.
Qed.

(** The objects of a chain after some variables have been added to the
    [VSet] of the one at position [pos]. *)
Definition grown (pos : nat) (objs0 : list PartialSolution) (added : gset nat)
  : list PartialSolution :=
  alter (fun o => VSet_insert o added) pos objs0.

Lemma VSet_insert_empty o : VSet_insert o ∅ = o.
Proof. destruct o. unfold VSet_insert. cbn. f_equal. set_solver. Qed.

Lemma VSet_insert_insert o a b :
  VSet_insert (VSet_insert o a) b = VSet_insert o (b ∪ a).
Proof. unfold VSet_insert. cbn. f_equal. set_solver. Qed.

Lemma grown_empty pos objs0 : grown pos objs0 ∅ = objs0.
Proof.
  unfold grown. apply list_eq. intros i.
  destruct (decide (i = pos)) as [->|Hne].
  - rewrite list_lookup_alter_eq. destruct (objs0 !! pos); cbn; [|done].
    by rewrite VSet_insert_empty.
  - by rewrite list_lookup_alter_ne.
Qed.

Lemma grown_grown pos objs0 a b :
  alter (fun o => VSet_insert o b) pos (grown pos objs0 a)
  = grown pos objs0 (b ∪ a).
Proof.
  unfold grown. apply list_eq. intros i.
  destruct (decide (i = pos)) as [->|Hne].
  - rewrite !list_lookup_alter_eq. destruct (objs0 !! pos); cbn; [|done].
    by rewrite VSet_insert_insert.
  - by rewrite !list_lookup_alter_ne.
Qed.

Lemma grown_P pos objs0 added : map ps_P (grown pos objs0 added) = map ps_P objs0.
Proof.
  unfold grown. apply list_eq. intros i. rewrite !list_lookup_fmap.
  destruct (decide (i = pos)) as [->|Hne].
  - rewrite list_lookup_alter_eq. by destruct (objs0 !! pos).
  - by rewrite list_lookup_alter_ne.
Qed.

Lemma grown_covered pos objs0 added :
  pos < length objs0 ->
  covered (grown pos objs0 added) = covered objs0 ∪ added.
Proof.
  intros Hpos. destruct (lookup_lt_is_Some_2 _ _ Hpos) as [o Ho].
  unfold covered, grown. apply leibniz_equiv. intros v.
  rewrite elem_of_union, !elem_of_union_list. split.
  - intros (X & HX & Hv). apply list_elem_of_fmap in HX as (o' & -> & Ho').
    apply list_elem_of_lookup in Ho' as [i Hi].
    destruct (decide (i = pos)) as [->|Hne].
    + rewrite list_lookup_alter_eq, Ho in Hi. cbn in Hi. injection Hi as <-.
      cbn in Hv. apply elem_of_union in Hv as [?|?]; [by right|]. left.
      exists (ps_VSet o). split; [|done]. apply list_elem_of_fmap.
      exists o. split; [done|]. by eapply list_elem_of_lookup_2.
    + rewrite list_lookup_alter_ne in Hi by done. left.
      exists (ps_VSet o'). split; [|done]. apply list_elem_of_fmap.
      exists o'. split; [done|]. by eapply list_elem_of_lookup_2.
  - intros [(X & HX & Hv)|Hv].
    + apply list_elem_of_fmap in HX as (o' & -> & Ho').
      apply list_elem_of_lookup in Ho' as [i Hi].
      destruct (decide (i = pos)) as [->|Hne].
      * exists (ps_VSet (VSet_insert o added)). split; [|cbn; set_solver].
        apply list_elem_of_fmap. exists (VSet_insert o added). split; [done|].
        apply (list_elem_of_lookup_2 _ pos).
        by rewrite list_lookup_alter_eq, Ho.
      * exists (ps_VSet o'). split; [|done]. apply list_elem_of_fmap.
        exists o'. split; [done|]. apply (list_elem_of_lookup_2 _ i).
        by rewrite list_lookup_alter_ne.
    + exists (ps_VSet (VSet_insert o added)). split; [|cbn; set_solver].
      apply list_elem_of_fmap. exists (VSet_insert o added). split; [done|].
      apply (list_elem_of_lookup_2 _ pos). by rewrite list_lookup_alter_eq, Ho.
Qed.

(** The two inner loops of [propagate] visit the updates of [V] in order. *)
Definition propagate_update (pos : nat)
  (st : list PartialSolution * list nat) (I : nat)
  : list PartialSolution * list nat :=
  if negb (isChanged st.1 I)
  then (alter (fun o => VSet_insert o {[ I ]}) pos st.1, st.2 ++ [I])
  else st.

Lemma propagate_updates_flat pos V st :
  propagate_updates pos V st
  = foldl (propagate_update pos) st (updates_of (map ps_P st.1) V).
Proof.
  unfold propagate_updates, updates_of.
  generalize (map ps_P st.1) as Ps. intros Ps. revert st.
  induction Ps as [|P r IH]; intros st; cbn [foldl omap list_omap]; [done|].
  destruct (P !! V) as [Updates|]; cbn [concat]; [|apply IH].
  by rewrite foldl_app, IH.
Qed.

Lemma updates_of_targets objs V w :
  w ∈ updates_of (map ps_P objs) V -> w ∈ propagate_targets objs.
Proof.
  intros (P & Updates & HP & HU & Hw)%elem_of_updates_of.
  apply list_elem_of_fmap in HP as (o & -> & Ho).
  unfold propagate_targets. apply elem_of_union_list.
  eexists. split; [apply list_elem_of_fmap; exists o; split; [reflexivity|done]|].
  apply elem_of_union_list. exists (list_to_set Updates).
  split; [|by apply elem_of_list_to_set].
  apply list_elem_of_fmap. exists (V, Updates). split; [done|].
  by apply elem_of_map_to_list.
Qed.

Lemma size_difference_insert (X C : gset nat) (i : nat) :
  i ∈ X -> i ∉ C -> S (size (X ∖ ({[ i ]} ∪ C))) = size (X ∖ C).
Proof.
  intros HX HC.
  assert (E : X ∖ C = {[ i ]} ∪ (X ∖ ({[ i ]} ∪ C))).
  { apply leibniz_equiv. intros v. destruct (decide (v = i)); set_solver. }
  rewrite E.
  rewrite (size_union ({[ i ]} : gset nat) (X ∖ ({[ i ]} ∪ C))) by set_solver.
  by rewrite size_singleton.
Qed.

Section Propagate.
Variable pos : nat.
Variable objs0 : list PartialSolution.
Hypothesis Hpos : pos < length objs0.

Lemma propagate_update_fold (l : list nat) :
  forall added wl,
  exists added' new,
    foldl (propagate_update pos) (grown pos objs0 added, wl) l
    = (grown pos objs0 added', wl ++ new) /\
    added ⊆ added' /\
    covered (grown pos objs0 added')
    = covered (grown pos objs0 added) ∪ list_to_set l /\
    (forall v, v ∈ new <-> v ∈ l /\ v ∉ covered (grown pos objs0 added)) /\
    (list_to_set l ⊆ propagate_targets objs0 ->
     length new + size (propagate_targets objs0 ∖ covered (grown pos objs0 added'))
     = size (propagate_targets objs0 ∖ covered (grown pos objs0 added))).
Proof using Hpos.
  induction l as [|I r IH]; intros added wl; cbn [foldl].
  - exists added, []. rewrite app_nil_r. split_and!; try done.
    + cbn. set_solver.
    + intros v. rewrite elem_of_nil. tauto.
  - unfold propagate_update at 2. cbn [fst snd].
    destruct (isChanged (grown pos objs0 added) I) eqn:E; cbn [negb].
    + apply isChanged_covered in E.
      destruct (IH added wl) as (added' & new & -> & Hsub & Hcov & Hnew & Hm).
      exists added', new. split_and!; try done.
      * rewrite Hcov. cbn [list_to_set]. set_solver.
      * intros v. rewrite Hnew, elem_of_cons. split; [tauto|].
        intros [[->|?] ?]; [done|tauto].
      * intros Hl. apply Hm. cbn [list_to_set] in Hl. set_solver.
    + apply isChanged_not_covered in E. rewrite grown_grown.
      destruct (IH ({[I]} ∪ added) (wl ++ [I]))
        as (added' & new & -> & Hsub & Hcov & Hnew & Hm).
      assert (Hc1 : covered (grown pos objs0 ({[I]} ∪ added))
                    = {[I]} ∪ covered (grown pos objs0 added)).
      { rewrite !grown_covered by done. set_solver. }
      exists added', ([I] ++ new). rewrite <- app_assoc. split_and!; try done.
      * set_solver.
      * rewrite Hcov, Hc1. cbn [list_to_set]. set_solver.
      * intros v. rewrite elem_of_app, list_elem_of_singleton, Hnew, Hc1,
          elem_of_cons.
        split.
        -- intros [->|[? ?]]; [by split; [left|]|]. split; [by right|set_solver].
        -- intros [[->|?] ?]; [by left|]. destruct (decide (v = I)) as [->|];
             [by left|]. right. split; [done|set_solver].
      * intros Hl. cbn [list_to_set] in Hl. rewrite length_app. cbn [length].
        assert (Hm' := Hm ltac:(set_solver)). rewrite Hc1 in Hm'.
        rewrite <- (size_difference_insert (propagate_targets objs0)
                      (covered (grown pos objs0 added)) I) by set_solver.
        lia.
Qed.

Lemma propagate_loop_spec fuel :
  forall added wl,
    (forall v, v ∈ wl -> v ∈ covered (grown pos objs0 added)) ->
    length wl + size (propagate_targets objs0 ∖ covered (grown pos objs0 added))
    <= fuel ->
    exists added',
      propagate_loop fuel pos (grown pos objs0 added) wl
      = Ok (grown pos objs0 added') /\
      added ⊆ added' /\
      ((forall v, v ∈ covered (grown pos objs0 added) ->
                  v ∈ wl \/
                  forall w, w ∈ updates_of (map ps_P objs0) v ->
                            w ∈ covered (grown pos objs0 added)) ->
       edges_closed (map ps_P objs0) (covered (grown pos objs0 added'))) /\
      (forall T, covered (grown pos objs0 added) ⊆ T ->
                 edges_closed (map ps_P objs0) T ->
                 covered (grown pos objs0 added') ⊆ T).
Proof using Hpos.
  induction fuel as [|fuel IH]; intros added wl Hwl Hm.
  - destruct wl as [|V rest]; [|cbn in Hm; lia].
    exists added. split_and!; try done.
    intros HW v w Hv Hw. destruct (HW v Hv) as [?%elem_of_nil|H]; [done|].
    by apply H.
  - destruct wl as [|V rest].
    { exists added. split_and!; try done.
      intros HW v w Hv Hw. destruct (HW v Hv) as [?%elem_of_nil|H]; [done|].
      by apply H. }
    cbn [propagate_loop]. rewrite propagate_updates_flat. cbn [fst snd].
    rewrite grown_P.
    destruct (propagate_update_fold (updates_of (map ps_P objs0) V) added rest)
      as (added1 & new & -> & Hsub & Hcov & Hnew & Hmeas).
    cbn [fst snd].
    assert (HT : list_to_set (updates_of (map ps_P objs0) V)
                 ⊆ propagate_targets objs0).
    { intros w Hw%elem_of_list_to_set. by eapply updates_of_targets. }
    specialize (Hmeas HT).
    destruct (IH added1 (rest ++ new)) as (added' & -> & Hsub' & Hcl & Hs).
    { intros v [Hv|Hv]%elem_of_app.
      - rewrite Hcov. apply elem_of_union. left. apply Hwl. by right.
      - rewrite Hcov. apply Hnew in Hv as [Hv _]. apply elem_of_union. right.
        by apply elem_of_list_to_set. }
    { rewrite length_app. cbn [length] in Hm. lia. }
    exists added'. split; [done|]. split; [set_solver|]. split.
    + intros HW. apply Hcl. intros v. rewrite Hcov.
      intros [Hv|Hv%elem_of_list_to_set]%elem_of_union.
      * destruct (HW v Hv) as [[->|Hr]%elem_of_cons|Hdone].
        -- right. intros w Hw. apply elem_of_union. right.
           by apply elem_of_list_to_set.
        -- left. apply elem_of_app. by left.
        -- right. intros w Hw. apply elem_of_union. left. by apply Hdone.
      * destruct (decide (v ∈ covered (grown pos objs0 added))) as [Hc|Hc].
        -- destruct (HW v Hc) as [[->|Hr]%elem_of_cons|Hdone].
           ++ right. intros w Hw. apply elem_of_union. right.
              by apply elem_of_list_to_set.
           ++ left. apply elem_of_app. by left.
           ++ right. intros w Hw. apply elem_of_union. left. by apply Hdone.
        -- left. apply elem_of_app. right. by apply Hnew.
    + intros T HT0 Hcl'. apply Hs; [|done]. rewrite Hcov.
      apply union_subseteq. split; [done|].
      intros w Hw%elem_of_list_to_set. apply (Hcl' V w); [|done].
      apply HT0, Hwl. by left.
Qed.

End Propagate.

(** *** [propagate] on the heap *)

Lemma chain_objects_Forall2 h chained objs :
  chain_objects h chained = Ok objs
  <-> Forall2 (fun p o => h !! p = Some o) chained objs.
Proof.
  revert objs. induction chained as [|p r IH]; intros objs; cbn [chain_objects].
  - split; [intros [= <-]; constructor|]. by intros ->%Forall2_nil_inv_l.
  - unfold deref. destruct (h !! p) as [o|] eqn:E; cbn [mbind result_bind].
    + destruct (chain_objects h r) as [objs1| | |] eqn:E1; cbn [mbind result_bind].
      * split.
        -- intros [= <-]. constructor; [done|]. by apply IH.
        -- intros (o' & objs' & Ho & Hr & ->)%Forall2_cons_inv_l.
           apply IH in Hr. congruence.
      * split; [done|]. intros (o' & objs' & Ho & Hr%IH & ->)%Forall2_cons_inv_l.
        done.
      * split; [done|]. intros (o' & objs' & Ho & Hr%IH & ->)%Forall2_cons_inv_l.
        done.
      * split; [done|]. intros (o' & objs' & Ho & Hr%IH & ->)%Forall2_cons_inv_l.
        done.
    + split; [done|]. intros (o' & objs' & Ho & _)%Forall2_cons_inv_l. congruence.
Qed.

Lemma chain_objects_exists h chained :
  (forall p, p ∈ chained -> is_Some (h !! p)) ->
  exists objs, chain_objects h chained = Ok objs.
Proof.
  induction chained as [|p r IH]; intros H; cbn [chain_objects]; [by eexists|].
  destruct (H p) as [o Ho]; [by left|]. unfold deref. rewrite Ho.
  destruct IH as [objs ->]; [intros; apply H; by right|].
  cbn. by eexists.
Qed.

Lemma position_Some this chained pos :
  position this chained = Some pos -> chained !! pos = Some this.
Proof.
  unfold position. destruct (list_find _ chained) as [[i x]|] eqn:E; [|done].
  intros [= <-]. by apply list_find_Some in E as (? & -> & _).
Qed.

Lemma position_exists this chained :
  this ∈ chained -> exists pos, position this chained = Some pos.
Proof.
  intros Hin. unfold position.
  destruct (list_find (fun p => p = this) chained) as [[i x]|] eqn:E.
  - by exists i.
  - apply list_find_None in E. rewrite list.Forall_forall in E.
    by destruct (E this Hin).
Qed.

Lemma concat_elements_covered objs v :
  v ∈ concat (map (fun o => elements (ps_VSet o)) objs) <-> v ∈ covered objs.
Proof.
  rewrite elem_of_concat. unfold covered. rewrite elem_of_union_list. split.
  - intros (l & Hv & (o & -> & Ho)%list_elem_of_fmap).
    exists (ps_VSet o). split; [apply list_elem_of_fmap; eauto|].
    by apply elem_of_elements.
  - intros (X & (o & -> & Ho)%list_elem_of_fmap & Hv).
    exists (elements (ps_VSet o)). split; [by apply elem_of_elements|].
    apply list_elem_of_fmap. eauto.
Qed.

Lemma chain_objects_insert h this ps' chained objs0 pos :
  NoDup chained -> chained !! pos = Some this ->
  chain_objects h chained = Ok objs0 ->
  this < length h ->
  chain_objects (<[ this := ps' ]> h) chained = Ok (<[ pos := ps' ]> objs0).
Proof.
  intros Hnd Hpos H0 Hlt. apply chain_objects_Forall2 in H0.
  apply chain_objects_Forall2. apply Forall2_same_length_lookup.
  apply Forall2_same_length_lookup in H0 as [Hl0 Hk0].
  split; [by rewrite length_insert|].
  intros i p o Hp Ho.
  destruct (decide (i = pos)) as [->|Hne].
  - assert (p = this) as -> by congruence.
    rewrite list_lookup_insert_eq in Ho.
    + injection Ho as ->. by rewrite list_lookup_insert_eq.
    + apply lookup_lt_Some in Hp. by rewrite <- Hl0.
  - rewrite list_lookup_insert_ne in Ho by done.
    assert (p <> this) as Hpt.
    { intros ->. apply Hne. by eapply NoDup_lookup. }
    rewrite list_lookup_insert_ne by done.
    by eapply Hk0.
Qed.

Lemma propagate_spec h this ps objs0 :
  h !! this = Some ps ->
  NoDup (ps_Chained ps) -> this ∈ ps_Chained ps ->
  chain_objects h (ps_Chained ps) = Ok objs0 ->
  exists added objs',
    propagate h this = Ok (<[ this := VSet_insert ps added ]> h) /\
    chain_objects (<[ this := VSet_insert ps added ]> h) (ps_Chained ps)
    = Ok objs' /\
    map ps_P objs' = map ps_P objs0 /\
    covered objs' = covered objs0 ∪ added /\
    edges_closed (map ps_P objs0) (covered objs') /\
    (forall T, models objs0 T -> covered objs' ⊆ T).
Proof.
  intros Hthis Hnd Hin Hobjs.
  destruct (position_exists _ _ Hin) as [pos Hpos].
  pose proof (position_Some _ _ _ Hpos) as Hat.
  pose proof (proj1 (chain_objects_Forall2 _ _ _) Hobjs) as HF.
  pose proof (proj1 (Forall2_same_length_lookup _ _ _) HF) as [HFl HFk].
  assert (Hlen : pos < length objs0).
  { rewrite <- HFl. by eapply lookup_lt_Some. }
  assert (Hps : objs0 !! pos = Some ps).
  { destruct (lookup_lt_is_Some_2 objs0 pos Hlen) as [o Ho].
    specialize (HFk _ _ _ Hat Ho). cbn in HFk. congruence. }
  set (wl := concat (map (fun o => elements (ps_VSet o)) objs0)).
  destruct (propagate_loop_spec pos objs0 Hlen
              (length wl + size (propagate_targets objs0)) ∅ wl)
    as (added & Hloop & _ & Hcl & Hs).
  { intros v Hv. rewrite grown_empty. by apply concat_elements_covered. }
  { rewrite grown_empty.
    assert (size (propagate_targets objs0 ∖ covered objs0)
            <= size (propagate_targets objs0)) by (apply subseteq_size; set_solver).
    lia. }
  rewrite grown_empty in Hloop, Hcl, Hs.
  assert (Hg : grown pos objs0 added = <[ pos := VSet_insert ps added ]> objs0).
  { unfold grown. apply list_eq. intros i.
    destruct (decide (i = pos)) as [->|Hne].
    - rewrite list_lookup_alter_eq, Hps, list_lookup_insert_eq by done. done.
    - by rewrite list_lookup_alter_ne, list_lookup_insert_ne. }
  exists added, (grown pos objs0 added).
  split; [|split; [|split; [|split; [|split]]]].
  - unfold propagate, deref. rewrite Hthis. cbn [mbind result_bind].
    assert (ps_Chained ps <> []) as Hne by (intros E; rewrite E in Hin; set_solver).
    rewrite (bool_decide_eq_false_2 _ Hne). cbn [negb cassert mbind result_bind].
    rewrite Hpos, Hobjs. cbn [mbind result_bind]. fold wl. rewrite Hloop.
    cbn [mbind result_bind]. rewrite Hg, list_lookup_insert_eq by done. done.
  - rewrite Hg. apply chain_objects_insert; try done. by eapply lookup_lt_Some.
  - apply grown_P.
  - by apply grown_covered.
  - apply Hcl. intros v Hv. left. by apply concat_elements_covered.
  - intros T (HT & HE). by apply Hs.
Qed.

(** *** [initialize]: the propagation maps encode the constraints *)

(** The class of worklist solution a propagation solver built with the
    flag [initial] corresponds to. *)
Definition class_of_initial (initial : bool) : SolnClass :=
  if initial then LHConsGreatestSoln else LHConsLeastSoln.

Lemma PS_subst_eval_least objs E :
  PS_subst_eval false objs E = subst_eval LOW (covered objs) E.
Proof.
  induction E as [l|v|es IH] using ConsElem_ind.
  - done.
  - cbn. destruct (isChanged objs v) eqn:Ec.
    + apply isChanged_covered in Ec. by rewrite (bool_decide_eq_true_2 _ Ec).
    + apply isChanged_not_covered in Ec. by rewrite (bool_decide_eq_false_2 _ Ec).
  - rewrite PS_subst_eval_join, subst_eval_join. unfold low.
    generalize LOW at 1 3 as acc. induction IH as [|x r Hx _ IHr]; intros acc; cbn [foldl].
    + done.
    + rewrite Hx. apply IHr.
Qed.

Lemma PS_subst_eval_greatest objs E :
  isa_LHJoin E = false ->
  PS_subst_eval true objs E = subst_eval HIGH (covered objs) E.
Proof.
  destruct E as [l|v|es]; [done| |done]. intros _.
  cbn. destruct (isChanged objs v) eqn:Ec.
  - apply isChanged_covered in Ec. by rewrite (bool_decide_eq_true_2 _ Ec).
  - apply isChanged_not_covered in Ec. by rewrite (bool_decide_eq_false_2 _ Ec).
Qed.

Lemma subst_eval_LOW_HIGH chg e :
  subst_eval LOW chg e = HIGH
  <-> subst_eval LOW ∅ e = HIGH \/ exists v, v ∈ variables e ∅ /\ v ∈ chg.
Proof.
  induction e as [l|v|es IH] using ConsElem_ind.
  - cbn. split; [by left|]. intros [?|(v & Hv & _)]; [done|]. set_solver.
  - cbn. split.
    + case_bool_decide; [|done]. intros _. right. exists v. set_solver.
    + intros [H|(w & Hw & Hc)]; [by vm_compute in H|].
      assert (w = v) as -> by set_solver. by rewrite (bool_decide_eq_true_2 _ Hc).
  - rewrite !subst_eval_join, !foldl_join_HIGH. rewrite list.Forall_forall in IH.
    split.
    + intros [?|(x & Hx & Hh)]; [done|]. apply (IH x Hx) in Hh as [Hh|(v & Hv & Hc)].
      * left. right. eauto.
      * right. exists v. split; [|done]. apply elem_of_variables_join. eauto.
    + intros [[?|(x & Hx & Hh)]|(v & Hv & Hc)]; [done| |].
      * right. exists x. split; [done|]. apply (IH x Hx). by left.
      * apply elem_of_variables_join in Hv as (x & Hx & Hv).
        right. exists x. split; [done|]. apply (IH x Hx). right. eauto.
Qed.

(** A constraint is triggered under [T] when it is triggered under the
    empty set or one of its sources is in [T]. *)
Lemma triggered_split cls T c :
  (cls = LHConsGreatestSoln -> isa_LHJoin (rhs c) = false) ->
  triggered cls T c
  <-> triggered cls ∅ c \/ exists v, v ∈ sources cls c /\ v ∈ T.
Proof.
  intros Hwf. unfold triggered, sources.
  destruct cls; cbn [class_default indexed_side]; unfold low, high.
  - assert (G : forall chg, subst_eval LOW chg (lhs c) <> LOW
                            <-> subst_eval LOW chg (lhs c) = HIGH).
    { intros chg. by destruct (subst_eval LOW chg (lhs c)). }
    rewrite !G. apply subst_eval_LOW_HIGH.
  - specialize (Hwf eq_refl). destruct (rhs c) as [l|v|es]; [| |done].
    + cbn. split; [by left|]. intros [?|(v & Hv & _)]; [done|]. set_solver.
    + cbn. split.
      * case_bool_decide; [|done]. intros _. right. exists v. set_solver.
      * intros [H|(w & Hw & Hc)]; [by vm_compute in H|].
        assert (w = v) as -> by set_solver. by rewrite (bool_decide_eq_true_2 _ Hc).
Qed.

Lemma foldl_extend_lookup (tg : list nat) (vs : list nat) (P : gmap nat (list nat)) v :
  NoDup vs ->
  foldl (fun P var => <[ var := default [] (P !! var) ++ tg ]> P) P vs !! v
  = if bool_decide (v ∈ vs) then Some (default [] (P !! v) ++ tg) else P !! v.
Proof.
  revert P. induction vs as [|x r IH]; intros P Hnd; cbn [foldl].
  - by rewrite bool_decide_eq_false_2 by apply not_elem_of_nil.
  - apply list.NoDup_cons in Hnd as [Hx Hnd]. rewrite IH by done.
    destruct (decide (v = x)) as [->|Hne].
    + rewrite (bool_decide_eq_false_2 _ Hx).
      rewrite bool_decide_eq_true_2 by left. by rewrite lookup_insert_eq.
    + rewrite lookup_insert_ne by done.
      destruct (decide (v ∈ r)) as [Hr|Hr].
      * rewrite (bool_decide_eq_true_2 _ Hr).
        rewrite bool_decide_eq_true_2 by by right. done.
      * rewrite (bool_decide_eq_false_2 _ Hr).
        rewrite bool_decide_eq_false_2; [done|].
        intros [?|?]%elem_of_cons; done.
Qed.

Lemma covered_singleton o : covered [o] = ps_VSet o.
Proof. unfold covered. cbn. set_solver. Qed.

Lemma updates_of_singleton P v : updates_of [P] v = default [] (P !! v).
Proof.
  unfold updates_of. cbn. destruct (P !! v); cbn; [|done]. by rewrite app_nil_r.
Qed.

Lemma models_singleton o T :
  models [o] T
  <-> ps_VSet o ⊆ T /\ forall v w, v ∈ T -> w ∈ default [] (ps_P o !! v) -> w ∈ T.
Proof.
  unfold models, edges_closed. rewrite covered_singleton. cbn [map].
  split; intros [H1 H2]; (split; [done|]); intros v w Hv Hw; apply (H2 v w Hv).
  - by rewrite updates_of_singleton.
  - by rewrite updates_of_singleton in Hw.
Qed.

Lemma initialize_step_fields o c :
  ps_Chained (initialize_step o c) = ps_Chained o /\
  ps_initial (initialize_step o c) = ps_initial o.
Proof.
  unfold initialize_step. case_bool_decide; [done|].
  cbn [ps_initial]. destruct (ps_initial o); cbn [ps_initial];
    match goal with |- context [if ?b then _ else _] => destruct b end; done.
Qed.

Lemma initialize_step_models o c T :
  (ps_initial o = true -> isa_LHJoin (rhs c) = false) ->
  models [initialize_step o c] T
  <-> models [o] T /\
      (triggered (class_of_initial (ps_initial o)) T c ->
       targets (class_of_initial (ps_initial o)) c ⊆ T).
Proof.
  intros Hwf. set (cls := class_of_initial (ps_initial o)).
  assert (Hsplit : forall X, triggered cls X c
            <-> triggered cls ∅ c \/ exists v, v ∈ sources cls c /\ v ∈ X).
  { intros X. apply triggered_split. intros E. apply Hwf.
    subst cls. by destruct (ps_initial o). }
  set (From := if ps_initial o then rhs c else lhs c).
  set (To := if ps_initial o then lhs c else rhs c).
  assert (HF : indexed_side cls c = From) by (subst cls From; by destruct (ps_initial o)).
  assert (HT : targets cls c = variables To ∅)
    by (subst cls To; unfold targets; by destruct (ps_initial o)).
  assert (HS : sources cls c = variables From ∅) by (unfold sources; by rewrite HF).
  set (P' := foldl (fun P var =>
                      <[ var := default [] (P !! var) ++ elements (variables To ∅) ]> P)
                   (ps_P o) (elements (variables From ∅))).
  set (o1 := mkPartialSolution P' (ps_VSet o) (ps_Chained o) (ps_initial o)).
  assert (HP' : forall v, default [] (P' !! v)
            = default [] (ps_P o !! v)
              ++ (if bool_decide (v ∈ variables From ∅)
                  then elements (variables To ∅) else [])).
  { intros v. subst P'. rewrite foldl_extend_lookup by apply NoDup_elements.
    destruct (decide (v ∈ variables From ∅)) as [Hv|Hv].
    - rewrite bool_decide_eq_true_2 by by apply elem_of_elements.
      by rewrite (bool_decide_eq_true_2 _ Hv).
    - rewrite bool_decide_eq_false_2 by by rewrite elem_of_elements.
      rewrite (bool_decide_eq_false_2 _ Hv). by rewrite app_nil_r. }
  assert (Htest : forall b : bool,
            (b = true <-> triggered cls (ps_VSet o) c) ->
            models [if b then VSet_insert o1 (variables To ∅) else o1] T
            <-> models [o] T /\ (triggered cls T c -> targets cls c ⊆ T)).
  { intros b Hb. rewrite !models_singleton, HT.
    assert (HV : ps_VSet (if b then VSet_insert o1 (variables To ∅) else o1)
                 = (if b then variables To ∅ else ∅) ∪ ps_VSet o).
    { destruct b; cbn; set_solver. }
    assert (HPb : ps_P (if b then VSet_insert o1 (variables To ∅) else o1) = P')
      by by destruct b.
    rewrite HV, HPb. clear HV HPb. split.
    - intros [Hv He]. split; [split|].
      + set_solver.
      + intros v w Hv' Hw. apply (He v w Hv'). rewrite HP'. set_solver.
      + intros [H0|(v & Hv' & HvT)]%Hsplit.
        * assert (b = true) as ->.
          { apply Hb. eapply triggered_mono; [|exact H0]. set_solver. }
          set_solver.
        * intros w Hw. apply (He v w HvT). rewrite HP'. rewrite HS in Hv'.
          rewrite (bool_decide_eq_true_2 _ Hv'). apply elem_of_app. right.
          by apply elem_of_elements.
    - intros [[Hv He] Htr]. split.
      + destruct b; [|set_solver].
        assert (variables To ∅ ⊆ T); [|set_solver].
        apply Htr. eapply triggered_mono; [exact Hv|]. by apply Hb.
      + intros v w HvT Hw. rewrite HP' in Hw.
        apply elem_of_app in Hw as [Hw|Hw]; [by apply (He v w)|].
        case_bool_decide as Hvf; [|by apply elem_of_nil in Hw].
        apply elem_of_elements in Hw. apply Htr; [|done].
        apply Hsplit. right. exists v. by rewrite HS. }
  unfold initialize_step. fold From To. case_bool_decide as Hempty.
  - rewrite HT, Hempty. split; [|by intros [? _]]. intros H. split; [done|set_solver].
  - cbv zeta. fold P'. fold o1. change (ps_initial o1) with (ps_initial o).
    assert (Hev : PS_subst_eval (ps_initial o) [o1] From
                  = subst_eval (class_default cls) (ps_VSet o) From).
    { subst cls. destruct (ps_initial o) eqn:Ei; cbn [class_of_initial class_default].
      - rewrite PS_subst_eval_greatest by (subst From; by apply Hwf).
        by rewrite covered_singleton.
      - by rewrite PS_subst_eval_least, covered_singleton. }
    rewrite Hev.
    destruct (ps_initial o) eqn:Ei.
    + apply Htest. unfold triggered. rewrite HF. subst cls.
      cbn [class_of_initial class_default]. unfold high, low.
      by destruct (subst_eval HIGH (ps_VSet o) From).
    + apply Htest. unfold triggered. rewrite HF. subst cls.
      cbn [class_of_initial class_default]. unfold high, low.
      by destruct (subst_eval LOW (ps_VSet o) From).
Qed.

Lemma closed_app cls cs c T :
  closed cls (cs ++ [c]) T
  <-> closed cls cs T /\ (triggered cls T c -> targets cls c ⊆ T).
Proof.
  unfold closed. split.
  - intros H. split.
    + intros c' Hc'. apply H. apply elem_of_app. by left.
    + apply H. apply elem_of_app. right. by left.
  - intros [H1 H2] c' [Hc'|Hc']%elem_of_app; [by apply H1|].
    apply list_elem_of_singleton in Hc' as ->. done.
Qed.

(** The sets that model the object [initialize] builds are the closed
    sets of the constraints. *)
Lemma initialize_spec this initial C :
  (initial = true -> no_join_on_rhs C) ->
  ps_Chained (initialize this initial C) = [this] /\
  ps_initial (initialize this initial C) = initial /\
  forall T, models [initialize this initial C] T
            <-> closed (class_of_initial initial) C T.
Proof.
  unfold initialize. induction C as [|c C IH] using rev_ind; intros Hwf.
  - cbn. split_and!; try done. intros T. rewrite models_singleton. cbn. split.
    + intros _ c Hc. by apply elem_of_nil in Hc.
    + intros _. split; [set_solver|]. intros v w _ Hw.
      rewrite lookup_empty in Hw. by apply elem_of_nil in Hw.
  - rewrite foldl_app. cbn [foldl].
    destruct IH as (Hch & Hin & Hm).
    { intros E. specialize (Hwf E). unfold no_join_on_rhs in *.
      by apply Forall_app in Hwf as [? _]. }
    destruct (initialize_step_fields
                (foldl initialize_step (mkPartialSolution ∅ ∅ [this] initial) C) c)
      as [Hch' Hin'].
    split_and!; [congruence|congruence|].
    intros T. rewrite closed_app, <- Hm.
    etransitivity; [apply initialize_step_models|by rewrite Hin].
    rewrite Hin. intros E. specialize (Hwf E). unfold no_join_on_rhs in Hwf.
    apply Forall_app in Hwf as [_ Hc]. by inversion Hc.
Qed.

(** *** Chains of solutions *)

Lemma elem_of_covered objs v :
  v ∈ covered objs <-> exists o, o ∈ objs /\ v ∈ ps_VSet o.
Proof.
  unfold covered. rewrite elem_of_union_list. split.
  - intros (X & (o & -> & Ho)%list_elem_of_fmap & Hv). eauto.
  - intros (o & Ho & Hv). exists (ps_VSet o). split; [|done].
    apply list_elem_of_fmap. eauto.
Qed.

(** A set models a chain when it models each object of the chain. *)
Lemma models_forall objs T :
  models objs T <-> forall o, o ∈ objs -> models [o] T.
Proof.
  split.
  - intros [Hc He] o Ho. apply models_singleton. split.
    + intros v Hv. apply Hc. apply elem_of_covered. eauto.
    + intros v w Hv Hw. apply (He v w Hv). apply elem_of_updates_of.
      destruct (ps_P o !! v) as [U|] eqn:EU; [|by apply elem_of_nil in Hw].
      exists (ps_P o), U. split_and!; try done. apply list_elem_of_fmap. eauto.
  - intros H. split.
    + intros v (o & Ho & Hv)%elem_of_covered.
      apply (H o Ho). rewrite covered_singleton. done.
    + intros v w Hv (P & U & (o & -> & Ho)%list_elem_of_fmap & HU & Hw)%elem_of_updates_of.
      destruct (proj1 (models_singleton o T) (H o Ho)) as [_ He].
      apply (He v w Hv). by rewrite HU.
Qed.

(** The value [PartialSolution::subst] computes depends on the chain only
    through the variables it covers. *)
Lemma PS_subst_eval_covered initial objs objs' E :
  covered objs = covered objs' ->
  PS_subst_eval initial objs E = PS_subst_eval initial objs' E.
Proof.
  intros Hc. induction E as [l|v|es IH] using ConsElem_ind.
  - done.
  - cbn. f_equal. f_equal.
    destruct (isChanged objs v) eqn:E1, (isChanged objs' v) eqn:E2; try done.
    + apply isChanged_covered in E1. apply isChanged_not_covered in E2.
      by rewrite Hc in E1.
    + apply isChanged_covered in E2. apply isChanged_not_covered in E1.
      by rewrite Hc in E1.
  - rewrite !PS_subst_eval_join. generalize low as acc.
    induction IH as [|x r Hx _ IHr]; intros acc; cbn [foldl]; [done|].
    rewrite Hx. apply IHr.
Qed.

Lemma PS_subst_eval_var initial objs v :
  PS_subst_eval initial objs (LHConsVar v)
  = boolToLHC (xorb initial (bool_decide (v ∈ covered objs))).
Proof.
  cbn. f_equal. f_equal. destruct (isChanged objs v) eqn:E1.
  - apply isChanged_covered in E1. by rewrite (bool_decide_eq_true_2 _ E1).
  - apply isChanged_not_covered in E1. by rewrite (bool_decide_eq_false_2 _ E1).
Qed.

(** The objects of a chain are the objects at its addresses. *)
Lemma chain_objects_elem_of h chained objs o :
  chain_objects h chained = Ok objs ->
  o ∈ objs <-> exists p, p ∈ chained /\ h !! p = Some o.
Proof.
  intros H. apply chain_objects_Forall2 in H.
  induction H as [|p o' chained objs Hp _ IH].
  - split; [by intros ?%elem_of_nil|]. by intros (p & ?%elem_of_nil & _).
  - rewrite elem_of_cons, IH. split.
    + intros [->|(q & Hq & Ho)]; [exists p|exists q]; split; try done; [left|by right].
    + intros (q & [->|Hq]%elem_of_cons & Ho); [left; congruence|right; eauto].
Qed.

Lemma elem_of_chain_normalize p chained : p ∈ chain_normalize chained <-> p ∈ chained.
Proof. unfold chain_normalize. rewrite elem_of_elements. set_solver. Qed.

Lemma NoDup_chain_normalize chained : NoDup (chain_normalize chained).
Proof. unfold chain_normalize. apply NoDup_elements. Qed.

(** *** The constructors *)

Lemma new_PartialSolution_spec h C initial :
  (initial = true -> no_join_on_rhs C) ->
  exists o,
    new_PartialSolution h C initial = Ok (h ++ [o], length h) /\
    ps_Chained o = [length h] /\ ps_initial o = initial /\
    (forall T, models [o] T <-> closed (class_of_initial initial) C T) /\
    models [o] (ps_VSet o).
Proof.
  intros Hwf. destruct (initialize_spec (length h) initial C Hwf) as (Hch & Hin & Hm).
  set (o0 := initialize (length h) initial C) in *.
  assert (H0 : (h ++ [o0]) !! length h = Some o0).
  { rewrite lookup_app_r by lia. by rewrite Nat.sub_diag. }
  destruct (propagate_spec (h ++ [o0]) (length h) o0 [o0] H0) as
    (added & objs' & Hp & Hobjs & HP & Hcov & Hcl & Hmin).
  { rewrite Hch. apply list.NoDup_singleton. }
  { rewrite Hch. left. }
  { rewrite Hch. cbn [chain_objects]. unfold deref. by rewrite H0. }
  assert (Hh : <[ length h := VSet_insert o0 added ]> (h ++ [o0])
               = h ++ [VSet_insert o0 added]).
  { rewrite insert_app_r_alt by lia. by rewrite Nat.sub_diag. }
  rewrite Hh in Hp, Hobjs.
  assert (objs' = [VSet_insert o0 added]) as ->.
  { rewrite Hch in Hobjs. cbn [chain_objects] in Hobjs. unfold deref in Hobjs.
    rewrite lookup_app_r in Hobjs by lia. rewrite Nat.sub_diag in Hobjs.
    cbn in Hobjs. congruence. }
  exists (VSet_insert o0 added). split_and!; try done.
  - unfold new_PartialSolution. fold o0. by rewrite Hp.
  - intros T. rewrite <- Hm. split.
    + intros [Hc He]. split; [|done]. rewrite Hcov in Hc. set_solver.
    + intros HT. split; [by apply Hmin|]. apply HT.
  - split; [by rewrite covered_singleton|].
    cbn [map] in Hcl |- *. by rewrite covered_singleton in Hcl.
Qed.

Lemma copy_PartialSolution_spec h P p :
  h !! P = Some p -> P ∈ ps_Chained p ->
  copy_PartialSolution h P
  = Ok (h ++ [mkPartialSolution ∅ ∅ (chain_normalize ([length h] ++ ps_Chained p))
                (ps_initial p)], length h).
Proof.
  intros HP Hin. unfold copy_PartialSolution, deref. rewrite HP.
  cbn [mbind result_bind]. rewrite bool_decide_eq_true_2; [done|].
  apply elem_of_chain_normalize. apply elem_of_app. by right.
Qed.

Lemma propagate_frame h this h' :
  propagate h this = Ok h' -> exists o, h' = <[ this := o ]> h.
Proof.
  unfold propagate, deref. destruct (h !! this) as [ps|]; [|done].
  cbn [mbind result_bind]. destruct (cassert _ _); cbn [mbind result_bind]; try done.
  destruct (position _ _); [|done].
  destruct (chain_objects _ _); cbn [mbind result_bind]; try done.
  destruct (propagate_loop _ _ _ _) as [objs| | |]; cbn [mbind result_bind]; try done.
  destruct (objs !! _); [|done]. intros [= <-]. eauto.
Qed.

(** ** The two solvers compared *)









(** ** Termination and dequeue order of the worklist solver *)




(** ** Comparison of variables *)



(** ** [solveLeastMT] *)

Lemma foldM_not_Ok_member {A B : Type} (f : A -> B -> result A) (l : list B) x :
  x ∈ l -> (forall a, is_Ok (f a x) = false) ->
  forall a, is_Ok (foldM f a l) = false.
Proof.
  intros Hx Hf. induction l as [|y r IH]; intros a; [by apply elem_of_nil in Hx|].
  cbn [foldM]. apply elem_of_cons in Hx as [<-|Hx].
  - specialize (Hf a). by destruct (f a x).
  - destruct (f a y); cbn; try done. by apply IH.
Qed.

Lemma merge_null_sinks P x Mergees a :
  is_Ok (merge a P None true (x :: Mergees)) = false.
Proof.
  unfold merge. cbn [foldM].
  destruct P as [d|]; [|done]. by destruct (mergeIn a x d).
Qed.

Lemma round_robin_keeps T l : forall TID MI i M,
  MI !! i = Some M -> M <> [] ->
  exists M', round_robin T TID l MI !! i = Some M' /\ M' <> [].
Proof.
  induction l as [|x r IH]; intros TID MI i M Hi Hne; cbn [round_robin]; [eauto|].
  destruct (decide (i = TID)) as [->|Hd].
  - apply (IH _ _ TID (M ++ [x])).
    + by rewrite list_lookup_alter_eq, Hi.
    + by destruct M.
  - apply (IH _ _ i M); [|done]. by rewrite list_lookup_alter_ne.
Qed.

Lemma round_robin_nonempty x r :
  exists M, M ∈ round_robin 16 0 (x :: r) (replicate 16 []) /\ M <> [].
Proof.
  cbn [round_robin].
  destruct (round_robin_keeps 16 r ((0 + 1) mod 16)
              (alter (fun M => M ++ [x]) 0 (replicate 16 [])) 0 [x])
    as (M & HM & Hne); [done|done|].
  exists M. split; [|done]. by eapply list_elem_of_lookup_2.
Qed.

Lemma solveLeastMT_loop_length (f : LHConstraintKit * list nat -> string ->
                                    result (LHConstraintKit * list nat)) kinds :
  (forall st kind st', f st kind = Ok st' -> length st'.2 = S (length st.2)) ->
  forall st st', foldM f st kinds = Ok st' ->
                 length st'.2 = length st.2 + length kinds.
Proof.
  intros Hf. induction kinds as [|kind r IH]; intros st st'; cbn [foldM].
  - intros [= <-]. cbn. lia.
  - destruct (f st kind) as [st1| | |] eqn:E1; cbn; try done.
    intros H. apply IH in H. apply Hf in E1. cbn [length]. lia.
Qed.

(** C5: [solveLeastMT] asserts that the least solution of "default" is
    cached and never checks the one of "default-sinks".  Without the
    former it fails its assertion; without the latter and with
    [useDefaultSinks] it returns normally on an empty vector of kinds,
    leaving a null entry for "default-sinks" in the cache, and on a
    vector that is not empty it does not return: the worker dereferences
    the null pointer.  The solutions it returns are as many as the kinds.
    The last part runs the calls on a fresh kit: [leastSolution] over
    default, then [solveLeastMT] on no kind with [useDefaultSinks], then
    [leastSolution] over default-sinks. *)
Theorem solveLeastMT_checks_default_only (k : LHConstraintKit) :
  (forall kinds useDefaultSinks,
     leastSolutions k !! "default" = None ->
     is_fatal (kit_solveLeastMT k kinds useDefaultSinks) = true) /\
  (is_Some (leastSolutions k !! "default") ->
   leastSolutions k !! "default-sinks" = None ->
   kit_solveLeastMT k [] true
   = Ok (set_solutions false k (<[ "default-sinks" := None ]> (leastSolutions k)), [])) /\
  (forall kind kinds,
     leastSolutions k !! "default-sinks" = None ->
     is_Ok (kit_solveLeastMT k (kind :: kinds) true) = false) /\
  (forall kinds useDefaultSinks k' PS,
     kit_solveLeastMT k kinds useDefaultSinks = Ok (k', PS) ->
     length PS = length kinds) /\
  ('(k0, _) ← kit_leastSolution LHConstraintKit_new {[ "default" ]};
   '(k1, PS) ← kit_solveLeastMT k0 [] true;
   Ok (leastSolutions k0 !! "default-sinks", PS,
       leastSolutions k1 !! "default-sinks",
       is_Ok (kit_leastSolution k1 {[ "default-sinks" ]})))
  = Ok (None, [], Some None, false).
Proof.
  assert (Hlen : forall (st : LHConstraintKit * list nat) kind st',
    (let '(k, ToMerge) := st in
     _ ← cassert (negb (bool_decide (kind ∈ lockedConstraintKinds k)))
           "Already solved";
     let k := set_locked k ({[ kind ]} ∪ lockedConstraintKinds k) in
     _ ← cassert (negb (bool_decide (is_Some (leastSolutions k !! kind))))
           "!leastSolutions.count(*kind)";
     let '(k, C) := getOrCreateConstraintSet k kind in
     '(h, p) ← new_PartialSolution (heap k) C false;
     let k := set_solutions false (set_heap k h)
                (<[ kind := Some p ]> (leastSolutions k)) in
     '(h, c) ← copy_PartialSolution (heap k) p;
     Ok (set_heap k h, ToMerge ++ [c])) = Ok st' ->
    length st'.2 = S (length st.2)).
  { intros [k0 TM] kind st'.
    destruct (cassert _ _); cbn [mbind result_bind]; try done.
    destruct (cassert _ _); cbn [mbind result_bind]; try done.
    destruct (getOrCreateConstraintSet _ _) as [k1 C].
    destruct (new_PartialSolution _ _ _) as [[h p]| | |]; cbn [mbind result_bind];
      try done.
    destruct (copy_PartialSolution _ _) as [[h' c]| | |]; cbn [mbind result_bind];
      try done.
    intros [= <-]. cbn. rewrite length_app. cbn. lia. }
  split_and!.
  - intros kinds u Hd. unfold kit_solveLeastMT. by rewrite Hd.
  - intros Hd Hs. unfold kit_solveLeastMT.
    rewrite (bool_decide_eq_true_2 _ Hd), Hs. done.
  - intros kind kinds Hs. unfold kit_solveLeastMT.
    destruct (cassert _ _); cbn [mbind result_bind]; try done.
    rewrite Hs. cbn [default].
    match goal with |- context [foldM ?f ?a (kind :: kinds)] =>
      destruct (foldM f a (kind :: kinds)) as [[k1 TM]| | |] eqn:Ef end;
      cbn [mbind result_bind]; try done.
    apply solveLeastMT_loop_length in Ef; [|intros st kd st' H; by apply (Hlen st kd)].
    cbn in Ef. destruct (rev TM) as [|x r] eqn:Er.
    { apply (f_equal length) in Er. rewrite length_rev in Er. cbn in Er. lia. }
    destruct (round_robin_nonempty x r) as (M & HM & Hne).
    match goal with |- is_Ok (?r ≫= _) = false =>
      assert (is_Ok r = false) as Hr; [|by destruct r] end.
    apply (foldM_not_Ok_member _ _ M HM).
    intros h1. destruct M as [|y M]; [done|]. by apply merge_null_sinks.
  - intros kinds u k' PS. unfold kit_solveLeastMT.
    destruct (cassert _ _); cbn [mbind result_bind]; try done.
    match goal with |- context [foldM ?f ?a kinds] =>
      destruct (foldM f a kinds) as [[k1 TM]| | |] eqn:Ef end;
      cbn [mbind result_bind]; try done.
    apply solveLeastMT_loop_length in Ef; [|intros st kd st' H; by apply (Hlen st kd)].
    destruct (foldM _ _ _); cbn [mbind result_bind]; try done.
    intros [= _ <-]. by cbn in Ef.
  - by vm_compute.
Qed.

(** *** [mergeIn] *)

(** [M] is the least set with the property [P]. *)
Definition least_model (P : gset nat -> Prop) (M : gset nat) : Prop :=
  P M /\ forall T, P T -> M ⊆ T.

Lemma least_model_unique P M M' : least_model P M -> least_model P M' -> M = M'.
Proof.
  intros [H1 H2] [H1' H2']. apply (anti_symm (⊆)); [by apply H2|by apply H2'].
Qed.

Lemma mergeIn_spec h this P o oP :
  h !! this = Some o -> h !! P = Some oP ->
  ps_initial o = ps_initial oP ->
  this ∈ ps_Chained o -> P ∈ ps_Chained oP ->
  (forall q, q ∈ ps_Chained o ++ ps_Chained oP -> is_Some (h !! q)) ->
  exists added objs0 objs',
    mergeIn h this P
    = Ok (<[ this := VSet_insert
                       (mkPartialSolution (ps_P o) (ps_VSet o)
                          (chain_normalize (ps_Chained o ++ ps_Chained oP))
                          (ps_initial o)) added ]> h) /\
    chain_objects
      (<[ this := mkPartialSolution (ps_P o) (ps_VSet o)
                    (chain_normalize (ps_Chained o ++ ps_Chained oP))
                    (ps_initial o) ]> h)
      (chain_normalize (ps_Chained o ++ ps_Chained oP)) = Ok objs0 /\
    chain_objects
      (<[ this := VSet_insert
                    (mkPartialSolution (ps_P o) (ps_VSet o)
                       (chain_normalize (ps_Chained o ++ ps_Chained oP))
                       (ps_initial o)) added ]> h)
      (chain_normalize (ps_Chained o ++ ps_Chained oP)) = Ok objs' /\
    least_model (models objs0) (covered objs').
Proof.
  intros Hthis HP Hin Hmem HPmem Hvalid.
  set (chain' := chain_normalize (ps_Chained o ++ ps_Chained oP)).
  set (o0 := mkPartialSolution (ps_P o) (ps_VSet o) chain' (ps_initial o)).
  set (h0 := <[ this := o0 ]> h).
  assert (Hlt : this < length h) by by eapply lookup_lt_Some.
  assert (H0 : h0 !! this = Some o0) by by apply list_lookup_insert_eq.
  destruct (chain_objects_exists h0 chain') as [objs0 Hobjs0].
  { intros q Hq. subst chain'. rewrite elem_of_chain_normalize in Hq. subst h0.
    destruct (decide (q = this)) as [->|Hne]; [rewrite H0; eauto|].
    rewrite list_lookup_insert_ne by done. by apply Hvalid. }
  destruct (propagate_spec h0 this o0 objs0 H0) as
    (added & objs' & Hp & Hobjs' & HPm & Hcov & Hcl & Hmin).
  { apply NoDup_chain_normalize. }
  { apply elem_of_chain_normalize, elem_of_app. by left. }
  { done. }
  assert (Hh : <[ this := VSet_insert o0 added ]> h0
               = <[ this := VSet_insert o0 added ]> h).
  { subst h0. by rewrite list_insert_insert_eq. }
  rewrite Hh in Hp, Hobjs'.
  exists added, objs0, objs'. split_and!; try done.
  - unfold mergeIn, deref. rewrite Hthis, HP. cbn [mbind result_bind].
    rewrite (bool_decide_eq_true_2 _ Hin). cbn [cassert mbind result_bind].
    rewrite bool_decide_eq_true_2.
    2:{ apply elem_of_chain_normalize, elem_of_app. by right. }
    cbn [cassert mbind result_bind]. exact Hp.
  - split; [|done]. split; [|done]. rewrite Hcov. set_solver.
Qed.

Lemma mergeIn_frame h this P h' :
  mergeIn h this P = Ok h' -> exists o, h' = <[ this := o ]> h.
Proof.
  unfold mergeIn, deref. destruct (h !! this) as [ps|]; [|done].
  destruct (h !! P) as [p|]; [|done]. cbn [mbind result_bind].
  destruct (bool_decide (ps_initial ps = ps_initial p));
    cbn [cassert mbind result_bind]; try done.
  destruct (bool_decide (P ∈ _)); cbn [cassert mbind result_bind]; try done.
  intros H. apply propagate_frame in H as (o' & ->).
  rewrite list_insert_insert_eq. by exists o'.
Qed.

(** ** The solutions of the kit *)

(** The constraints of a kind, none when the kind has no entry. *)
Definition constraints_of (k : LHConstraintKit) (kind : string)
  : list LHConstraint :=
  default [] (constraints k !! kind).

(** What a kind demands of a set of changed variables: to model the cached
    solution when there is one, to be closed under the constraints of the
    kind otherwise.  Nothing satisfies a null cache entry. *)
Definition kind_models (greatest : bool) (k : LHConstraintKit) (kind : string)
  (T : gset nat) : Prop :=
match solutions greatest k !! kind with
| Some (Some p) => exists o, heap k !! p = Some o /\ models [o] T
| Some None => False
| None => closed (class_of_initial greatest) (constraints_of k kind) T
end.

(** A cached solution belongs to a locked kind and points to an object
    chained to itself alone, of the orientation of its cache, whose [VSet]
    is closed under its own propagation map. *)
Definition cached_ok (k : LHConstraintKit) : Prop :=
  forall g kind p, solutions g k !! kind = Some (Some p) ->
    kind ∈ lockedConstraintKinds k /\
    exists o, heap k !! p = Some o /\ ps_Chained o = [p] /\
              ps_initial o = g /\ models [o] (ps_VSet o).

Definition kit_ok (k : LHConstraintKit) : Prop := stored_form k /\ cached_ok k.

(** [k'] keeps the cache entries of [k] and demands of a set what [k]
    does. *)
Definition kit_refines (k k' : LHConstraintKit) : Prop :=
  (forall g kind x, solutions g k !! kind = Some x -> solutions g k' !! kind = Some x) /\
  (forall g kind T,
     kind_models g k' kind T
     <-> kind_models g k kind T /\ solutions g k' !! kind <> Some None).

Lemma kit_refines_refl k : kit_refines k k.
Proof.
  split; [done|]. intros g kind T. split; [|by intros [? _]].
  intros H. split; [done|]. intros E. unfold kind_models in H. by rewrite E in H.
Qed.

Lemma kit_refines_trans k1 k2 k3 :
  kit_refines k1 k2 -> kit_refines k2 k3 -> kit_refines k1 k3.
Proof.
  intros [Hp Hm] [Hp' Hm']. split.
  - intros g kind x Hx. by apply Hp', Hp.
  - intros g kind T. rewrite Hm', Hm. split; [by intros [[? _] ?]|].
    intros [H1 H3]. split_and!; try done.
    intros E. apply Hp' in E. done.
Qed.

Lemma kit_ok_new : kit_ok LHConstraintKit_new.
Proof.
  split.
  - intros kind cs H. cbn in H. by rewrite lookup_empty in H.
  - intros g kind p H. destruct g; cbn in H; by rewrite lookup_empty in H.
Qed.

Lemma solutions_set_heap g k h : solutions g (set_heap k h) = solutions g k.
Proof. by destruct g. Qed.

Lemma solutions_set_solutions g k m : solutions g (set_solutions g k m) = m.
Proof. by destruct g. Qed.

Lemma solutions_set_solutions_ne g k m :
  solutions (negb g) (set_solutions g k m) = solutions (negb g) k.
Proof. by destruct g. Qed.

(** A change of the heap that keeps the cached objects keeps the
    solutions. *)
Lemma kit_heap_frame k k' :
  kit_ok k ->
  constraints k' = constraints k ->
  lockedConstraintKinds k' = lockedConstraintKinds k ->
  (forall g, solutions g k' = solutions g k) ->
  (forall g kind p, solutions g k !! kind = Some (Some p) ->
                    heap k' !! p = heap k !! p) ->
  kit_ok k' /\ kit_refines k k'.
Proof.
  intros [Hsf Hc] Ec El Es Hh. split; [split|split].
  - intros kind cs. rewrite Ec. apply Hsf.
  - intros g kind p. rewrite Es, El. intros Hp.
    destruct (Hc g kind p Hp) as (Hl & o & Ho & H). split; [done|].
    exists o. split; [|done]. by rewrite (Hh g kind p Hp).
  - intros g kind x. by rewrite Es.
  - intros g kind T. unfold kind_models, constraints_of. rewrite Es, Ec.
    destruct (solutions g k !! kind) as [[p|]|] eqn:E.
    + rewrite (Hh g kind p E). split; [by intros ?|by intros [? _]].
    + split; [done|by intros [? _]].
    + split; [by intros ?|by intros [? _]].
Qed.

(** Caching a solution built from the constraints of a kind. *)
Lemma kit_install g kind o k k' :
  kit_ok k ->
  solutions g k !! kind = None ->
  ps_Chained o = [length (heap k)] -> ps_initial o = g ->
  (forall T, models [o] T
             <-> closed (class_of_initial g) (constraints_of k kind) T) ->
  models [o] (ps_VSet o) ->
  heap k' = heap k ++ [o] ->
  solutions g k' = <[ kind := Some (length (heap k)) ]> (solutions g k) ->
  solutions (negb g) k' = solutions (negb g) k ->
  kind ∈ lockedConstraintKinds k' ->
  lockedConstraintKinds k ⊆ lockedConstraintKinds k' ->
  (forall kind' cs, constraints k' !! kind' = Some cs ->
                    cs = [] \/ constraints k !! kind' = Some cs) ->
  (forall kind', constraints_of k' kind' = constraints_of k kind' \/
                 (is_Some (leastSolutions k' !! kind') /\
                  is_Some (greatestSolutions k' !! kind'))) ->
  kit_ok k' /\ kit_refines k k'.
Proof.
  intros [Hsf Hc] Hnone Hch Hin Hm Hself Hh Hs Hs' Hl Hll Hcs Hco.
  assert (Hlook : forall g' kind',
            solutions g' k' !! kind'
            = if bool_decide (g' = g /\ kind' = kind)
              then Some (Some (length (heap k)))
              else solutions g' k !! kind').
  { intros g' kind'. case_bool_decide as Hd.
    - destruct Hd as [-> ->]. by rewrite Hs, lookup_insert_eq.
    - destruct (decide (g' = g)) as [->|Hg].
      + rewrite Hs, lookup_insert_ne; [done|]. intros <-. by apply Hd.
      + assert (g' = negb g) as -> by (destruct g, g'; done). by rewrite Hs'. }
  assert (Hold : forall g' kind' p, solutions g' k !! kind' = Some (Some p) ->
                   heap k' !! p = heap k !! p).
  { intros g' kind' p Hp. destruct (Hc g' kind' p Hp) as (_ & o' & Ho' & _).
    rewrite Hh, lookup_app_l; [done|]. by eapply lookup_lt_Some. }
  assert (Hnew : heap k' !! length (heap k) = Some o).
  { rewrite Hh, lookup_app_r by lia. by rewrite Nat.sub_diag. }
  split; [split|split].
  - intros kind' cs Hk. destruct (Hcs kind' cs Hk) as [->|Hk']; [constructor|].
    by eapply Hsf.
  - intros g' kind' p. rewrite Hlook. case_bool_decide as Hd.
    + destruct Hd as [-> ->]. intros [= <-]. split; [done|]. by exists o.
    + intros Hp. destruct (Hc g' kind' p Hp) as (Hlk & o' & Ho' & H).
      split; [by apply Hll|]. exists o'. split; [|done].
      by rewrite (Hold g' kind' p Hp).
  - intros g' kind' x Hx. rewrite Hlook. case_bool_decide as Hd; [|done].
    destruct Hd as [-> ->]. congruence.
  - intros g' kind' T. unfold kind_models. rewrite Hlook.
    case_bool_decide as Hd.
    + destruct Hd as [-> ->]. rewrite Hnone, Hnew. split.
      * intros (o' & [= <-] & Ho'). split; [by apply Hm|done].
      * intros [H _]. exists o. split; [done|]. by apply Hm.
    + destruct (solutions g' k !! kind') as [[p|]|] eqn:E.
      * rewrite (Hold g' kind' p E). split; [by intros ?|by intros [? _]].
      * split; [done|by intros [? _]].
      * destruct (Hco kind') as [->|[H1 H2]];
          [split; [by intros ?|by intros [? _]]|].
        exfalso. pose proof (Hlook g' kind') as Hk.
        rewrite (bool_decide_eq_false_2 _ Hd), E in Hk.
        destruct g'; cbn in Hk; rewrite Hk in *; by destruct H1, H2.
Qed.

Lemma getOrCreateConstraintSet_fields k kind :
  heap (getOrCreateConstraintSet k kind).1 = heap k /\
  leastSolutions (getOrCreateConstraintSet k kind).1 = leastSolutions k /\
  greatestSolutions (getOrCreateConstraintSet k kind).1 = greatestSolutions k /\
  lockedConstraintKinds (getOrCreateConstraintSet k kind).1 = lockedConstraintKinds k /\
  vars (getOrCreateConstraintSet k kind).1 = vars k /\
  joins (getOrCreateConstraintSet k kind).1 = joins k /\
  (forall kind', constraints_of (getOrCreateConstraintSet k kind).1 kind'
                 = constraints_of k kind') /\
  (forall kind' cs, constraints (getOrCreateConstraintSet k kind).1 !! kind' = Some cs ->
                    cs = [] \/ constraints k !! kind' = Some cs).
Proof.
  unfold getOrCreateConstraintSet, constraints_of.
  destruct (constraints k !! kind) as [set|] eqn:E; cbn; split_and!; try done.
  - intros kind' cs. by right.
  - intros kind'. destruct (decide (kind' = kind)) as [->|Hne].
    + by rewrite lookup_insert_eq, E.
    + by rewrite lookup_insert_ne.
  - intros kind' cs. destruct (decide (kind' = kind)) as [->|Hne].
    + rewrite lookup_insert_eq. intros [= <-]. by left.
    + rewrite lookup_insert_ne by done. by right.
Qed.

Lemma freeUnneededConstraints_fields k kind :
  heap (freeUnneededConstraints k kind) = heap k /\
  leastSolutions (freeUnneededConstraints k kind) = leastSolutions k /\
  greatestSolutions (freeUnneededConstraints k kind) = greatestSolutions k /\
  lockedConstraintKinds (freeUnneededConstraints k kind) = lockedConstraintKinds k /\
  vars (freeUnneededConstraints k kind) = vars k /\
  joins (freeUnneededConstraints k kind) = joins k /\
  (forall kind' cs, constraints (freeUnneededConstraints k kind) !! kind' = Some cs ->
                    cs = [] \/ constraints k !! kind' = Some cs) /\
  (forall kind', constraints_of (freeUnneededConstraints k kind) kind'
                 = constraints_of k kind' \/
                 (is_Some (leastSolutions k !! kind') /\
                  is_Some (greatestSolutions k !! kind'))).
Proof.
  unfold freeUnneededConstraints.
  destruct (bool_decide (kind ∈ lockedConstraintKinds k)) eqn:E1; cbn [andb];
    [|split_and!; try done; [intros ? ?; by right|intros ?; by left]].
  destruct (bool_decide (is_Some (leastSolutions k !! kind))) eqn:E2; cbn [andb];
    [|split_and!; try done; [intros ? ?; by right|intros ?; by left]].
  destruct (bool_decide (is_Some (greatestSolutions k !! kind))) eqn:E3; cbn [andb];
    [|split_and!; try done; [intros ? ?; by right|intros ?; by left]].
  apply bool_decide_eq_true in E2, E3.
  destruct (getOrCreateConstraintSet_fields k kind)
    as (F1 & F2 & F3 & F4 & F5 & F6 & F7 & F8).
  destruct (getOrCreateConstraintSet k kind) as [k1 set]. cbn [fst] in *.
  cbn. split_and!; try done.
  - intros kind' cs. destruct (decide (kind' = kind)) as [->|Hne].
    + rewrite lookup_insert_eq. intros [= <-]. by left.
    + rewrite lookup_insert_ne by done. apply F8.
  - intros kind'. destruct (decide (kind' = kind)) as [->|Hne]; [by right|].
    left. rewrite <- F7. unfold constraints_of. cbn.
    by rewrite lookup_insert_ne.
Qed.

(** The first half of the body of the loop of [leastSolution] and
    [greatestSolution]: the kind gets its cached solution. *)
Lemma cache_solution_spec g k kind :
  kit_ok k -> solutions g k !! kind <> Some None ->
  exists k1 P oP,
    (if bool_decide (is_Some (solutions g k !! kind)) then Ok k
     else
       let k := set_locked k ({[ kind ]} ∪ lockedConstraintKinds k) in
       let '(k, C) := getOrCreateConstraintSet k kind in
       '(h, p) ← new_PartialSolution (heap k) C g;
       let k := set_heap k h in
       let k := set_solutions g k (<[ kind := Some p ]> (solutions g k)) in
       Ok (freeUnneededConstraints k kind)) = Ok k1 /\
    kit_ok k1 /\ kit_refines k k1 /\
    solutions g k1 !! kind = Some (Some P) /\
    heap k1 !! P = Some oP /\
    (forall q o, heap k !! q = Some o -> heap k1 !! q = Some o) /\
    (forall g' kind' q, solutions g' k1 !! kind' = Some (Some q) ->
       solutions g' k !! kind' = Some (Some q) \/ q = length (heap k)) /\
    (forall g' kind', solutions g' k1 !! kind' = Some None ->
                      solutions g' k !! kind' = Some None) /\
    vars k1 = vars k /\ joins k1 = joins k.
Proof.
  intros Hok Hnn. pose proof Hok as [Hsf Hc].
  destruct (solutions g k !! kind) as [[P|]|] eqn:E; [|done|].
  - rewrite bool_decide_eq_true_2 by eauto.
    destruct (Hc g kind P E) as (_ & oP & HoP & _).
    exists k, P, oP. split_and!; try done; [apply kit_refines_refl|].
    intros g' kind' q. by left.
  - rewrite bool_decide_eq_false_2 by by intros [? ?].
    cbv zeta.
    set (k0 := set_locked k ({[ kind ]} ∪ lockedConstraintKinds k)).
    destruct (getOrCreateConstraintSet_fields k0 kind)
      as (F1 & F2 & F3 & F4 & F5 & F6 & F7 & F8).
    pose proof (getOrCreateConstraintSet_set k0 kind) as FC.
    destruct (getOrCreateConstraintSet k0 kind) as [k1 C]. cbn [fst snd] in *.
    assert (HC : C = constraints_of k kind) by (subst C; done).
    destruct (new_PartialSolution_spec (heap k1) C g) as (o & Hnew & Hch & Hin & Hm & Hself).
    { intros _. rewrite HC. unfold constraints_of.
      destruct (constraints k !! kind) as [cs|] eqn:Ek; [by eapply Hsf|constructor]. }
    rewrite Hnew. cbn [mbind result_bind].
    set (k2 := set_solutions g (set_heap k1 (heap k1 ++ [o]))
                 (<[ kind := Some (length (heap k1)) ]>
                    (solutions g (set_heap k1 (heap k1 ++ [o]))))).
    destruct (freeUnneededConstraints_fields k2 kind)
      as (G1 & G2 & G3 & G4 & G5 & G6 & G7 & G8).
    set (k3 := freeUnneededConstraints k2 kind) in *.
    assert (Hheap1 : heap k1 = heap k) by (rewrite F1; done).
    assert (Hheap : heap k3 = heap k ++ [o]).
    { rewrite G1. subst k2. rewrite <- Hheap1. by destruct g. }
    assert (Hsolg : solutions g k3 = <[ kind := Some (length (heap k)) ]> (solutions g k)).
    { transitivity (solutions g k2); [by destruct g; cbn; rewrite ?G2, ?G3|].
      subst k2. rewrite solutions_set_solutions, solutions_set_heap, Hheap1.
      f_equal. destruct g; cbn; [by rewrite F3|by rewrite F2]. }
    assert (Hsoln : solutions (negb g) k3 = solutions (negb g) k).
    { transitivity (solutions (negb g) k2); [by destruct g; cbn; rewrite ?G2, ?G3|].
      subst k2. rewrite solutions_set_solutions_ne, solutions_set_heap.
      destruct g; cbn; [by rewrite F2|by rewrite F3]. }
    assert (Hlock : lockedConstraintKinds k3 = {[ kind ]} ∪ lockedConstraintKinds k).
    { rewrite G4. subst k2. transitivity (lockedConstraintKinds k1); [by destruct g|].
      by rewrite F4. }
    destruct (kit_install g kind o k k3 Hok E) as [Hok3 Href]; try done.
    + by rewrite <- Hheap1.
    + intros T. by rewrite Hm, HC.
    + rewrite Hlock. set_solver.
    + rewrite Hlock. set_solver.
    + intros kind' cs Hk. destruct (G7 kind' cs Hk) as [->|Hk2]; [by left|].
      assert (constraints k2 = constraints k1) as Ec by (subst k2; by destruct g).
      rewrite Ec in Hk2. destruct (F8 kind' cs Hk2) as [->|Hk0]; [by left|].
      by right.
    + intros kind'. destruct (G8 kind') as [Hk|[H1 H2]].
      * left. rewrite Hk. transitivity (constraints_of k1 kind').
        -- unfold constraints_of. f_equal. f_equal. subst k2. by destruct g.
        -- by rewrite F7.
      * right. by rewrite G2, G3.
    + exists k3, (length (heap k)), o. split_and!; try done.
      * by rewrite Hsolg, lookup_insert_eq.
      * rewrite Hheap, lookup_app_r by lia. by rewrite Nat.sub_diag.
      * intros q o' Hq. rewrite Hheap. rewrite lookup_app_l; [done|].
        by eapply lookup_lt_Some.
      * intros g' kind' q. destruct (decide (g' = g)) as [->|Hg].
        -- rewrite Hsolg. destruct (decide (kind' = kind)) as [->|Hk].
           ++ rewrite lookup_insert_eq. intros [= <-]. by right.
           ++ rewrite lookup_insert_ne by done. by left.
        -- assert (g' = negb g) as -> by (destruct g, g'; done).
           rewrite Hsoln. by left.
      * intros g' kind'. destruct (decide (g' = g)) as [->|Hg].
        -- rewrite Hsolg. destruct (decide (kind' = kind)) as [->|Hk].
           ++ by rewrite lookup_insert_eq.
           ++ by rewrite lookup_insert_ne.
        -- assert (g' = negb g) as -> by (destruct g, g'; done).
           by rewrite Hsoln.
      * rewrite G5. subst k2. transitivity (vars k1); [by destruct g|]. by rewrite F5.
      * rewrite G6. subst k2. transitivity (joins k1); [by destruct g|]. by rewrite F6.
Qed.

Lemma models_no_edges o T : ps_P o = ∅ -> models [o] T <-> ps_VSet o ⊆ T.
Proof.
  intros HP. rewrite models_singleton, HP. split; [by intros [? _]|].
  intros H. split; [done|]. intros v w _ Hw. rewrite lookup_empty in Hw.
  by apply elem_of_nil in Hw.
Qed.

Lemma least_model_equiv (P Q : gset nat -> Prop) M :
  (forall T, P T <-> Q T) -> least_model P M -> least_model Q M.
Proof.
  intros H [H1 H2]. split; [by apply H|]. intros T HT. apply H2. by apply H.
Qed.

(** The state of the solution [leastSolution] and [greatestSolution]
    build, after the kinds [done]: the object at [ps] has no propagation
    map of its own, is chained to itself and to the cached solutions of
    the kinds, and the chain covers the least set the kinds accept. *)
Definition merged_ok (g : bool) (k : LHConstraintKit) (done : list string)
  (ps : nat) : Prop :=
  exists o objs,
    heap k !! ps = Some o /\ ps_initial o = g /\ ps_P o = ∅ /\
    ps ∈ ps_Chained o /\
    (forall g' kind q, solutions g' k !! kind = Some (Some q) -> q <> ps) /\
    (forall q, q ∈ ps_Chained o ->
               q = ps \/ exists kind, kind ∈ done /\
                                      solutions g k !! kind = Some (Some q)) /\
    (forall kind, kind ∈ done ->
                  exists q, solutions g k !! kind = Some (Some q) /\
                            q ∈ ps_Chained o) /\
    chain_objects (heap k) (ps_Chained o) = Ok objs /\
    least_model (fun T => forall kind, kind ∈ done -> kind_models g k kind T)
                (covered objs).

(** A chain made of the object [ps] and of cached solutions accepts the
    sets the kinds of these solutions accept, when they hold the [VSet]
    of [ps]. *)
Lemma chain_models_kinds g k (kinds : list string) ps o0 chain objs0 T :
  cached_ok k ->
  heap k !! ps = Some o0 -> ps_P o0 = ∅ ->
  (forall g' kind q, solutions g' k !! kind = Some (Some q) -> q <> ps) ->
  (forall q, q ∈ chain ->
             q = ps \/ exists kind, kind ∈ kinds /\
                                    solutions g k !! kind = Some (Some q)) ->
  (forall kind, kind ∈ kinds ->
                exists q, solutions g k !! kind = Some (Some q) /\ q ∈ chain) ->
  chain_objects (heap k) chain = Ok objs0 ->
  ps ∈ chain ->
  models objs0 T
  <-> ps_VSet o0 ⊆ T /\ forall kind, kind ∈ kinds -> kind_models g k kind T.
Proof.
  intros Hc Hps HP Hne Hmem Hkinds Hobjs Hin.
  rewrite models_forall. split.
  - intros H. split.
    + apply (models_no_edges o0 T HP). apply H.
      apply (chain_objects_elem_of _ _ _ o0 Hobjs). eauto.
    + intros kind Hk. destruct (Hkinds kind Hk) as (q & Hq & Hqc).
      unfold kind_models. rewrite Hq.
      destruct (Hc g kind q Hq) as (_ & oq & Hoq & _).
      exists oq. split; [done|]. apply H.
      apply (chain_objects_elem_of _ _ _ oq Hobjs). eauto.
  - intros [HV HK] o Ho.
    apply (chain_objects_elem_of _ _ _ o Hobjs) in Ho as (q & Hq & Hoq).
    destruct (Hmem q Hq) as [->|(kind & Hk & Hkq)].
    + assert (o = o0) as -> by congruence. by apply models_no_edges.
    + specialize (HK kind Hk). unfold kind_models in HK. rewrite Hkq in HK.
      destruct HK as (o' & Ho' & Hm). congruence.
Qed.

(** The body of the loop of [leastSolution] and [greatestSolution]. *)
Lemma solution_step_spec g k PS done kind :
  kit_ok k ->
  match PS with None => done = [] | Some ps => merged_ok g k done ps end ->
  solutions g k !! kind <> Some None ->
  exists k' ps',
    solution_step g (k, PS) kind = Ok (k', Some ps') /\
    kit_ok k' /\ kit_refines k k' /\ merged_ok g k' (done ++ [kind]) ps' /\
    (forall g' kind', solutions g' k' !! kind' = Some None ->
                      solutions g' k !! kind' = Some None) /\
    vars k' = vars k /\ joins k' = joins k.
Proof.
  intros Hok HPS Hnn.
  destruct (cache_solution_spec g k kind Hok Hnn)
    as (k1 & P & oP & Hc1 & Hok1 & Href1 & HsP & HoP & Hmono & Horig & Hnull & Hv & Hj).
  pose proof Hok1 as [_ Hcached1].
  destruct (Hcached1 g kind P HsP) as (_ & oP' & HoP' & HchP & HinP & HselfP).
  assert (oP' = oP) as -> by congruence.
  assert (Hdone1 : forall kind' q, solutions g k !! kind' = Some (Some q) ->
                                   solutions g k1 !! kind' = Some (Some q)).
  { intros kind' q. apply Href1. }
  unfold solution_step. cbv beta iota zeta. cbv beta iota zeta in Hc1. rewrite Hc1. cbn [mbind result_bind].
  rewrite HsP.
  destruct PS as [ps|].
  - (* a solution is under construction: [mergeIn] *)
    destruct HPS as (o & objs & Hps & Hin & HP & Hmem & Hne & Hch & Hdone & Hobjs & Hleast).
    assert (Hps1 : heap k1 !! ps = Some o) by by apply Hmono.
    assert (Hne1 : forall g' kind' q,
               solutions g' k1 !! kind' = Some (Some q) -> q <> ps).
    { intros g' kind' q Hq. destruct (Horig g' kind' q Hq) as [Hq0| ->];
        [by eapply Hne|]. apply lookup_lt_Some in Hps. lia. }
    destruct (mergeIn_spec (heap k1) ps P o oP Hps1 HoP)
      as (added & objs0 & objs' & Hm & Hobjs0 & Hobjs' & Hl); try done.
    { congruence. }
    { rewrite HchP. left. }
    { intros q [Hq|Hq]%elem_of_app.
      - destruct (Hch q Hq) as [->|(kind' & _ & Hk)]; [eauto|].
        destruct Hok as [_ Hcached].
        destruct (Hcached g kind' q Hk) as (_ & oq & Hoq & _).
        exists oq. by apply Hmono.
      - rewrite HchP in Hq. apply list_elem_of_singleton in Hq as ->. eauto. }
    rewrite Hm. cbn [mbind result_bind].
    set (chain' := chain_normalize (ps_Chained o ++ ps_Chained oP)) in *.
    set (o0 := mkPartialSolution (ps_P o) (ps_VSet o) chain' (ps_initial o)) in *.
    set (k' := set_heap k1 (<[ ps := VSet_insert o0 added ]> (heap k1))).
    set (k0 := set_heap k1 (<[ ps := o0 ]> (heap k1))).
    assert (Hlt : ps < length (heap k1)) by by eapply lookup_lt_Some.
    destruct (kit_heap_frame k1 k' Hok1) as [Hok' Href']; try done.
    { intros g' kind' q Hq. subst k'. cbn. rewrite list_lookup_insert_ne; [done|].
      intros <-. by eapply Hne1. }
    destruct (kit_heap_frame k1 k0 Hok1) as [Hok0 Href0]; try done.
    { intros g' kind' q Hq. subst k0. cbn. rewrite list_lookup_insert_ne; [done|].
      intros <-. by eapply Hne1. }
    assert (Hmembers : forall q, q ∈ chain' ->
               q = ps \/ exists kind', kind' ∈ done ++ [kind] /\
                                       solutions g k1 !! kind' = Some (Some q)).
    { intros q Hq. subst chain'. rewrite elem_of_chain_normalize in Hq.
      apply elem_of_app in Hq as [Hq|Hq].
      - destruct (Hch q Hq) as [->|(kind' & Hk & Hkq)]; [by left|].
        right. exists kind'. split; [apply elem_of_app; by left|by apply Hdone1].
      - rewrite HchP in Hq. apply list_elem_of_singleton in Hq as ->.
        right. exists kind. split; [apply elem_of_app; right; left|done]. }
    assert (Hkinds : forall kind', kind' ∈ done ++ [kind] ->
               exists q, solutions g k1 !! kind' = Some (Some q) /\ q ∈ chain').
    { intros kind' [Hk|Hk]%elem_of_app.
      - destruct (Hdone kind' Hk) as (q & Hq & Hqc). exists q.
        split; [by apply Hdone1|]. apply elem_of_chain_normalize, elem_of_app.
        by left.
      - apply list_elem_of_singleton in Hk as ->. exists P. split; [done|].
        apply elem_of_chain_normalize, elem_of_app. right. rewrite HchP. left. }
    assert (Hpsc : ps ∈ chain').
    { apply elem_of_chain_normalize, elem_of_app. by left. }
    exists k', ps. split_and!.
    + done.
    + done.
    + by eapply kit_refines_trans.
    + exists (VSet_insert o0 added), objs'. split_and!.
      * subst k'. cbn. by apply list_lookup_insert_eq.
      * done.
      * done.
      * done.
      * intros g' kind' q. apply Hne1.
      * intros q Hq. by apply Hmembers.
      * intros kind' Hk. by apply Hkinds.
      * done.
      * eapply least_model_equiv; [|exact Hl]. intros T.
        rewrite (chain_models_kinds g k0 (done ++ [kind]) ps o0 chain' objs0 T).
        -- assert (Hkk : forall kind', kind_models g k0 kind' T
                                       <-> kind_models g k' kind' T).
           { intros kind'. destruct Href0 as [_ ->]. destruct Href' as [_ ->].
             done. }
           split.
           ++ intros [_ H] kind' Hk. apply Hkk. by apply H.
           ++ intros H. split; [|intros kind' Hk; apply Hkk; by apply H].
              transitivity (covered objs).
              ** intros v Hvo. apply elem_of_covered. exists o. split; [|done].
                 apply (chain_objects_elem_of _ _ _ o Hobjs). eauto.
              ** apply Hleast. intros kind' Hk.
                 assert (kind_models g k' kind' T) as Hk'
                   by (apply H, elem_of_app; by left).
                 destruct Href' as [_ Hr']. apply Hr' in Hk' as [Hk' _].
                 destruct Href1 as [_ Hr1]. by apply Hr1 in Hk' as [Hk' _].
        -- apply Hok0.
        -- subst k0. cbn. by apply list_lookup_insert_eq.
        -- done.
        -- intros g' kind' q. apply Hne1.
        -- intros q Hq. by apply Hmembers.
        -- intros kind' Hk. by apply Hkinds.
        -- done.
        -- done.
    + intros g' kind' Hn. by apply Hnull.
    + done.
    + done.
  - (* the first kind: the copy constructor *)
    subst done. cbn [app].
    rewrite (copy_PartialSolution_spec (heap k1) P oP HoP) by (rewrite HchP; left).
    cbn [mbind result_bind].
    set (c := length (heap k1)).
    set (chain := chain_normalize ([c] ++ ps_Chained oP)).
    set (co := mkPartialSolution ∅ ∅ chain (ps_initial oP)).
    set (k' := set_heap k1 (heap k1 ++ [co])).
    assert (Hvalid : forall g' kind' q,
               solutions g' k1 !! kind' = Some (Some q) -> q < c).
    { intros g' kind' q Hq. destruct (Hcached1 g' kind' q Hq) as (_ & oq & Hoq & _).
      by eapply lookup_lt_Some. }
    destruct (kit_heap_frame k1 k' Hok1) as [Hok' Href']; try done.
    { intros g' kind' q Hq. subst k'. cbn. rewrite lookup_app_l; [done|].
      by eapply Hvalid. }
    assert (Hc : heap k' !! c = Some co).
    { subst k'. cbn. rewrite lookup_app_r by (subst c; lia).
      subst c. by rewrite Nat.sub_diag. }
    assert (HP' : heap k' !! P = Some oP).
    { subst k'. cbn. rewrite lookup_app_l; [done|]. by eapply lookup_lt_Some. }
    assert (Hmembers : forall q, q ∈ chain -> q = c \/ q = P).
    { intros q Hq. subst chain. rewrite elem_of_chain_normalize, HchP in Hq.
      set_solver. }
    destruct (chain_objects_exists (heap k') chain) as [objs Hobjs].
    { intros q Hq. destruct (Hmembers q Hq) as [-> | ->]; eauto. }
    assert (Hcov : covered objs = ps_VSet oP).
    { apply set_eq. intros v. rewrite elem_of_covered. split.
      - intros (o' & Ho' & Hvo).
        apply (chain_objects_elem_of _ _ _ o' Hobjs) in Ho' as (q & Hq & Hoq).
        destruct (Hmembers q Hq) as [-> | ->].
        + assert (o' = co) as -> by congruence. cbn in Hvo. set_solver.
        + by assert (o' = oP) as -> by congruence.
      - intros Hvo. exists oP. split; [|done].
        apply (chain_objects_elem_of _ _ _ oP Hobjs). exists P. split; [|done].
        subst chain. rewrite elem_of_chain_normalize, HchP. set_solver. }
    assert (Hcc : c ∈ chain).
    { subst chain. rewrite elem_of_chain_normalize. set_solver. }
    exists k', c. split_and!.
    + done.
    + done.
    + by eapply kit_refines_trans.
    + exists co, objs. split_and!.
      * done.
      * done.
      * done.
      * done.
      * intros g' kind' q Hq <-. apply Hvalid in Hq. lia.
      * intros q Hq. destruct (Hmembers q Hq) as [-> | ->]; [by left|].
        right. exists kind. split; [left|]. done.
      * intros kind' Hk. apply list_elem_of_singleton in Hk as ->. exists P.
        split; [done|]. change (P ∈ chain).
        subst chain. rewrite elem_of_chain_normalize, HchP. set_solver.
      * done.
      * assert (Heq : forall T,
                   models objs T
                   <-> forall kind', kind' ∈ [kind] -> kind_models g k' kind' T).
        { intros T.
          rewrite (chain_models_kinds g k' [kind] c co chain objs T).
          - split; [by intros [_ ?]|]. intros H. split; [cbn; set_solver|done].
          - apply Hok'.
          - done.
          - done.
          - intros g' kind' q Hq <-. apply Hvalid in Hq. lia.
          - intros q Hq. destruct (Hmembers q Hq) as [-> | ->]; [by left|].
            right. exists kind. split; [left|]. done.
          - intros kind' Hk. apply list_elem_of_singleton in Hk as ->. exists P.
            split; [done|].
            subst chain. rewrite elem_of_chain_normalize, HchP. set_solver.
          - done.
          - done. }
        apply (least_model_equiv (models objs)); [done|].
        split; [|by intros T [? _]].
        apply Heq. intros kind' Hk. apply list_elem_of_singleton in Hk as ->.
        unfold kind_models. change (solutions g k') with (solutions g k1).
        rewrite HsP. exists oP. split; [done|]. by rewrite Hcov.
    + intros g' kind' Hn. by apply Hnull.
    + done.
    + done.
Qed.

Lemma solution_fold_spec g kinds : forall k PS done,
  kit_ok k ->
  match PS with None => done = [] /\ kinds <> [] | Some ps => merged_ok g k done ps end ->
  (forall kind, kind ∈ kinds -> solutions g k !! kind <> Some None) ->
  exists k' ps',
    foldM (solution_step g) (k, PS) kinds = Ok (k', Some ps') /\
    kit_ok k' /\ kit_refines k k' /\ merged_ok g k' (done ++ kinds) ps' /\
    (forall g' kind', solutions g' k' !! kind' = Some None ->
                      solutions g' k !! kind' = Some None) /\
    vars k' = vars k /\ joins k' = joins k.
Proof.
  induction kinds as [|kind r IH]; intros k PS done Hok HPS Hnn.
  - destruct PS as [ps|]; [|by destruct HPS].
    exists k, ps. rewrite app_nil_r. split_and!; try done. apply kit_refines_refl.
  - destruct (solution_step_spec g k PS done kind Hok) as
      (k1 & ps1 & Hstep & Hok1 & Href1 & Hm1 & Hnull1 & Hv1 & Hj1).
    { destruct PS; [done|]. by destruct HPS. }
    { apply Hnn. left. }
    destruct (IH k1 (Some ps1) (done ++ [kind]) Hok1 Hm1) as
      (k' & ps' & Hfold & Hok' & Href' & Hm' & Hnull' & Hv' & Hj').
    { intros kind' Hk E. apply Hnull1 in E. revert E. apply Hnn. by right. }
    exists k', ps'. cbn [foldM]. rewrite Hstep. cbn [mbind result_bind].
    rewrite <- app_assoc in Hm'. split_and!; try done.
    + by eapply kit_refines_trans.
    + intros g' kind' E. by apply Hnull1, Hnull'.
    + congruence.
    + congruence.
Qed.

(** [leastSolution] and [greatestSolution] of the kit return when every
    kind has a cache entry that is not null or none at all: the solution
    they return covers the least set of variables that every kind
    accepts. *)
Lemma kit_solution_spec g k (kinds : gset string) :
  kit_ok k -> kinds <> ∅ ->
  (forall kind, kind ∈ kinds -> solutions g k !! kind <> Some None) ->
  exists k' ps o objs,
    kit_solution g k kinds = Ok (k', ps) /\
    kit_ok k' /\ kit_refines k k' /\ vars k' = vars k /\ joins k' = joins k /\
    heap k' !! ps = Some o /\ ps_initial o = g /\
    chain_objects (heap k') (ps_Chained o) = Ok objs /\
    least_model (fun T => forall kind, kind ∈ kinds -> kind_models g k kind T)
                (covered objs) /\
    (forall E, PartialSolution_subst (heap k') ps E = Ok (PS_subst_eval g objs E)).
Proof.
  intros Hok Hne Hnn.
  destruct (solution_fold_spec g (elements kinds) k None [] Hok) as
    (k' & ps & Hfold & Hok' & Href & Hm & Hnull & Hv & Hj).
  { split; [done|]. intros E. apply Hne. by apply elements_empty_inv in E as ->%leibniz_equiv. }
  { intros kind Hk. apply Hnn. by apply elem_of_elements. }
  destruct Hm as (o & objs & Hps & Hin & HP & Hmem & Hnc & Hch & Hdone & Hobjs & Hleast).
  exists k', ps, o, objs. split_and!; try done.
  - unfold kit_solution. by rewrite Hfold.
  - eapply least_model_equiv; [|exact Hleast]. intros T. cbn [app].
    split; intros H kind Hk.
    + apply Href. apply H. by apply elem_of_elements.
    + apply elem_of_elements in Hk. apply Href. split; [by apply H|].
      destruct (Hdone kind) as (q & Hq & _); [by apply elem_of_elements|].
      by rewrite Hq.
  - intros E. unfold PartialSolution_subst, deref. rewrite Hps.
    cbn [mbind result_bind]. rewrite Hobjs. cbn [mbind result_bind]. by rewrite Hin.
Qed.

(** *** The multi-threaded entry points keep the kit well formed *)

Lemma foldM_invariant {A B : Type} (f : A -> B -> result A) (I : A -> Prop) l :
  (forall a x a', x ∈ l -> I a -> f a x = Ok a' -> I a') ->
  forall a a', I a -> foldM f a l = Ok a' -> I a'.
Proof.
  induction l as [|x r IH]; intros Hf a a' Ha; cbn [foldM].
  - by intros [= <-].
  - destruct (f a x) as [a1| | |] eqn:E; cbn [mbind result_bind]; try done.
    apply IH; [|by eapply (Hf a x a1); [left|..]].
    intros b y b' Hy. apply Hf. by right.
Qed.

Lemma kit_solveMT_preserves k kind k' :
  kit_ok k -> kit_solveMT k kind = Ok k' ->
  kit_ok k' /\ kit_refines k k' /\ vars k' = vars k /\ joins k' = joins k.
Proof.
  intros Hok. pose proof Hok as [Hsf Hc]. unfold kit_solveMT.
  destruct (bool_decide (kind ∈ lockedConstraintKinds k)) eqn:El;
    cbn [negb cassert mbind result_bind]; [done|].
  cbv zeta. cbn [leastSolutions greatestSolutions set_locked set_solutions].
  destruct (leastSolutions k !! kind) as [x|] eqn:EL.
  { rewrite (bool_decide_eq_true_2 (is_Some (Some x))) by eauto. done. }
  rewrite (bool_decide_eq_false_2 (is_Some (@None (option nat))))
    by by intros [? ?].
  cbn [negb cassert mbind result_bind].
  destruct (greatestSolutions k !! kind) as [x|] eqn:EG.
  { rewrite (bool_decide_eq_true_2 (is_Some (Some x))) by eauto. done. }
  rewrite (bool_decide_eq_false_2 (is_Some (@None (option nat))))
    by by intros [? ?].
  cbn [negb cassert mbind result_bind].
  match goal with |- context [getOrCreateConstraintSet ?kN kind] =>
    set (k0 := kN) end.
  destruct (getOrCreateConstraintSet_fields k0 kind)
    as (F1 & F2 & F3 & F4 & F5 & F6 & F7 & F8).
  pose proof (getOrCreateConstraintSet_set k0 kind) as FC.
  destruct (getOrCreateConstraintSet k0 kind) as [k1 C]. cbn [fst snd] in *.
  assert (HC : C = constraints_of k kind) by (subst C; done).
  assert (Hnj : no_join_on_rhs C).
  { rewrite HC. unfold constraints_of.
    destruct (constraints k !! kind) as [cs|] eqn:Ek; [by eapply Hsf|constructor]. }
  assert (Hh1 : heap k1 = heap k) by (rewrite F1; done).
  destruct (new_PartialSolution_spec (heap k1) C true (fun _ => Hnj))
    as (oG & HnG & HchG & HinG & HmG & HselfG).
  rewrite HnG. cbn [mbind result_bind].
  destruct (new_PartialSolution_spec (heap k1 ++ [oG]) C false)
    as (oL & HnL & HchL & HinL & HmL & HselfL); [done|].
  rewrite HnL. cbn [mbind result_bind]. intros [= <-].
  set (kA := mkLHConstraintKit (constraints k) ({[ kind ]} ∪ lockedConstraintKinds k)
               (vars k) (joins k) (leastSolutions k)
               (<[ kind := Some (length (heap k)) ]> (greatestSolutions k))
               (heap k ++ [oG]) (explicitLHConstraints k) (implicitLHConstraints k)).
  destruct (kit_install true kind oG k kA Hok) as [HokA HrefA]; try done.
  { by rewrite <- Hh1. }
  { intros T. by rewrite HmG, HC. }
  { cbn. set_solver. }
  { cbn. set_solver. }
  { intros kind' cs. by right. }
  { intros kind'. by left. }
  match goal with |- kit_ok (freeUnneededConstraints ?kE kind) /\ _ =>
    set (kE0 := kE) end.
  destruct (freeUnneededConstraints_fields kE0 kind)
    as (G1 & G2 & G3 & G4 & G5 & G6 & G7 & G8).
  set (kF := freeUnneededConstraints kE0 kind) in *.
  cbn [heap leastSolutions greatestSolutions lockedConstraintKinds vars joins
       constraints kE0] in G1, G2, G3, G4, G5, G6, G7.
  destruct (kit_install false kind oL kA kF HokA) as [HokF HrefF].
  - cbn. done.
  - cbn. rewrite HchL, Hh1. done.
  - done.
  - intros T. rewrite HmL, HC. done.
  - done.
  - subst kF. rewrite G1. cbn. by rewrite Hh1.
  - subst kF. cbn [solutions]. rewrite G2. cbn. rewrite F2. subst k0. cbn.
    rewrite insert_insert_eq, Hh1. done.
  - subst kF. cbn [solutions negb]. rewrite G3. cbn. rewrite F3. subst k0. cbn.
    rewrite insert_insert_eq, Hh1. done.
  - subst kF. rewrite G4, F4. subst k0. cbn. set_solver.
  - subst kF. rewrite G4, F4. subst k0. cbn. set_solver.
  - intros kind' cs Hk. subst kF. destruct (G7 kind' cs Hk) as [->|Hk2]; [by left|].
    destruct (F8 kind' cs Hk2) as [->|Hk0]; [by left|]. by right.
  - intros kind'. subst kF. destruct (G8 kind') as [Hk|[H1 H2]].
    + left. rewrite Hk. transitivity (constraints_of k1 kind'); [done|].
      rewrite F7. done.
    + right. by rewrite G2, G3.
  - split_and!; [done|by eapply kit_refines_trans| |].
    + subst kF. rewrite G5, F5. done.
    + subst kF. rewrite G6, F6. done.
Qed.

Lemma kit_null_entry g k kind :
  kit_ok k -> solutions g k !! kind = None ->
  kit_ok (set_solutions g k (<[ kind := None ]> (solutions g k))) /\
  kit_refines k (set_solutions g k (<[ kind := None ]> (solutions g k))).
Proof.
  intros [Hsf Hc] Hn.
  set (k' := set_solutions g k (<[ kind := None ]> (solutions g k))).
  assert (Hlook : forall g' kind',
            solutions g' k' !! kind'
            = if bool_decide (g' = g /\ kind' = kind) then Some None
              else solutions g' k !! kind').
  { intros g' kind'. case_bool_decide as Hd.
    - destruct Hd as [-> ->]. subst k'.
      by rewrite solutions_set_solutions, lookup_insert_eq.
    - destruct (decide (g' = g)) as [->|Hg].
      + subst k'. rewrite solutions_set_solutions, lookup_insert_ne; [done|].
        intros <-. by apply Hd.
      + assert (g' = negb g) as -> by (destruct g, g'; done).
        subst k'. by rewrite solutions_set_solutions_ne. }
  assert (Hf : heap k' = heap k /\ constraints k' = constraints k /\
               lockedConstraintKinds k' = lockedConstraintKinds k)
    by (subst k'; by destruct g).
  destruct Hf as (Hh & Hco & Hl).
  split; [split|split].
  - intros kind' cs. rewrite Hco. apply Hsf.
  - intros g' kind' p. rewrite Hlook, Hl, Hh. case_bool_decide; [done|]. apply Hc.
  - intros g' kind' x Hx. rewrite Hlook. case_bool_decide as Hd; [|done].
    destruct Hd as [-> ->]. congruence.
  - intros g' kind' T. unfold kind_models, constraints_of. rewrite Hlook, Hh, Hco.
    case_bool_decide as Hd.
    + split; [done|]. by intros [_ ?].
    + destruct (solutions g' k !! kind') as [[p|]|];
        (split; [by intros ?|by intros [? _]]).
Qed.

Lemma merge_frame P DS u Mergees : forall h h',
  merge h P DS u Mergees = Ok h' ->
  length h' = length h /\ forall q, q ∉ Mergees -> h' !! q = h !! q.
Proof.
  unfold merge. induction Mergees as [|I r IH]; intros h h'; cbn [foldM].
  - by intros [= <-].
  - destruct P as [d|]; [|done].
    destruct (mergeIn h I d) as [h1| | |] eqn:E1; cbn [mbind result_bind]; try done.
    apply mergeIn_frame in E1 as (o1 & ->).
    destruct u.
    + destruct DS as [ds|]; [|done].
      destruct (mergeIn _ I ds) as [h2| | |] eqn:E2; cbn [mbind result_bind];
        try done.
      apply mergeIn_frame in E2 as (o2 & ->). intros H.
      apply IH in H as [Hlen Hq]. split.
      * by rewrite Hlen, !length_insert.
      * intros q Hn. rewrite Hq by set_solver.
        rewrite !list_lookup_insert_ne; [done|set_solver|set_solver].
    + intros H. apply IH in H as [Hlen Hq]. split.
      * by rewrite Hlen, !length_insert.
      * intros q Hn. rewrite Hq by set_solver.
        rewrite !list_lookup_insert_ne; [done|set_solver].
Qed.

Lemma merges_frame P DS u MI : forall h h',
  foldM (fun h Mergees => merge h P DS u Mergees) h MI = Ok h' ->
  length h' = length h /\
  forall q, (forall M, M ∈ MI -> q ∉ M) -> h' !! q = h !! q.
Proof.
  induction MI as [|M r IH]; intros h h'; cbn [foldM].
  - by intros [= <-].
  - destruct (merge h P DS u M) as [h1| | |] eqn:E1; cbn [mbind result_bind];
      try done.
    apply merge_frame in E1 as [Hlen1 Hq1]. intros H.
    apply IH in H as [Hlen Hq]. split; [congruence|].
    intros q Hn. rewrite Hq, Hq1; [done| |].
    + apply Hn. left.
    + intros M' HM'. apply Hn. by right.
Qed.

Lemma round_robin_elem_of T l : forall TID MI M x,
  M ∈ round_robin T TID l MI -> x ∈ M ->
  x ∈ l \/ exists M0, M0 ∈ MI /\ x ∈ M0.
Proof.
  induction l as [|y r IH]; intros TID MI M x; cbn [round_robin].
  - intros HM Hx. right. eauto.
  - intros HM Hx. destruct (IH _ _ _ _ HM Hx) as [Hr|(M0 & HM0 & Hx0)].
    + left. by right.
    + apply list_elem_of_lookup_1 in HM0 as [i Hi].
      destruct (decide (i = TID)) as [->|Hne].
      * rewrite list_lookup_alter_eq in Hi.
        destruct (MI !! TID) as [M1|] eqn:E1; [|done]. cbn in Hi.
        injection Hi as <-. apply elem_of_app in Hx0 as [Hx0|Hx0].
        -- right. exists M1. split; [by eapply list_elem_of_lookup_2|done].
        -- apply list_elem_of_singleton in Hx0 as ->. left. left.
      * rewrite list_lookup_alter_ne in Hi by done.
        right. exists M0. split; [by eapply list_elem_of_lookup_2|done].
Qed.

Lemma kit_solveLeastMT_preserves k kinds u k' PS :
  kit_ok k -> kit_solveLeastMT k kinds u = Ok (k', PS) ->
  kit_ok k' /\ kit_refines k k' /\ vars k' = vars k /\ joins k' = joins k.
Proof.
  intros Hok. unfold kit_solveLeastMT.
  destruct (cassert _ _); cbn [mbind result_bind]; try done.
  set (kn := match leastSolutions k !! "default-sinks" with
             | Some _ => k
             | None => set_solutions false k
                         (<[ "default-sinks" := None ]> (leastSolutions k))
             end).
  assert (Hn : kit_ok kn /\ kit_refines k kn /\ vars kn = vars k /\ joins kn = joins k).
  { subst kn. destruct (leastSolutions k !! "default-sinks") eqn:E.
    - split_and!; try done. apply kit_refines_refl.
    - destruct (kit_null_entry false k "default-sinks" Hok E) as [H1 H2].
      by split_and!. }
  destruct Hn as (Hokn & Hrefn & Hvn & Hjn).
  set (Inv := fun st : LHConstraintKit * list nat =>
              kit_ok st.1 /\ kit_refines kn st.1 /\
              vars st.1 = vars kn /\ joins st.1 = joins kn /\
              forall c, c ∈ st.2 ->
                c < length (heap st.1) /\
                forall g kind, solutions g st.1 !! kind <> Some (Some c)).
  match goal with |- context [foldM ?f (kn, []) kinds] =>
    destruct (foldM f (kn, []) kinds) as [[kB TM]| | |] eqn:Ef;
      cbn [mbind result_bind]; try done;
    assert (HI : Inv (kB, TM));
      [apply (foldM_invariant f Inv kinds) with (a := (kn, [])); [| |exact Ef]|]
  end.
  - (* one kind *)
    clear Ef. intros [k0 TM0] kind [k3 TM3] _ (Hok0 & Href0 & Hv0 & Hj0 & Hc0).
    cbn [fst snd] in *. pose proof Hok0 as [Hsf0 Hcached0].
    destruct (bool_decide (kind ∈ lockedConstraintKinds k0)) eqn:El;
      cbn [negb cassert mbind result_bind]; [done|].
    cbv zeta. cbn [leastSolutions set_locked].
    destruct (leastSolutions k0 !! kind) as [x|] eqn:EL.
    { rewrite (bool_decide_eq_true_2 (is_Some (Some x))) by eauto. done. }
    rewrite (bool_decide_eq_false_2 (is_Some (@None (option nat))))
      by by intros [? ?].
    cbn [negb cassert mbind result_bind].
    match goal with |- context [getOrCreateConstraintSet ?kN kind] =>
      set (kL := kN) end.
    destruct (getOrCreateConstraintSet_fields kL kind)
      as (F1 & F2 & F3 & F4 & F5 & F6 & F7 & F8).
    pose proof (getOrCreateConstraintSet_set kL kind) as FC.
    destruct (getOrCreateConstraintSet kL kind) as [k1 C]. cbn [fst snd] in *.
    assert (HC : C = constraints_of k0 kind) by (subst C; done).
    assert (Hh1 : heap k1 = heap k0) by (rewrite F1; done).
    destruct (new_PartialSolution_spec (heap k1) C false)
      as (o & Hnew & Hch & Hin & Hm & Hself); [done|].
    rewrite Hnew. cbn [mbind result_bind].
    set (k2 := set_solutions false (set_heap k1 (heap k1 ++ [o]))
                 (<[ kind := Some (length (heap k1)) ]> (leastSolutions k1))).
    destruct (kit_install false kind o k0 k2 Hok0) as [Hok2 Href2].
    { done. }
    { by rewrite <- Hh1. }
    { done. }
    { intros T. by rewrite Hm, HC. }
    { done. }
    { subst k2. cbn. by rewrite Hh1. }
    { subst k2. cbn. by rewrite F2, Hh1. }
    { subst k2. cbn. by rewrite F3. }
    { subst k2. cbn. rewrite F4. subst kL. cbn. set_solver. }
    { subst k2. cbn. rewrite F4. subst kL. cbn. set_solver. }
    { intros kind' cs Hk. subst k2. cbn in Hk.
      destruct (F8 kind' cs Hk) as [->|Hk0]; [by left|]. by right. }
    { intros kind'. left. transitivity (constraints_of k1 kind'); [done|].
      by rewrite F7. }
    assert (Hp : heap k2 !! length (heap k1) = Some o).
    { subst k2. cbn. rewrite lookup_app_r by lia. by rewrite Nat.sub_diag. }
    change (heap (set_solutions false (set_heap k1 (heap k1 ++ [o]))
                    (<[ kind := Some (length (heap k1)) ]> (leastSolutions k1))))
      with (heap k2).
    rewrite (copy_PartialSolution_spec (heap k2) (length (heap k1)) o Hp)
      by (rewrite Hch; left).
    cbn [mbind result_bind]. intros [= <- <-].
    match goal with |- Inv (set_heap k2 (_ ++ [?c]), _) => set (co := c) end.
    change (heap k1 ++ [o]) with (heap k2).
    assert (Hvalid : forall g kind' q,
               solutions g k2 !! kind' = Some (Some q) -> q < length (heap k2)).
    { intros g kind' q Hq. destruct Hok2 as [_ Hc2].
      destruct (Hc2 g kind' q Hq) as (_ & oq & Hoq & _). by eapply lookup_lt_Some. }
    destruct (kit_heap_frame k2 (set_heap k2 (heap k2 ++ [co])) Hok2)
      as [Hok3 Href3]; try done.
    { intros g kind' q Hq. cbn. rewrite lookup_app_l; [done|]. by eapply Hvalid. }
    unfold Inv. cbn [fst snd]. split_and!.
    + done.
    + eapply kit_refines_trans; [exact Href0|].
      eapply kit_refines_trans; [exact Href2|exact Href3].
    + cbn. subst k2. cbn. rewrite F5. subst kL. cbn. done.
    + cbn. subst k2. cbn. rewrite F6. subst kL. cbn. done.
    + intros c [Hc|Hc]%elem_of_app.
      * destruct (Hc0 c Hc) as [Hlt Hnc]. split.
        -- cbn. rewrite length_app. subst k2. cbn. rewrite length_app, Hh1. lia.
        -- intros g kind' E. change (solutions g k2 !! kind' = Some (Some c)) in E.
           destruct g.
           ++ subst k2. cbn in E. rewrite F3 in E. subst kL. cbn in E.
              by apply (Hnc true kind').
           ++ subst k2. cbn in E. rewrite F2 in E. subst kL. cbn in E.
              destruct (decide (kind' = kind)) as [->|Hk].
              ** rewrite lookup_insert_eq in E. injection E as <-.
                 rewrite Hh1 in Hlt. lia.
              ** rewrite lookup_insert_ne in E by done. by apply (Hnc false kind').
      * apply list_elem_of_singleton in Hc as ->. split.
        -- change (length (heap k2) < length (heap k2 ++ [co])).
           rewrite length_app. cbn [length]. lia.
        -- intros g kind' E. change (solutions g k2 !! kind' = Some (Some (length (heap k2)))) in E.
           apply Hvalid in E. lia.
  - (* the start of the loop *)
    unfold Inv. cbn [fst snd]. split_and!; try done; [apply kit_refines_refl|].
    intros c Hc. by apply elem_of_nil in Hc.
  - (* the workers *)
    destruct HI as (HokB & HrefB & HvB & HjB & HcB). cbn [fst snd] in *.
    match goal with |- context [foldM ?f (heap kB) ?MI] =>
      destruct (foldM f (heap kB) MI) as [h'| | |] eqn:Em;
        cbn [mbind result_bind]; try done
    end.
    apply merges_frame in Em as [Hlen Hq]. intros [= <- <-].
    destruct (kit_heap_frame kB (set_heap kB h') HokB) as [Hok' Href']; try done.
    { intros g kind q Hc. cbn. apply Hq. intros M HM Hin.
      destruct (round_robin_elem_of _ _ _ _ _ _ HM Hin) as [Hr|(M0 & HM0 & Hx0)].
      - apply list_elem_of_In in Hr. apply in_rev in Hr.
        apply list_elem_of_In in Hr. destruct (HcB q Hr) as [_ Hnc].
        by apply (Hnc g kind).
      - apply elem_of_replicate in HM0 as [-> _]. by apply elem_of_nil in Hx0. }
    split_and!.
    + done.
    + eapply kit_refines_trans; [exact Hrefn|].
      eapply kit_refines_trans; [exact HrefB|exact Href'].
    + cbn. congruence.
    + cbn. congruence.
Qed.

(** *** [addConstraint] and the solutions *)

Lemma closed_app_list cls cs cs' T :
  closed cls (cs ++ cs') T <-> closed cls cs T /\ closed cls cs' T.
Proof.
  unfold closed. split.
  - intros H. split; intros c Hc; apply H; apply elem_of_app; [by left|by right].
  - intros [H1 H2] c [Hc|Hc]%elem_of_app; [by apply H1|by apply H2].
Qed.

(** The constraint vectors of [k'] are those of [k], or emptied. *)
Definition constraints_shrink (k k' : LHConstraintKit) : Prop :=
  forall kind cs, constraints k' !! kind = Some cs ->
                  cs = [] \/ constraints k !! kind = Some cs.

Lemma addConstraint_kit k kind lhs_ rhs_ k' :
  kit_ok k -> addConstraint k kind lhs_ rhs_ = Ok k' ->
  kit_ok k' /\ vars k' = vars k /\ joins k' = joins k /\
  (forall g, solutions g k' = solutions g k) /\ heap k' = heap k /\
  constraints k' = <[ kind := constraints_of k kind ++ expanded lhs_ rhs_ ]>
                     (constraints k) /\
  (forall g kind' T,
     kind_models g k' kind' T
     <-> kind_models g k kind' T /\
         (kind' = kind -> closed (class_of_initial g) (expanded lhs_ rhs_) T)).
Proof.
  intros Hok H. pose proof Hok as [Hsf Hc].
  destruct (addConstraint_inv _ _ _ _ _ H) as [Hl Hr].
  destruct (addConstraint_Ok k kind lhs_ rhs_ Hl Hr)
    as (k2 & H2 & Hco & Hlk & Hv & Hj & HL & HG & Hh).
  rewrite H in H2. injection H2 as <-.
  assert (Hs : forall g, solutions g k' = solutions g k) by (by intros []).
  split_and!; try done.
  - split; [by eapply addConstraint_stored_form|].
    intros g kind' p. rewrite Hs, Hlk, Hh. apply Hc.
  - intros g kind' T. unfold kind_models. rewrite Hs, Hh.
    destruct (solutions g k !! kind') as [[p|]|] eqn:E.
    + split; [|by intros [? _]]. intros H1. split; [done|]. intros ->.
      destruct (Hc g kind p E) as [Hin _]. done.
    + split; [done|by intros [? _]].
    + unfold constraints_of. rewrite Hco.
      destruct (decide (kind' = kind)) as [->|Hne].
      * rewrite lookup_insert_eq. cbn [from_option id]. rewrite closed_app_list.
        split; [intros [? ?]|intros [? H2]]; split; try done. by apply H2.
      * rewrite lookup_insert_ne by done. split; [|by intros [? _]].
        intros H1. split; [done|]. by intros ->.
Qed.

(** ** The states of the pass *)

(** The places where the pass keeps a constraint variable. *)
Inductive Slot : Type :=
| slot_value (ctxt value : nat)
| slot_varg (ctxt fun_ : nat)
| slot_loc (loc : nat)
| slot_sink_value (value : nat)
| slot_source_value (value : nat)
| slot_sink_varg (fun_ : nat)
| slot_source_varg (fun_ : nat).

#[global] Instance Slot_eq_dec : EqDecision Slot.
Proof. solve_decision. Defined.

Definition slot_lookup (fl : Infoflow) (s : Slot) : option ConsElem :=
match s with
| slot_value ctxt value => default ∅ (valueConstraintMap fl !! ctxt) !! value
| slot_varg ctxt fun_ => default ∅ (vargConstraintMap fl !! ctxt) !! fun_
| slot_loc loc => locConstraintMap fl !! loc
| slot_sink_value value => summarySinkValueConstraintMap fl !! value
| slot_source_value value => summarySourceValueConstraintMap fl !! value
| slot_sink_varg fun_ => summarySinkVargConstraintMap fl !! fun_
| slot_source_varg fun_ => summarySourceVargConstraintMap fl !! fun_
end.

Definition is_source_varg (s : Slot) : bool :=
match s with slot_source_varg _ => true | _ => false end.

Definition is_value (s : Slot) : bool :=
match s with slot_value _ _ => true | _ => false end.

(** The elements the pass puts on the left of a constraint: constants,
    and the variables of the slots other than the varargs summary
    sources. *)
Definition usable_elem (fl : Infoflow) (e : ConsElem) : Prop :=
  (exists l, e = LHConstant l) \/
  exists s, is_source_varg s = false /\ slot_lookup fl s = Some e.

Definition usable (fl : Infoflow) (lhs_ : ConsElem) : Prop :=
match lhs_ with
| LHJoin es => Forall (usable_elem fl) es
| _ => usable_elem fl lhs_
end.

Definition same_slots (fl fl' : Infoflow) : Prop :=
  forall s, slot_lookup fl' s = slot_lookup fl s.

(** The steps the functions of the pass are made of: a new variable put
    in an empty slot, a new join, a new constraint, a solved kind. *)
Inductive pstep : Infoflow -> Infoflow -> Prop :=
| pstep_fresh fl fl' s d :
    slot_lookup fl s = None ->
    kit fl' = set_vars (kit fl) (vars (kit fl) ++ [d]) ->
    (forall s', slot_lookup fl' s'
                = if bool_decide (s' = s)
                  then Some (LHConsVar (length (vars (kit fl))))
                  else slot_lookup fl s') ->
    pstep fl fl'
| pstep_joins fl fl' j :
    same_slots fl fl' -> kit fl' = set_joins (kit fl) j -> pstep fl fl'
| pstep_add fl fl' kind lhs_ rhs_ :
    same_slots fl fl' -> usable fl lhs_ ->
    addConstraint (kit fl) kind lhs_ rhs_ = Ok (kit fl') -> pstep fl fl'
| pstep_solve fl fl' :
    same_slots fl fl' ->
    (kit_ok (kit fl) ->
     kit_ok (kit fl') /\ kit_refines (kit fl) (kit fl')) ->
    vars (kit fl') = vars (kit fl) ->
    constraints_shrink (kit fl) (kit fl') ->
    pstep fl fl'.

(** What every state of the pass satisfies: the kit is well formed; a
    slot holds a variable the kit has allocated, and no two slots hold
    the same one; the variables on the left of a constraint come from
    slots other than the varargs summary sources; and a set the least
    solutions accept still is accepted with a variable of a varargs
    summary source, or a variable not allocated yet, added to it. *)
Record wf_state (fl : Infoflow) : Prop := mk_wf_state {
  wf_kit : kit_ok (kit fl);
  wf_vars : forall s e, slot_lookup fl s = Some e ->
              exists i, e = LHConsVar i /\ i < length (vars (kit fl));
  wf_inj : forall s s' i, slot_lookup fl s = Some (LHConsVar i) ->
             slot_lookup fl s' = Some (LHConsVar i) -> s = s';
  wf_lhs : forall kind cs c i,
             constraints (kit fl) !! kind = Some cs -> c ∈ cs ->
             i ∈ variables (lhs c) ∅ ->
             exists s, is_source_varg s = false /\
                       slot_lookup fl s = Some (LHConsVar i);
  wf_sources : forall kind T i,
             (length (vars (kit fl)) <= i \/
              exists f, slot_lookup fl (slot_source_varg f) = Some (LHConsVar i)) ->
             kind_models false (kit fl) kind T ->
             kind_models false (kit fl) kind (T ∪ {[ i ]})
}.

Lemma kit_sem_same k k' :
  constraints k' = constraints k ->
  (forall g, solutions g k' = solutions g k) ->
  heap k' = heap k ->
  lockedConstraintKinds k' = lockedConstraintKinds k ->
  (kit_ok k -> kit_ok k') /\
  forall g kind T, kind_models g k' kind T <-> kind_models g k kind T.
Proof.
  intros Hc Hs Hh Hl. split.
  - intros [Hsf Hca]. split.
    + intros kind cs. rewrite Hc. apply Hsf.
    + intros g kind p. rewrite Hs, Hl, Hh. apply Hca.
  - intros g kind T. unfold kind_models, constraints_of. by rewrite Hs, Hh, Hc.
Qed.

Lemma expanded_lhs_usable fl lhs_ rhs_ c :
  usable fl lhs_ -> c ∈ expanded lhs_ rhs_ -> usable_elem fl (lhs c).
Proof.
  intros Hu Hc. destruct lhs_ as [l|v|es]; cbn in Hc.
  - apply list_elem_of_singleton in Hc as ->. done.
  - apply list_elem_of_singleton in Hc as ->. done.
  - apply list_elem_of_fmap in Hc as (member & -> & Hm). cbn in Hu |- *.
    rewrite list.Forall_forall in Hu. by apply Hu.
Qed.

Lemma usable_elem_vars fl e i :
  wf_state fl -> usable_elem fl e -> i ∈ variables e ∅ ->
  exists s, is_source_varg s = false /\ slot_lookup fl s = Some (LHConsVar i).
Proof.
  intros Hwf [[l ->]|(s & Hs & He)] Hi; [cbn in Hi; set_solver|].
  destruct (wf_vars fl Hwf s e He) as (j & -> & _).
  cbn in Hi. assert (i = j) as -> by set_solver. eauto.
Qed.

Lemma not_source_var fl i s :
  wf_state fl ->
  (length (vars (kit fl)) <= i \/
   exists f, slot_lookup fl (slot_source_varg f) = Some (LHConsVar i)) ->
  is_source_varg s = false -> slot_lookup fl s = Some (LHConsVar i) -> False.
Proof.
  intros Hwf [Hlen|(f & Hf)] Hs Hi.
  - destruct (wf_vars fl Hwf s _ Hi) as (j & [= <-] & Hlt). lia.
  - assert (s = slot_source_varg f) as -> by by eapply (wf_inj fl Hwf).
    done.
Qed.

Lemma closed_add_source fl lhs_ rhs_ T i :
  wf_state fl -> usable fl lhs_ ->
  (length (vars (kit fl)) <= i \/
   exists f, slot_lookup fl (slot_source_varg f) = Some (LHConsVar i)) ->
  closed LHConsLeastSoln (expanded lhs_ rhs_) T ->
  closed LHConsLeastSoln (expanded lhs_ rhs_) (T ∪ {[ i ]}).
Proof.
  intros Hwf Hu Hi Hcl c Hc Ht.
  assert (Hni : i ∉ sources LHConsLeastSoln c).
  { intros Hin. unfold sources in Hin. cbn [indexed_side] in Hin.
    destruct (usable_elem_vars fl (lhs c) i Hwf) as (s & Hs & Hsi);
      [by eapply expanded_lhs_usable|done|].
    by eapply not_source_var. }
  assert (triggered LHConsLeastSoln T c) as Ht'.
  { apply (triggered_local _ T (T ∪ {[ i ]}) c); [|done].
    intros v Hv. set_solver. }
  specialize (Hcl c Hc Ht'). set_solver.
Qed.

Lemma pstep_wf fl fl' : wf_state fl -> pstep fl fl' -> wf_state fl'.
Proof.
  intros Hwf Hstep. destruct Hstep as
    [fl fl' s d Hnone Hkit Hslots
    |fl fl' j Hslots Hkit
    |fl fl' kind lhs_ rhs_ Hslots Hu Hadd
    |fl fl' Hslots Hsolve Hvars Hshrink].
  - (* a new variable *)
    destruct (kit_sem_same (kit fl) (kit fl')) as [Hok Hkm];
      try (rewrite Hkit; done).
    assert (Hlen : length (vars (kit fl')) = S (length (vars (kit fl)))).
    { rewrite Hkit. cbn. rewrite length_app. cbn. lia. }
    assert (Hold : forall s' e, slot_lookup fl s' = Some e ->
                                slot_lookup fl' s' = Some e).
    { intros s' e He. rewrite Hslots. case_bool_decide as Hd; [|done].
      subst s'. congruence. }
    split.
    + apply Hok, Hwf.
    + intros s' e. rewrite Hslots, Hlen. case_bool_decide.
      * intros [= <-]. eexists. split; [done|]. lia.
      * intros He. destruct (wf_vars fl Hwf s' e He) as (i & -> & Hlt).
        exists i. split; [done|]. lia.
    + intros s1 s2 i. rewrite !Hslots.
      case_bool_decide as H1; case_bool_decide as H2.
      * congruence.
      * intros [= <-] H. destruct (wf_vars fl Hwf s2 _ H) as (i & [= <-] & Hlt). lia.
      * intros H [= <-]. destruct (wf_vars fl Hwf s1 _ H) as (i & [= <-] & Hlt). lia.
      * apply (wf_inj fl Hwf).
    + intros kind cs c i. rewrite Hkit. cbn [constraints set_vars].
      intros Hcs Hc Hi.
      destruct (wf_lhs fl Hwf kind cs c i Hcs Hc Hi) as (s' & Hs' & Hl).
      exists s'. split; [done|]. by apply Hold.
    + intros kind T i Hi. rewrite !Hkm. apply (wf_sources fl Hwf).
      rewrite Hlen in Hi. destruct Hi as [Hi|(f & Hf)]; [left; lia|].
      rewrite Hslots in Hf. case_bool_decide.
      * injection Hf as <-. left. lia.
      * right. eauto.
  - (* a new join *)
    destruct (kit_sem_same (kit fl) (kit fl')) as [Hok Hkm];
      try (rewrite Hkit; done).
    split.
    + apply Hok, Hwf.
    + intros s e. rewrite Hslots, Hkit. apply (wf_vars fl Hwf).
    + intros s1 s2 i. rewrite !Hslots. apply (wf_inj fl Hwf).
    + intros kind cs c i. rewrite Hkit. cbn [constraints set_joins].
      intros Hcs Hc Hi.
      destruct (wf_lhs fl Hwf kind cs c i Hcs Hc Hi) as (s' & Hs' & Hl).
      exists s'. by rewrite Hslots.
    + intros kind T i Hi. rewrite !Hkm. apply (wf_sources fl Hwf).
      rewrite Hkit in Hi. cbn [vars set_joins] in Hi.
      destruct Hi as [Hi|(f & Hf)]; [by left|]. rewrite Hslots in Hf. eauto.
  - (* a new constraint *)
    destruct (addConstraint_kit _ _ _ _ _ (wf_kit fl Hwf) Hadd)
      as (Hok & Hv & Hj & Hs & Hh & Hco & Hkm).
    split.
    + done.
    + intros s e. rewrite Hslots, Hv. apply (wf_vars fl Hwf).
    + intros s1 s2 i. rewrite !Hslots. apply (wf_inj fl Hwf).
    + intros kind' cs c i. rewrite Hco.
      assert (Hgoal : forall c, c ∈ constraints_of (kit fl) kind' ++
                                    (if decide (kind' = kind) then expanded lhs_ rhs_ else []) ->
                i ∈ variables (lhs c) ∅ ->
                exists s, is_source_varg s = false /\
                          slot_lookup fl' s = Some (LHConsVar i)).
      { intros c0 [Hc0|Hc0]%elem_of_app Hi.
        - unfold constraints_of in Hc0.
          destruct (constraints (kit fl) !! kind') as [old|] eqn:E;
            [|by apply elem_of_nil in Hc0].
          destruct (wf_lhs fl Hwf kind' old c0 i E Hc0 Hi) as (s' & Hs' & Hl).
          exists s'. by rewrite Hslots.
        - case_decide; [|by apply elem_of_nil in Hc0].
          destruct (usable_elem_vars fl (lhs c0) i Hwf) as (s' & Hs' & Hl);
            [by eapply expanded_lhs_usable|done|].
          exists s'. by rewrite Hslots. }
      destruct (decide (kind' = kind)) as [->|Hne].
      * rewrite lookup_insert_eq. intros [= <-] Hc. by apply Hgoal.
      * rewrite lookup_insert_ne by done. intros Hcs Hc. apply Hgoal.
        rewrite app_nil_r. unfold constraints_of. by rewrite Hcs.
    + intros kind' T i Hi. rewrite !Hkm. rewrite Hv in Hi.
      assert (Hi' : length (vars (kit fl)) <= i \/
                    exists f, slot_lookup fl (slot_source_varg f) = Some (LHConsVar i)).
      { destruct Hi as [Hi|(f & Hf)]; [by left|]. rewrite Hslots in Hf. eauto. }
      intros [H1 H2]. split; [by apply (wf_sources fl Hwf)|].
      intros Hk. by eapply closed_add_source; [..|apply H2].
  - (* a solved kind *)
    destruct (Hsolve (wf_kit fl Hwf)) as [Hok Href].
    split.
    + done.
    + intros s e. rewrite Hslots, Hvars. apply (wf_vars fl Hwf).
    + intros s1 s2 i. rewrite !Hslots. apply (wf_inj fl Hwf).
    + intros kind cs c i Hcs Hc Hi.
      destruct (Hshrink kind cs Hcs) as [->|Hcs0]; [by apply elem_of_nil in Hc|].
      destruct (wf_lhs fl Hwf kind cs c i Hcs0 Hc Hi) as (s' & Hs' & Hl).
      exists s'. by rewrite Hslots.
    + intros kind T i Hi. rewrite Hvars in Hi. destruct Href as [_ Href].
      rewrite !Href. intros [H1 H2]. split; [|done].
      apply (wf_sources fl Hwf); [|done].
      destruct Hi as [Hi|(f & Hf)]; [by left|]. rewrite Hslots in Hf. eauto.
Qed.

(** Along a step the slots keep what they hold and the kit accepts
    fewer sets. *)
Lemma pstep_mono fl fl' :
  wf_state fl -> pstep fl fl' ->
  (forall s e, slot_lookup fl s = Some e -> slot_lookup fl' s = Some e) /\
  (forall g kind T, kind_models g (kit fl') kind T -> kind_models g (kit fl) kind T).
Proof.
  intros Hwf Hstep. destruct Hstep as
    [fl fl' s d Hnone Hkit Hslots
    |fl fl' j Hslots Hkit
    |fl fl' kind lhs_ rhs_ Hslots Hu Hadd
    |fl fl' Hslots Hsolve Hvars Hshrink].
  - split.
    + intros s' e He. rewrite Hslots. case_bool_decide as Hd; [|done].
      subst s'. congruence.
    + intros g kind T. rewrite Hkit.
      by destruct (kit_sem_same (kit fl) (set_vars (kit fl) (vars (kit fl) ++ [d])))
        as [_ ->].
  - split.
    + intros s e. by rewrite Hslots.
    + intros g kind T. rewrite Hkit.
      by destruct (kit_sem_same (kit fl) (set_joins (kit fl) j)) as [_ ->].
  - split.
    + intros s e. by rewrite Hslots.
    + intros g kind' T.
      destruct (addConstraint_kit _ _ _ _ _ (wf_kit fl Hwf) Hadd)
        as (_ & _ & _ & _ & _ & _ & ->). by intros [? _].
  - split.
    + intros s e. by rewrite Hslots.
    + intros g kind T. destruct (Hsolve (wf_kit fl Hwf)) as [_ [_ ->]].
      by intros [? _].
Qed.

Definition psteps : Infoflow -> Infoflow -> Prop := rtc pstep.

Lemma psteps_wf fl fl' : wf_state fl -> psteps fl fl' -> wf_state fl'.
Proof. intros Hwf H. induction H; [done|]. eauto using pstep_wf. Qed.

Lemma psteps_mono fl fl' :
  wf_state fl -> psteps fl fl' ->
  (forall s e, slot_lookup fl s = Some e -> slot_lookup fl' s = Some e) /\
  (forall g kind T, kind_models g (kit fl') kind T -> kind_models g (kit fl) kind T).
Proof.
  intros Hwf H. induction H as [fl|fl fl1 fl2 H1 H2 IH]; [done|].
  destruct (pstep_mono fl fl1 Hwf H1) as [Hs Hk].
  destruct (IH (pstep_wf _ _ Hwf H1)) as [Hs' Hk']. split.
  - intros s e He. by apply Hs', Hs.
  - intros g kind T HT. by apply Hk, Hk'.
Qed.

Lemma usable_elem_mono fl fl' e :
  (forall s e, slot_lookup fl s = Some e -> slot_lookup fl' s = Some e) ->
  usable_elem fl e -> usable_elem fl' e.
Proof. intros Hs [?|(s & ? & ?)]; [by left|right; eauto]. Qed.

Lemma slot_lookup_set_kit fl k s : slot_lookup (set_kit fl k) s = slot_lookup fl s.
Proof. by destruct s. Qed.

(** The variables of the states the pass reaches. *)
Lemma wf_state_new : wf_state Infoflow_new.
Proof.
  split.
  - apply kit_ok_new.
  - intros s e H. destruct s; cbn in H; by rewrite ?lookup_empty in H.
  - intros s s' i H. destruct s; cbn in H; by rewrite ?lookup_empty in H.
  - intros kind cs c i H. cbn in H. by rewrite lookup_empty in H.
  - intros kind T i _. unfold kind_models, constraints_of. cbn.
    rewrite !lookup_empty. cbn. intros _ c Hc. by apply elem_of_nil in Hc.
Qed.

(** The creation of a variable in a slot, as the seven [getOrCreate]
    functions do it. *)
Lemma fresh_slot fl fl' s d e :
  slot_lookup fl s = None ->
  kit fl' = set_vars (kit fl) (vars (kit fl) ++ [d]) ->
  e = LHConsVar (length (vars (kit fl))) ->
  (forall s', slot_lookup fl' s'
              = if bool_decide (s' = s) then Some e else slot_lookup fl s') ->
  pstep fl fl' /\ slot_lookup fl' s = Some e /\
  (forall s', s' <> s -> slot_lookup fl' s' = slot_lookup fl s').
Proof.
  intros Hn Hk -> Hs. split; [by eapply pstep_fresh|]. split.
  - rewrite Hs. by rewrite bool_decide_eq_true_2.
  - intros s' Hne. rewrite Hs. by rewrite bool_decide_eq_false_2.
Qed.

Ltac slot_cases :=
  intros [c' v'|c' v'|l'|v'|v'|v'|v']; cbn [slot_lookup valueConstraintMap
    vargConstraintMap locConstraintMap summarySinkValueConstraintMap
    summarySourceValueConstraintMap summarySinkVargConstraintMap
    summarySourceVargConstraintMap];
  case_bool_decide; simplify_eq; rewrite ?lookup_insert_eq; try done;
  try (rewrite lookup_insert_ne; [done|congruence]).

Section States.

Variable getName : nat -> string.

Lemma getOrCreateConsElemSummarySource_spec fl v fl' e :
  getOrCreateConsElemSummarySource getName fl v = (fl', e) ->
  slot_lookup fl' (slot_source_value v) = Some e /\
  (fl' = fl \/ pstep fl fl') /\
  (forall s', s' <> slot_source_value v -> slot_lookup fl' s' = slot_lookup fl s') /\
  constraints (kit fl') = constraints (kit fl).
Proof.
  unfold getOrCreateConsElemSummarySource.
  destruct (summarySourceValueConstraintMap fl !! v) as [cur|] eqn:E.
  - intros [= <- <-]. split_and!; [done|by left|done|done].
  - cbn. intros [= <- <-].
    match goal with |- _ /\ (?F = fl \/ _) /\ _ =>
      destruct (fresh_slot fl F (slot_source_value v) (getName v) _ E eq_refl eq_refl)
        as (H1 & H2 & H3); [|split_and!; [done|by right|done|done]] end.
    slot_cases.
Qed.

Lemma getOrCreateConsElemSummarySink_spec fl v fl' e :
  getOrCreateConsElemSummarySink getName fl v = (fl', e) ->
  slot_lookup fl' (slot_sink_value v) = Some e /\
  (fl' = fl \/ pstep fl fl') /\
  (forall s', s' <> slot_sink_value v -> slot_lookup fl' s' = slot_lookup fl s') /\
  constraints (kit fl') = constraints (kit fl).
Proof.
  unfold getOrCreateConsElemSummarySink.
  destruct (summarySinkValueConstraintMap fl !! v) as [cur|] eqn:E.
  - intros [= <- <-]. split_and!; [done|by left|done|done].
  - cbn. intros [= <- <-].
    match goal with |- _ /\ (?F = fl \/ _) /\ _ =>
      destruct (fresh_slot fl F (slot_sink_value v) (getName v) _ E eq_refl eq_refl)
        as (H1 & H2 & H3); [|split_and!; [done|by right|done|done]] end.
    slot_cases.
Qed.

Lemma getOrCreateVargConsElemSummarySource_spec fl v fl' e :
  getOrCreateVargConsElemSummarySource getName fl v = (fl', e) ->
  slot_lookup fl' (slot_source_varg v) = Some e /\
  (fl' = fl \/ pstep fl fl') /\
  (forall s', s' <> slot_source_varg v -> slot_lookup fl' s' = slot_lookup fl s') /\
  constraints (kit fl') = constraints (kit fl).
Proof.
  unfold getOrCreateVargConsElemSummarySource.
  destruct (summarySourceVargConstraintMap fl !! v) as [cur|] eqn:E.
  - intros [= <- <-]. split_and!; [done|by left|done|done].
  - cbn. intros [= <- <-].
    match goal with |- _ /\ (?F = fl \/ _) /\ _ =>
      destruct (fresh_slot fl F (slot_source_varg v) (getName v) _ E eq_refl eq_refl)
        as (H1 & H2 & H3); [|split_and!; [done|by right|done|done]] end.
    slot_cases.
Qed.

Lemma getOrCreateVargConsElemSummarySink_spec fl v fl' e :
  getOrCreateVargConsElemSummarySink getName fl v = (fl', e) ->
  slot_lookup fl' (slot_sink_varg v) = Some e /\
  (fl' = fl \/ pstep fl fl') /\
  (forall s', s' <> slot_sink_varg v -> slot_lookup fl' s' = slot_lookup fl s') /\
  constraints (kit fl') = constraints (kit fl).
Proof.
  unfold getOrCreateVargConsElemSummarySink.
  destruct (summarySinkVargConstraintMap fl !! v) as [cur|] eqn:E.
  - intros [= <- <-]. split_and!; [done|by left|done|done].
  - cbn. intros [= <- <-].
    match goal with |- _ /\ (?F = fl \/ _) /\ _ =>
      destruct (fresh_slot fl F (slot_sink_varg v) (getName v) _ E eq_refl eq_refl)
        as (H1 & H2 & H3); [|split_and!; [done|by right|done|done]] end.
    slot_cases.
Qed.

Lemma getOrCreateLocConsElem_spec fl l fl' e :
  getOrCreateLocConsElem fl l = (fl', e) ->
  slot_lookup fl' (slot_loc l) = Some e /\
  (fl' = fl \/ pstep fl fl') /\
  (forall s', s' <> slot_loc l -> slot_lookup fl' s' = slot_lookup fl s') /\
  constraints (kit fl') = constraints (kit fl).
Proof.
  unfold getOrCreateLocConsElem.
  destruct (locConstraintMap fl !! l) as [cur|] eqn:E.
  - intros [= <- <-]. split_and!; [done|by left|done|done].
  - cbn. intros [= <- <-].
    match goal with |- _ /\ (?F = fl \/ _) /\ _ =>
      destruct (fresh_slot fl F (slot_loc l) "an absloc" _ E eq_refl eq_refl)
        as (H1 & H2 & H3); [|split_and!; [done|by right|done|done]] end.
    slot_cases.
Qed.

End States.

Lemma nested_insert_lookup (m : gmap nat (gmap nat ConsElem)) c v e c' v' :
  default ∅ (<[ c := <[ v := e ]> (default ∅ (m !! c)) ]> m !! c') !! v'
  = if bool_decide (c' = c /\ v' = v) then Some e else default ∅ (m !! c') !! v'.
Proof.
  destruct (decide (c' = c)) as [->|Hc].
  - rewrite lookup_insert_eq. cbn [from_option id].
    destruct (decide (v' = v)) as [->|Hv].
    + rewrite lookup_insert_eq. by rewrite bool_decide_eq_true_2.
    + rewrite lookup_insert_ne by done.
      rewrite bool_decide_eq_false_2; [done|]. by intros [_ ?].
  - rewrite lookup_insert_ne by done.
    rewrite bool_decide_eq_false_2; [done|]. by intros [? _].
Qed.

Lemma or_pstep fl fl' : fl' = fl \/ pstep fl fl' -> psteps fl fl'.
Proof. intros [->|H]; [apply rtc_refl|by apply rtc_once]. Qed.

Lemma usable_slot fl s e :
  wf_state fl -> is_source_varg s = false -> slot_lookup fl s = Some e ->
  usable fl e.
Proof.
  intros Hwf Hs He. destruct (wf_vars fl Hwf s e He) as (i & -> & _).
  right. eauto.
Qed.

(** A constraint added to the kit of a state. *)
Lemma add_step fl kind lhs_ rhs_ k' :
  wf_state fl -> usable fl lhs_ ->
  addConstraint (kit fl) kind lhs_ rhs_ = Ok k' ->
  pstep fl (set_kit fl k') /\ wf_state (set_kit fl k') /\
  (forall g T, kind_models g k' kind T ->
               closed (class_of_initial g) (expanded lhs_ rhs_) T) /\
  constraints k'
  = <[ kind := constraints_of (kit fl) kind ++ expanded lhs_ rhs_ ]>
      (constraints (kit fl)).
Proof.
  intros Hwf Hu Hadd.
  assert (Hstep : pstep fl (set_kit fl k')).
  { eapply pstep_add; [|exact Hu|exact Hadd]. intros s. apply slot_lookup_set_kit. }
  destruct (addConstraint_kit _ _ _ _ _ (wf_kit fl Hwf) Hadd)
    as (_ & _ & _ & _ & _ & Hco & Hkm).
  split_and!; [done|by eapply pstep_wf| |done].
  intros g T HT. apply Hkm in HT as [_ HT]. by apply HT.
Qed.

Section Contexts.

Variable getName : nat -> string.

Lemma getOrCreateConsElem_spec fl ctxt v fl' e :
  wf_state fl ->
  getOrCreateConsElem getName fl ctxt v = Ok (fl', e) ->
  psteps fl fl' /\ slot_lookup fl' (slot_value ctxt v) = Some e /\
  (forall s, is_value s = true -> s <> slot_value ctxt v ->
             slot_lookup fl' s = slot_lookup fl s) /\
  (slot_lookup fl (slot_value ctxt v) = None ->
   exists ss t,
     slot_lookup fl' (slot_source_value v) = Some ss /\
     slot_lookup fl' (slot_sink_value v) = Some t /\
     forall g T, kind_models g (kit fl') "default" T ->
       closed (class_of_initial g)
         [mkLHConstraint ss e; mkLHConstraint e t] T).
Proof.
  intros Hwf. unfold getOrCreateConsElem.
  destruct (default ∅ (valueConstraintMap fl !! ctxt) !! v) as [cur|] eqn:E.
  { intros [= <- <-]. split_and!; [apply rtc_refl|done|done|].
    cbn [slot_lookup]. by rewrite E. }
  cbn [newVar].
  match goal with |- context [getOrCreateConsElemSummarySource getName ?F v] =>
    set (fl1 := F) end.
  set (elem := LHConsVar (length (vars (kit fl)))).
  destruct (fresh_slot fl fl1 (slot_value ctxt v) (getName v) elem E eq_refl eq_refl)
    as (S1 & L1 & F1).
  { intros [c' v'|c' v'|l'|v'|v'|v'|v']; cbn [slot_lookup fl1 valueConstraintMap
      vargConstraintMap locConstraintMap summarySinkValueConstraintMap
      summarySourceValueConstraintMap summarySinkVargConstraintMap
      summarySourceVargConstraintMap]; try by rewrite bool_decide_eq_false_2.
    rewrite nested_insert_lookup.
    destruct (decide (c' = ctxt /\ v' = v)) as [[-> ->]|Hd].
    - by rewrite !bool_decide_eq_true_2.
    - rewrite !bool_decide_eq_false_2; [done| |done]. intros [= -> ->]. by apply Hd. }
  pose proof (pstep_wf _ _ Hwf S1) as Hwf1.
  destruct (getOrCreateConsElemSummarySource getName fl1 v) as [fl2 ss] eqn:E2.
  apply getOrCreateConsElemSummarySource_spec in E2 as (L2 & S2 & F2 & C2).
  apply or_pstep in S2. pose proof (psteps_wf _ _ Hwf1 S2) as Hwf2.
  destruct (addConstraint (kit fl2) "default" ss elem) as [k3| | |] eqn:E3;
    cbn [mbind result_bind]; try done.
  destruct (add_step fl2 "default" ss elem k3 Hwf2) as (S3 & Hwf3 & M3 & C3);
    [by eapply (usable_slot fl2 (slot_source_value v))|done|].
  unfold putOrConstrainConsElemSummarySink.
  destruct (getOrCreateConsElemSummarySink getName (set_kit fl2 k3) v)
    as [fl4 t] eqn:E4.
  apply getOrCreateConsElemSummarySink_spec in E4 as (L4 & S4 & F4 & C4).
  apply or_pstep in S4. pose proof (psteps_wf _ _ Hwf3 S4) as Hwf4.
  destruct (psteps_mono _ _ Hwf3 S4) as [P4 K4].
  assert (Le4 : slot_lookup fl4 (slot_value ctxt v) = Some elem).
  { apply P4. rewrite slot_lookup_set_kit. rewrite F2; [done|done]. }
  destruct (addConstraint (kit fl4) "default" elem t) as [k5| | |] eqn:E5;
    cbn [mbind result_bind]; try done.
  destruct (add_step fl4 "default" elem t k5 Hwf4) as (S5 & Hwf5 & M5 & C5);
    [by eapply (usable_slot fl4 (slot_value ctxt v))|done|].
  intros [= <- <-].
  destruct (addConstraint_kit _ _ _ _ _ (wf_kit fl4 Hwf4) E5)
    as (_ & _ & _ & _ & _ & _ & Hkm5).
  split_and!.
  - eapply rtc_l; [exact S1|]. eapply rtc_trans; [exact S2|].
    eapply rtc_l; [exact S3|]. eapply rtc_trans; [exact S4|].
    by apply rtc_once.
  - by rewrite slot_lookup_set_kit.
  - intros s Hs Hne. rewrite slot_lookup_set_kit.
    rewrite F4 by (intros ->; done). rewrite slot_lookup_set_kit.
    rewrite F2 by (intros ->; done). by apply F1.
  - intros _.
    destruct (wf_vars fl2 Hwf2 _ _ L2) as (sv & -> & _).
    exists (LHConsVar sv), t. split_and!.
    + rewrite slot_lookup_set_kit. apply P4. by rewrite slot_lookup_set_kit.
    + by rewrite slot_lookup_set_kit.
    + intros g T HT. cbn [kit set_kit] in HT.
      apply (closed_app_list _ [mkLHConstraint (LHConsVar sv) elem]
               [mkLHConstraint elem t]).
      split; [|by apply (M5 g T)].
      apply Hkm5 in HT as [HT _]. apply K4 in HT. by apply (M3 g T).
Qed.

Lemma getOrCreateVargConsElem_spec fl ctxt f fl' e :
  wf_state fl ->
  getOrCreateVargConsElem getName fl ctxt f = Ok (fl', e) ->
  psteps fl fl' /\ slot_lookup fl' (slot_varg ctxt f) = Some e /\
  (forall s, is_value s = true -> slot_lookup fl' s = slot_lookup fl s) /\
  (slot_lookup fl (slot_varg ctxt f) = None ->
   exists ss t,
     slot_lookup fl' (slot_source_value f) = Some ss /\
     slot_lookup fl' (slot_sink_varg f) = Some t /\
     slot_lookup fl' (slot_source_varg f) = slot_lookup fl (slot_source_varg f) /\
     constraints (kit fl') !! "default"
     = Some (constraints_of (kit fl) "default"
             ++ [mkLHConstraint ss e; mkLHConstraint e t])).
Proof.
  intros Hwf. unfold getOrCreateVargConsElem.
  destruct (default ∅ (vargConstraintMap fl !! ctxt) !! f) as [cur|] eqn:E.
  { intros [= <- <-]. split_and!; [apply rtc_refl|done|done|].
    cbn [slot_lookup]. by rewrite E. }
  cbn [newVar].
  match goal with |- context [getOrCreateConsElemSummarySource getName ?F f] =>
    set (fl1 := F) end.
  set (elem := LHConsVar (length (vars (kit fl)))).
  destruct (fresh_slot fl fl1 (slot_varg ctxt f) (getName f) elem E eq_refl eq_refl)
    as (S1 & L1 & F1).
  { intros [c' v'|c' v'|l'|v'|v'|v'|v']; cbn [slot_lookup fl1 valueConstraintMap
      vargConstraintMap locConstraintMap summarySinkValueConstraintMap
      summarySourceValueConstraintMap summarySinkVargConstraintMap
      summarySourceVargConstraintMap]; try by rewrite bool_decide_eq_false_2.
    rewrite nested_insert_lookup.
    destruct (decide (c' = ctxt /\ v' = f)) as [[-> ->]|Hd].
    - by rewrite !bool_decide_eq_true_2.
    - rewrite !bool_decide_eq_false_2; [done| |done]. intros [= -> ->]. by apply Hd. }
  pose proof (pstep_wf _ _ Hwf S1) as Hwf1.
  destruct (getOrCreateConsElemSummarySource getName fl1 f) as [fl2 ss] eqn:E2.
  apply getOrCreateConsElemSummarySource_spec in E2 as (L2 & S2 & F2 & C2).
  apply or_pstep in S2. pose proof (psteps_wf _ _ Hwf1 S2) as Hwf2.
  destruct (addConstraint (kit fl2) "default" ss elem) as [k3| | |] eqn:E3;
    cbn [mbind result_bind]; try done.
  destruct (add_step fl2 "default" ss elem k3 Hwf2) as (S3 & Hwf3 & M3 & C3);
    [by eapply (usable_slot fl2 (slot_source_value f))|done|].
  unfold putOrConstrainVargConsElemSummarySink.
  destruct (getOrCreateVargConsElemSummarySink getName (set_kit fl2 k3) f)
    as [fl4 t] eqn:E4.
  apply getOrCreateVargConsElemSummarySink_spec in E4 as (L4 & S4 & F4 & C4).
  apply or_pstep in S4. pose proof (psteps_wf _ _ Hwf3 S4) as Hwf4.
  destruct (psteps_mono _ _ Hwf3 S4) as [P4 K4].
  assert (Le4 : slot_lookup fl4 (slot_varg ctxt f) = Some elem).
  { apply P4. rewrite slot_lookup_set_kit. rewrite F2; [done|done]. }
  destruct (addConstraint (kit fl4) "default" elem t) as [k5| | |] eqn:E5;
    cbn [mbind result_bind]; try done.
  destruct (add_step fl4 "default" elem t k5 Hwf4) as (S5 & Hwf5 & M5 & C5);
    [by eapply (usable_slot fl4 (slot_varg ctxt f))|done|].
  intros [= <- <-].
  split_and!.
  - eapply rtc_l; [exact S1|]. eapply rtc_trans; [exact S2|].
    eapply rtc_l; [exact S3|]. eapply rtc_trans; [exact S4|].
    by apply rtc_once.
  - by rewrite slot_lookup_set_kit.
  - intros s Hs. rewrite slot_lookup_set_kit.
    rewrite F4 by (intros ->; done). rewrite slot_lookup_set_kit.
    rewrite F2 by (intros ->; done). apply F1. by intros ->.
  - intros _.
    destruct (wf_vars fl2 Hwf2 _ _ L2) as (sv & -> & _).
    exists (LHConsVar sv), t. split_and!.
    + rewrite slot_lookup_set_kit. apply P4. by rewrite slot_lookup_set_kit.
    + by rewrite slot_lookup_set_kit.
    + rewrite slot_lookup_set_kit. rewrite F4 by done.
      rewrite slot_lookup_set_kit. rewrite F2 by done. by apply F1.
    + cbn [kit set_kit]. rewrite C5, lookup_insert_eq. f_equal.
      unfold constraints_of at 1. rewrite C4. cbn [kit set_kit]. rewrite C3.
      rewrite lookup_insert_eq. cbn [from_option id].
      unfold constraints_of at 1. rewrite C2. subst elem. cbn.
      by rewrite <- app_assoc.
Qed.

End Contexts.

(** *** Solving only empties constraint vectors *)

Lemma constraints_shrink_refl k : constraints_shrink k k.
Proof. intros kind cs. by right. Qed.

Lemma constraints_shrink_trans k1 k2 k3 :
  constraints_shrink k1 k2 -> constraints_shrink k2 k3 -> constraints_shrink k1 k3.
Proof.
  intros H1 H2 kind cs H. destruct (H2 kind cs H) as [->|H']; [by left|].
  by apply H1.
Qed.

Lemma constraints_shrink_same k k' :
  constraints k' = constraints k -> constraints_shrink k k'.
Proof. intros E kind cs. rewrite E. by right. Qed.

Lemma getOrCreateConstraintSet_shrink k kind :
  constraints_shrink k (getOrCreateConstraintSet k kind).1.
Proof.
  by destruct (getOrCreateConstraintSet_fields k kind) as (_ & _ & _ & _ & _ & _ & _ & H).
Qed.

Lemma freeUnneededConstraints_shrink k kind :
  constraints_shrink k (freeUnneededConstraints k kind).
Proof.
  by destruct (freeUnneededConstraints_fields k kind) as (_ & _ & _ & _ & _ & _ & H & _).
Qed.

Ltac step_cassert :=
  match goal with
  | |- context [cassert ?b ?m] =>
      destruct b eqn:?; cbn [cassert mbind result_bind]; try done
  end.

Lemma solution_step_shrink g k PS kind k' PS' :
  solution_step g (k, PS) kind = Ok (k', PS') -> constraints_shrink k k'.
Proof.
  unfold solution_step. cbv beta iota zeta.
  match goal with |- (?r ≫= _) = _ -> _ =>
    destruct r as [k1| | |] eqn:E1; cbn [mbind result_bind]; try done end.
  assert (H1 : constraints_shrink k k1).
  { destruct (bool_decide (is_Some (solutions g k !! kind))).
    - injection E1 as <-. apply constraints_shrink_refl.
    - pose proof (getOrCreateConstraintSet_shrink
                    (set_locked k ({[ kind ]} ∪ lockedConstraintKinds k)) kind) as Hs.
      destruct (getOrCreateConstraintSet _ kind) as [k0 C]. cbn [fst] in Hs.
      destruct (new_PartialSolution _ _ _) as [[h p]| | |];
        cbn [mbind result_bind] in E1; try done.
      injection E1 as <-.
      eapply constraints_shrink_trans; [|apply freeUnneededConstraints_shrink].
      intros kind' cs Hk. apply Hs. by destruct g. }
  destruct (solutions g k1 !! kind) as [[P|]|]; try done.
  destruct PS as [ps|].
  - destruct (mergeIn _ _ _); cbn [mbind result_bind]; try done.
    intros [= <- <-]. done.
  - destruct (copy_PartialSolution _ _) as [[h c]| | |];
      cbn [mbind result_bind]; try done.
    intros [= <- <-]. done.
Qed.

Lemma kit_solution_shrink g k kinds k' ps :
  kit_solution g k kinds = Ok (k', ps) -> constraints_shrink k k'.
Proof.
  unfold kit_solution.
  destruct (foldM _ _ _) as [[k1 PS]| | |] eqn:Ef; cbn [mbind result_bind]; try done.
  destruct PS as [ps'|]; [|done]. intros [= <- <-].
  apply (foldM_invariant (solution_step g)
           (fun st => constraints_shrink k st.1) (elements kinds))
    with (a := (k, None)) (a' := (k1, Some ps')); [| |done].
  - intros [k0 PS0] kind [k2 PS2] _ H0 Hs. cbn [fst] in *.
    eapply constraints_shrink_trans; [exact H0|]. by eapply solution_step_shrink.
  - apply constraints_shrink_refl.
Qed.

Lemma kit_solveMT_shrink k kind k' :
  kit_solveMT k kind = Ok k' -> constraints_shrink k k'.
Proof.
  unfold kit_solveMT. cbv zeta. repeat step_cassert.
  match goal with |- context [getOrCreateConstraintSet ?kN kind] =>
    pose proof (getOrCreateConstraintSet_shrink kN kind) as Hs;
    destruct (getOrCreateConstraintSet kN kind) as [k1 C] end.
  cbn [fst] in Hs.
  destruct (new_PartialSolution _ _ true) as [[h G]| | |];
    cbn [mbind result_bind]; try done.
  destruct (new_PartialSolution _ _ false) as [[h' L]| | |];
    cbn [mbind result_bind]; try done.
  intros [= <-].
  eapply constraints_shrink_trans; [|apply freeUnneededConstraints_shrink].
  intros kind' cs Hk. by apply Hs.
Qed.

Lemma kit_solveLeastMT_shrink k kinds u k' PS :
  kit_solveLeastMT k kinds u = Ok (k', PS) -> constraints_shrink k k'.
Proof.
  unfold kit_solveLeastMT. step_cassert.
  match goal with |- context [foldM ?f (?kn, []) kinds] =>
    destruct (foldM f (kn, []) kinds) as [[kB TM]| | |] eqn:Ef;
      cbn [mbind result_bind]; try done;
    assert (HI : constraints_shrink k kB);
      [apply (foldM_invariant f (fun st => constraints_shrink k st.1) kinds)
         with (a := (kn, [])) (a' := (kB, TM)); [| |exact Ef]|]
  end.
  - intros [k0 TM0] kind [k3 TM3] _ H0. cbn [fst] in *.
    cbv zeta. repeat step_cassert.
    match goal with |- context [getOrCreateConstraintSet ?kN kind] =>
      pose proof (getOrCreateConstraintSet_shrink kN kind) as Hs;
      destruct (getOrCreateConstraintSet kN kind) as [k1 C] end.
    cbn [fst] in Hs.
    destruct (new_PartialSolution _ _ _) as [[h p]| | |];
      cbn [mbind result_bind]; try done.
    destruct (copy_PartialSolution _ _) as [[h' c]| | |];
      cbn [mbind result_bind]; try done.
    intros [= <- <-]. eapply constraints_shrink_trans; [exact H0|].
    intros kind' cs Hk. by apply Hs.
  - cbn [fst]. destruct (leastSolutions k !! "default-sinks");
      by apply constraints_shrink_same.
  - destruct (foldM _ (heap kB) _); cbn [mbind result_bind]; try done.
    intros [= <- <-]. done.
Qed.

Lemma solution_step_nonnull g k PS kind st' :
  solution_step g (k, PS) kind = Ok st' -> solutions g k !! kind <> Some None.
Proof.
  intros H E. unfold solution_step in H. cbv beta iota zeta in H.
  rewrite E in H. rewrite bool_decide_eq_true_2 in H by eauto.
  cbn [mbind result_bind] in H. by rewrite E in H.
Qed.

(** A successful [leastSolution] or [greatestSolution] keeps the kit
    well formed. *)
Lemma kit_solution_preserves g k kinds k' ps :
  kit_ok k -> kit_solution g k kinds = Ok (k', ps) ->
  kit_ok k' /\ kit_refines k k' /\ vars k' = vars k /\ joins k' = joins k.
Proof.
  intros Hok. unfold kit_solution.
  destruct (foldM _ _ _) as [[k1 PS]| | |] eqn:Ef; cbn [mbind result_bind]; try done.
  destruct PS as [ps'|]; [|done]. intros [= <- <-].
  set (Inv := fun st : LHConstraintKit * option nat =>
         kit_ok st.1 /\ kit_refines k st.1 /\ vars st.1 = vars k /\
         joins st.1 = joins k /\
         match st.2 with
         | None => True
         | Some ps => exists done, merged_ok g st.1 done ps
         end).
  assert (HI : Inv (k1, Some ps')).
  { apply (foldM_invariant (solution_step g) Inv (elements kinds))
      with (a := (k, None)); [| |exact Ef].
    - intros [k0 PS0] kind st' _ (Hok0 & Href0 & Hv0 & Hj0 & HPS0) Hstep.
      cbn [fst snd] in *.
      pose proof (solution_step_nonnull _ _ _ _ _ Hstep) as Hnn.
      assert (exists done, match PS0 with
                           | None => done = []
                           | Some ps => merged_ok g k0 done ps
                           end) as [done Hdone].
      { destruct PS0 as [ps0|]; [|by exists []]. done. }
      destruct (solution_step_spec g k0 PS0 done kind Hok0 Hdone Hnn)
        as (k2 & ps2 & Hs2 & Hok2 & Href2 & Hm2 & _ & Hv2 & Hj2).
      rewrite Hstep in Hs2. injection Hs2 as ->. unfold Inv. cbn [fst snd].
      split_and!; [done|by eapply kit_refines_trans|congruence|congruence|eauto].
    - unfold Inv. cbn [fst snd]. split_and!; try done. apply kit_refines_refl. }
  destruct HI as (H1 & H2 & H3 & H4 & _). by split_and!.
Qed.

(** A join requested from the kit is the join of the set. *)
Lemma upperBound_set_spec k elems :
  (upperBound_set k elems).2 = LHJoin_of elems /\
  exists js, (upperBound_set k elems).1 = set_joins k js.
Proof.
  unfold upperBound_set, upperBound_set_at, join_instance. cbn [fst snd].
  split; [|eauto].
  pose proof (joins_insert_find (joins k) (LHJoin_of elems)) as H.
  apply list_find_Some in H as (H & _). cbn [joins set_joins]. by rewrite H.
Qed.

(** Every context-sensitive variable of a value lies, in the kind
    default, between the summary source and the summary sink of the
    value. *)
Definition linked (fl : Infoflow) : Prop :=
  forall ctxt v x, slot_lookup fl (slot_value ctxt v) = Some x ->
    exists sv xv tv,
      x = LHConsVar xv /\
      slot_lookup fl (slot_source_value v) = Some (LHConsVar sv) /\
      slot_lookup fl (slot_sink_value v) = Some (LHConsVar tv) /\
      forall g T, kind_models g (kit fl) "default" T ->
        closed (class_of_initial g)
          [mkLHConstraint (LHConsVar sv) (LHConsVar xv);
           mkLHConstraint (LHConsVar xv) (LHConsVar tv)] T.

Lemma linked_new : linked Infoflow_new.
Proof. intros ctxt v x H. cbn in H. by rewrite !lookup_empty in H. Qed.

Section Reachable.

Variable getName : nat -> string.
Variable locsForValue : nat -> gset nat.
Variable reachableLocsForValue : nat -> gset nat.
Variable DepsDropAtSink : bool.
Variable valueIsSink : nat -> bool.
Variable vargIsSink : nat -> bool.
Variable directPtrIsSink : nat -> bool.
Variable reachPtrIsSink : nat -> bool.

(** The steps of the interface of the pass: a step that leaves the
    context-sensitive variables of values alone, or the creation of one
    with its links. *)
Inductive astep : Infoflow -> Infoflow -> Prop :=
| astep_prim fl fl' :
    pstep fl fl' ->
    (forall s, is_value s = true -> slot_lookup fl' s = slot_lookup fl s) ->
    astep fl fl'
| astep_value fl fl' ctxt v e :
    getOrCreateConsElem getName fl ctxt v = Ok (fl', e) -> astep fl fl'.

Definition asteps : Infoflow -> Infoflow -> Prop := rtc astep.

Lemma astep_psteps fl fl' : wf_state fl -> astep fl fl' -> psteps fl fl'.
Proof.
  intros Hwf Hs. destruct Hs as [fl fl' H _|fl fl' ctxt v e H].
  - by apply rtc_once.
  - by destruct (getOrCreateConsElem_spec getName _ _ _ _ _ Hwf H) as [? _].
Qed.

Lemma asteps_facts fl fl' :
  wf_state fl -> asteps fl fl' -> wf_state fl' /\ psteps fl fl'.
Proof.
  intros Hwf H. induction H as [fl|fl fl1 fl2 H1 H2 IH].
  - split; [done|apply rtc_refl].
  - pose proof (astep_psteps _ _ Hwf H1) as Hp.
    destruct (IH (psteps_wf _ _ Hwf Hp)) as [Hwf2 Hp2].
    split; [done|]. by eapply rtc_trans.
Qed.

Lemma asteps_wf fl fl' : wf_state fl -> asteps fl fl' -> wf_state fl'.
Proof. intros Hwf H. by destruct (asteps_facts fl fl' Hwf H). Qed.

Lemma asteps_mono fl fl' :
  wf_state fl -> asteps fl fl' ->
  (forall s e, slot_lookup fl s = Some e -> slot_lookup fl' s = Some e) /\
  (forall g kind T, kind_models g (kit fl') kind T -> kind_models g (kit fl) kind T).
Proof.
  intros Hwf H. destruct (asteps_facts fl fl' Hwf H) as [_ Hp].
  by apply psteps_mono.
Qed.

(** Steps that leave the context-sensitive variables of values alone
    are steps of the interface. *)
Lemma psteps_asteps fl fl' :
  wf_state fl -> psteps fl fl' ->
  (forall s, is_value s = true -> slot_lookup fl' s = slot_lookup fl s) ->
  asteps fl fl'.
Proof.
  intros Hwf H. induction H as [fl|fl fl1 fl2 H1 H2 IH]; intros Hv.
  - apply rtc_refl.
  - pose proof (pstep_wf _ _ Hwf H1) as Hwf1.
    destruct (pstep_mono _ _ Hwf H1) as [P1 _].
    destruct (psteps_mono _ _ Hwf1 H2) as [P2 _].
    assert (Hv1 : forall s, is_value s = true -> slot_lookup fl1 s = slot_lookup fl s).
    { intros s Hs. destruct (slot_lookup fl s) as [e|] eqn:E; [by apply P1|].
      destruct (slot_lookup fl1 s) as [e|] eqn:E1; [|done].
      apply P2 in E1. rewrite (Hv s Hs), E in E1. done. }
    eapply rtc_l; [by apply astep_prim|]. apply IH; [done|].
    intros s Hs. by rewrite (Hv s Hs), (Hv1 s Hs).
Qed.

Lemma astep_linked fl fl' : wf_state fl -> linked fl -> astep fl fl' -> linked fl'.
Proof.
  intros Hwf Hl Hstep.
  pose proof (astep_psteps _ _ Hwf Hstep) as Hp.
  pose proof (psteps_wf _ _ Hwf Hp) as Hwf'.
  destruct (psteps_mono _ _ Hwf Hp) as [Hpers Hanti].
  assert (Hold : forall ctxt v x,
             slot_lookup fl (slot_value ctxt v) = Some x ->
             exists sv xv tv,
               x = LHConsVar xv /\
               slot_lookup fl' (slot_source_value v) = Some (LHConsVar sv) /\
               slot_lookup fl' (slot_sink_value v) = Some (LHConsVar tv) /\
               forall g T, kind_models g (kit fl') "default" T ->
                 closed (class_of_initial g)
                   [mkLHConstraint (LHConsVar sv) (LHConsVar xv);
                    mkLHConstraint (LHConsVar xv) (LHConsVar tv)] T).
  { intros ctxt v x Hx. destruct (Hl ctxt v x Hx) as (sv & xv & tv & -> & Hs & Ht & Hc).
    exists sv, xv, tv. split_and!; [done|by apply Hpers|by apply Hpers|].
    intros g T HT. by apply Hc, Hanti. }
  destruct Hstep as [fl fl' H Hv|fl fl' ctxt0 v0 e H].
  - intros ctxt v x Hx. rewrite Hv in Hx by done. by eapply Hold.
  - destruct (getOrCreateConsElem_spec getName _ _ _ _ _ Hwf H)
      as (_ & Le & Hframe & Hnew).
    intros ctxt v x Hx.
    destruct (decide (slot_value ctxt v = slot_value ctxt0 v0)) as [[= -> ->]|Hne].
    + rewrite Le in Hx. injection Hx as <-.
      destruct (slot_lookup fl (slot_value ctxt0 v0)) as [cur|] eqn:E.
      * pose proof (Hpers _ _ E) as E'. rewrite Le in E'. injection E' as <-.
        by eapply Hold.
      * destruct (Hnew eq_refl) as (ss & t & Hs & Ht & Hc).
        destruct (wf_vars fl' Hwf' _ _ Hs) as (sv & -> & _).
        destruct (wf_vars fl' Hwf' _ _ Ht) as (tv & -> & _).
        destruct (wf_vars fl' Hwf' _ _ Le) as (xv & -> & _).
        exists sv, xv, tv. by split_and!.
    + rewrite Hframe in Hx by done. by eapply Hold.
Qed.

Lemma asteps_linked fl fl' :
  wf_state fl -> linked fl -> asteps fl fl' -> linked fl'.
Proof.
  intros Hwf Hl H. induction H as [fl|fl fl1 fl2 H1 H2 IH]; [done|].
  apply IH.
  - eapply psteps_wf; [exact Hwf|]. by apply astep_psteps.
  - by eapply astep_linked.
Qed.

End Reachable.

Lemma usable_mono fl fl' lhs_ :
  (forall s e, slot_lookup fl s = Some e -> slot_lookup fl' s = Some e) ->
  usable fl lhs_ -> usable fl' lhs_.
Proof.
  intros Hs. destruct lhs_ as [l|v|es]; cbn; try by apply usable_elem_mono.
  apply Forall_impl. intros e. by apply usable_elem_mono.
Qed.

Lemma usable_constant fl l : usable fl (LHConstant l).
Proof. left. eauto. Qed.

Lemma usable_join fl (elems : gset ConsElem) :
  (forall e, e ∈ elems -> usable_elem fl e) -> usable fl (LHJoin_of elems).
Proof.
  intros H. unfold LHJoin_of. cbn. apply list.Forall_forall.
  intros e He. apply H. by apply elem_of_elements.
Qed.

Section Calls.

Variable getName : nat -> string.

Lemma simple_slot_asteps fl fl' s :
  is_value s = false -> fl' = fl \/ pstep fl fl' ->
  (forall s', s' <> s -> slot_lookup fl' s' = slot_lookup fl s') ->
  asteps getName fl fl'.
Proof.
  intros Hs [->|Hp] Hf; [apply rtc_refl|]. apply rtc_once. apply astep_prim; [done|].
  intros s' Hs'. apply Hf. by intros ->; rewrite Hs in Hs'.
Qed.

Lemma add_asteps fl kind lhs_ rhs_ k' :
  wf_state fl -> usable fl lhs_ ->
  addConstraint (kit fl) kind lhs_ rhs_ = Ok k' ->
  asteps getName fl (set_kit fl k').
Proof.
  intros Hwf Hu Hadd. apply rtc_once. apply astep_prim.
  - by destruct (add_step fl kind lhs_ rhs_ k' Hwf Hu Hadd) as [? _].
  - intros s _. apply slot_lookup_set_kit.
Qed.

(** Steps of the interface, then a constraint. *)
Lemma asteps_add fl fl1 kind lhs_ rhs_ k' :
  wf_state fl -> asteps getName fl fl1 -> usable fl1 lhs_ ->
  addConstraint (kit fl1) kind lhs_ rhs_ = Ok k' ->
  asteps getName fl (set_kit fl1 k').
Proof.
  intros Hwf H1 Hu Hadd. eapply rtc_trans; [exact H1|].
  eapply add_asteps; [|done|done]. by eapply asteps_wf.
Qed.

Lemma putOrConstrainConsElemSummarySource_asteps fl kind v lub fl' :
  wf_state fl -> usable fl lub ->
  putOrConstrainConsElemSummarySource getName fl kind v lub = Ok fl' ->
  asteps getName fl fl'.
Proof.
  intros Hwf Hu. unfold putOrConstrainConsElemSummarySource.
  destruct (getOrCreateConsElemSummarySource getName fl v) as [fl1 cur] eqn:E1.
  apply getOrCreateConsElemSummarySource_spec in E1 as (L1 & S1 & F1 & _).
  pose proof (simple_slot_asteps fl fl1 (slot_source_value v) eq_refl S1 F1) as A1.
  destruct (addConstraint (kit fl1) kind lub cur) as [k'| | |] eqn:E2;
    cbn [mbind result_bind]; try done.
  intros [= <-]. eapply asteps_add; [done|done| |done].
  eapply usable_mono; [|done]. by apply (asteps_mono getName fl fl1).
Qed.

Lemma putOrConstrainVargConsElemSummarySource_asteps fl kind v lub fl' :
  wf_state fl -> usable fl lub ->
  putOrConstrainVargConsElemSummarySource getName fl kind v lub = Ok fl' ->
  asteps getName fl fl'.
Proof.
  intros Hwf Hu. unfold putOrConstrainVargConsElemSummarySource.
  destruct (getOrCreateVargConsElemSummarySource getName fl v) as [fl1 cur] eqn:E1.
  apply getOrCreateVargConsElemSummarySource_spec in E1 as (L1 & S1 & F1 & _).
  pose proof (simple_slot_asteps fl fl1 (slot_source_varg v) eq_refl S1 F1) as A1.
  destruct (addConstraint (kit fl1) kind lub cur) as [k'| | |] eqn:E2;
    cbn [mbind result_bind]; try done.
  intros [= <-]. eapply asteps_add; [done|done| |done].
  eapply usable_mono; [|done]. by apply (asteps_mono getName fl fl1).
Qed.

Lemma putOrConstrainLocConsElem_asteps fl i s loc lub fl' :
  wf_state fl -> usable fl lub ->
  putOrConstrainLocConsElem fl i s loc lub = Ok fl' ->
  asteps getName fl fl'.
Proof.
  intros Hwf Hu. unfold putOrConstrainLocConsElem.
  destruct (getOrCreateLocConsElem fl loc) as [fl1 cur] eqn:E1.
  apply getOrCreateLocConsElem_spec in E1 as (L1 & S1 & F1 & _).
  pose proof (simple_slot_asteps fl fl1 (slot_loc loc) eq_refl S1 F1) as A1.
  destruct (addConstraint (kit fl1) _ lub cur) as [k'| | |] eqn:E2;
    cbn [mbind result_bind]; try done.
  intros [= <-]. eapply asteps_add; [done|done| |done].
  eapply usable_mono; [|done]. by apply (asteps_mono getName fl fl1).
Qed.

Lemma getOrCreateVargConsElem_asteps fl ctxt f fl' e :
  wf_state fl -> getOrCreateVargConsElem getName fl ctxt f = Ok (fl', e) ->
  asteps getName fl fl' /\ slot_lookup fl' (slot_varg ctxt f) = Some e.
Proof.
  intros Hwf H.
  destruct (getOrCreateVargConsElem_spec getName _ _ _ _ _ Hwf H) as (Hp & Le & Hv & _).
  split; [|done]. by apply psteps_asteps.
Qed.

Lemma getOrCreateConsElem_asteps fl ctxt v fl' e :
  wf_state fl -> getOrCreateConsElem getName fl ctxt v = Ok (fl', e) ->
  asteps getName fl fl' /\ slot_lookup fl' (slot_value ctxt v) = Some e.
Proof.
  intros Hwf H.
  destruct (getOrCreateConsElem_spec getName _ _ _ _ _ Hwf H) as (_ & Le & _).
  split; [|done]. apply rtc_once. by eapply astep_value.
Qed.

Lemma putOrConstrainConsElem_asteps fl i s ctxt v lub fl' :
  wf_state fl -> usable fl lub ->
  putOrConstrainConsElem getName fl i s ctxt v lub = Ok fl' ->
  asteps getName fl fl'.
Proof.
  intros Hwf Hu. unfold putOrConstrainConsElem.
  destruct (getOrCreateConsElem getName fl ctxt v) as [[fl1 cur]| | |] eqn:E1;
    cbn [mbind result_bind]; try done.
  apply getOrCreateConsElem_asteps in E1 as [A1 L1]; [|done].
  destruct (addConstraint (kit fl1) _ lub cur) as [k'| | |] eqn:E2;
    cbn [mbind result_bind]; try done.
  intros [= <-]. eapply asteps_add; [done|done| |done].
  eapply usable_mono; [|done]. by apply (asteps_mono getName fl fl1).
Qed.

Lemma putOrConstrainVargConsElem_asteps fl i s ctxt v lub fl' :
  wf_state fl -> usable fl lub ->
  putOrConstrainVargConsElem getName fl i s ctxt v lub = Ok fl' ->
  asteps getName fl fl'.
Proof.
  intros Hwf Hu. unfold putOrConstrainVargConsElem.
  destruct (getOrCreateVargConsElem getName fl ctxt v) as [[fl1 cur]| | |] eqn:E1;
    cbn [mbind result_bind]; try done.
  apply getOrCreateVargConsElem_asteps in E1 as [A1 L1]; [|done].
  destruct (addConstraint (kit fl1) _ lub cur) as [k'| | |] eqn:E2;
    cbn [mbind result_bind]; try done.
  intros [= <-]. eapply asteps_add; [done|done| |done].
  eapply usable_mono; [|done]. by apply (asteps_mono getName fl fl1).
Qed.

Lemma collect_loc_elems_good fl0 locs : forall fl S,
  wf_state fl0 -> asteps getName fl0 fl ->
  (forall e, e ∈ S -> usable_elem fl e) ->
  asteps getName fl0 (foldl collect_loc_elems (fl, S) locs).1 /\
  (forall e, e ∈ (foldl collect_loc_elems (fl, S) locs).2 ->
             usable_elem (foldl collect_loc_elems (fl, S) locs).1 e) /\
  (forall e, usable_elem fl e ->
             usable_elem (foldl collect_loc_elems (fl, S) locs).1 e).
Proof.
  induction locs as [|loc r IH]; intros fl S Hwf0 HA HU; cbn [foldl].
  - done.
  - assert (Est : collect_loc_elems (fl, S) loc
                  = ((getOrCreateLocConsElem fl loc).1,
                     {[ (getOrCreateLocConsElem fl loc).2 ]} ∪ S)).
    { unfold collect_loc_elems. by destruct (getOrCreateLocConsElem fl loc). }
    rewrite Est. clear Est.
    destruct (getOrCreateLocConsElem fl loc) as [fl1 e] eqn:E1. cbn [fst snd].
    apply getOrCreateLocConsElem_spec in E1 as (L1 & S1 & F1 & _).
    pose proof (simple_slot_asteps fl fl1 (slot_loc loc) eq_refl S1 F1) as A1.
    pose proof (asteps_wf getName _ _ Hwf0 HA) as Hwf.
    destruct (asteps_mono getName _ _ Hwf A1) as [Hpers _].
    destruct (IH fl1 ({[ e ]} ∪ S) Hwf0) as (H1 & H2 & H3).
    + by eapply rtc_trans.
    + intros e' He'. destruct (decide (e' = e)) as [->|Hne].
      * right. exists (slot_loc loc). done.
      * eapply usable_elem_mono; [exact Hpers|]. apply HU. set_solver.
    + split_and!; [done|done|].
      intros e' He'. apply H3. by eapply usable_elem_mono.
Qed.

Definition usable_opt (fl : Infoflow) (oe : option ConsElem) : Prop :=
  forall e, oe = Some e -> usable fl e.

(** The loops of [constrainFlowRecord] over the sinks. *)
Lemma sinks_fold_asteps
    (put : nat -> Infoflow -> bool -> ConsElem -> result Infoflow) se sse l :
  (forall sink fl s e fl', wf_state fl -> usable fl e ->
     put sink fl s e = Ok fl' -> asteps getName fl fl') ->
  forall fl fl', wf_state fl -> usable_opt fl se -> usable_opt fl sse ->
  foldM (fun fl sink =>
           fl ← match se with
                | Some e => put sink fl false e
                | None => Ok fl
                end;
           match sse with
           | Some e => put sink fl true e
           | None => Ok fl
           end) fl l = Ok fl' ->
  asteps getName fl fl'.
Proof.
  intros Hput. induction l as [|sink r IH]; intros fl fl' Hwf H1 H2; cbn [foldM].
  - intros [= <-]. apply rtc_refl.
  - assert (Hone : forall oe b fl fl1, wf_state fl -> usable_opt fl oe ->
               match oe with Some e => put sink fl b e | None => Ok fl end = Ok fl1 ->
               asteps getName fl fl1).
    { intros [e|] b fl0 fl1 Hwf0 Hu; [|intros [= <-]; apply rtc_refl].
      apply Hput; [done|]. by apply Hu. }
    destruct (match se with Some e => put sink fl false e | None => Ok fl end)
      as [fl1| | |] eqn:E1; cbn [mbind result_bind]; try done.
    apply Hone in E1; [|done|done].
    pose proof (asteps_wf getName _ _ Hwf E1) as Hwf1.
    destruct (asteps_mono getName _ _ Hwf E1) as [P1 _].
    destruct (match sse with Some e => put sink fl1 true e | None => Ok fl1 end)
      as [fl2| | |] eqn:E2; cbn [mbind result_bind]; try done.
    apply Hone in E2; [|done|].
    2:{ intros e He. eapply usable_mono; [exact P1|]. by apply H2. }
    pose proof (asteps_wf getName _ _ Hwf1 E2) as Hwf2.
    destruct (asteps_mono getName _ _ Hwf1 E2) as [P2 _].
    intros H. apply IH in H; [| |intros e He; eapply usable_mono; [|by apply H1]
                               |intros e He; eapply usable_mono; [|by apply H2]].
    + eapply rtc_trans; [exact E1|]. by eapply rtc_trans.
    + done.
    + intros s e0 Hs. by apply P2, P1.
    + intros s e0 Hs. by apply P2, P1.
Qed.

End Calls.

Section Sources.

Variable getName : nat -> string.
Variable DepsDropAtSink : bool.

(** The sources gathered by [constrainFlowRecord]: the state is reached
    by steps of the interface and the elements gathered are usable. *)
Definition good (fl0 : Infoflow) (st : Infoflow * gset ConsElem * gset ConsElem)
  : Prop :=
  asteps getName fl0 st.1.1 /\
  forall e, e ∈ st.1.2 ∪ st.2 -> usable_elem st.1.1 e.

Lemma collect_source_good isSink get fl0 st v st' :
  wf_state fl0 ->
  (forall fl v fl' e, wf_state fl -> get fl v = Ok (fl', e) ->
     asteps getName fl fl' /\
     exists s, is_source_varg s = false /\ slot_lookup fl' s = Some e) ->
  good fl0 st ->
  collect_source DepsDropAtSink isSink get st v = Ok st' ->
  good fl0 st'.
Proof.
  intros Hwf0 Hget. destruct st as [[fl S1] S2]. intros [HA HU].
  cbn [fst snd] in HA, HU |- *. unfold collect_source.
  destruct (get fl v) as [[fl1 e]| | |] eqn:E; cbn [mbind result_bind]; try done.
  pose proof (asteps_wf getName _ _ Hwf0 HA) as Hwf.
  destruct (Hget fl v fl1 e Hwf E) as (A1 & s & Hs & Le).
  destruct (asteps_mono getName _ _ Hwf A1) as [Hpers _].
  assert (HU1 : forall e', e' ∈ {[ e ]} ∪ S1 ∪ S2 -> usable_elem fl1 e').
  { intros e' He'. destruct (decide (e' = e)) as [->|Hne]; [right; eauto|].
    eapply usable_elem_mono; [exact Hpers|]. apply HU. set_solver. }
  destruct (negb DepsDropAtSink || negb (isSink v)); intros [= <-];
    (split; cbn [fst snd]; [by eapply rtc_trans|]);
    intros e' He'; apply HU1; set_solver.
Qed.

End Sources.

Lemma set_kit_set_kit fl k1 k2 : set_kit (set_kit fl k1) k2 = set_kit fl k2.
Proof. done. Qed.

Lemma join_step fl elems :
  pstep fl (set_kit fl (upperBound_set (kit fl) elems).1) /\
  (upperBound_set (kit fl) elems).2 = LHJoin_of elems.
Proof.
  destruct (upperBound_set_spec (kit fl) elems) as [H2 [js H1]]. split; [|done].
  eapply (pstep_joins _ _ js); [|by rewrite H1].
  intros s. apply slot_lookup_set_kit.
Qed.

Section Interface.

Variable getName : nat -> string.
Variable locsForValue : nat -> gset nat.
Variable reachableLocsForValue : nat -> gset nat.
Variable DepsDropAtSink : bool.
Variable valueIsSink : nat -> bool.
Variable vargIsSink : nat -> bool.
Variable directPtrIsSink : nat -> bool.
Variable reachPtrIsSink : nat -> bool.

Lemma join_asteps fl elems :
  asteps getName fl (set_kit fl (upperBound_set (kit fl) elems).1).
Proof.
  apply rtc_once. apply astep_prim; [apply join_step|].
  intros s _. apply slot_lookup_set_kit.
Qed.

Lemma constrainFlowRecord_asteps fl record fl' :
  wf_state fl ->
  constrainFlowRecord getName locsForValue reachableLocsForValue DepsDropAtSink
    valueIsSink vargIsSink directPtrIsSink reachPtrIsSink fl record = Ok fl' ->
  asteps getName fl fl'.
Proof.
  intros Hwf. unfold constrainFlowRecord.
  destruct (foldM (collect_source DepsDropAtSink valueIsSink _) _ _)
    as [st1| | |] eqn:E1; cbn [mbind result_bind]; try done.
  assert (G1 : good getName fl st1).
  { eapply (foldM_invariant _ (good getName fl)); [| |exact E1].
    - intros st v st' _ Hg Hc.
      eapply collect_source_good; [done| |exact Hg|exact Hc].
      intros fl0 v0 fl0' e0 Hwf0 Hget.
      destruct (getOrCreateConsElem_asteps getName _ _ _ _ _ Hwf0 Hget) as [A L].
      split; [done|]. by exists (slot_value (sourceCtxt record) v0).
    - split; [apply rtc_refl|]. intros e He. set_solver. }
  destruct (foldM (collect_source DepsDropAtSink vargIsSink _) st1 _)
    as [[[fl2 S2] SS2]| | |] eqn:E2; cbn [mbind result_bind]; try done.
  assert (G2 : good getName fl (fl2, S2, SS2)).
  { eapply (foldM_invariant _ (good getName fl)); [| |exact E2]; [|done].
    intros st v st' _ Hg Hc.
    eapply collect_source_good; [done| |exact Hg|exact Hc].
    intros fl0 v0 fl0' e0 Hwf0 Hget.
    destruct (getOrCreateVargConsElem_asteps getName _ _ _ _ _ Hwf0 Hget) as [A L].
    split; [done|]. by exists (slot_varg (sourceCtxt record) v0). }
  destruct G2 as [A2 U2]. cbn [fst snd] in A2, U2. cbv zeta.
  destruct (foldl (collect_source_locs DepsDropAtSink reachPtrIsSink _) _ _)
    as [SourceLocs sinkSourceLocs].
  destruct (collect_loc_elems_good getName fl (elements SourceLocs) fl2 S2 Hwf A2)
    as (A3 & U3 & M3); [intros e He; apply U2; set_solver|].
  destruct (foldl collect_loc_elems (fl2, S2) (elements SourceLocs)) as [fl3 S3].
  cbn [fst snd] in A3, U3, M3.
  destruct (collect_loc_elems_good getName fl (elements sinkSourceLocs) fl3 SS2 Hwf A3)
    as (A4 & U4 & M4); [intros e He; apply M3, U2; set_solver|].
  destruct (foldl collect_loc_elems (fl3, SS2) (elements sinkSourceLocs)) as [fl4 SS4].
  cbn [fst snd] in A4, U4, M4.
  pose proof (asteps_wf getName _ _ Hwf A4) as Hwf4.
  assert (HS3 : usable fl4 (LHJoin_of S3)).
  { apply usable_join. intros e He. by apply M4, U3. }
  assert (HSS4 : usable fl4 (LHJoin_of SS4)) by by apply usable_join.
  match goal with |- context [if ?b then _ else (kit fl4, None)] =>
    destruct (if b then let r := upperBound_set (kit fl4) S3 in (r.1, Some r.2)
              else (kit fl4, None)) as [k5 se] eqn:E5;
    assert (H5 : asteps getName fl4 (set_kit fl4 k5) /\ usable_opt fl4 se)
  end.
  { match type of E5 with (if ?b then _ else _) = _ => destruct b end.
    - cbv zeta in E5. injection E5 as <- <-. split; [apply join_asteps|].
      intros e [= <-]. change (usable fl4 (upperBound_set (kit fl4) S3).2).
      by rewrite (proj2 (join_step fl4 S3)).
    - injection E5 as <- <-. split; [|by intros e].
      destruct fl4. apply rtc_refl. }
  destruct H5 as [A5 Use].
  pose proof (asteps_wf getName _ _ Hwf4 A5) as Hwf5.
  match goal with |- context [if ?b then _ else (k5, None)] =>
    destruct (if b then let r := upperBound_set k5 SS4 in (r.1, Some r.2)
              else (k5, None)) as [k6 sse] eqn:E6;
    assert (H6 : asteps getName (set_kit fl4 k5) (set_kit fl4 k6) /\
                 usable_opt fl4 sse)
  end.
  { match type of E6 with (if ?b then _ else _) = _ => destruct b end.
    - cbv zeta in E6. injection E6 as <- <-. split.
      + rewrite <- (set_kit_set_kit fl4 k5). apply (join_asteps (set_kit fl4 k5)).
      + intros e [= <-].
        change (usable fl4 (upperBound_set (kit (set_kit fl4 k5)) SS4).2).
        by rewrite (proj2 (join_step (set_kit fl4 k5) SS4)).
    - injection E6 as <- <-. split; [apply rtc_refl|by intros e]. }
  destruct H6 as [A6 Usse].
  pose proof (asteps_wf getName _ _ Hwf5 A6) as Hwf6.
  assert (A06 : asteps getName fl (set_kit fl4 k6)).
  { eapply rtc_trans; [exact A4|]. by eapply rtc_trans. }
  assert (Use6 : usable_opt (set_kit fl4 k6) se).
  { intros e He. eapply usable_mono; [|by apply Use].
    intros s e0. by rewrite slot_lookup_set_kit. }
  assert (Usse6 : usable_opt (set_kit fl4 k6) sse).
  { intros e He. eapply usable_mono; [|by apply Usse].
    intros s e0. by rewrite slot_lookup_set_kit. }
  match goal with |- (foldM ?f _ ?l ≫= _) = _ -> _ =>
    destruct (foldM f (set_kit fl4 k6) l) as [fl7| | |] eqn:E7;
      cbn [mbind result_bind]; try done
  end.
  apply (sinks_fold_asteps getName
           (fun sink fl s e =>
              putOrConstrainConsElem getName fl (implicit record) s
                (sinkCtxt record) sink e)) in E7; [|
    intros sink fl0 s e fl0' Hwf0 Hu0 Hput;
    by eapply putOrConstrainConsElem_asteps|done|done|done].
  pose proof (asteps_wf getName _ _ Hwf6 E7) as Hwf7.
  destruct (asteps_mono getName _ _ Hwf6 E7) as [P7 _].
  match goal with |- (foldM ?f _ ?l ≫= _) = _ -> _ =>
    destruct (foldM f fl7 l) as [fl8| | |] eqn:E8;
      cbn [mbind result_bind]; try done
  end.
  apply (sinks_fold_asteps getName
           (fun sink fl s e =>
              putOrConstrainVargConsElem getName fl (implicit record) s
                (sinkCtxt record) sink e)) in E8; [|
    intros sink fl0 s e fl0' Hwf0 Hu0 Hput;
    by eapply putOrConstrainVargConsElem_asteps|done
    |intros e He; eapply usable_mono; [exact P7|by apply Use6]
    |intros e He; eapply usable_mono; [exact P7|by apply Usse6]].
  pose proof (asteps_wf getName _ _ Hwf7 E8) as Hwf8.
  destruct (asteps_mono getName _ _ Hwf7 E8) as [P8 _].
  intros E9.
  apply (sinks_fold_asteps getName
           (fun loc fl s e =>
              putOrConstrainLocConsElem fl (implicit record) s loc e)) in E9; [|
    intros sink fl0 s e fl0' Hwf0 Hu0 Hput;
    by eapply putOrConstrainLocConsElem_asteps|done
    |intros e He; eapply usable_mono; [|by apply Use6];
     intros s0 e0 Hs0; by apply P8, P7
    |intros e He; eapply usable_mono; [|by apply Usse6];
     intros s0 e0 Hs0; by apply P8, P7].
  eapply rtc_trans; [exact A06|]. eapply rtc_trans; [exact E7|].
  by eapply rtc_trans.
Qed.

End Interface.

Section Setters.

Variable getName : nat -> string.

Lemma not_default_or_implicit_Ok kind :
  not_default_or_implicit kind = Ok tt \/
  is_Ok (not_default_or_implicit kind) = false.
Proof.
  unfold not_default_or_implicit.
  destruct (bool_decide (kind = "default")); cbn; [by right|].
  destruct (bool_decide (kind = "implicit")); cbn; [by right|by left].
Qed.

Lemma setUntainted_asteps fl kind v fl' :
  wf_state fl -> setUntainted getName fl kind v = Ok fl' -> asteps getName fl fl'.
Proof.
  intros Hwf. unfold setUntainted.
  destruct (not_default_or_implicit kind); cbn [mbind result_bind]; try done.
  destruct (getOrCreateConsElemSummarySink getName fl v) as [fl1 cur] eqn:E1.
  apply getOrCreateConsElemSummarySink_spec in E1 as (L1 & S1 & F1 & _).
  pose proof (simple_slot_asteps getName fl fl1 (slot_sink_value v) eq_refl S1 F1) as A1.
  destruct (addConstraint (kit fl1) kind cur lowConstant) as [k'| | |] eqn:E2;
    cbn [mbind result_bind]; try done.
  intros [= <-]. eapply asteps_add; [done|done| |done].
  eapply (usable_slot fl1 (slot_sink_value v)); [|done|done].
  by eapply asteps_wf.
Qed.

Lemma setTainted_asteps fl kind v fl' :
  wf_state fl -> setTainted getName fl kind v = Ok fl' -> asteps getName fl fl'.
Proof.
  intros Hwf. unfold setTainted.
  destruct (not_default_or_implicit kind); cbn [mbind result_bind]; try done.
  apply putOrConstrainConsElemSummarySource_asteps; [done|apply usable_constant].
Qed.

Lemma setVargUntainted_asteps fl kind v fl' :
  wf_state fl -> setVargUntainted getName fl kind v = Ok fl' ->
  asteps getName fl fl'.
Proof.
  intros Hwf. unfold setVargUntainted.
  destruct (not_default_or_implicit kind); cbn [mbind result_bind]; try done.
  destruct (getOrCreateVargConsElemSummarySink getName fl v) as [fl1 cur] eqn:E1.
  apply getOrCreateVargConsElemSummarySink_spec in E1 as (L1 & S1 & F1 & _).
  pose proof (simple_slot_asteps getName fl fl1 (slot_sink_varg v) eq_refl S1 F1) as A1.
  destruct (addConstraint (kit fl1) kind cur lowConstant) as [k'| | |] eqn:E2;
    cbn [mbind result_bind]; try done.
  intros [= <-]. eapply asteps_add; [done|done| |done].
  eapply (usable_slot fl1 (slot_sink_varg v)); [|done|done].
  by eapply asteps_wf.
Qed.

Lemma setVargTainted_asteps fl kind v fl' :
  wf_state fl -> setVargTainted getName fl kind v = Ok fl' ->
  asteps getName fl fl'.
Proof.
  intros Hwf. unfold setVargTainted.
  destruct (not_default_or_implicit kind); cbn [mbind result_bind]; try done.
  apply putOrConstrainVargConsElemSummarySource_asteps; [done|apply usable_constant].
Qed.

Lemma set_locs_untainted_asteps kind locs : forall fl fl',
  wf_state fl -> set_locs_untainted fl kind locs = Ok fl' -> asteps getName fl fl'.
Proof.
  unfold set_locs_untainted.
  induction (elements locs) as [|loc r IH]; intros fl fl' Hwf; cbn [foldM].
  - intros [= <-]. apply rtc_refl.
  - destruct (getOrCreateLocConsElem fl loc) as [fl1 cur] eqn:E1.
    apply getOrCreateLocConsElem_spec in E1 as (L1 & S1 & F1 & _).
    pose proof (simple_slot_asteps getName fl fl1 (slot_loc loc) eq_refl S1 F1) as A1.
    pose proof (asteps_wf getName _ _ Hwf A1) as Hwf1.
    destruct (addConstraint (kit fl1) kind cur lowConstant) as [k'| | |] eqn:E2;
      cbn [mbind result_bind]; try done.
    assert (A2 : asteps getName fl (set_kit fl1 k')).
    { eapply asteps_add; [done|done| |done].
      by eapply (usable_slot fl1 (slot_loc loc)). }
    intros H. apply IH in H; [|exact (asteps_wf getName _ _ Hwf A2)].
    by eapply rtc_trans.
Qed.

Lemma set_locs_tainted_asteps kind locs : forall fl fl',
  wf_state fl -> set_locs_tainted fl kind locs = Ok fl' -> asteps getName fl fl'.
Proof.
  unfold set_locs_tainted.
  induction (elements locs) as [|loc r IH]; intros fl fl' Hwf; cbn [foldM].
  - intros [= <-]. apply rtc_refl.
  - destruct (getOrCreateLocConsElem fl loc) as [fl1 cur] eqn:E1.
    apply getOrCreateLocConsElem_spec in E1 as (L1 & S1 & F1 & _).
    pose proof (simple_slot_asteps getName fl fl1 (slot_loc loc) eq_refl S1 F1) as A1.
    pose proof (asteps_wf getName _ _ Hwf A1) as Hwf1.
    destruct (addConstraint (kit fl1) kind highConstant cur) as [k'| | |] eqn:E2;
      cbn [mbind result_bind]; try done.
    assert (A2 : asteps getName fl (set_kit fl1 k')).
    { eapply asteps_add; [done|done|apply usable_constant|done]. }
    intros H. apply IH in H; [|exact (asteps_wf getName _ _ Hwf A2)].
    by eapply rtc_trans.
Qed.

(** A solved kit is a step. *)
Lemma solve_asteps fl k' :
  wf_state fl ->
  (kit_ok (kit fl) ->
   kit_ok k' /\ kit_refines (kit fl) k' /\ vars k' = vars (kit fl) /\
   joins k' = joins (kit fl)) ->
  constraints_shrink (kit fl) k' ->
  asteps getName fl (set_kit fl k').
Proof.
  intros Hwf Hk Hs. apply rtc_once. apply astep_prim.
  - apply pstep_solve.
    + intros s. apply slot_lookup_set_kit.
    + intros Hok. by destruct (Hk Hok) as (? & ? & _).
    + by destruct (Hk (wf_kit fl Hwf)) as (_ & _ & ? & _).
    + done.
  - intros s _. apply slot_lookup_set_kit.
Qed.

Lemma leastSolution_asteps fl kinds i s fl' S :
  wf_state fl -> leastSolution fl kinds i s = Ok (fl', S) -> asteps getName fl fl'.
Proof.
  intros Hwf. unfold leastSolution, kit_leastSolution.
  destruct (kit_solution false (kit fl) _) as [[k' ps]| | |] eqn:E;
    cbn [mbind result_bind]; try done.
  intros [= <- <-]. apply solve_asteps; [done| |by eapply kit_solution_shrink].
  intros Hok. by eapply kit_solution_preserves.
Qed.

Lemma greatestSolution_asteps fl kinds i fl' S :
  wf_state fl -> greatestSolution fl kinds i = Ok (fl', S) -> asteps getName fl fl'.
Proof.
  intros Hwf. unfold greatestSolution, kit_greatestSolution.
  destruct (kit_solution true (kit fl) _) as [[k' ps]| | |] eqn:E;
    cbn [mbind result_bind]; try done.
  intros [= <- <-]. apply solve_asteps; [done| |by eapply kit_solution_shrink].
  intros Hok. by eapply kit_solution_preserves.
Qed.

Lemma solveMT_asteps fl kind fl' :
  wf_state fl -> solveMT fl kind = Ok fl' -> asteps getName fl fl'.
Proof.
  intros Hwf. unfold solveMT.
  destruct (kit_solveMT (kit fl) kind) as [k'| | |] eqn:E;
    cbn [mbind result_bind]; try done.
  intros [= <-]. apply solve_asteps; [done| |by eapply kit_solveMT_shrink].
  intros Hok. by eapply kit_solveMT_preserves.
Qed.

Lemma solveLeastMT_asteps fl kinds u fl' PS :
  wf_state fl -> solveLeastMT fl kinds u = Ok (fl', PS) -> asteps getName fl fl'.
Proof.
  intros Hwf. unfold solveLeastMT.
  destruct (kit_solveLeastMT (kit fl) kinds u) as [[k' ps]| | |] eqn:E;
    cbn [mbind result_bind]; try done.
  intros [= <- <-]. apply solve_asteps; [done| |by eapply kit_solveLeastMT_shrink].
  intros Hok. by eapply kit_solveLeastMT_preserves.
Qed.

End Setters.

Section Invariants.

Variable getName : nat -> string.
Variable locsForValue : nat -> gset nat.
Variable reachableLocsForValue : nat -> gset nat.
Variable DepsDropAtSink : bool.
Variable valueIsSink : nat -> bool.
Variable vargIsSink : nat -> bool.
Variable directPtrIsSink : nat -> bool.
Variable reachPtrIsSink : nat -> bool.

Lemma run_call_asteps fl c fl' :
  wf_state fl ->
  run_call getName locsForValue reachableLocsForValue DepsDropAtSink
    valueIsSink vargIsSink directPtrIsSink reachPtrIsSink fl c = Ok fl' ->
  asteps getName fl fl'.
Proof.
  intros Hwf. destruct c; cbn [run_call].
  - by apply constrainFlowRecord_asteps.
  - by apply setUntainted_asteps.
  - by apply setTainted_asteps.
  - by apply setVargUntainted_asteps.
  - by apply setVargTainted_asteps.
  - unfold setDirectPtrUntainted.
    destruct (not_default_or_implicit kind); cbn [mbind result_bind]; try done.
    by apply set_locs_untainted_asteps.
  - unfold setDirectPtrTainted.
    destruct (not_default_or_implicit kind); cbn [mbind result_bind]; try done.
    by apply set_locs_tainted_asteps.
  - unfold setReachPtrUntainted.
    destruct (not_default_or_implicit kind); cbn [mbind result_bind]; try done.
    by apply set_locs_untainted_asteps.
  - unfold setReachPtrTainted.
    destruct (not_default_or_implicit kind); cbn [mbind result_bind]; try done.
    by apply set_locs_tainted_asteps.
  - destruct (leastSolution fl kinds implicit_ sinks) as [[fl1 S]| | |] eqn:E;
      cbn [mbind result_bind]; try done.
    intros [= <-]. by eapply leastSolution_asteps.
  - destruct (greatestSolution fl kinds implicit_) as [[fl1 S]| | |] eqn:E;
      cbn [mbind result_bind]; try done.
    intros [= <-]. by eapply greatestSolution_asteps.
  - by apply solveMT_asteps.
  - destruct (solveLeastMT fl kinds useDefaultSinks) as [[fl1 S]| | |] eqn:E;
      cbn [mbind result_bind]; try done.
    intros [= <-]. by eapply solveLeastMT_asteps.
Qed.

(** What every state of the pass satisfies. *)
Lemma reachable_inv fl :
  reachable getName locsForValue reachableLocsForValue DepsDropAtSink
    valueIsSink vargIsSink directPtrIsSink reachPtrIsSink fl ->
  wf_state fl /\ linked fl.
Proof.
  induction 1 as [|fl c fl' Hr [Hwf Hl] Hc].
  - split; [apply wf_state_new|apply linked_new].
  - pose proof (run_call_asteps _ _ _ Hwf Hc) as HA. split.
    + by eapply asteps_wf.
    + by eapply asteps_linked.
Qed.

End Invariants.

(** ** Taint declared on a value and the solutions *)

Lemma closed_cons cls c cs T :
  closed cls (c :: cs) T
  <-> (triggered cls T c -> targets cls c ⊆ T) /\ closed cls cs T.
Proof.
  unfold closed. split.
  - intros H. split; [apply H; left|]. intros c' Hc'. apply H. by right.
  - intros [H1 H2] c' [->|Hc']%elem_of_cons; [done|by apply H2].
Qed.

Lemma closed_least_high_var sv T :
  closed LHConsLeastSoln [mkLHConstraint (LHConstant HIGH) (LHConsVar sv)] T ->
  sv ∈ T.
Proof.
  intros [H _]%closed_cons. assert (targets LHConsLeastSoln
    (mkLHConstraint (LHConstant HIGH) (LHConsVar sv)) ⊆ T) as Ht.
  { apply H. unfold triggered. by cbn. }
  unfold targets in Ht. cbn in Ht. set_solver.
Qed.

Lemma closed_greatest_var_low tv T :
  closed LHConsGreatestSoln [mkLHConstraint (LHConsVar tv) (LHConstant LOW)] T ->
  tv ∈ T.
Proof.
  intros [H _]%closed_cons. assert (targets LHConsGreatestSoln
    (mkLHConstraint (LHConsVar tv) (LHConstant LOW)) ⊆ T) as Ht.
  { apply H. unfold triggered. by cbn. }
  unfold targets in Ht. cbn in Ht. set_solver.
Qed.

Lemma closed_least_var_var a b cs T :
  closed LHConsLeastSoln (mkLHConstraint (LHConsVar a) (LHConsVar b) :: cs) T ->
  a ∈ T -> b ∈ T.
Proof.
  intros [H _]%closed_cons Ha. assert (targets LHConsLeastSoln
    (mkLHConstraint (LHConsVar a) (LHConsVar b)) ⊆ T) as Ht.
  { apply H. unfold triggered. cbn. by rewrite (bool_decide_eq_true_2 _ Ha). }
  unfold targets in Ht. cbn in Ht. set_solver.
Qed.

Lemma closed_greatest_var_var a b cs T :
  closed LHConsGreatestSoln (mkLHConstraint (LHConsVar a) (LHConsVar b) :: cs) T ->
  b ∈ T -> a ∈ T.
Proof.
  intros [H _]%closed_cons Hb. assert (targets LHConsGreatestSoln
    (mkLHConstraint (LHConsVar a) (LHConsVar b)) ⊆ T) as Ht.
  { apply H. unfold triggered. cbn. by rewrite (bool_decide_eq_true_2 _ Hb). }
  unfold targets in Ht. cbn in Ht. set_solver.
Qed.

Lemma closed_tail cls c cs T : closed cls (c :: cs) T -> closed cls cs T.
Proof. by intros [_ ?]%closed_cons. Qed.

Lemma least_kinds_default kinds i s : "default" ∈ least_kinds kinds i s.
Proof. unfold least_kinds. destruct i, s; cbn; set_solver. Qed.

Lemma least_kinds_kinds kinds i s k : k ∈ kinds -> k ∈ least_kinds kinds i s.
Proof. unfold least_kinds. destruct i, s; cbn; set_solver. Qed.

Lemma greatest_kinds_default kinds i : "default" ∈ greatest_kinds kinds i.
Proof. unfold greatest_kinds. destruct i; cbn; set_solver. Qed.

Lemma greatest_kinds_kinds kinds i k : k ∈ kinds -> k ∈ greatest_kinds kinds i.
Proof. unfold greatest_kinds. destruct i; cbn; set_solver. Qed.

Lemma not_default_or_implicit_user kind :
  kind <> "default" -> kind <> "implicit" -> not_default_or_implicit kind = Ok tt.
Proof.
  intros H1 H2. unfold not_default_or_implicit.
  by rewrite (bool_decide_eq_false_2 _ H1), (bool_decide_eq_false_2 _ H2).
Qed.

(** The solution of a state whose kit is well formed, and what it says
    of a variable. *)
Lemma solution_of_state g fl (kinds : gset string) :
  kit_ok (kit fl) -> kinds <> ∅ ->
  (forall kind, kind ∈ kinds -> solutions g (kit fl) !! kind <> Some None) ->
  exists k' ps M,
    kit_solution g (kit fl) kinds = Ok (k', ps) /\
    least_model (fun T => forall kind, kind ∈ kinds ->
                            kind_models g (kit fl) kind T) M /\
    forall i, PartialSolution_subst (heap k') ps (LHConsVar i)
              = Ok (boolToLHC (xorb g (bool_decide (i ∈ M)))).
Proof.
  intros Hok Hne Hnn.
  destruct (kit_solution_spec g (kit fl) kinds Hok Hne Hnn)
    as (k' & ps & o & objs & Hs & _ & _ & _ & _ & _ & _ & _ & Hl & Hsub).
  exists k', ps, (covered objs). split_and!; [done|done|].
  intros i. by rewrite Hsub, PS_subst_eval_var.
Qed.

Section RoundTrip.

Variable getName : nat -> string.
Variable locsForValue : nat -> gset nat.
Variable reachableLocsForValue : nat -> gset nat.
Variable DepsDropAtSink : bool.
Variable valueIsSink : nat -> bool.
Variable vargIsSink : nat -> bool.
Variable directPtrIsSink : nat -> bool.
Variable reachPtrIsSink : nat -> bool.

(** C4 (amended): in a state of the pass, let [v] be a value that has a
    context-sensitive variable, and [k] a kind other than default and
    implicit that is not locked.  Then [setTainted k v] returns, and the
    least solution over kinds that hold [k] reports [isTainted v = true];
    [setUntainted k v] returns, and the greatest solution over kinds that
    hold [k] reports [isTainted v = false].  The solutions return when no
    kind they solve has a null cache entry.  For a value with no entry in
    the summary map the solution reads, [isTainted] answers the default of
    the solution, whatever was declared. *)
Theorem taint_round_trip (fl : Infoflow) (ctxt v : nat) (x : ConsElem)
    (k : string) (kinds : gset string) (implicit_ sinks : bool) :
  reachable getName locsForValue reachableLocsForValue DepsDropAtSink
    valueIsSink vargIsSink directPtrIsSink reachPtrIsSink fl ->
  slot_lookup fl (slot_value ctxt v) = Some x ->
  k <> "default" -> k <> "implicit" ->
  k ∉ lockedConstraintKinds (kit fl) -> k ∈ kinds ->
  (forall kind, kind ∈ least_kinds kinds implicit_ sinks ->
                leastSolutions (kit fl) !! kind <> Some None) ->
  (forall kind, kind ∈ greatest_kinds kinds implicit_ ->
                greatestSolutions (kit fl) !! kind <> Some None) ->
  (exists fl1 fl2 S,
     setTainted getName fl k v = Ok fl1 /\
     leastSolution fl1 kinds implicit_ sinks = Ok (fl2, S) /\
     isTainted fl2 S v = Ok true) /\
  (exists fl1 fl2 S,
     setUntainted getName fl k v = Ok fl1 /\
     greatestSolution fl1 kinds implicit_ = Ok (fl2, S) /\
     isTainted fl2 S v = Ok false) /\
  (forall fl' S w,
     (if over_sources S then summarySourceValueConstraintMap fl'
      else summarySinkValueConstraintMap fl') !! w = None ->
     isTainted fl' S w = Ok (defaultTainted S)).
Proof.
  intros Hr Hx Hk1 Hk2 Hlock Hkin HnL HnG.
  destruct (reachable_inv _ _ _ _ _ _ _ _ fl Hr) as [Hwf Hl].
  destruct (Hl ctxt v x Hx) as (sv & xv & tv & -> & Hs & Ht & Hc).
  cbn [slot_lookup] in Hs, Ht.
  split_and!.
  - (* tainted, least *)
    destruct (addConstraint_Ok (kit fl) k highConstant (LHConsVar sv) Hlock eq_refl)
      as (k1 & Hadd & _).
    destruct (addConstraint_kit _ _ _ _ _ (wf_kit fl Hwf) Hadd)
      as (Hok1 & _ & _ & Hsol1 & _ & _ & Hkm1).
    destruct (solution_of_state false (set_kit fl k1)
                (least_kinds kinds implicit_ sinks)) as (k2 & ps & M & Hsol & [HM _] & Hsub).
    { done. }
    { intros E. pose proof (least_kinds_default kinds implicit_ sinks) as H.
      rewrite E in H. set_solver. }
    { intros kind Hkind. cbn [kit set_kit]. rewrite Hsol1. by apply HnL. }
    cbn [kit set_kit] in Hsol, HM.
    assert (Hsv : sv ∈ M).
    { apply closed_least_high_var.
      apply (proj1 (Hkm1 false k M) (HM k (least_kinds_kinds _ _ _ _ Hkin))). done. }
    assert (Htv : tv ∈ M).
    { pose proof (Hc false M) as Hd. cbn [class_of_initial] in Hd.
      assert (closed LHConsLeastSoln
                [mkLHConstraint (LHConsVar sv) (LHConsVar xv);
                 mkLHConstraint (LHConsVar xv) (LHConsVar tv)] M) as Hcl.
      { apply Hd. apply (proj1 (Hkm1 false "default" M)).
        apply HM, least_kinds_default. }
      eapply closed_least_var_var; [exact (closed_tail _ _ _ _ Hcl)|].
      eapply closed_least_var_var; [exact Hcl|done]. }
    exists (set_kit fl k1), (set_kit fl k2), (mkInfoflowSolution ps false false).
    split_and!.
    + unfold setTainted. rewrite not_default_or_implicit_user by done.
      cbn [mbind result_bind].
      unfold putOrConstrainConsElemSummarySource, getOrCreateConsElemSummarySource.
      rewrite Hs, Hadd. done.
    + unfold leastSolution, kit_leastSolution. cbn [kit set_kit].
      rewrite Hsol. done.
    + unfold isTainted. cbn [over_sources soln summarySinkValueConstraintMap set_kit
                             kit heap].
      rewrite Ht, Hsub. cbn [mbind result_bind].
      by rewrite (bool_decide_eq_true_2 _ Htv).
  - (* untainted, greatest *)
    destruct (addConstraint_Ok (kit fl) k (LHConsVar tv) lowConstant Hlock eq_refl)
      as (k1 & Hadd & _).
    destruct (addConstraint_kit _ _ _ _ _ (wf_kit fl Hwf) Hadd)
      as (Hok1 & _ & _ & Hsol1 & _ & _ & Hkm1).
    destruct (solution_of_state true (set_kit fl k1)
                (greatest_kinds kinds implicit_)) as (k2 & ps & M & Hsol & [HM _] & Hsub).
    { done. }
    { intros E. pose proof (greatest_kinds_default kinds implicit_) as H.
      rewrite E in H. set_solver. }
    { intros kind Hkind. cbn [kit set_kit]. rewrite Hsol1. by apply HnG. }
    cbn [kit set_kit] in Hsol, HM.
    assert (Htv : tv ∈ M).
    { apply closed_greatest_var_low.
      apply (proj1 (Hkm1 true k M) (HM k (greatest_kinds_kinds _ _ _ Hkin))). done. }
    assert (Hsv : sv ∈ M).
    { pose proof (Hc true M) as Hd. cbn [class_of_initial] in Hd.
      assert (closed LHConsGreatestSoln
                [mkLHConstraint (LHConsVar sv) (LHConsVar xv);
                 mkLHConstraint (LHConsVar xv) (LHConsVar tv)] M) as Hcl.
      { apply Hd. apply (proj1 (Hkm1 true "default" M)).
        apply HM, greatest_kinds_default. }
      eapply closed_greatest_var_var; [exact Hcl|].
      eapply closed_greatest_var_var; [exact (closed_tail _ _ _ _ Hcl)|done]. }
    exists (set_kit fl k1), (set_kit fl k2), (mkInfoflowSolution ps true true).
    split_and!.
    + unfold setUntainted. rewrite not_default_or_implicit_user by done.
      cbn [mbind result_bind]. unfold getOrCreateConsElemSummarySink.
      rewrite Ht, Hadd. done.
    + unfold greatestSolution, kit_greatestSolution. cbn [kit set_kit].
      rewrite Hsol. done.
    + unfold isTainted. cbn [over_sources soln summarySourceValueConstraintMap
                             set_kit kit heap].
      rewrite Hs, Hsub. cbn [mbind result_bind].
      by rewrite (bool_decide_eq_true_2 _ Hsv).
  - intros fl' S w Hw. unfold isTainted. by rewrite Hw.
Qed.

End RoundTrip.

(** C4, as stated, fails for a value the pass has not seen: it has no
    summary sink, so after [setTainted] the least solution over the kind
    answers the default, false; dually after [setUntainted] the greatest
    solution answers true. *)
Lemma taint_of_unseen_value_is_default :
  (fl1 ← setTainted (fun _ => "v") Infoflow_new "k" 0;
   '(fl2, sol) ← leastSolution fl1 {[ "k" ]} false false;
   isTainted fl2 sol 0) = Ok false /\
  (fl1 ← setUntainted (fun _ => "v") Infoflow_new "k" 0;
   '(fl2, sol) ← greatestSolution fl1 {[ "k" ]} false;
   isTainted fl2 sol 0) = Ok true.
Proof. split; by vm_compute. Qed.

(** A flow record from the value 1 to the value 0, and the state of the
    pass after it. *)
Definition example_record : FlowRecord :=
  addSinkValue (addSourceValue (FlowRecord_new false DefaultID DefaultID) 1) 0.

Definition example_state : Infoflow :=
match constrainFlowRecord (fun _ => "v") (fun _ => ∅) (fun _ => ∅) false
        (fun _ => false) (fun _ => false) (fun _ => false) (fun _ => false)
        Infoflow_new example_record with
| Ok fl => fl
| _ => Infoflow_new
end.

Lemma example_state_reachable :
  reachable (fun _ => "v") (fun _ => ∅) (fun _ => ∅) false
    (fun _ => false) (fun _ => false) (fun _ => false) (fun _ => false)
    example_state.
Proof.
  eapply (reachable_call _ _ _ _ _ _ _ _ Infoflow_new
            (call_constrainFlowRecord example_record)); [apply reachable_new|].
  cbn [run_call]. unfold example_state.
  destruct (constrainFlowRecord _ _ _ _ _ _ _ _ Infoflow_new example_record)
    eqn:E; [done|by vm_compute in E..].
Defined.

Lemma taint_round_trip_witness :
  exists fl1 fl2 S,
    setTainted (fun _ => "v") example_state "k" 0 = Ok fl1 /\
    leastSolution fl1 {[ "k" ]} false false = Ok (fl2, S) /\
    isTainted fl2 S 0 = Ok true.
Proof.
  refine (proj1 (taint_round_trip (fun _ => "v") (fun _ => ∅) (fun _ => ∅) false
                   (fun _ => false) (fun _ => false) (fun _ => false)
                   (fun _ => false) example_state DefaultID 0 (LHConsVar 3) "k"
                   {[ "k" ]} false false example_state_reachable _ _ _ _ _ _ _)).
  - by vm_compute.
  - done.
  - done.
  - intros H. by vm_compute in H.
  - by apply elem_of_singleton.
  - intros kind _.
    assert (leastSolutions (kit example_state) = ∅) as -> by by vm_compute.
    by rewrite lookup_empty.
  - intros kind _.
    assert (greatestSolutions (kit example_state) = ∅) as -> by by vm_compute.
    by rewrite lookup_empty.
Defined.

(** ** The summary source of the varargs of a function *)

Lemma closed_least_high_var_iff sv T :
  closed LHConsLeastSoln (expanded highConstant (LHConsVar sv)) T <-> sv ∈ T.
Proof.
  split; [apply closed_least_high_var|].
  intros Hsv c Hc _. cbn in Hc. apply list_elem_of_singleton in Hc as ->.
  unfold targets. cbn. set_solver.
Qed.

Lemma getOrCreateVargConsElemSummarySource_kit getName fl f :
  exists vs,
    kit (getOrCreateVargConsElemSummarySource getName fl f).1
    = set_vars (kit fl) vs.
Proof.
  unfold getOrCreateVargConsElemSummarySource.
  destruct (summarySourceVargConstraintMap fl !! f).
  - exists (vars (kit fl)). cbn. by destruct (kit fl).
  - eexists. cbn. reflexivity.
Qed.

Section VarargsTaint.

Variable getName : nat -> string.

(** Taint declared on the varargs of [f] changes the least solution on
    the variable of the varargs summary source of [f] alone. *)
Lemma setVargTainted_solution fl k f (kinds : gset string) :
  wf_state fl ->
  k <> "default" -> k <> "implicit" -> k ∉ lockedConstraintKinds (kit fl) ->
  kinds <> ∅ ->
  (forall kind, kind ∈ kinds -> leastSolutions (kit fl) !! kind <> Some None) ->
  exists fl1 k2 ps k2' ps',
    setVargTainted getName fl k f = Ok fl1 /\
    kit_solution false (kit fl1) kinds = Ok (k2, ps) /\
    kit_solution false (kit fl) kinds = Ok (k2', ps') /\
    (forall s, slot_lookup fl1 s = slot_lookup fl s \/ s = slot_source_varg f) /\
    forall s e, s <> slot_source_varg f -> slot_lookup fl s = Some e ->
      PartialSolution_subst (heap k2) ps e = PartialSolution_subst (heap k2') ps' e.
Proof.
  intros Hwf Hk1 Hk2 Hlock Hne Hnn.
  destruct (getOrCreateVargConsElemSummarySource getName fl f) as [fl0 cur] eqn:E0.
  pose proof (getOrCreateVargConsElemSummarySource_kit getName fl f) as [vs Hkit].
  rewrite E0 in Hkit. cbn [fst] in Hkit. pose proof E0 as E0k.
  apply getOrCreateVargConsElemSummarySource_spec in E0 as (L0 & S0 & F0 & C0).
  apply or_pstep in S0.
  pose proof (psteps_wf _ _ Hwf S0) as Hwf0.
  destruct (psteps_mono _ _ Hwf S0) as [P0 _].
  destruct (wf_vars fl0 Hwf0 _ _ L0) as (sv & -> & _).
  destruct (kit_sem_same (kit fl) (kit fl0)) as [_ Hkm0]; try (rewrite Hkit; done).
  assert (Hlock0 : k ∉ lockedConstraintKinds (kit fl0)) by (by rewrite Hkit).
  destruct (addConstraint_Ok (kit fl0) k highConstant (LHConsVar sv) Hlock0 eq_refl)
    as (k1 & Hadd & _).
  destruct (addConstraint_kit _ _ _ _ _ (wf_kit fl0 Hwf0) Hadd)
    as (Hok1 & _ & _ & Hsol1 & _ & _ & Hkm1).
  destruct (solution_of_state false (set_kit fl0 k1) kinds)
    as (k2 & ps & M1 & Hs1 & [HM1 Hmin1] & Hsub1); [done|done| |].
  { intros kind Hkind. cbn [kit set_kit]. rewrite Hsol1, Hkit. by apply Hnn. }
  destruct (solution_of_state false fl kinds)
    as (k2' & ps' & M & Hs & [HM Hmin] & Hsub); [apply Hwf|done|done|].
  cbn [kit set_kit] in Hs1, HM1, Hmin1.
  assert (Hle : M ⊆ M1).
  { apply Hmin. intros kind Hkind. apply Hkm0.
    by apply (proj1 (Hkm1 false kind M1) (HM1 kind Hkind)). }
  assert (Hge : M1 ⊆ M ∪ {[ sv ]}).
  { apply Hmin1. intros kind Hkind. apply Hkm1. split.
    - apply (wf_sources fl0 Hwf0); [right; eauto|]. apply Hkm0. by apply HM.
    - intros _. apply closed_least_high_var_iff. set_solver. }
  exists (set_kit fl0 k1), k2, ps, k2', ps'. split_and!.
  - unfold setVargTainted. rewrite not_default_or_implicit_user by done.
    cbn [mbind result_bind]. unfold putOrConstrainVargConsElemSummarySource.
    rewrite E0k, Hadd. done.
  - done.
  - done.
  - intros s. destruct (decide (s = slot_source_varg f)) as [->|Hs0]; [by right|].
    left. rewrite slot_lookup_set_kit. by apply F0.
  - intros s e Hs0 He.
    destruct (wf_vars fl Hwf s e He) as (i & -> & _).
    rewrite Hsub1, Hsub. do 3 f_equal.
    assert (i <> sv).
    { intros ->. apply Hs0. eapply (wf_inj fl0 Hwf0); [by apply P0|done]. }
    apply bool_decide_ext. split; [|by apply Hle].
    intros Hi. apply Hge in Hi. set_solver.
Qed.

End VarargsTaint.

Section VarargsSource.

Variable getName : nat -> string.
Variable locsForValue : nat -> gset nat.
Variable reachableLocsForValue : nat -> gset nat.
Variable DepsDropAtSink : bool.
Variable valueIsSink : nat -> bool.
Variable vargIsSink : nat -> bool.
Variable directPtrIsSink : nat -> bool.
Variable reachPtrIsSink : nat -> bool.

(** C9: in every state of the pass, when the context-sensitive varargs
    variable of a function [f] is created, the two constraints added to
    the kind default put the summary source of [f] as a value below the
    new variable, and the new variable below the varargs summary sink of
    [f]; the varargs summary source of [f] is left as it was and is not
    that element.  No constraint of any kind has the variable of a
    varargs summary source on its left.  Hence [setVargTainted k f]
    changes nothing a least solution reports: the solutions of the state
    before and after the call give the same value to every context
    varargs variable, and the same answers to [isVargTainted] and
    [isTainted]. *)
Theorem varargs_summary_source_unlinked (fl : Infoflow) :
  reachable getName locsForValue reachableLocsForValue DepsDropAtSink
    valueIsSink vargIsSink directPtrIsSink reachPtrIsSink fl ->
  (forall ctxt f fl' e,
     slot_lookup fl (slot_varg ctxt f) = None ->
     getOrCreateVargConsElem getName fl ctxt f = Ok (fl', e) ->
     exists ss t,
       summarySourceValueConstraintMap fl' !! f = Some ss /\
       summarySinkVargConstraintMap fl' !! f = Some t /\
       constraints (kit fl') !! "default"
       = Some (constraints_of (kit fl) "default"
               ++ [mkLHConstraint ss e; mkLHConstraint e t]) /\
       summarySourceVargConstraintMap fl' !! f
       = summarySourceVargConstraintMap fl !! f /\
       summarySourceVargConstraintMap fl' !! f <> Some ss) /\
  (forall f sv, summarySourceVargConstraintMap fl !! f = Some sv ->
     exists i, sv = LHConsVar i /\
       forall kind cs c, constraints (kit fl) !! kind = Some cs -> c ∈ cs ->
                         i ∉ variables (lhs c) ∅) /\
  (forall k f kinds implicit_ sinks,
     k <> "default" -> k <> "implicit" ->
     k ∉ lockedConstraintKinds (kit fl) ->
     (forall kind, kind ∈ least_kinds kinds implicit_ sinks ->
                   leastSolutions (kit fl) !! kind <> Some None) ->
     exists fl1 fl2 sol fl2' sol',
       setVargTainted getName fl k f = Ok fl1 /\
       leastSolution fl1 kinds implicit_ sinks = Ok (fl2, sol) /\
       leastSolution fl kinds implicit_ sinks = Ok (fl2', sol') /\
       (forall ctxt g x,
          slot_lookup fl (slot_varg ctxt g) = Some x ->
          PartialSolution_subst (heap (kit fl2)) (soln sol) x
          = PartialSolution_subst (heap (kit fl2')) (soln sol') x) /\
       (forall g, isVargTainted fl2 sol g = isVargTainted fl2' sol' g) /\
       (forall w, isTainted fl2 sol w = isTainted fl2' sol' w)).
Proof.
  intros Hr. destruct (reachable_inv _ _ _ _ _ _ _ _ fl Hr) as [Hwf _].
  split_and!.
  - intros ctxt f fl' e Hnone Hget.
    destruct (getOrCreateVargConsElem_spec getName _ _ _ _ _ Hwf Hget)
      as (Hp & _ & _ & Hnew).
    destruct (Hnew Hnone) as (ss & t & Hs & Ht & Hsrc & Hco).
    exists ss, t. cbn [slot_lookup] in Hs, Ht, Hsrc. split_and!; try done.
    intros E. pose proof (psteps_wf _ _ Hwf Hp) as Hwf'.
    destruct (wf_vars fl' Hwf' (slot_source_value f) ss Hs) as (i & -> & _).
    by pose proof (wf_inj fl' Hwf' (slot_source_value f) (slot_source_varg f) i Hs E).
  - intros f sv Hsv.
    destruct (wf_vars fl Hwf (slot_source_varg f) sv Hsv) as (i & -> & _).
    exists i. split; [done|]. intros kind cs c Hcs Hc Hi.
    destruct (wf_lhs fl Hwf kind cs c i Hcs Hc Hi) as (s & Hs & Hl).
    pose proof (wf_inj fl Hwf s (slot_source_varg f) i Hl Hsv) as ->. done.
  - intros k f kinds implicit_ sinks Hk1 Hk2 Hlock Hnn.
    destruct (setVargTainted_solution getName fl k f
                (least_kinds kinds implicit_ sinks) Hwf Hk1 Hk2 Hlock)
      as (fl1 & k2 & ps & k2' & ps' & Hset & Hs1 & Hs & Hslots & Hsub).
    { intros E. pose proof (least_kinds_default kinds implicit_ sinks) as H.
      rewrite E in H. set_solver. }
    { done. }
    exists fl1, (set_kit fl1 k2), (mkInfoflowSolution ps false false),
           (set_kit fl k2'), (mkInfoflowSolution ps' false false).
    split_and!.
    + done.
    + unfold leastSolution, kit_leastSolution. by rewrite Hs1.
    + unfold leastSolution, kit_leastSolution. by rewrite Hs.
    + intros ctxt g x Hx. cbn [kit set_kit soln].
      by apply (Hsub (slot_varg ctxt g)).
    + intros g. unfold isVargTainted.
      cbn [over_sources soln summarySinkVargConstraintMap set_kit kit heap].
      destruct (Hslots (slot_sink_varg g)) as [E|E]; [|done].
      cbn [slot_lookup] in E. rewrite E.
      destruct (summarySinkVargConstraintMap fl !! g) as [elem|] eqn:Eg; [|done].
      by rewrite (Hsub (slot_sink_varg g) elem).
    + intros w. unfold isTainted.
      cbn [over_sources soln summarySinkValueConstraintMap set_kit kit heap].
      destruct (Hslots (slot_sink_value w)) as [E|E]; [|done].
      cbn [slot_lookup] in E. rewrite E.
      destruct (summarySinkValueConstraintMap fl !! w) as [elem|] eqn:Ew; [|done].
      by rewrite (Hsub (slot_sink_value w) elem).
Qed.

End VarargsSource.

Lemma varargs_summary_source_unlinked_witness :
  exists fl1 fl2 sol fl2' sol',
    setVargTainted (fun _ => "v") example_state "k" 0 = Ok fl1 /\
    leastSolution fl1 {[ "k" ]} false false = Ok (fl2, sol) /\
    leastSolution example_state {[ "k" ]} false false = Ok (fl2', sol') /\
    (forall g, isVargTainted fl2 sol g = isVargTainted fl2' sol' g) /\
    (forall w, isTainted fl2 sol w = isTainted fl2' sol' w).
Proof.
  destruct (varargs_summary_source_unlinked (fun _ => "v") (fun _ => ∅)
              (fun _ => ∅) false (fun _ => false) (fun _ => false)
              (fun _ => false) (fun _ => false) example_state
              example_state_reachable) as (_ & _ & H).
  destruct (H "k" 0 {[ "k" ]} false false) as
    (fl1 & fl2 & sol & fl2' & sol' & H1 & H2 & H3 & _ & H4 & H5).
  - done.
  - done.
  - intros Hin. by vm_compute in Hin.
  - intros kind _.
    assert (leastSolutions (kit example_state) = ∅) as -> by by vm_compute.
    by rewrite lookup_empty.
  - exists fl1, fl2, sol, fl2', sol'. by split_and!.
Defined.

(** * Further properties of the solvers *)

(** ** What the worklist solver returns, in terms of the constraints *)

(** A set of tainted variables is closed for the least solver exactly
    when it satisfies every constraint whose right-hand side is a
    variable. *)
Lemma closed_least_satisfied cs T :
  no_join_on_rhs cs ->
  closed LHConsLeastSoln cs T
  <-> forall c v, c ∈ cs -> rhs c = LHConsVar v ->
        LHConstant_leq (subst_eval LOW T (lhs c))
          (LHConstant (subst_eval LOW T (rhs c))) = true.
Proof.
  intros Hnj. unfold no_join_on_rhs in Hnj.
  rewrite list.Forall_forall in Hnj. split.
  - intros Hc c v Hin Hv. specialize (Hc c Hin).
    destruct (subst_eval LOW T (lhs c)) eqn:EL; [done|].
    assert (Ht : triggered LHConsLeastSoln T c).
    { change (subst_eval LOW T (lhs c) <> LOW). by rewrite EL. }
    specialize (Hc Ht). change (variables (rhs c) ∅ ⊆ T) in Hc.
    rewrite Hv in Hc |- *.
    cbn. rewrite (bool_decide_eq_true_2 (v ∈ T)); [done|]. apply Hc.
    cbn [variables]. apply elem_of_union_l. by apply elem_of_singleton.
  - intros H c Hin Ht. change (variables (rhs c) ∅ ⊆ T).
    change (subst_eval LOW T (lhs c) <> LOW) in Ht.
    specialize (Hnj c Hin). cbn beta in Hnj.
    destruct (rhs c) as [l|v|es] eqn:Er; [|clear Hnj|done].
    { cbn. set_solver. }
    specialize (H c v Hin Er). rewrite Er in H.
    destruct (subst_eval LOW T (lhs c)); [done|].
    destruct (decide (v ∈ T)) as [Hv|Hv]; [cbn; set_solver|].
    cbn in H. by rewrite (bool_decide_eq_false_2 (v ∈ T)) in H.
Qed.

(** A set of untainted variables is closed for the greatest solver
    exactly when every variable on a left-hand side is below the value of
    the right-hand side. *)
Lemma closed_greatest_satisfied cs T :
  closed LHConsGreatestSoln cs T
  <-> forall c v, c ∈ cs -> v ∈ variables (lhs c) ∅ ->
        LHConstant_leq (subst_eval HIGH T (LHConsVar v))
          (LHConstant (subst_eval HIGH T (rhs c))) = true.
Proof.
  split.
  - intros Hc c v Hin Hv. specialize (Hc c Hin).
    destruct (subst_eval HIGH T (rhs c)) eqn:ER.
    + assert (Ht : triggered LHConsGreatestSoln T c).
      { change (subst_eval HIGH T (rhs c) <> HIGH). by rewrite ER. }
      specialize (Hc Ht). change (variables (lhs c) ∅ ⊆ T) in Hc.
      cbn. rewrite (bool_decide_eq_true_2 (v ∈ T)); [done|]. by apply Hc.
    + cbn. by destruct (if bool_decide (v ∈ T) then _ else _).
  - intros H c Hin Ht. change (variables (lhs c) ∅ ⊆ T). intros v Hv.
    specialize (H c v Hin Hv).
    change (subst_eval HIGH T (rhs c) <> HIGH) in Ht.
    destruct (subst_eval HIGH T (rhs c)); [|done].
    destruct (decide (v ∈ T)) as [Hv'|Hv']; [done|].
    cbn in H. by rewrite (bool_decide_eq_false_2 (v ∈ T)) in H.
Qed.

(** X1.  On a constraint vector with no join on a right-hand side,
    [solve] of the least solver returns an assignment that satisfies
    every constraint whose right-hand side is a variable, and it is the
    least one: an element that it makes [HIGH] is [HIGH] under every
    assignment that satisfies these constraints. *)
Theorem least_solve_satisfies_and_is_least (cs : list LHConstraint) :
  no_join_on_rhs cs ->
  exists s,
    solve (new_LHConsSoln LHConsLeastSoln cs) = Ok s /\
    (forall c v, c ∈ cs -> rhs c = LHConsVar v ->
       LHConstant_leq (soln_subst s (lhs c))
         (LHConstant (soln_subst s (rhs c))) = true) /\
    (forall T,
       (forall c v, c ∈ cs -> rhs c = LHConsVar v ->
          LHConstant_leq (subst_eval LOW T (lhs c))
            (LHConstant (subst_eval LOW T (rhs c))) = true) ->
       forall E, soln_subst s E = HIGH -> subst_eval LOW T E = HIGH).
Proof.
  intros Hnj.
  destruct (solve_with_spec LHConsLeastSoln cs fifo)
    as (s & Hs & _ & _ & _ & Hd & _ & Hl).
  destruct (Hl (fun _ => Hnj)) as [Hc Hm].
  exists s. split; [done|]. unfold soln_subst. rewrite Hd. cbn [class_default].
  split.
  - by apply closed_least_satisfied.
  - intros T HT E. apply subst_eval_LOW_mono, Hm. by apply closed_least_satisfied.
Qed.

Lemma least_solve_satisfies_and_is_least_witness :
  exists s,
    solve (new_LHConsSoln LHConsLeastSoln
             [mkLHConstraint (LHConstant HIGH) (LHConsVar 0);
              mkLHConstraint (LHJoin [LHConsVar 0; LHConsVar 2]) (LHConsVar 1)])
    = Ok s /\
    soln_subst s (LHConsVar 1) = HIGH.
Proof.
  destruct (least_solve_satisfies_and_is_least
              [mkLHConstraint (LHConstant HIGH) (LHConsVar 0);
               mkLHConstraint (LHJoin [LHConsVar 0; LHConsVar 2]) (LHConsVar 1)])
    as (s & Hs & Hsat & _).
  - repeat constructor.
  - exists s. split; [exact Hs|].
    pose proof (Hsat _ 0 (list_elem_of_here _ _) eq_refl) as H0.
    pose proof (Hsat _ 1 (list_elem_of_further _ _ _ (list_elem_of_here _ _)) eq_refl)
      as H1.
    cbn [lhs rhs] in H0, H1. unfold soln_subst in *.
    destruct (defaultValue s) eqn:Ed.
    + cbn in H0, H1 |- *.
      destruct (bool_decide (0 ∈ changed s)); [|done].
      cbn in H1. by destruct (bool_decide (1 ∈ changed s)).
    + cbn in H0, H1 |- *.
      destruct (bool_decide (0 ∈ changed s)); [done|].
      cbn in H1. by destruct (bool_decide (1 ∈ changed s)).
Defined.

(** X2.  [solve] of the greatest solver returns, on every constraint
    vector, an assignment under which every variable on the left of a
    constraint is below the value of its right-hand side, and it is the
    greatest one: a variable that it makes [LOW] is [LOW] under every
    assignment with this property. *)
Theorem greatest_solve_satisfies_and_is_greatest (cs : list LHConstraint) :
  exists s,
    solve (new_LHConsSoln LHConsGreatestSoln cs) = Ok s /\
    (forall c v, c ∈ cs -> v ∈ variables (lhs c) ∅ ->
       LHConstant_leq (soln_subst s (LHConsVar v))
         (LHConstant (soln_subst s (rhs c))) = true) /\
    (forall T,
       (forall c v, c ∈ cs -> v ∈ variables (lhs c) ∅ ->
          LHConstant_leq (subst_eval HIGH T (LHConsVar v))
            (LHConstant (subst_eval HIGH T (rhs c))) = true) ->
       forall v, soln_subst s (LHConsVar v) = LOW ->
                 subst_eval HIGH T (LHConsVar v) = LOW).
Proof.
  destruct (solve_with_spec LHConsGreatestSoln cs fifo)
    as (s & Hs & _ & _ & _ & Hd & _ & Hl).
  destruct Hl as [Hc Hm]; [done|].
  exists s. split; [done|]. unfold soln_subst. rewrite Hd. cbn [class_default].
  split.
  - by apply closed_greatest_satisfied.
  - intros T HT v. apply closed_greatest_satisfied in HT. specialize (Hm T HT).
    cbn. case_bool_decide as Hv; [|done]. intros _.
    rewrite (bool_decide_eq_true_2 (v ∈ T)); [done|]. by apply Hm.
Qed.

(** ** The objects of the propagation solver *)

(** What [subst] answers for a variable: whether some object of the chain
    holds it. *)
Lemma PartialSolution_subst_var h this o objs V :
  h !! this = Some o -> chain_objects h (ps_Chained o) = Ok objs ->
  PartialSolution_subst h this (LHConsVar V)
  = Ok (boolToLHC (xorb (ps_initial o) (bool_decide (V ∈ covered objs)))).
Proof.
  intros Ho Hobjs. unfold PartialSolution_subst, deref. rewrite Ho.
  cbn [mbind result_bind]. rewrite Hobjs. cbn [mbind result_bind].
  by rewrite PS_subst_eval_var.
Qed.

Lemma boolToLHC_changed initial b :
  boolToLHC (xorb initial b) = boolToLHC (negb initial) <-> b = true.
Proof. by destruct initial, b. Qed.

(** A variable is changed in a solution when some object of its chain
    holds it. *)
Lemma subst_changed_iff h this o V :
  h !! this = Some o ->
  (forall q, q ∈ ps_Chained o -> is_Some (h !! q)) ->
  PartialSolution_subst h this (LHConsVar V) = Ok (boolToLHC (negb (ps_initial o)))
  <-> exists q oq, q ∈ ps_Chained o /\ h !! q = Some oq /\ V ∈ ps_VSet oq.
Proof.
  intros Ho Hvalid. destruct (chain_objects_exists h _ Hvalid) as [objs Hobjs].
  rewrite (PartialSolution_subst_var _ _ _ _ _ Ho Hobjs). split.
  - intros [= H]. apply boolToLHC_changed, bool_decide_eq_true in H.
    apply elem_of_covered in H as (oq & Hoq & HV).
    apply (chain_objects_elem_of _ _ _ _ Hobjs) in Hoq as (q & Hq & Hhq). eauto.
  - intros (q & oq & Hq & Hhq & HV). f_equal. apply boolToLHC_changed.
    apply bool_decide_eq_true, elem_of_covered. exists oq. split; [|done].
    apply (chain_objects_elem_of _ _ _ _ Hobjs). eauto.
Qed.

(** X3.  [propagate] on an object whose chain holds it, without
    repetition, and points to allocated objects returns; it changes the
    heap at this object only, and there only by adding variables to its
    [VSet]; the variables the chain then covers are the least set that
    holds those it covered before and is closed under the propagation
    maps of the chain. *)
Theorem propagate_least_closed_extension (h : list PartialSolution)
    (this : nat) (ps : PartialSolution) (objs0 : list PartialSolution) :
  h !! this = Some ps ->
  NoDup (ps_Chained ps) -> this ∈ ps_Chained ps ->
  chain_objects h (ps_Chained ps) = Ok objs0 ->
  exists h' ps' objs',
    propagate h this = Ok h' /\
    length h' = length h /\
    (forall q, q <> this -> h' !! q = h !! q) /\
    h' !! this = Some ps' /\
    ps_P ps' = ps_P ps /\ ps_Chained ps' = ps_Chained ps /\
    ps_initial ps' = ps_initial ps /\ ps_VSet ps ⊆ ps_VSet ps' /\
    chain_objects h' (ps_Chained ps) = Ok objs' /\
    covered objs0 ⊆ covered objs' /\
    edges_closed (map ps_P objs0) (covered objs') /\
    (forall T, covered objs0 ⊆ T -> edges_closed (map ps_P objs0) T ->
               covered objs' ⊆ T).
Proof.
  intros Hthis Hnd Hin Hobjs.
  destruct (propagate_spec h this ps objs0 Hthis Hnd Hin Hobjs)
    as (added & objs' & Hp & Hobjs' & _ & Hcov & Hcl & Hmin).
  assert (Hlt : this < length h) by by eapply lookup_lt_Some.
  exists (<[ this := VSet_insert ps added ]> h), (VSet_insert ps added), objs'.
  split_and!; try done.
  - by rewrite length_insert.
  - intros q Hq. by rewrite list_lookup_insert_ne.
  - by rewrite list_lookup_insert_eq.
  - cbn. set_solver.
  - rewrite Hcov. set_solver.
  - intros T H1 H2. by apply Hmin.
Qed.

Lemma propagate_least_closed_extension_witness :
  exists h',
    propagate [mkPartialSolution {[ 0 := [1] ]} {[ 0 ]} [0] false] 0 = Ok h' /\
    PartialSolution_subst h' 0 (LHConsVar 1) = Ok HIGH.
Proof.
  destruct (propagate_least_closed_extension
              [mkPartialSolution {[ 0 := [1] ]} {[ 0 ]} [0] false] 0
              (mkPartialSolution {[ 0 := [1] ]} {[ 0 ]} [0] false)
              [mkPartialSolution {[ 0 := [1] ]} {[ 0 ]} [0] false])
    as (h' & ps' & objs' & Hp & _ & _ & Hps' & _ & Hch & Hini & _ & Hobjs
        & Hsub & Hcl & _).
  - done.
  - apply list.NoDup_singleton.
  - by apply list_elem_of_singleton.
  - done.
  - exists h'. split; [exact Hp|].
    rewrite <- Hch in Hobjs.
    rewrite (PartialSolution_subst_var _ _ _ _ 1 Hps' Hobjs), Hini.
    cbn [ps_initial xorb]. rewrite bool_decide_eq_true_2; [done|].
    apply (Hcl 0 1).
    + apply Hsub. rewrite covered_singleton. cbn. by apply elem_of_singleton.
    + cbn [map ps_P]. rewrite updates_of_singleton, lookup_singleton_eq.
      by apply list_elem_of_singleton.
Defined.

(** X4.  [mergeIn], on two solutions of the same orientation each in its
    own chain, with chains that point to allocated objects, returns and
    changes the heap at the receiver only.  The receiver keeps its
    propagation map, takes the union of the two chains, and a variable
    changed in the receiver or in the argument before is changed in the
    receiver after; a variable is changed after only when it belongs to
    every set that holds the [VSet]s of the objects of the two chains
    and is closed under their propagation maps. *)
Theorem mergeIn_keeps_changes_of_both (h : list PartialSolution)
    (this P : nat) (o oP : PartialSolution) :
  h !! this = Some o -> h !! P = Some oP ->
  ps_initial o = ps_initial oP ->
  this ∈ ps_Chained o -> P ∈ ps_Chained oP ->
  (forall q, q ∈ ps_Chained o ++ ps_Chained oP -> is_Some (h !! q)) ->
  exists h' o',
    mergeIn h this P = Ok h' /\
    length h' = length h /\
    (forall q, q <> this -> h' !! q = h !! q) /\
    h' !! this = Some o' /\
    ps_P o' = ps_P o /\ ps_initial o' = ps_initial o /\
    ps_Chained o' = chain_normalize (ps_Chained o ++ ps_Chained oP) /\
    (forall V,
       PartialSolution_subst h this (LHConsVar V)
         = Ok (boolToLHC (negb (ps_initial o))) \/
       PartialSolution_subst h P (LHConsVar V)
         = Ok (boolToLHC (negb (ps_initial o))) ->
       PartialSolution_subst h' this (LHConsVar V)
         = Ok (boolToLHC (negb (ps_initial o)))) /\
    (forall (T : gset nat) V,
       (forall q oq, q ∈ ps_Chained o ++ ps_Chained oP -> h !! q = Some oq ->
          ps_VSet oq ⊆ T /\
          forall v w, v ∈ T -> w ∈ default [] (ps_P oq !! v) -> w ∈ T) ->
       PartialSolution_subst h' this (LHConsVar V)
         = Ok (boolToLHC (negb (ps_initial o))) ->
       V ∈ T).
Proof.
  intros Hthis HP Hini Hmem HPmem Hvalid.
  destruct (mergeIn_spec h this P o oP Hthis HP Hini Hmem HPmem Hvalid)
    as (added & objs0 & objs' & Hm & Hobjs0 & Hobjs' & [[Hsub Hcl] Hmin]).
  set (chain' := chain_normalize (ps_Chained o ++ ps_Chained oP)) in *.
  set (o0 := mkPartialSolution (ps_P o) (ps_VSet o) chain' (ps_initial o)) in *.
  assert (Hlt : this < length h) by by eapply lookup_lt_Some.
  assert (Hh' : (<[ this := VSet_insert o0 added ]> h) !! this
                = Some (VSet_insert o0 added)) by by apply list_lookup_insert_eq.
  (* the objects of the merged chain, before the propagation *)
  assert (Hin0 : forall q oq, q ∈ ps_Chained o ++ ps_Chained oP ->
                   h !! q = Some oq ->
                   exists ob, ob ∈ objs0 /\ ps_VSet ob = ps_VSet oq /\
                              ps_P ob = ps_P oq).
  { intros q oq Hq Hoq. destruct (decide (q = this)) as [->|Hne].
    - exists o0. split; [|by assert (oq = o) as -> by congruence].
      apply (chain_objects_elem_of _ _ _ _ Hobjs0). exists this.
      split; [by apply elem_of_chain_normalize|]. by apply list_lookup_insert_eq.
    - exists oq. split; [|done].
      apply (chain_objects_elem_of _ _ _ _ Hobjs0). exists q.
      split; [by apply elem_of_chain_normalize|].
      by rewrite list_lookup_insert_ne. }
  assert (Hafter : forall V,
            PartialSolution_subst (<[ this := VSet_insert o0 added ]> h) this
              (LHConsVar V) = Ok (boolToLHC (negb (ps_initial o)))
            <-> V ∈ covered objs').
  { intros V. rewrite (PartialSolution_subst_var _ _ _ _ V Hh' Hobjs').
    cbn [VSet_insert ps_initial o0]. split.
    - intros [= H]. by apply boolToLHC_changed, bool_decide_eq_true in H.
    - intros H. f_equal. by apply boolToLHC_changed, bool_decide_eq_true. }
  exists (<[ this := VSet_insert o0 added ]> h), (VSet_insert o0 added).
  split_and!; try done.
  - by rewrite length_insert.
  - intros q Hq. by rewrite list_lookup_insert_ne.
  - intros V HV. apply Hafter, Hsub.
    assert (exists q oq, q ∈ ps_Chained o ++ ps_Chained oP /\
                         h !! q = Some oq /\ V ∈ ps_VSet oq)
      as (q & oq & Hq & Hoq & HVq).
    { destruct HV as [HV|HV].
      - apply (subst_changed_iff h this o V Hthis) in HV
          as (q & oq & Hq & Hoq & HVq).
        + exists q, oq. split; [apply elem_of_app; by left|done].
        + intros q Hq. apply Hvalid, elem_of_app. by left.
      - rewrite Hini in HV.
        apply (subst_changed_iff h P oP V HP) in HV
          as (q & oq & Hq & Hoq & HVq).
        + exists q, oq. split; [apply elem_of_app; by right|done].
        + intros q Hq. apply Hvalid, elem_of_app. by right. }
    destruct (Hin0 q oq Hq Hoq) as (ob & Hob & HVS & _).
    apply elem_of_covered. exists ob. split; [done|]. by rewrite HVS.
  - intros T V HT HV. apply Hafter in HV. apply (Hmin T); [|done].
    apply models_forall. intros ob Hob.
    apply (chain_objects_elem_of _ _ _ _ Hobjs0) in Hob as (q & Hq & Hoq).
    apply models_singleton.
    destruct (decide (q = this)) as [->|Hne].
    + rewrite list_lookup_insert_eq in Hoq by done. injection Hoq as <-.
      unfold o0. cbn [ps_VSet ps_P]. apply (HT this o); [|done].
      apply elem_of_app. by left.

    + rewrite list_lookup_insert_ne in Hoq by done.
      apply (HT q ob); [|done]. by apply elem_of_chain_normalize.
Qed.

Lemma mergeIn_keeps_changes_of_both_witness :
  exists h',
    mergeIn [mkPartialSolution ∅ ∅ [0] false;
             mkPartialSolution ∅ {[ 7 ]} [1] false] 0 1 = Ok h' /\
    PartialSolution_subst h' 0 (LHConsVar 7) = Ok HIGH.
Proof.
  destruct (mergeIn_keeps_changes_of_both
              [mkPartialSolution ∅ ∅ [0] false;
               mkPartialSolution ∅ {[ 7 ]} [1] false] 0 1
              (mkPartialSolution ∅ ∅ [0] false)
              (mkPartialSolution ∅ {[ 7 ]} [1] false))
    as (h' & o' & Hm & _ & _ & _ & _ & _ & _ & Hkeep & _).
  - done.
  - done.
  - done.
  - by apply list_elem_of_singleton.
  - by apply list_elem_of_singleton.
  - intros q Hq. cbn in Hq.
    apply elem_of_cons in Hq as [->|Hq]; [by eexists|].
    apply list_elem_of_singleton in Hq as ->. by eexists.
  - exists h'. split; [exact Hm|]. apply (Hkeep 7). right. by vm_compute.
Defined.

(** X5.  The copy constructor, on a solution that is in its own chain
    and whose chain points to allocated objects, allocates one object at
    the end of the heap, with an empty [VSet] and an empty propagation
    map, and leaves the others alone; [subst] answers on the copy what
    it answers on the original, for every element. *)
Theorem copy_answers_as_original (h : list PartialSolution) (P : nat)
    (p : PartialSolution) :
  h !! P = Some p -> P ∈ ps_Chained p ->
  (forall q, q ∈ ps_Chained p -> is_Some (h !! q)) ->
  exists c,
    copy_PartialSolution h P = Ok (h ++ [c], length h) /\
    ps_VSet c = ∅ /\ ps_P c = ∅ /\ ps_initial c = ps_initial p /\
    length h ∈ ps_Chained c /\
    forall E, PartialSolution_subst (h ++ [c]) (length h) E
              = PartialSolution_subst h P E.
Proof.
  intros HP Hin Hvalid.
  set (c := mkPartialSolution ∅ ∅ (chain_normalize ([length h] ++ ps_Chained p))
              (ps_initial p)).
  exists c. split_and!; try done.
  - by apply copy_PartialSolution_spec.
  - apply elem_of_chain_normalize, elem_of_app. left. by apply list_elem_of_singleton.
  - intros E.
    assert (Hc : (h ++ [c]) !! length h = Some c).
    { rewrite lookup_app_r by lia. by rewrite Nat.sub_diag. }
    destruct (chain_objects_exists h _ Hvalid) as [objs Hobjs].
    destruct (chain_objects_exists (h ++ [c]) (ps_Chained c)) as [objs' Hobjs'].
    { intros q Hq. apply elem_of_chain_normalize, elem_of_app in Hq as [Hq|Hq].
      - apply list_elem_of_singleton in Hq as ->. by rewrite Hc.
      - destruct (Hvalid q Hq) as [oq Hoq]. exists oq. by apply lookup_app_l_Some. }
    unfold PartialSolution_subst, deref. rewrite Hc, HP. cbn [mbind result_bind].
    rewrite Hobjs, Hobjs'. cbn [mbind result_bind]. f_equal.
    apply PS_subst_eval_covered. apply set_eq. intros V.
    rewrite !elem_of_covered. split.
    + intros (ob & Hob & HV).
      apply (chain_objects_elem_of _ _ _ _ Hobjs') in Hob as (q & Hq & Hoq).
      apply elem_of_chain_normalize, elem_of_app in Hq as [Hq|Hq].
      * apply list_elem_of_singleton in Hq as ->.
        assert (ob = c) as -> by congruence. cbn in HV. set_solver.
      * exists ob. split; [|done].
        apply (chain_objects_elem_of _ _ _ _ Hobjs). exists q. split; [done|].
        destruct (Hvalid q Hq) as [oq Hoq'].
        rewrite (lookup_app_l_Some _ _ _ _ Hoq') in Hoq. congruence.
    + intros (ob & Hob & HV).
      apply (chain_objects_elem_of _ _ _ _ Hobjs) in Hob as (q & Hq & Hoq).
      exists ob. split; [|done].
      apply (chain_objects_elem_of _ _ _ _ Hobjs'). exists q.
      split; [|by apply lookup_app_l_Some].
      apply elem_of_chain_normalize, elem_of_app. by right.
Qed.

Lemma copy_answers_as_original_witness :
  exists c,
    copy_PartialSolution [mkPartialSolution ∅ {[ 7 ]} [0] false] 0
    = Ok ([mkPartialSolution ∅ {[ 7 ]} [0] false] ++ [c], 1) /\
    PartialSolution_subst ([mkPartialSolution ∅ {[ 7 ]} [0] false] ++ [c]) 1
      (LHConsVar 7) = Ok HIGH.
Proof.
  destruct (copy_answers_as_original [mkPartialSolution ∅ {[ 7 ]} [0] false] 0
              (mkPartialSolution ∅ {[ 7 ]} [0] false))
    as (c & Hc & _ & _ & _ & _ & Hsub).
  - done.
  - by apply list_elem_of_singleton.
  - intros q Hq. apply list_elem_of_singleton in Hq as ->. by eexists.
  - exists c. split; [exact Hc|].
    etransitivity; [exact (Hsub (LHConsVar 7))|by vm_compute].
Defined.

(** ** The solutions of the kit and its caches *)

(** An invariant of a fold that knows the elements already visited. *)
Lemma foldM_invariant_prefix {A B : Type} (f : A -> B -> result A)
    (Inv : list B -> A -> Prop) l :
  (forall pre a x a', Inv pre a -> f a x = Ok a' -> Inv (pre ++ [x]) a') ->
  forall pre a a', Inv pre a -> foldM f a l = Ok a' -> Inv (pre ++ l) a'.
Proof.
  intros Hf. induction l as [|x r IH]; intros pre a a' Ha; cbn [foldM].
  - intros [= <-]. by rewrite app_nil_r.
  - destruct (f a x) as [a1| | |] eqn:E; cbn [mbind result_bind]; try done.
    intros Hr. rewrite (assoc_L (++) pre [x] r : pre ++ x :: r = (pre ++ [x]) ++ r).
    eapply IH; [|exact Hr]. by eapply Hf.
Qed.

(** What a successful [leastSolution] or [greatestSolution] leaves: a
    well-formed kit that refines the one before, no null cache entry that
    was not there, and a cached solution for each of the kinds. *)
Lemma kit_solution_Ok_inv g k (kinds : gset string) k' ps :
  kit_ok k -> kit_solution g k kinds = Ok (k', ps) ->
  kit_ok k' /\ kit_refines k k' /\
  (forall g' kind', solutions g' k' !! kind' = Some None ->
                    solutions g' k !! kind' = Some None) /\
  merged_ok g k' (elements kinds) ps /\
  kinds <> ∅ /\
  (forall kind, kind ∈ kinds -> solutions g k !! kind <> Some None).
Proof.
  intros Hok. unfold kit_solution.
  destruct (foldM _ _ _) as [[k1 PS]| | |] eqn:Ef; cbn [mbind result_bind]; try done.
  destruct PS as [ps'|]; [|done]. intros [= <- <-].
  set (Inv := fun (done : list string) (st : LHConstraintKit * option nat) =>
         kit_ok st.1 /\ kit_refines k st.1 /\
         (forall g' kind', solutions g' st.1 !! kind' = Some None ->
                           solutions g' k !! kind' = Some None) /\
         match st.2 with
         | None => done = []
         | Some ps => merged_ok g st.1 done ps
         end).
  assert (HI : Inv ([] ++ elements kinds) (k1, Some ps')).
  { apply (foldM_invariant_prefix (solution_step g) Inv (elements kinds))
      with (a := (k, None)); [| |exact Ef].
    - intros done [k0 PS0] kind st' (Hok0 & Href0 & Hn0 & HPS0) Hstep.
      cbn [fst snd] in *.
      pose proof (solution_step_nonnull _ _ _ _ _ Hstep) as Hnn.
      destruct (solution_step_spec g k0 PS0 done kind Hok0 HPS0 Hnn)
        as (k2 & ps2 & Hs2 & Hok2 & Href2 & Hm2 & Hn2 & _).
      rewrite Hstep in Hs2. injection Hs2 as ->. unfold Inv. cbn [fst snd].
      split_and!; [done|by eapply kit_refines_trans| |done].
      intros g' kind' E. by apply Hn0, Hn2.
    - unfold Inv. cbn [fst snd]. split_and!; try done. apply kit_refines_refl. }
  cbn [app] in HI. destruct HI as (H1 & H2 & H3 & H4). cbn [fst snd] in *.
  split_and!; try done.
  - intros ->. rewrite elements_empty in Ef. cbn [foldM] in Ef. done.
  - intros kind Hk E. apply H2 in E.
    destruct H4 as (o & objs & _ & _ & _ & _ & _ & _ & Hdone & _).
    destruct (Hdone kind) as (q & Hq & _); [by apply elem_of_elements|].
    congruence.
Qed.

(** Two kits of which one refines the other give the same solution. *)
Lemma kit_solution_same_answers g k k1 (kinds : gset string) :
  kit_ok k -> kit_ok k1 -> kit_refines k k1 ->
  (forall g' kind', solutions g' k1 !! kind' = Some None ->
                    solutions g' k !! kind' = Some None) ->
  kinds <> ∅ ->
  (forall kind, kind ∈ kinds -> solutions g k !! kind <> Some None) ->
  exists k' p k1' p',
    kit_solution g k kinds = Ok (k', p) /\
    kit_solution g k1 kinds = Ok (k1', p') /\
    forall E, PartialSolution_subst (heap k1') p' E
              = PartialSolution_subst (heap k') p E.
Proof.
  intros Hok Hok1 Href Hnull Hne Hnn.
  assert (Hnn1 : forall kind, kind ∈ kinds -> solutions g k1 !! kind <> Some None).
  { intros kind Hk E. by apply (Hnn kind Hk), Hnull. }
  destruct (kit_solution_spec g k kinds Hok Hne Hnn)
    as (k' & p & o & objs & Hs & _ & _ & _ & _ & _ & _ & _ & Hl & Hsub).
  destruct (kit_solution_spec g k1 kinds Hok1 Hne Hnn1)
    as (k1' & p' & o' & objs' & Hs' & _ & _ & _ & _ & _ & _ & _ & Hl' & Hsub').
  exists k', p, k1', p'. split_and!; try done.
  intros E. rewrite Hsub, Hsub'. f_equal. apply PS_subst_eval_covered.
  eapply least_model_unique; [exact Hl'|].
  eapply least_model_equiv; [|exact Hl]. intros T. split.
  - intros H kind Hk. apply Href. split; [by apply H|by apply Hnn1].
  - intros H kind Hk. by apply Href, H.
Qed.

(** X6.  On a kit whose store has no join on a right-hand side and whose
    caches are empty, [leastSolution] ([g = false]) and
    [greatestSolution] ([g = true]) over a set of kinds that is not empty
    return; the variables the solution changes (to [HIGH] in a least
    solution, to [LOW] in a greatest one) are the least set closed under
    the constraints of every kind of the set; the call allocates no
    variable and no join, and locks each of the kinds. *)
Theorem kit_solution_least_closed_set (g : bool) (k : LHConstraintKit)
    (kinds : gset string) :
  stored_form k -> leastSolutions k = ∅ -> greatestSolutions k = ∅ ->
  kinds <> ∅ ->
  exists k' ps M,
    kit_solution g k kinds = Ok (k', ps) /\
    least_model
      (fun T => forall kind, kind ∈ kinds ->
                  closed (class_of_initial g) (constraints_of k kind) T) M /\
    (forall v, PartialSolution_subst (heap k') ps (LHConsVar v)
               = Ok (boolToLHC (xorb g (bool_decide (v ∈ M))))) /\
    (forall kind, kind ∈ kinds -> kind ∈ lockedConstraintKinds k') /\
    vars k' = vars k /\ joins k' = joins k.
Proof.
  intros Hsf HL HG Hne.
  assert (Hsol : forall g' kind, solutions g' k !! kind = None).
  { intros g' kind. destruct g'; cbn [solutions]; rewrite ?HL, ?HG;
      apply lookup_empty. }
  assert (Hok : kit_ok k).
  { split; [done|]. intros g' kind p E. by rewrite Hsol in E. }
  assert (Hnn : forall kind, kind ∈ kinds -> solutions g k !! kind <> Some None).
  { intros kind _. by rewrite Hsol. }
  destruct (kit_solution_spec g k kinds Hok Hne Hnn)
    as (k' & ps & o & objs & Hs & _ & _ & Hv & Hj & _ & _ & _ & Hl & Hsub).
  destruct (kit_solution_Ok_inv g k kinds k' ps Hok Hs)
    as (Hok' & _ & _ & Hm & _).
  exists k', ps, (covered objs). split_and!; try done.
  - eapply least_model_equiv; [|exact Hl]. intros T.
    split; intros H kind Hk; specialize (H kind Hk);
      unfold kind_models in *; by rewrite Hsol in *.
  - intros v. by rewrite Hsub, PS_subst_eval_var.
  - intros kind Hk.
    destruct Hm as (o' & objs' & _ & _ & _ & _ & _ & _ & Hdone & _).
    destruct (Hdone kind) as (q & Hq & _); [by apply elem_of_elements|].
    by destruct (proj2 Hok' g kind q Hq).
Qed.

Lemma kit_solution_least_closed_set_witness :
  exists k' ps (M : gset nat),
    kit_solution false
      (set_constraints LHConstraintKit_new
         {[ "default" := [mkLHConstraint (LHConstant HIGH) (LHConsVar 0)] ]})
      {[ "default" ]} = Ok (k', ps) /\
    PartialSolution_subst (heap k') ps (LHConsVar 0)
    = Ok (boolToLHC (xorb false (bool_decide (0 ∈ M)))).
Proof.
  destruct (kit_solution_least_closed_set false
              (set_constraints LHConstraintKit_new
                 {[ "default" := [mkLHConstraint (LHConstant HIGH) (LHConsVar 0)] ]})
              {[ "default" ]})
    as (k' & ps & M & Hs & _ & Hsub & _).
  - intros kind cs H. cbn in H.
    apply lookup_singleton_Some in H as [_ <-]. repeat constructor.
  - done.
  - done.
  - intros E. assert ("default" ∈ (∅ : gset string)) as H; [|by set_solver].
    rewrite <- E. by apply elem_of_singleton.
  - exists k', ps, M. split; [exact Hs|exact (Hsub 0)].
Defined.

(** X7.  The caches are transparent: after a call of [leastSolution] or
    [greatestSolution] on a well-formed kit, a call over the kinds
    [kinds] returns when it returns on the kit before, and the two
    solutions give every element the same value. *)
Theorem kit_solution_cache_transparent (g g1 : bool) (k k1 k' : LHConstraintKit)
    (kinds kinds1 : gset string) (p p1 : nat) :
  kit_ok k ->
  kit_solution g1 k kinds1 = Ok (k1, p1) ->
  kit_solution g k kinds = Ok (k', p) ->
  exists k1' p',
    kit_solution g k1 kinds = Ok (k1', p') /\
    forall E, PartialSolution_subst (heap k1') p' E
              = PartialSolution_subst (heap k') p E.
Proof.
  intros Hok H1 H.
  destruct (kit_solution_Ok_inv g1 k kinds1 k1 p1 Hok H1)
    as (Hok1 & Href1 & Hn1 & _).
  destruct (kit_solution_Ok_inv g k kinds k' p Hok H)
    as (_ & _ & _ & _ & Hne & Hnn).
  destruct (kit_solution_same_answers g k k1 kinds Hok Hok1 Href1 Hn1 Hne Hnn)
    as (k2 & p2 & k1' & p' & Hs & Hs1 & Heq).
  rewrite H in Hs. injection Hs as <- <-. by exists k1', p'.
Qed.

Lemma kit_solution_cache_transparent_witness :
  exists k1 p1 k' p k1' p',
    kit_solution true LHConstraintKit_new {[ "default" ]} = Ok (k1, p1) /\
    kit_solution false LHConstraintKit_new {[ "default" ]} = Ok (k', p) /\
    kit_solution false k1 {[ "default" ]} = Ok (k1', p') /\
    PartialSolution_subst (heap k1') p' (LHConsVar 0)
    = PartialSolution_subst (heap k') p (LHConsVar 0).
Proof.
  destruct (kit_solution true LHConstraintKit_new {[ "default" ]})
    as [[k1 p1]| | |] eqn:E1; [|(by vm_compute in E1)..].
  destruct (kit_solution false LHConstraintKit_new {[ "default" ]})
    as [[k' p]| | |] eqn:E; [|(by vm_compute in E)..].
  destruct (kit_solution_cache_transparent false true LHConstraintKit_new k1 k'
              {[ "default" ]} {[ "default" ]} p p1 kit_ok_new E1 E)
    as (k1' & p' & Hs & Heq).
  exists k1, p1, k', p, k1', p'. split_and!; [done|done|exact Hs|exact (Heq _)].
Defined.

(** What [solveMT] leaves in the caches, the locks and the store. *)
Lemma kit_solveMT_fields k kind k' :
  kit_solveMT k kind = Ok k' ->
  (kind ∉ lockedConstraintKinds k) /\
  leastSolutions k !! kind = None /\ greatestSolutions k !! kind = None /\
  exists G L,
    leastSolutions k' = <[ kind := Some L ]> (leastSolutions k) /\
    greatestSolutions k' = <[ kind := Some G ]> (greatestSolutions k) /\
    lockedConstraintKinds k' = {[ kind ]} ∪ lockedConstraintKinds k /\
    constraints k' !! kind = Some [].
Proof.
  unfold kit_solveMT.
  destruct (bool_decide (kind ∈ lockedConstraintKinds k)) eqn:El;
    cbn [negb cassert mbind result_bind]; [done|].
  apply bool_decide_eq_false in El.
  cbv zeta. cbn [leastSolutions greatestSolutions set_locked set_solutions].
  destruct (leastSolutions k !! kind) as [x|] eqn:EL.
  { rewrite (bool_decide_eq_true_2 (is_Some (Some x))) by eauto. done. }
  rewrite (bool_decide_eq_false_2 (is_Some (@None (option nat))))
    by by intros [? ?].
  cbn [negb cassert mbind result_bind].
  destruct (greatestSolutions k !! kind) as [x|] eqn:EG.
  { rewrite (bool_decide_eq_true_2 (is_Some (Some x))) by eauto. done. }
  rewrite (bool_decide_eq_false_2 (is_Some (@None (option nat))))
    by by intros [? ?].
  cbn [negb cassert mbind result_bind].
  match goal with |- context [getOrCreateConstraintSet ?kN kind] =>
    set (k0 := kN) end.
  destruct (getOrCreateConstraintSet_fields k0 kind)
    as (F1 & F2 & F3 & F4 & F5 & F6 & F7 & F8).
  destruct (getOrCreateConstraintSet k0 kind) as [k1 C]. cbn [fst snd] in *.
  destruct (new_PartialSolution (heap k1) C true) as [[h G]| | |];
    cbn [mbind result_bind]; try done.
  destruct (new_PartialSolution h C false) as [[h' L]| | |];
    cbn [mbind result_bind]; try done.
  intros [= <-]. split_and!; try done. exists G, L.
  unfold freeUnneededConstraints.
  cbn [lockedConstraintKinds leastSolutions greatestSolutions set_heap].
  rewrite F2, F3, F4. subst k0.
  cbn [lockedConstraintKinds leastSolutions greatestSolutions].
  rewrite !lookup_insert_eq.
  rewrite (bool_decide_eq_true_2 (kind ∈ _)) by set_solver.
  rewrite !(bool_decide_eq_true_2 (is_Some (Some _))) by eauto.
  cbn [andb].
  match goal with |- context [getOrCreateConstraintSet ?kN kind] =>
    set (k2 := kN) end.
  destruct (getOrCreateConstraintSet_fields k2 kind)
    as (E1 & E2 & E3 & E4 & _).
  destruct (getOrCreateConstraintSet k2 kind) as [k3 C']. cbn [fst snd] in *.
  cbn [leastSolutions greatestSolutions lockedConstraintKinds constraints
       set_constraints].
  rewrite E2, E3, E4. subst k2.
  cbn [leastSolutions greatestSolutions lockedConstraintKinds].
  rewrite !insert_insert_eq, lookup_insert_eq. done.
Qed.

(** X8.  [solveMT] on a kind refuses a kind that is locked or has a
    cached solution; when it returns it has locked the kind, cached a
    least and a greatest solution for it, emptied its constraint vector,
    and a second call on the kind fails.  It does not change what
    [leastSolution] and [greatestSolution] answer: a call that returns
    on the kit before returns on the kit after, with the same value for
    every element. *)
Theorem solveMT_caches_and_keeps_answers (k k1 : LHConstraintKit)
    (kind : string) :
  kit_ok k ->
  kit_solveMT k kind = Ok k1 ->
  ((kind ∉ lockedConstraintKinds k) /\
   leastSolutions k !! kind = None /\ greatestSolutions k !! kind = None) /\
  (kind ∈ lockedConstraintKinds k1 /\
   (exists L, leastSolutions k1 !! kind = Some (Some L)) /\
   (exists G, greatestSolutions k1 !! kind = Some (Some G)) /\
   constraints k1 !! kind = Some []) /\
  kit_solveMT k1 kind = AssertionFailed "Already solved" /\
  (forall g (kinds : gset string) k' p,
     kit_solution g k kinds = Ok (k', p) ->
     exists k1' p',
       kit_solution g k1 kinds = Ok (k1', p') /\
       forall E, PartialSolution_subst (heap k1') p' E
                 = PartialSolution_subst (heap k') p E).
Proof.
  intros Hok H1.
  destruct (kit_solveMT_fields k kind k1 H1)
    as (Hl & HL & HG & G & L & HL1 & HG1 & Hl1 & Hc1).
  destruct (kit_solveMT_preserves k kind k1 Hok H1) as (Hok1 & Href1 & _).
  split_and!; try done.
  - rewrite Hl1. set_solver.
  - exists L. by rewrite HL1, lookup_insert_eq.
  - exists G. by rewrite HG1, lookup_insert_eq.
  - unfold kit_solveMT.
    rewrite (bool_decide_eq_true_2 (kind ∈ lockedConstraintKinds k1))
      by (rewrite Hl1; set_solver).
    reflexivity.
  - intros g kinds k' p H.
    destruct (kit_solution_Ok_inv g k kinds k' p Hok H)
      as (_ & _ & _ & _ & Hne & Hnn).
    destruct (kit_solution_same_answers g k k1 kinds Hok Hok1 Href1) as
      (k2 & p2 & k1' & p' & Hs & Hs1 & Heq); try done.
    + intros g' kind' E. destruct g'; cbn [solutions] in E |- *.
      * rewrite HG1 in E. destruct (decide (kind' = kind)) as [->|Hne'].
        -- by rewrite lookup_insert_eq in E.
        -- by rewrite lookup_insert_ne in E.
      * rewrite HL1 in E. destruct (decide (kind' = kind)) as [->|Hne'].
        -- by rewrite lookup_insert_eq in E.
        -- by rewrite lookup_insert_ne in E.
    + rewrite H in Hs. injection Hs as <- <-. by exists k1', p'.
Qed.

Lemma solveMT_caches_and_keeps_answers_witness :
  exists k1,
    kit_solveMT LHConstraintKit_new "k" = Ok k1 /\
    kit_solveMT k1 "k" = AssertionFailed "Already solved".
Proof.
  destruct (kit_solveMT LHConstraintKit_new "k") as [k1| | |] eqn:E1;
    [|(by vm_compute in E1)..].
  destruct (solveMT_caches_and_keeps_answers LHConstraintKit_new k1 "k"
              kit_ok_new E1) as (_ & _ & H2 & _).
  exists k1. split; [done|exact H2].
Defined.

(** X9.  Once [leastSolution] or [greatestSolution] has returned, each of
    the kinds it was asked for is locked and has a cached solution that
    is not null, and [addConstraint] on such a kind fails, whatever the
    constraint. *)
Theorem solved_kinds_are_locked (g : bool) (k k' : LHConstraintKit)
    (kinds : gset string) (ps : nat) :
  kit_ok k ->
  kit_solution g k kinds = Ok (k', ps) ->
  forall kind, kind ∈ kinds ->
    kind ∈ lockedConstraintKinds k' /\
    (exists q, solutions g k' !! kind = Some (Some q)) /\
    forall lhs_ rhs_,
      addConstraint k' kind lhs_ rhs_
      = AssertionFailed
          "Have already started solving this kind and cannot add more constraints.".
Proof.
  intros Hok H kind Hk.
  destruct (kit_solution_Ok_inv g k kinds k' ps Hok H)
    as (Hok' & _ & _ & Hm & _).
  destruct Hm as (o' & objs' & _ & _ & _ & _ & _ & _ & Hdone & _).
  destruct (Hdone kind) as (q & Hq & _); [by apply elem_of_elements|].
  destruct (proj2 Hok' g kind q Hq) as [Hl _].
  split_and!; [done|by exists q|].
  intros lhs_ rhs_. unfold addConstraint.
  by rewrite (bool_decide_eq_true_2 _ Hl).
Qed.

Lemma solved_kinds_are_locked_witness :
  exists k' ps,
    kit_solution false LHConstraintKit_new {[ "k" ]} = Ok (k', ps) /\
    addConstraint k' "k" (LHConstant HIGH) (LHConsVar 0)
    = AssertionFailed
        "Have already started solving this kind and cannot add more constraints.".
Proof.
  destruct (kit_solution false LHConstraintKit_new {[ "k" ]})
    as [[k' ps]| | |] eqn:E; [|(by vm_compute in E)..].
  exists k', ps. split; [done|].
  refine (proj2 (proj2 (solved_kinds_are_locked false LHConstraintKit_new k'
                          {[ "k" ]} ps kit_ok_new E "k" _)) _ _).
  by apply elem_of_singleton.
Defined.

(** ** The states of the pass and the solutions *)

(** The set a solution that was returned covers. *)
Lemma kit_solution_Ok_model g k (kinds : gset string) k' ps :
  kit_ok k -> kit_solution g k kinds = Ok (k', ps) ->
  exists M,
    least_model (fun T => forall kind, kind ∈ kinds -> kind_models g k kind T) M /\
    forall i, PartialSolution_subst (heap k') ps (LHConsVar i)
              = Ok (boolToLHC (xorb g (bool_decide (i ∈ M)))).
Proof.
  intros Hok H.
  destruct (kit_solution_Ok_inv g k kinds k' ps Hok H)
    as (_ & _ & _ & _ & Hne & Hnn).
  destruct (kit_solution_spec g k kinds Hok Hne Hnn)
    as (k2 & ps2 & o & objs & Hs & _ & _ & _ & _ & _ & _ & _ & Hl & Hsub).
  rewrite H in Hs. injection Hs as <- <-.
  exists (covered objs). split; [done|].
  intros i. by rewrite Hsub, PS_subst_eval_var.
Qed.

(** The kinds of a solution that was returned are locked. *)
Lemma kit_solution_locks g k (kinds : gset string) k' ps kind :
  kit_ok k -> kit_solution g k kinds = Ok (k', ps) -> kind ∈ kinds ->
  kind ∈ lockedConstraintKinds k' /\
  exists q, solutions g k' !! kind = Some (Some q).
Proof.
  intros Hok H Hk.
  destruct (kit_solution_Ok_inv g k kinds k' ps Hok H)
    as (Hok' & _ & _ & Hm & _).
  destruct Hm as (o' & objs' & _ & _ & _ & _ & _ & _ & Hdone & _).
  destruct (Hdone kind) as (q & Hq & _); [by apply elem_of_elements|].
  destruct (proj2 Hok' g kind q Hq) as [Hl _]. eauto.
Qed.

Lemma set_kit_kit fl : set_kit fl (kit fl) = fl.
Proof. by destruct fl. Qed.

Lemma foldM_Ok_id {A B : Type} (f : A -> B -> result A) (l : list B) a :
  (forall a x, f a x = Ok a) -> foldM f a l = Ok a.
Proof.
  intros Hf. induction l as [|x r IH]; cbn [foldM]; [done|].
  rewrite Hf. cbn [mbind result_bind]. exact IH.
Qed.

Section StatesOfThePass.

Variable getName : nat -> string.
Variable locsForValue : nat -> gset nat.
Variable reachableLocsForValue : nat -> gset nat.
Variable DepsDropAtSink : bool.
Variable valueIsSink : nat -> bool.
Variable vargIsSink : nat -> bool.
Variable directPtrIsSink : nat -> bool.
Variable reachPtrIsSink : nat -> bool.

(** X10.  In every state of the pass each entry of the seven maps is a
    variable the kit has allocated, no two entries hold the same
    variable, no constraint has a join on its right-hand side, and every
    variable on the left of a constraint is the variable of an entry
    other than a varargs summary source. *)
Theorem reachable_maps_hold_distinct_variables (fl : Infoflow) :
  reachable getName locsForValue reachableLocsForValue DepsDropAtSink
    valueIsSink vargIsSink directPtrIsSink reachPtrIsSink fl ->
  (forall s e, slot_lookup fl s = Some e ->
     exists i, e = LHConsVar i /\ i < length (vars (kit fl))) /\
  (forall s s' e, slot_lookup fl s = Some e -> slot_lookup fl s' = Some e ->
     s = s') /\
  (forall kind cs c, constraints (kit fl) !! kind = Some cs -> c ∈ cs ->
     isa_LHJoin (rhs c) = false /\
     forall i, i ∈ variables (lhs c) ∅ ->
       exists s, is_source_varg s = false /\
                 slot_lookup fl s = Some (LHConsVar i)).
Proof.
  intros Hr.
  destruct (reachable_inv _ _ _ _ _ _ _ _ fl Hr) as [Hwf _].
  split_and!.
  - apply (wf_vars fl Hwf).
  - intros s s' e Hs Hs'.
    destruct (wf_vars fl Hwf s e Hs) as (i & -> & _).
    by apply (wf_inj fl Hwf s s' i).
  - intros kind cs c Hcs Hc. split.
    + destruct (wf_kit fl Hwf) as [Hsf _]. specialize (Hsf kind cs Hcs).
      unfold no_join_on_rhs in Hsf. rewrite list.Forall_forall in Hsf.
      by apply Hsf.
    + intros i. by apply (wf_lhs fl Hwf kind cs c i).
Qed.

(** X11.  The summary of a value gathers its contexts: in a state of the
    pass, when the variable a value has in some context is [HIGH] in a
    least solution, [isTainted] answers true for the value; when it is
    [LOW] in a greatest solution, [isTainted] answers false. *)
Theorem context_level_reaches_summary (fl : Infoflow) (ctxt v : nat)
    (x : ConsElem) (kinds : gset string) (implicit_ sinks : bool) :
  reachable getName locsForValue reachableLocsForValue DepsDropAtSink
    valueIsSink vargIsSink directPtrIsSink reachPtrIsSink fl ->
  slot_lookup fl (slot_value ctxt v) = Some x ->
  (forall fl' S,
     leastSolution fl kinds implicit_ sinks = Ok (fl', S) ->
     PartialSolution_subst (heap (kit fl')) (soln S) x = Ok HIGH ->
     isTainted fl' S v = Ok true) /\
  (forall fl' S,
     greatestSolution fl kinds implicit_ = Ok (fl', S) ->
     PartialSolution_subst (heap (kit fl')) (soln S) x = Ok LOW ->
     isTainted fl' S v = Ok false).
Proof.
  intros Hr Hx.
  destruct (reachable_inv _ _ _ _ _ _ _ _ fl Hr) as [Hwf Hl].
  destruct (Hl ctxt v x Hx) as (sv & xv & tv & -> & Hs & Ht & Hc).
  cbn [slot_lookup] in Hs, Ht.
  split.
  - intros fl' S. unfold leastSolution, kit_leastSolution.
    destruct (kit_solution false (kit fl) _) as [[k' ps]| | |] eqn:E;
      cbn [mbind result_bind]; try done.
    intros [= <- <-]. cbn [kit set_kit heap soln].
    destruct (kit_solution_Ok_model false (kit fl) _ k' ps (wf_kit fl Hwf) E)
      as (M & [HM _] & Hsub).
    rewrite Hsub. cbn [xorb]. intros [= Hxv].
    assert (xv ∈ M) as Hin.
    { destruct (decide (xv ∈ M)) as [?|Hn]; [done|].
      by rewrite (bool_decide_eq_false_2 _ Hn) in Hxv. }
    assert (tv ∈ M) as Htv.
    { pose proof (Hc false M (HM "default" (least_kinds_default _ _ _))) as Hcl.
      cbn [class_of_initial] in Hcl.
      by eapply closed_least_var_var; [exact (closed_tail _ _ _ _ Hcl)|]. }
    unfold isTainted.
    cbn [over_sources soln summarySinkValueConstraintMap set_kit kit heap].
    rewrite Ht, Hsub. cbn [mbind result_bind].
    by rewrite (bool_decide_eq_true_2 _ Htv).
  - intros fl' S. unfold greatestSolution, kit_greatestSolution.
    destruct (kit_solution true (kit fl) _) as [[k' ps]| | |] eqn:E;
      cbn [mbind result_bind]; try done.
    intros [= <- <-]. cbn [kit set_kit heap soln].
    destruct (kit_solution_Ok_model true (kit fl) _ k' ps (wf_kit fl Hwf) E)
      as (M & [HM _] & Hsub).
    rewrite Hsub. cbn [xorb]. intros [= Hxv].
    assert (xv ∈ M) as Hin.
    { destruct (decide (xv ∈ M)) as [?|Hn]; [done|].
      by rewrite (bool_decide_eq_false_2 _ Hn) in Hxv. }
    assert (sv ∈ M) as Hsv.
    { pose proof (Hc true M (HM "default" (greatest_kinds_default _ _))) as Hcl.
      cbn [class_of_initial] in Hcl.
      by eapply closed_greatest_var_var; [exact Hcl|]. }
    unfold isTainted.
    cbn [over_sources soln summarySourceValueConstraintMap set_kit kit heap].
    rewrite Hs, Hsub. cbn [mbind result_bind].
    by rewrite (bool_decide_eq_true_2 _ Hsv).
Qed.

(** X12.  A flow record with no source of any sort changes nothing,
    whatever its sinks: [constrainFlowRecord] returns the state it was
    given, with no variable created for a sink. *)
Theorem flow_record_without_sources_is_noop (fl : Infoflow)
    (record : FlowRecord) :
  valueSources record = ∅ -> vargSources record = ∅ ->
  directPtrSources record = ∅ -> reachPtrSources record = ∅ ->
  constrainFlowRecord getName locsForValue reachableLocsForValue DepsDropAtSink
    valueIsSink vargIsSink directPtrIsSink reachPtrIsSink fl record = Ok fl.
Proof.
  intros H1 H2 H3 H4. unfold constrainFlowRecord.
  rewrite H1, H2, H3, H4, !elements_empty.
  cbn [foldM foldl mbind result_bind].
  rewrite !elements_empty. cbn [foldl]. cbv beta iota zeta.
  rewrite (bool_decide_eq_true_2 (∅ = ∅)) by done. cbn [negb].
  cbv beta iota zeta. rewrite set_kit_kit.
  rewrite (foldM_Ok_id _ (elements (valueSinks record))) by done.
  cbn [mbind result_bind].
  rewrite (foldM_Ok_id _ (elements (vargSinks record))) by done.
  cbn [mbind result_bind].
  by apply foldM_Ok_id.
Qed.

End StatesOfThePass.

Lemma reachable_maps_hold_distinct_variables_witness :
  exists i, slot_lookup example_state (slot_value DefaultID 0) = Some (LHConsVar i) /\
            i < length (vars (kit example_state)).
Proof.
  destruct (reachable_maps_hold_distinct_variables _ _ _ _ _ _ _ _ example_state
              example_state_reachable) as (H & _).
  destruct (H (slot_value DefaultID 0) (LHConsVar 3)) as (i & Hi & Hlt).
  - by vm_compute.
  - exists i. split; [|exact Hlt]. rewrite <- Hi. by vm_compute.
Defined.

(** The example state after taint has been declared on the value 1, and
    a least solution of it. *)
Definition example_tainted_state : Infoflow :=
match setTainted (fun _ => "v") example_state "k" 1 with
| Ok fl => fl
| _ => Infoflow_new
end.

Lemma example_tainted_state_reachable :
  reachable (fun _ => "v") (fun _ => ∅) (fun _ => ∅) false
    (fun _ => false) (fun _ => false) (fun _ => false) (fun _ => false)
    example_tainted_state.
Proof.
  eapply (reachable_call _ _ _ _ _ _ _ _ example_state
            (call_setTainted "k" 1)); [apply example_state_reachable|].
  cbn [run_call]. unfold example_tainted_state.
  destruct (setTainted _ example_state "k" 1) eqn:E;
    [done|(by vm_compute in E)..].
Defined.

Definition example_solution : Infoflow * InfoflowSolution :=
match leastSolution example_tainted_state {[ "k" ]} false false with
| Ok r => r
| _ => (Infoflow_new, mkInfoflowSolution 0 false false)
end.

Lemma context_level_reaches_summary_witness :
  leastSolution example_tainted_state {[ "k" ]} false false
  = Ok (example_solution.1, example_solution.2) /\
  isTainted (example_solution.1) (example_solution.2) 0 = Ok true.
Proof.
  assert (E : leastSolution example_tainted_state {[ "k" ]} false false
              = Ok (example_solution.1, example_solution.2)) by by vm_compute.
  split; [exact E|].
  refine (proj1 (context_level_reaches_summary (fun _ => "v") (fun _ => ∅)
                   (fun _ => ∅) false (fun _ => false) (fun _ => false)
                   (fun _ => false) (fun _ => false) example_tainted_state
                   DefaultID 0 (LHConsVar 3) {[ "k" ]} false false
                   example_tainted_state_reachable _) _ _ E _).
  - by vm_compute.
  - by vm_compute.
Defined.

Lemma flow_record_without_sources_is_noop_witness :
  constrainFlowRecord (fun _ => "v") (fun _ => ∅) (fun _ => ∅) false
    (fun _ => false) (fun _ => false) (fun _ => false) (fun _ => false)
    Infoflow_new (addSinkValue (FlowRecord_new false DefaultID DefaultID) 0)
  = Ok Infoflow_new.
Proof.
  by apply flow_record_without_sources_is_noop.
Defined.

(** ** Declarations of taint and the kinds that take none *)

(** The steps of the pass keep the cached solutions. *)
Lemma pstep_cached fl fl' g kind x :
  wf_state fl -> pstep fl fl' ->
  solutions g (kit fl) !! kind = Some x -> solutions g (kit fl') !! kind = Some x.
Proof.
  intros Hwf Hs. destruct Hs as [fl fl' s d Hn Hk _|fl fl' j _ Hk
                                |fl fl' kd l r _ _ Ha|fl fl' _ Hr _ _].
  - rewrite Hk. by destruct g.
  - rewrite Hk. by destruct g.
  - destruct (addConstraint_kit _ _ _ _ _ (wf_kit fl Hwf) Ha)
      as (_ & _ & _ & Hsol & _). by rewrite Hsol.
  - destruct (Hr (wf_kit fl Hwf)) as [_ [Hp _]]. apply Hp.
Qed.

Lemma psteps_cached fl fl' g kind x :
  wf_state fl -> psteps fl fl' ->
  solutions g (kit fl) !! kind = Some x -> solutions g (kit fl') !! kind = Some x.
Proof.
  intros Hwf H. induction H as [|fl fl1 fl2 H1 _ IH]; [done|].
  intros Hx. apply IH; [by eapply pstep_wf|by eapply pstep_cached].
Qed.

(** A kind with a cached solution is locked, and stays so. *)
Lemma psteps_locked fl fl' g kind q :
  wf_state fl -> psteps fl fl' ->
  solutions g (kit fl) !! kind = Some (Some q) ->
  kind ∈ lockedConstraintKinds (kit fl').
Proof.
  intros Hwf H Hq. pose proof (psteps_wf _ _ Hwf H) as Hwf'.
  pose proof (psteps_cached _ _ g kind _ Hwf H Hq) as Hq'.
  by destruct (proj2 (wf_kit fl' Hwf') g kind q Hq').
Qed.

Lemma addConstraint_locked k kind lhs_ rhs_ :
  kind ∈ lockedConstraintKinds k ->
  addConstraint k kind lhs_ rhs_
  = AssertionFailed
      "Have already started solving this kind and cannot add more constraints.".
Proof. intros Hl. unfold addConstraint. by rewrite (bool_decide_eq_true_2 _ Hl). Qed.




Section Declarations.

Variable getName : nat -> string.
Variable locsForValue : nat -> gset nat.
Variable reachableLocsForValue : nat -> gset nat.



Variable DepsDropAtSink : bool.
Variable valueIsSink : nat -> bool.
Variable vargIsSink : nat -> bool.
Variable directPtrIsSink : nat -> bool.
Variable reachPtrIsSink : nat -> bool.


(** X14.  [getOrCreateConsElem] on a context and a value is a lookup
    after the first call: in a state of the pass, a call that returns
    leaves a state on which the same call returns the same element and
    changes nothing.  When the value had a variable in the context the
    first call returns it and the state as it was; when it had none the
    element returned is the next variable of the kit, which no entry of
    the maps held.  The variables of the other values in this and in the
    other contexts stay. *)
Theorem getOrCreateConsElem_then_lookup (fl fl1 : Infoflow) (ctxt v : nat)
    (e : ConsElem) :
  reachable getName locsForValue reachableLocsForValue DepsDropAtSink
    valueIsSink vargIsSink directPtrIsSink reachPtrIsSink fl ->
  getOrCreateConsElem getName fl ctxt v = Ok (fl1, e) ->
  getOrCreateConsElem getName fl1 ctxt v = Ok (fl1, e) /\
  (forall e', slot_lookup fl (slot_value ctxt v) = Some e' ->
              fl1 = fl /\ e = e') /\
  (slot_lookup fl (slot_value ctxt v) = None ->
   e = LHConsVar (length (vars (kit fl))) /\
   forall s e', slot_lookup fl s = Some e' -> e' <> e) /\
  (forall ctxt' v', (ctxt', v') <> (ctxt, v) ->
     slot_lookup fl1 (slot_value ctxt' v')
     = slot_lookup fl (slot_value ctxt' v')).
Proof.
  intros Hr H.
  destruct (reachable_inv _ _ _ _ _ _ _ _ fl Hr) as [Hwf _].
  destruct (getOrCreateConsElem_spec getName fl ctxt v fl1 e Hwf H)
    as (_ & Le & Hoth & _).
  split_and!.
  - unfold getOrCreateConsElem. cbn [slot_lookup] in Le. by rewrite Le.
  - intros e' He'. unfold getOrCreateConsElem in H. cbn [slot_lookup] in He'.
    rewrite He' in H. by injection H as <- <-.
  - intros Hn.
    assert (He : e = LHConsVar (length (vars (kit fl)))).
    { unfold getOrCreateConsElem in H. cbn [slot_lookup] in Hn.
      rewrite Hn in H. cbn [newVar] in H. cbv beta iota zeta in H.
      destruct (getOrCreateConsElemSummarySource _ _ _) as [fl2 ss] in H.
      destruct (addConstraint _ _ _ _) as [k2| | |] in H;
        cbn [mbind result_bind] in H; try done.
      destruct (putOrConstrainConsElemSummarySink _ _ _ _ _) as [fl3| | |] in H;
        cbn [mbind result_bind] in H; try done.
      by injection H as _ <-. }
    split; [done|]. intros s e' Hs Heq.
    destruct (wf_vars fl Hwf s _ Hs) as (i & Hi & Hlt).
    rewrite Hi, He in Heq. injection Heq as ->. lia.
  - intros ctxt' v' Hne. apply Hoth; [done|]. intros [= -> ->]. done.
Qed.

End Declarations.

Lemma getOrCreateConsElem_then_lookup_witness :
  getOrCreateConsElem (fun _ => "v") example_state DefaultID 0
  = Ok (example_state, LHConsVar 3).
Proof.
  assert (H : getOrCreateConsElem (fun _ => "v") example_state DefaultID 0
              = Ok (example_state, LHConsVar 3)) by by vm_compute.
  exact (proj1 (getOrCreateConsElem_then_lookup (fun _ => "v") (fun _ => ∅)
                  (fun _ => ∅) false (fun _ => false) (fun _ => false)
                  (fun _ => false) (fun _ => false) example_state example_state
                  DefaultID 0 (LHConsVar 3) example_state_reachable H)).
Defined.

(** ** Taint declared on memory *)

Section MemoryTaint.

Variable getName : nat -> string.

(** What the loop of [setDirectPtrTainted] and [setReachPtrTainted]
    leaves for each location. *)
Lemma locs_tainted_fold_spec kind l : forall fl fl',
  wf_state fl ->
  foldM (fun fl loc =>
           let '(fl, current) := getOrCreateLocConsElem fl loc in
           k ← addConstraint (kit fl) kind highConstant current;
           Ok (set_kit fl k)) fl l = Ok fl' ->
  asteps getName fl fl' /\
  forall loc, loc ∈ l ->
    exists cur,
      slot_lookup fl' (slot_loc loc) = Some cur /\
      forall g T, kind_models g (kit fl') kind T ->
                  closed (class_of_initial g) [mkLHConstraint highConstant cur] T.
Proof.
  induction l as [|loc r IH]; intros fl fl' Hwf; cbn [foldM].
  - intros [= <-]. split; [apply rtc_refl|]. by intros loc ?%elem_of_nil.
  - destruct (getOrCreateLocConsElem fl loc) as [fl1 cur] eqn:E1.
    apply getOrCreateLocConsElem_spec in E1 as (L1 & S1 & F1 & _).
    pose proof (simple_slot_asteps getName fl fl1 (slot_loc loc) eq_refl S1 F1) as A1.
    pose proof (asteps_wf getName _ _ Hwf A1) as Hwf1.
    destruct (addConstraint (kit fl1) kind highConstant cur) as [k'| | |] eqn:E2;
      cbn [mbind result_bind]; try done.
    destruct (add_step fl1 kind highConstant cur k' Hwf1 (usable_constant _ _) E2)
      as (_ & Hwf2 & Hcl & _).
    assert (A2 : asteps getName fl (set_kit fl1 k')).
    { eapply asteps_add; [done|done|apply usable_constant|done]. }
    intros H. destruct (IH _ _ Hwf2 H) as [A3 Hr].
    destruct (asteps_mono getName _ _ Hwf2 A3) as [P3 M3].
    split; [by eapply rtc_trans|].
    intros loc' [->|Hin]%elem_of_cons; [|by apply Hr].
    exists cur. split.
    + apply P3. by rewrite slot_lookup_set_kit.
    + intros g T HT. apply Hcl. by apply M3.
Qed.

(** What the loop of [setDirectPtrUntainted] and [setReachPtrUntainted]
    leaves for each location. *)
Lemma locs_untainted_fold_spec kind l : forall fl fl',
  wf_state fl ->
  foldM (fun fl loc =>
           let '(fl, current) := getOrCreateLocConsElem fl loc in
           k ← addConstraint (kit fl) kind current lowConstant;
           Ok (set_kit fl k)) fl l = Ok fl' ->
  asteps getName fl fl' /\
  forall loc, loc ∈ l ->
    exists cur,
      slot_lookup fl' (slot_loc loc) = Some cur /\
      forall g T, kind_models g (kit fl') kind T ->
                  closed (class_of_initial g) [mkLHConstraint cur lowConstant] T.
Proof.
  induction l as [|loc r IH]; intros fl fl' Hwf; cbn [foldM].
  - intros [= <-]. split; [apply rtc_refl|]. by intros loc ?%elem_of_nil.
  - destruct (getOrCreateLocConsElem fl loc) as [fl1 cur] eqn:E1.
    apply getOrCreateLocConsElem_spec in E1 as (L1 & S1 & F1 & _).
    pose proof (simple_slot_asteps getName fl fl1 (slot_loc loc) eq_refl S1 F1) as A1.
    pose proof (asteps_wf getName _ _ Hwf A1) as Hwf1.
    destruct (addConstraint (kit fl1) kind cur lowConstant) as [k'| | |] eqn:E2;
      cbn [mbind result_bind]; try done.
    assert (Hu : usable fl1 cur) by by eapply (usable_slot fl1 (slot_loc loc)).
    destruct (wf_vars fl1 Hwf1 _ _ L1) as (i & -> & _).
    destruct (add_step fl1 kind (LHConsVar i) lowConstant k' Hwf1 Hu E2)
      as (_ & Hwf2 & Hcl & _).
    assert (A2 : asteps getName fl (set_kit fl1 k')).
    { eapply asteps_add; [done|done|done|done]. }
    intros H. destruct (IH _ _ Hwf2 H) as [A3 Hr].
    destruct (asteps_mono getName _ _ Hwf2 A3) as [P3 M3].
    split; [by eapply rtc_trans|].
    intros loc' [->|Hin]%elem_of_cons; [|by apply Hr].
    exists (LHConsVar i). split.
    + apply P3. by rewrite slot_lookup_set_kit.
    + intros g T HT. apply Hcl. by apply M3.
Qed.

End MemoryTaint.

(** The loop of [isDirectPtrTainted] and [isReachPtrTainted] on
    locations that the solution has changed. *)
Lemma locs_tainted_loop_changed fl S (M : gset nat) g l :
  (forall i, PartialSolution_subst (heap (kit fl)) (soln S) (LHConsVar i)
             = Ok (boolToLHC (xorb g (bool_decide (i ∈ M))))) ->
  (forall loc, loc ∈ l ->
     exists i, locConstraintMap fl !! loc = Some (LHConsVar i) /\ i ∈ M) ->
  locs_tainted_loop fl S l
  = Ok (if g then false else negb (bool_decide (l = []))).
Proof.
  intros Hsub. induction l as [|loc r IH]; intros Hl; cbn [locs_tainted_loop].
  - by destruct g.
  - destruct (Hl loc) as (i & Hi & HM); [left|].
    rewrite Hi, Hsub, (bool_decide_eq_true_2 _ HM). cbn [mbind result_bind].
    destruct g; cbn; [|done].
    apply IH. intros loc' Hin. apply Hl. by right.
Qed.


Section MemoryRoundTrip.

Variable getName : nat -> string.
Variable locsForValue : nat -> gset nat.
Variable reachableLocsForValue : nat -> gset nat.
Variable DepsDropAtSink : bool.
Variable valueIsSink : nat -> bool.
Variable vargIsSink : nat -> bool.
Variable directPtrIsSink : nat -> bool.
Variable reachPtrIsSink : nat -> bool.

(** The round trip on a set of locations. *)
Lemma locs_round_trip fl (locs : gset nat) k (kinds : gset string) implicit_ sinks :
  wf_state fl -> k ∈ kinds ->
  (forall fl1 fl2 S,
     set_locs_tainted fl k locs = Ok fl1 ->
     leastSolution fl1 kinds implicit_ sinks = Ok (fl2, S) ->
     locs_tainted_loop fl2 S (elements locs)
     = Ok (negb (bool_decide (locs = ∅)))) /\
  (forall fl1 fl2 S,
     set_locs_untainted fl k locs = Ok fl1 ->
     greatestSolution fl1 kinds implicit_ = Ok (fl2, S) ->
     locs_tainted_loop fl2 S (elements locs) = Ok false).
Proof using getName.
  intros Hwf Hk. split.
  - intros fl1 fl2 S Hset Hsol.
    destruct (locs_tainted_fold_spec getName k _ _ _ Hwf Hset) as [A1 Hl].
    pose proof (asteps_wf getName _ _ Hwf A1) as Hwf1.
    unfold leastSolution, kit_leastSolution in Hsol.
    destruct (kit_solution false (kit fl1) _) as [[k' ps]| | |] eqn:E;
      cbn [mbind result_bind] in Hsol; try done.
    injection Hsol as <- <-.
    destruct (kit_solution_Ok_model false (kit fl1) _ k' ps (wf_kit fl1 Hwf1) E)
      as (M & [HM _] & Hsub).
    rewrite (locs_tainted_loop_changed _ _ M false).
    + cbn. do 2 f_equal. apply bool_decide_ext. split.
      * intros E0. by apply elements_empty_inv, leibniz_equiv in E0.
      * intros ->. apply elements_empty.
    + exact Hsub.
    + intros loc Hin. destruct (Hl loc Hin) as (cur & Hc & Hcl).
      destruct (wf_vars fl1 Hwf1 _ _ Hc) as (i & -> & _).
      exists i. split; [exact Hc|]. apply closed_least_high_var.
      apply (Hcl false M). by apply HM, least_kinds_kinds.
  - intros fl1 fl2 S Hset Hsol.
    destruct (locs_untainted_fold_spec getName k _ _ _ Hwf Hset) as [A1 Hl].
    pose proof (asteps_wf getName _ _ Hwf A1) as Hwf1.
    unfold greatestSolution, kit_greatestSolution in Hsol.
    destruct (kit_solution true (kit fl1) _) as [[k' ps]| | |] eqn:E;
      cbn [mbind result_bind] in Hsol; try done.
    injection Hsol as <- <-.
    destruct (kit_solution_Ok_model true (kit fl1) _ k' ps (wf_kit fl1 Hwf1) E)
      as (M & [HM _] & Hsub).
    rewrite (locs_tainted_loop_changed _ _ M true); [done|exact Hsub|].
    intros loc Hin. destruct (Hl loc Hin) as (cur & Hc & Hcl).
    destruct (wf_vars fl1 Hwf1 _ _ Hc) as (i & -> & _).
    exists i. split; [exact Hc|]. apply closed_greatest_var_low.
    apply (Hcl true M). by apply HM, greatest_kinds_kinds.
Qed.

(** X17.  Taint declared on memory is read back.  In a state of the
    pass, after [setDirectPtrTainted] on a value for a kind, a least
    solution over kinds that hold the kind answers [isDirectPtrTainted]
    on the value with true when the value has an abstract location, and
    with false when it has none; after [setDirectPtrUntainted] a greatest
    solution answers false.  The same holds of [setReachPtrTainted],
    [setReachPtrUntainted] and [isReachPtrTainted]. *)
Theorem memory_taint_round_trip (fl : Infoflow) (v : nat) (k : string)
    (kinds : gset string) (implicit_ sinks : bool) :
  reachable getName locsForValue reachableLocsForValue DepsDropAtSink
    valueIsSink vargIsSink directPtrIsSink reachPtrIsSink fl ->
  k ∈ kinds ->
  (forall fl1 fl2 S,
     setDirectPtrTainted locsForValue fl k v = Ok fl1 ->
     leastSolution fl1 kinds implicit_ sinks = Ok (fl2, S) ->
     isDirectPtrTainted locsForValue fl2 S v
     = Ok (negb (bool_decide (locsForValue v = ∅)))) /\
  (forall fl1 fl2 S,
     setDirectPtrUntainted locsForValue fl k v = Ok fl1 ->
     greatestSolution fl1 kinds implicit_ = Ok (fl2, S) ->
     isDirectPtrTainted locsForValue fl2 S v = Ok false) /\
  (forall fl1 fl2 S,
     setReachPtrTainted reachableLocsForValue fl k v = Ok fl1 ->
     leastSolution fl1 kinds implicit_ sinks = Ok (fl2, S) ->
     isReachPtrTainted reachableLocsForValue fl2 S v
     = Ok (negb (bool_decide (reachableLocsForValue v = ∅)))) /\
  (forall fl1 fl2 S,
     setReachPtrUntainted reachableLocsForValue fl k v = Ok fl1 ->
     greatestSolution fl1 kinds implicit_ = Ok (fl2, S) ->
     isReachPtrTainted reachableLocsForValue fl2 S v = Ok false).
Proof.
  intros Hr Hk.
  destruct (reachable_inv _ _ _ _ _ _ _ _ fl Hr) as [Hwf _].
  destruct (locs_round_trip fl (locsForValue v) k kinds implicit_ sinks Hwf Hk)
    as [D1 D2].
  destruct (locs_round_trip fl (reachableLocsForValue v) k kinds implicit_ sinks
              Hwf Hk) as [R1 R2].
  split_and!; intros fl1 fl2 S Hset Hsol.
  - unfold setDirectPtrTainted in Hset.
    destruct (not_default_or_implicit k) as [[]| | |];
      cbn [mbind result_bind] in Hset; try done.
    by eapply D1.
  - unfold setDirectPtrUntainted in Hset.
    destruct (not_default_or_implicit k) as [[]| | |];
      cbn [mbind result_bind] in Hset; try done.
    by eapply D2.
  - unfold setReachPtrTainted in Hset.
    destruct (not_default_or_implicit k) as [[]| | |];
      cbn [mbind result_bind] in Hset; try done.
    by eapply R1.
  - unfold setReachPtrUntainted in Hset.
    destruct (not_default_or_implicit k) as [[]| | |];
      cbn [mbind result_bind] in Hset; try done.
    by eapply R2.
Qed.

End MemoryRoundTrip.

Definition example_memory_state : Infoflow :=
match setDirectPtrTainted (fun _ => {[ 7 ]}) Infoflow_new "k" 0 with
| Ok fl => fl
| _ => Infoflow_new
end.

Definition example_memory_solution : Infoflow * InfoflowSolution :=
match leastSolution example_memory_state {[ "k" ]} false false with
| Ok r => r
| _ => (Infoflow_new, mkInfoflowSolution 0 false false)
end.

Lemma memory_taint_round_trip_witness :
  setDirectPtrTainted (fun _ => {[ 7 ]}) Infoflow_new "k" 0
  = Ok example_memory_state /\
  leastSolution example_memory_state {[ "k" ]} false false
  = Ok (example_memory_solution.1, example_memory_solution.2) /\
  isDirectPtrTainted (fun _ => {[ 7 ]}) (example_memory_solution.1)
    (example_memory_solution.2) 0 = Ok true.
Proof.
  assert (E1 : setDirectPtrTainted (fun _ => {[ 7 ]}) Infoflow_new "k" 0
               = Ok example_memory_state) by by vm_compute.
  assert (E2 : leastSolution example_memory_state {[ "k" ]} false false
               = Ok (example_memory_solution.1, example_memory_solution.2))
    by by vm_compute.
  split_and!; [exact E1|exact E2|].
  etransitivity.
  - refine (proj1 (memory_taint_round_trip (fun _ => "v") (fun _ => {[ 7 ]})
                     (fun _ => ∅) false (fun _ => false) (fun _ => false)
                     (fun _ => false) (fun _ => false) Infoflow_new 0 "k"
                     {[ "k" ]} false false (reachable_new _ _ _ _ _ _ _ _) _)
                  _ _ _ E1 E2).
    by vm_compute.
  - by vm_compute.
Defined.

(** ** Flow records and the taint they carry *)

Lemma foldM_app {A B : Type} (f : A -> B -> result A) a l1 l2 :
  foldM f a (l1 ++ l2) = (a1 ← foldM f a l1; foldM f a1 l2).
Proof.
  revert a. induction l1 as [|x r IH]; intros a; cbn [foldM app]; [done|].
  destruct (f a x); cbn [mbind result_bind]; [apply IH|done..].
Qed.

(** A fold that returns has gone through each element of its list. *)
Lemma foldM_member {A B : Type} (f : A -> B -> result A) a l a' x :
  foldM f a l = Ok a' -> x ∈ l ->
  exists l1 l2 a1 a2,
    l = l1 ++ x :: l2 /\ foldM f a l1 = Ok a1 /\ f a1 x = Ok a2 /\
    foldM f a2 l2 = Ok a'.
Proof.
  intros H Hx. apply list_elem_of_split in Hx as (l1 & l2 & ->).
  rewrite foldM_app in H.
  destruct (foldM f a l1) as [a1| | |] eqn:E1; cbn [mbind result_bind] in H;
    try done.
  cbn [foldM] in H.
  destruct (f a1 x) as [a2| | |] eqn:E2; cbn [mbind result_bind] in H; try done.
  by exists l1, l2, a1, a2.
Qed.

Lemma closed_member cls cs c T : closed cls cs T -> c ∈ cs -> closed cls [c] T.
Proof.
  intros H Hc c' Hc'. apply list_elem_of_singleton in Hc' as ->. by apply H.
Qed.

Lemma collect_loc_elems_grows locs : forall fl (S : gset ConsElem),
  S ⊆ (foldl collect_loc_elems (fl, S) locs).2.
Proof.
  induction locs as [|loc r IH]; intros fl S; cbn [foldl]; [done|].
  assert (Est : collect_loc_elems (fl, S) loc
                = ((getOrCreateLocConsElem fl loc).1,
                   {[ (getOrCreateLocConsElem fl loc).2 ]} ∪ S)).
  { unfold collect_loc_elems. by destruct (getOrCreateLocConsElem fl loc). }
  rewrite Est. etransitivity; [|apply IH]. set_solver.
Qed.

Section FlowRecords.

Variable getName : nat -> string.
Variable locsForValue : nat -> gset nat.
Variable reachableLocsForValue : nat -> gset nat.
Variable DepsDropAtSink : bool.
Variable valueIsSink : nat -> bool.
Variable vargIsSink : nat -> bool.
Variable directPtrIsSink : nat -> bool.
Variable reachPtrIsSink : nat -> bool.

(** The first half of [constrainFlowRecord]: the state after the
    elements of the sources have been gathered and joined, with the join
    of the sources that flow on and the join of those dropped at sinks,
    when there are any. *)
Definition flow_sources (fl : Infoflow) (record : FlowRecord)
  : result (Infoflow * option ConsElem * option ConsElem) :=
  st ← foldM (collect_source DepsDropAtSink valueIsSink
                (fun fl v => getOrCreateConsElem getName fl (sourceCtxt record) v))
             (fl, ∅, ∅) (elements (valueSources record));
  '(fl, Sources, sinkSources) ←
    foldM (collect_source DepsDropAtSink vargIsSink
             (fun fl f => getOrCreateVargConsElem getName fl (sourceCtxt record) f))
          st (elements (vargSources record));
  let locs := foldl (collect_source_locs DepsDropAtSink directPtrIsSink locsForValue)
                    (∅, ∅) (elements (directPtrSources record)) in
  let '(SourceLocs, sinkSourceLocs) :=
    foldl (collect_source_locs DepsDropAtSink reachPtrIsSink reachableLocsForValue)
          locs (elements (reachPtrSources record)) in
  let '(fl, Sources) := foldl collect_loc_elems (fl, Sources) (elements SourceLocs) in
  let '(fl, sinkSources) :=
    foldl collect_loc_elems (fl, sinkSources) (elements sinkSourceLocs) in
  let regFlow := negb (bool_decide (Sources = ∅)) in
  let sinkFlow := negb (bool_decide (sinkSources = ∅)) in
  let '(k, sourceElem) :=
    if regFlow then
      let r := upperBound_set (kit fl) Sources in (r.1, Some r.2)
    else (kit fl, None) in
  let '(k, sinkSourceElem) :=
    if sinkFlow then
      let r := upperBound_set k sinkSources in (r.1, Some r.2)
    else (k, None) in
  Ok (set_kit fl k, sourceElem, sinkSourceElem).

(** The body of the loops over the sinks. *)
Definition to_sink (sourceElem sinkSourceElem : option ConsElem)
  (put : Infoflow -> bool -> ConsElem -> result Infoflow) (fl : Infoflow)
  : result Infoflow :=
  fl ← match sourceElem with
      | Some e => put fl false e
      | None => Ok fl
      end;
  match sinkSourceElem with
  | Some e => put fl true e
  | None => Ok fl
  end.

(** The second half of [constrainFlowRecord]: the loops over the
    sinks. *)
Definition flow_sinks (fl : Infoflow) (record : FlowRecord)
  (sourceElem sinkSourceElem : option ConsElem) : result Infoflow :=
  fl ← foldM (fun fl sink =>
               to_sink sourceElem sinkSourceElem
                 (fun fl s e =>
                    putOrConstrainConsElem getName fl (implicit record) s
                      (sinkCtxt record) sink e) fl)
            fl (elements (valueSinks record));
  fl ← foldM (fun fl sink =>
               to_sink sourceElem sinkSourceElem
                 (fun fl s e =>
                    putOrConstrainVargConsElem getName fl (implicit record) s
                      (sinkCtxt record) sink e) fl)
            fl (elements (vargSinks record));
  let SinkLocs := foldl (fun acc sink => acc ∪ locsForValue sink) ∅
                        (elements (directPtrSinks record)) in
  let SinkLocs := foldl (fun acc sink => acc ∪ reachableLocsForValue sink)
                        SinkLocs (elements (reachPtrSinks record)) in
  foldM (fun fl loc =>
           to_sink sourceElem sinkSourceElem
             (fun fl s e =>
                putOrConstrainLocConsElem fl (implicit record) s loc e) fl)
        fl (elements SinkLocs).

(** Whether a source is dropped at sinks: its element then goes to
    [sinkSources], and its flows are filed under the kinds of sinks. *)
Definition dropped (isSink : nat -> bool) (source : nat) : bool :=
  negb (negb DepsDropAtSink || negb (isSink source)).

(** The places a flow record reads: the variable of a value or of the
    varargs of a function in the source context, and the variables of
    the locations its pointers point to or reach; each with whether it is
    dropped at sinks. *)
Inductive flow_source (record : FlowRecord) : Slot -> bool -> Prop :=
| source_value s :
    s ∈ valueSources record ->
    flow_source record (slot_value (sourceCtxt record) s) (dropped valueIsSink s)
| source_varg f :
    f ∈ vargSources record ->
    flow_source record (slot_varg (sourceCtxt record) f) (dropped vargIsSink f)
| source_directPtr p l :
    p ∈ directPtrSources record -> l ∈ locsForValue p ->
    flow_source record (slot_loc l) (dropped directPtrIsSink p)
| source_reachPtr p l :
    p ∈ reachPtrSources record -> l ∈ reachableLocsForValue p ->
    flow_source record (slot_loc l) (dropped reachPtrIsSink p).

(** The places a flow record writes. *)
Inductive flow_sink (record : FlowRecord) : Slot -> Prop :=
| sink_value t :
    t ∈ valueSinks record -> flow_sink record (slot_value (sinkCtxt record) t)
| sink_varg f :
    f ∈ vargSinks record -> flow_sink record (slot_varg (sinkCtxt record) f)
| sink_directPtr p l :
    p ∈ directPtrSinks record -> l ∈ locsForValue p ->
    flow_sink record (slot_loc l)
| sink_reachPtr p l :
    p ∈ reachPtrSinks record -> l ∈ reachableLocsForValue p ->
    flow_sink record (slot_loc l).

Lemma constrainFlowRecord_split fl record :
  constrainFlowRecord getName locsForValue reachableLocsForValue DepsDropAtSink
    valueIsSink vargIsSink directPtrIsSink reachPtrIsSink fl record
  = (r ← flow_sources fl record; flow_sinks r.1.1 record r.1.2 r.2).
Proof.
  unfold constrainFlowRecord, flow_sources, flow_sinks, to_sink.
  destruct (foldM _ (fl, ∅, ∅) _) as [st1| | |]; cbn [mbind result_bind]; try done.
  destruct (foldM _ st1 _) as [[[fl2 S2] SS2]| | |]; cbn [mbind result_bind];
    try done.
  cbv zeta.
  destruct (foldl (collect_source_locs _ reachPtrIsSink _) _ _)
    as [SourceLocs sinkSourceLocs].
  destruct (foldl collect_loc_elems (fl2, S2) _) as [fl3 S3].
  destruct (foldl collect_loc_elems (fl3, SS2) _) as [fl4 SS4].
  destruct (negb (bool_decide (S3 = ∅))), (negb (bool_decide (SS4 = ∅))); done.
Qed.

End FlowRecords.

(** The locations gathered from a set of pointers. *)
Lemma collect_source_locs_spec (DepsDropAtSink : bool) isSink (locs : nat -> gset nat) l :
  forall A B : gset nat,
    A ⊆ (foldl (collect_source_locs DepsDropAtSink isSink locs) (A, B) l).1 /\
    B ⊆ (foldl (collect_source_locs DepsDropAtSink isSink locs) (A, B) l).2 /\
    forall p, p ∈ l ->
      locs p ⊆ (if dropped DepsDropAtSink isSink p
                then (foldl (collect_source_locs DepsDropAtSink isSink locs) (A, B) l).2
                else (foldl (collect_source_locs DepsDropAtSink isSink locs) (A, B) l).1).
Proof.
  induction l as [|q r IH]; intros A B; cbn [foldl].
  - split_and!; [done|done|]. by intros p ?%elem_of_nil.
  - unfold collect_source_locs at 2 4 6 8. unfold dropped.
    destruct (negb DepsDropAtSink || negb (isSink q)) eqn:Eq.
    + destruct (IH (A ∪ locs q) B) as (HA & HB & Hp).
      split_and!; [set_solver|done|].
      intros p [->|Hin]%elem_of_cons; [|by apply Hp].
      rewrite Eq. cbn [negb]. set_solver.
    + destruct (IH A (B ∪ locs q)) as (HA & HB & Hp).
      split_and!; [done|set_solver|].
      intros p [->|Hin]%elem_of_cons; [|by apply Hp].
      rewrite Eq. cbn [negb]. set_solver.
Qed.

Section LocElems.

Variable getName : nat -> string.

(** The variables of the locations gathered by [collect_loc_elems]. *)
Lemma collect_loc_elems_slots locs : forall fl (S : gset ConsElem),
  wf_state fl ->
  asteps getName fl (foldl collect_loc_elems (fl, S) locs).1 /\
  forall loc, loc ∈ locs ->
    exists e,
      slot_lookup (foldl collect_loc_elems (fl, S) locs).1 (slot_loc loc) = Some e /\
      e ∈ (foldl collect_loc_elems (fl, S) locs).2.
Proof.
  induction locs as [|loc r IH]; intros fl S Hwf; cbn [foldl].
  - split; [apply rtc_refl|]. by intros loc ?%elem_of_nil.
  - assert (Est : collect_loc_elems (fl, S) loc
                  = ((getOrCreateLocConsElem fl loc).1,
                     {[ (getOrCreateLocConsElem fl loc).2 ]} ∪ S)).
    { unfold collect_loc_elems. by destruct (getOrCreateLocConsElem fl loc). }
    rewrite Est.
    destruct (getOrCreateLocConsElem fl loc) as [fl1 e] eqn:E1. cbn [fst snd].
    apply getOrCreateLocConsElem_spec in E1 as (L1 & S1 & F1 & _).
    pose proof (simple_slot_asteps getName fl fl1 (slot_loc loc) eq_refl S1 F1) as A1.
    pose proof (asteps_wf getName _ _ Hwf A1) as Hwf1.
    destruct (IH fl1 ({[ e ]} ∪ S) Hwf1) as [A2 Hr].
    destruct (asteps_mono getName _ _ Hwf1 A2) as [P2 _].
    split; [by eapply rtc_trans|].
    intros loc' [->|Hin]%elem_of_cons; [|by apply Hr].
    exists e. split; [by apply P2|].
    apply (collect_loc_elems_grows r fl1 ({[ e ]} ∪ S)). set_solver.
Qed.

End LocElems.

Section FlowRecordsSpec.

Variable getName : nat -> string.
Variable locsForValue : nat -> gset nat.
Variable reachableLocsForValue : nat -> gset nat.
Variable DepsDropAtSink : bool.
Variable valueIsSink : nat -> bool.
Variable vargIsSink : nat -> bool.
Variable directPtrIsSink : nat -> bool.
Variable reachPtrIsSink : nat -> bool.

(** What the first half of [constrainFlowRecord] leaves: a state reached
    by steps of the interface, the joins of the two sets of gathered
    elements, and for each place the record reads its variable, a member
    of the set it was gathered in. *)
Lemma flow_sources_spec fl record fl6 se sse :
  wf_state fl ->
  flow_sources getName locsForValue reachableLocsForValue DepsDropAtSink
    valueIsSink vargIsSink directPtrIsSink reachPtrIsSink fl record
  = Ok (fl6, se, sse) ->
  asteps getName fl fl6 /\ usable_opt fl6 se /\ usable_opt fl6 sse /\
  exists S SS : gset ConsElem,
    se = (if bool_decide (S = ∅) then None else Some (LHJoin_of S)) /\
    sse = (if bool_decide (SS = ∅) then None else Some (LHJoin_of SS)) /\
    forall a b,
      flow_source locsForValue reachableLocsForValue DepsDropAtSink
        valueIsSink vargIsSink directPtrIsSink reachPtrIsSink record a b ->
      exists e, slot_lookup fl6 a = Some e /\ e ∈ (if b then SS else S).
Proof.
  intros Hwf. unfold flow_sources.
  destruct (foldM (collect_source DepsDropAtSink valueIsSink _) _ _)
    as [st1| | |] eqn:E1; cbn [mbind result_bind]; try done.
  set (Inv := fun (pre : list nat) (st : Infoflow * gset ConsElem * gset ConsElem) =>
         good getName fl st /\
         forall s, s ∈ pre ->
           exists e, slot_lookup st.1.1 (slot_value (sourceCtxt record) s) = Some e /\
                     e ∈ (if dropped DepsDropAtSink valueIsSink s
                          then st.2 else st.1.2)).
  assert (G1 : Inv ([] ++ elements (valueSources record)) st1).
  { eapply (foldM_invariant_prefix _ Inv); [| |exact E1].
    - intros pre [[fl0 S1] S2] v st' [Hg Hpre] Hc.
      assert (Hg' : good getName fl st').
      { eapply collect_source_good; [done| |exact Hg|exact Hc].
        intros fl1 v0 fl1' e0 Hwf1 Hget.
        destruct (getOrCreateConsElem_asteps getName _ _ _ _ _ Hwf1 Hget) as [A L].
        split; [done|]. by exists (slot_value (sourceCtxt record) v0). }
      split; [done|].
      destruct Hg as [HA0 _]. cbn [fst snd] in HA0, Hpre.
      pose proof (asteps_wf getName _ _ Hwf HA0) as Hwf0.
      unfold collect_source in Hc.
      destruct (getOrCreateConsElem getName fl0 (sourceCtxt record) v)
        as [[fl1 e]| | |] eqn:Eg; cbn [mbind result_bind] in Hc; try done.
      destruct (getOrCreateConsElem_asteps getName _ _ _ _ _ Hwf0 Eg) as [A1 L1].
      destruct (asteps_mono getName _ _ Hwf0 A1) as [P1 _].
      unfold dropped in *.
      intros s [Hs|Hs]%elem_of_app.
      + destruct (Hpre s Hs) as (e0 & He0 & Hin0).
        exists e0.
        destruct (negb DepsDropAtSink || negb (valueIsSink v));
          injection Hc as <-; cbn [fst snd]; (split; [by apply P1|]);
          destruct (negb DepsDropAtSink || negb (valueIsSink s)); set_solver.
      + apply list_elem_of_singleton in Hs as ->. exists e.
        destruct (negb DepsDropAtSink || negb (valueIsSink v));
          injection Hc as <-; cbn [fst snd negb]; (split; [done|]); set_solver.
    - split; [|by intros s ?%elem_of_nil].
      split; [apply rtc_refl|]. intros e He. set_solver. }
  cbn [app] in G1. destruct G1 as [G1 V1].
  destruct st1 as [[fl1 S1] SS1]. cbn [fst snd] in V1.
  pose proof (asteps_wf getName _ _ Hwf (proj1 G1)) as Hwf1.
  destruct (foldM (collect_source DepsDropAtSink vargIsSink _) _ _)
    as [[[fl2 S2] SS2]| | |] eqn:E2; cbn [mbind result_bind]; try done.
  set (Inv2 := fun (pre : list nat) (st : Infoflow * gset ConsElem * gset ConsElem) =>
         good getName fl st /\ asteps getName fl1 st.1.1 /\
         S1 ⊆ st.1.2 /\ SS1 ⊆ st.2 /\
         forall f, f ∈ pre ->
           exists e, slot_lookup st.1.1 (slot_varg (sourceCtxt record) f) = Some e /\
                     e ∈ (if dropped DepsDropAtSink vargIsSink f
                          then st.2 else st.1.2)).
  assert (G2 : Inv2 ([] ++ elements (vargSources record)) (fl2, S2, SS2)).
  { eapply (foldM_invariant_prefix _ Inv2); [| |exact E2].
    - intros pre [[fl0 T1] T2] v st' (Hg & HA & HS & HSS & Hpre) Hc.
      assert (Hg' : good getName fl st').
      { eapply collect_source_good; [done| |exact Hg|exact Hc].
        intros fl3 v0 fl3' e0 Hwf3 Hget.
        destruct (getOrCreateVargConsElem_asteps getName _ _ _ _ _ Hwf3 Hget)
          as [A L].
        split; [done|]. by exists (slot_varg (sourceCtxt record) v0). }
      split; [done|]. cbn [fst snd] in HA, HS, HSS, Hpre.
      pose proof (asteps_wf getName _ _ Hwf1 HA) as Hwf0.
      unfold collect_source in Hc.
      destruct (getOrCreateVargConsElem getName fl0 (sourceCtxt record) v)
        as [[fl3 e]| | |] eqn:Eg; cbn [mbind result_bind] in Hc; try done.
      destruct (getOrCreateVargConsElem_asteps getName _ _ _ _ _ Hwf0 Eg)
        as [A1 L1].
      destruct (asteps_mono getName _ _ Hwf0 A1) as [P1 _].
      unfold dropped in *.
      destruct (negb DepsDropAtSink || negb (vargIsSink v)) eqn:Ev;
        injection Hc as <-; cbn [fst snd];
        (split; [by eapply rtc_trans|]); (split; [set_solver|]);
        (split; [set_solver|]).
      + intros f [Hf|Hf]%elem_of_app.
        * destruct (Hpre f Hf) as (e0 & He0 & Hin0). exists e0.
          split; [by apply P1|].
          destruct (negb DepsDropAtSink || negb (vargIsSink f)); set_solver.
        * apply list_elem_of_singleton in Hf as ->. exists e.
          rewrite Ev. cbn [negb]. split; [done|set_solver].
      + intros f [Hf|Hf]%elem_of_app.
        * destruct (Hpre f Hf) as (e0 & He0 & Hin0). exists e0.
          split; [by apply P1|].
          destruct (negb DepsDropAtSink || negb (vargIsSink f)); set_solver.
        * apply list_elem_of_singleton in Hf as ->. exists e.
          rewrite Ev. cbn [negb]. split; [done|set_solver].
    - split; [done|]. cbn [fst snd]. split; [apply rtc_refl|].
      split_and!; [done|done|]. by intros f ?%elem_of_nil. }
  cbn [app] in G2.
  destruct G2 as ([A2 U2] & A12 & HS2 & HSS2 & V2).
  cbn [fst snd] in A2, U2, A12, HS2, HSS2, V2.
  cbv zeta.
  destruct (collect_source_locs_spec DepsDropAtSink directPtrIsSink locsForValue
              (elements (directPtrSources record)) ∅ ∅) as (_ & _ & HD).
  destruct (foldl (collect_source_locs DepsDropAtSink directPtrIsSink _) _ _)
    as [L1 L2].
  destruct (collect_source_locs_spec DepsDropAtSink reachPtrIsSink reachableLocsForValue
              (elements (reachPtrSources record)) L1 L2) as (HL1 & HL2 & HR).
  destruct (foldl (collect_source_locs DepsDropAtSink reachPtrIsSink _) _ _)
    as [SourceLocs sinkSourceLocs].
  cbn [fst snd] in HD, HL1, HL2, HR.
  pose proof (asteps_wf getName _ _ Hwf A2) as Hwf2.
  pose proof (collect_loc_elems_grows (elements SourceLocs) fl2 S2) as HS3.
  destruct (collect_loc_elems_slots getName (elements SourceLocs) fl2 S2 Hwf2) as [_ W3].
  destruct (collect_loc_elems_good getName fl2 (elements SourceLocs) fl2 S2 Hwf2)
    as (B3 & U3 & M3); [apply rtc_refl|intros e He; apply U2; set_solver|].
  destruct (foldl collect_loc_elems (fl2, S2) (elements SourceLocs)) as [fl3 S3].
  cbn [fst snd] in B3, U3, M3, HS3, W3.
  pose proof (asteps_wf getName _ _ Hwf2 B3) as Hwf3.
  pose proof (collect_loc_elems_grows (elements sinkSourceLocs) fl3 SS2) as HSS4.
  destruct (collect_loc_elems_slots getName (elements sinkSourceLocs) fl3 SS2 Hwf3) as [_ W4].
  destruct (collect_loc_elems_good getName fl3 (elements sinkSourceLocs) fl3 SS2 Hwf3)
    as (B4 & U4 & M4); [apply rtc_refl|intros e He; apply M3, U2; set_solver|].
  destruct (foldl collect_loc_elems (fl3, SS2) (elements sinkSourceLocs)) as [fl4 SS4].
  cbn [fst snd] in B4, U4, M4, HSS4, W4.
  pose proof (asteps_wf getName _ _ Hwf3 B4) as Hwf4.
  assert (A4 : asteps getName fl fl4).
  { eapply rtc_trans; [exact A2|]. by eapply rtc_trans. }
  destruct (asteps_mono getName _ _ Hwf1 A12) as [P12 _].
  destruct (asteps_mono getName _ _ Hwf2 B3) as [P23 _].
  destruct (asteps_mono getName _ _ Hwf3 B4) as [P34 _].
  (* the variables of the sources are still where they were *)
  assert (V4 : forall a b,
            flow_source locsForValue reachableLocsForValue DepsDropAtSink
              valueIsSink vargIsSink directPtrIsSink reachPtrIsSink record a b ->
            exists e, slot_lookup fl4 a = Some e /\ e ∈ (if b then SS4 else S3)).
  { intros a b [s Hs|f Hf|p l Hp Hl|p l Hp Hl].
    - destruct (V1 s) as (e & He & Hin); [by apply elem_of_elements|].
      exists e. split; [by apply P34, P23, P12|].
      destruct (dropped DepsDropAtSink valueIsSink s); set_solver.
    - destruct (V2 f) as (e & He & Hin); [by apply elem_of_elements|].
      exists e. split; [by apply P34, P23|].
      destruct (dropped DepsDropAtSink vargIsSink f); set_solver.
    - assert (Hloc : l ∈ (if dropped DepsDropAtSink directPtrIsSink p
                          then sinkSourceLocs else SourceLocs)).
      { pose proof (HD p) as HDp. rewrite elem_of_elements in HDp.
        specialize (HDp Hp).
        destruct (dropped DepsDropAtSink directPtrIsSink p); set_solver. }
      destruct (dropped DepsDropAtSink directPtrIsSink p).
      + destruct (W4 l) as (e & He & Hin); [by apply elem_of_elements|]. by exists e.
      + destruct (W3 l) as (e & He & Hin); [by apply elem_of_elements|].
        exists e. split; [by apply P34|done].
    - assert (Hloc : l ∈ (if dropped DepsDropAtSink reachPtrIsSink p
                          then sinkSourceLocs else SourceLocs)).
      { pose proof (HR p) as HRp. rewrite elem_of_elements in HRp.
        specialize (HRp Hp).
        destruct (dropped DepsDropAtSink reachPtrIsSink p); set_solver. }
      destruct (dropped DepsDropAtSink reachPtrIsSink p).
      + destruct (W4 l) as (e & He & Hin); [by apply elem_of_elements|]. by exists e.
      + destruct (W3 l) as (e & He & Hin); [by apply elem_of_elements|].
        exists e. split; [by apply P34|done]. }
  assert (HS3u : usable fl4 (LHJoin_of S3)).
  { apply usable_join. intros e He. by apply M4, U3. }
  assert (HSS4u : usable fl4 (LHJoin_of SS4)) by by apply usable_join.
  destruct (upperBound_set_spec (kit fl4) S3) as [J1 _].
  pose proof (join_asteps getName fl4 S3) as A5.
  destruct (bool_decide (S3 = ∅)) eqn:ES3; cbn [negb]; cbv zeta.
  - destruct (upperBound_set_spec (kit fl4) SS4) as [J2 _].
    pose proof (join_asteps getName fl4 SS4) as A6.
    destruct (bool_decide (SS4 = ∅)) eqn:ESS4; cbn [negb]; cbv zeta;
      rewrite ?J1, ?J2; intros [= <- <- <-].
    + rewrite set_kit_kit. split_and!; [done|by intros e|by intros e|].
      exists S3, SS4. by rewrite ES3, ESS4.
    + split_and!.
      * by eapply rtc_trans.
      * by intros e.
      * intros e [= <-].
        eapply usable_mono; [|exact HSS4u]. intros s0 e0.
        by rewrite slot_lookup_set_kit.
      * exists S3, SS4. rewrite ES3, ESS4. by split_and!.
  - set (k5 := (upperBound_set (kit fl4) S3).1) in *.
    destruct (upperBound_set_spec k5 SS4) as [J2 _].
    pose proof (join_asteps getName (set_kit fl4 k5) SS4) as A6.
    cbn [kit set_kit] in A6.
    destruct (bool_decide (SS4 = ∅)) eqn:ESS4; cbn [negb]; cbv zeta;
      rewrite ?J1, ?J2; intros [= <- <- <-].
    + split_and!.
      * by eapply rtc_trans.
      * intros e [= <-].
        eapply usable_mono; [|exact HS3u]. intros s0 e0.
        by rewrite slot_lookup_set_kit.
      * by intros e.
      * exists S3, SS4. rewrite ES3, ESS4. by split_and!.
    + split_and!.
      * eapply rtc_trans; [exact A4|]. by eapply rtc_trans.
      * intros e [= <-].
        eapply usable_mono; [|exact HS3u]. intros s0 e0.
        by rewrite slot_lookup_set_kit.
      * intros e [= <-].
        eapply usable_mono; [|exact HSS4u]. intros s0 e0.
        by rewrite slot_lookup_set_kit.
      * exists S3, SS4. rewrite ES3, ESS4. by split_and!.
Qed.

End FlowRecordsSpec.

Lemma foldl_union_locs (locs : nat -> gset nat) l : forall A : gset nat,
  A ⊆ foldl (fun acc sink => acc ∪ locs sink) A l /\
  forall p, p ∈ l -> locs p ⊆ foldl (fun acc sink => acc ∪ locs sink) A l.
Proof.
  induction l as [|q r IH]; intros A; cbn [foldl].
  - split; [done|]. by intros p ?%elem_of_nil.
  - destruct (IH (A ∪ locs q)) as [HA Hp]. split; [set_solver|].
    intros p [->|Hin]%elem_of_cons; [set_solver|by apply Hp].
Qed.

Section FlowSinks.

Variable getName : nat -> string.

(** What a call of one of the three [putOrConstrain...] functions of the
    sinks leaves for the place [c] it writes. *)
Definition put_spec (put : Infoflow -> bool -> ConsElem -> result Infoflow)
  (i : bool) (c : Slot) : Prop :=
  forall fl b lub fl',
    wf_state fl -> usable fl lub -> put fl b lub = Ok fl' ->
    asteps getName fl fl' /\
    exists cur,
      slot_lookup fl' c = Some cur /\
      forall g T, kind_models g (kit fl') (kindFromImplicitSink i b) T ->
                  closed (class_of_initial g) (expanded lub cur) T.

Lemma putOrConstrainConsElem_spec i ctxt v :
  put_spec (fun fl s e => putOrConstrainConsElem getName fl i s ctxt v e) i
    (slot_value ctxt v).
Proof.
  intros fl s lub fl' Hwf Hu H. split; [by eapply putOrConstrainConsElem_asteps|].
  unfold putOrConstrainConsElem in H.
  destruct (getOrCreateConsElem getName fl ctxt v) as [[fl1 cur]| | |] eqn:E1;
    cbn [mbind result_bind] in H; try done.
  apply getOrCreateConsElem_asteps in E1 as [A1 L1]; [|done].
  pose proof (asteps_wf getName _ _ Hwf A1) as Hwf1.
  destruct (addConstraint (kit fl1) _ lub cur) as [k'| | |] eqn:E2;
    cbn [mbind result_bind] in H; try done.
  injection H as <-.
  destruct (add_step fl1 (kindFromImplicitSink i s) lub cur k' Hwf1)
    as (_ & _ & Hcl & _); [|done|].
  { eapply usable_mono; [|done]. by apply (asteps_mono getName fl fl1). }
  exists cur. split; [by rewrite slot_lookup_set_kit|]. exact Hcl.
Qed.

Lemma putOrConstrainVargConsElem_spec i ctxt f :
  put_spec (fun fl s e => putOrConstrainVargConsElem getName fl i s ctxt f e) i
    (slot_varg ctxt f).
Proof.
  intros fl s lub fl' Hwf Hu H.
  split; [by eapply putOrConstrainVargConsElem_asteps|].
  unfold putOrConstrainVargConsElem in H.
  destruct (getOrCreateVargConsElem getName fl ctxt f) as [[fl1 cur]| | |] eqn:E1;
    cbn [mbind result_bind] in H; try done.
  apply getOrCreateVargConsElem_asteps in E1 as [A1 L1]; [|done].
  pose proof (asteps_wf getName _ _ Hwf A1) as Hwf1.
  destruct (addConstraint (kit fl1) _ lub cur) as [k'| | |] eqn:E2;
    cbn [mbind result_bind] in H; try done.
  injection H as <-.
  destruct (add_step fl1 (kindFromImplicitSink i s) lub cur k' Hwf1)
    as (_ & _ & Hcl & _); [|done|].
  { eapply usable_mono; [|done]. by apply (asteps_mono getName fl fl1). }
  exists cur. split; [by rewrite slot_lookup_set_kit|]. exact Hcl.
Qed.

Lemma putOrConstrainLocConsElem_spec i loc :
  put_spec (fun fl s e => putOrConstrainLocConsElem fl i s loc e) i (slot_loc loc).
Proof.
  intros fl s lub fl' Hwf Hu H.
  split; [by eapply putOrConstrainLocConsElem_asteps|].
  unfold putOrConstrainLocConsElem in H.
  destruct (getOrCreateLocConsElem fl loc) as [fl1 cur] eqn:E1.
  apply getOrCreateLocConsElem_spec in E1 as (L1 & S1 & F1 & _).
  pose proof (simple_slot_asteps getName fl fl1 (slot_loc loc) eq_refl S1 F1) as A1.
  pose proof (asteps_wf getName _ _ Hwf A1) as Hwf1.
  destruct (addConstraint (kit fl1) _ lub cur) as [k'| | |] eqn:E2;
    cbn [mbind result_bind] in H; try done.
  injection H as <-.
  destruct (add_step fl1 (kindFromImplicitSink i s) lub cur k' Hwf1)
    as (_ & _ & Hcl & _); [|done|].
  { eapply usable_mono; [|done]. by apply (asteps_mono getName fl fl1). }
  exists cur. split; [by rewrite slot_lookup_set_kit|]. exact Hcl.
Qed.

(** One sink of a loop over sinks. *)
Lemma to_sink_spec put i c fl se sse fl' :
  put_spec put i c ->
  wf_state fl -> usable_opt fl se -> usable_opt fl sse ->
  to_sink se sse put fl = Ok fl' ->
  asteps getName fl fl' /\
  forall (b : bool) e, (if b then sse else se) = Some e ->
    exists cur,
      slot_lookup fl' c = Some cur /\
      forall g T, kind_models g (kit fl') (kindFromImplicitSink i b) T ->
                  closed (class_of_initial g) (expanded e cur) T.
Proof.
  intros Hput Hwf Use Usse. unfold to_sink.
  assert (Hone : forall oe b fl0 fl1, wf_state fl0 -> usable_opt fl0 oe ->
             match oe with
             | Some e => put fl0 b e
             | None => Ok fl0
             end = Ok fl1 ->
             asteps getName fl0 fl1 /\
             forall e, oe = Some e ->
               exists cur,
                 slot_lookup fl1 c = Some cur /\
                 forall g T, kind_models g (kit fl1) (kindFromImplicitSink i b) T ->
                             closed (class_of_initial g) (expanded e cur) T).
  { intros [e|] b fl0 fl1 Hwf0 Hu H.
    - destruct (Hput fl0 b e fl1 Hwf0 (Hu e eq_refl) H) as [A Hc].
      split; [done|]. by intros e' [= <-].
    - injection H as <-. split; [apply rtc_refl|done]. }
  destruct (match se with
            | Some e => put fl false e
            | None => Ok fl
            end) as [fl1| | |] eqn:E1; cbn [mbind result_bind]; try done.
  destruct (Hone se false fl fl1 Hwf Use E1) as [A1 C1].
  pose proof (asteps_wf getName _ _ Hwf A1) as Hwf1.
  destruct (asteps_mono getName _ _ Hwf A1) as [P1 _].
  intros E2.
  destruct (Hone sse true fl1 fl' Hwf1) as [A2 C2]; [|done|].
  { intros e He. eapply usable_mono; [exact P1|]. by apply Usse. }
  destruct (asteps_mono getName _ _ Hwf1 A2) as [P2 M2].
  split; [by eapply rtc_trans|].
  intros [|] e He.
  - by apply C2.
  - destruct (C1 e He) as (cur & Hc & Hcl). exists cur.
    split; [by apply P2|]. intros g T HT. apply Hcl. by apply M2.
Qed.

(** A loop over sinks. *)
Lemma sinks_fold_spec (put : nat -> Infoflow -> bool -> ConsElem -> result Infoflow)
    (slot_of : nat -> Slot) i se sse l :
  (forall sink, put_spec (put sink) i (slot_of sink)) ->
  forall fl fl', wf_state fl -> usable_opt fl se -> usable_opt fl sse ->
  foldM (fun fl sink => to_sink se sse (put sink) fl) fl l = Ok fl' ->
  asteps getName fl fl' /\
  forall t, t ∈ l ->
    forall (b : bool) e, (if b then sse else se) = Some e ->
      exists cur,
        slot_lookup fl' (slot_of t) = Some cur /\
        forall g T, kind_models g (kit fl') (kindFromImplicitSink i b) T ->
                    closed (class_of_initial g) (expanded e cur) T.
Proof.
  intros Hput. induction l as [|sink r IH]; intros fl fl' Hwf Use Usse;
    cbn [foldM].
  - intros [= <-]. split; [apply rtc_refl|]. by intros t ?%elem_of_nil.
  - destruct (to_sink se sse (put sink) fl) as [fl1| | |] eqn:E1;
      cbn [mbind result_bind]; try done.
    destruct (to_sink_spec _ i _ fl se sse fl1 (Hput sink) Hwf Use Usse E1)
      as [A1 C1].
    pose proof (asteps_wf getName _ _ Hwf A1) as Hwf1.
    destruct (asteps_mono getName _ _ Hwf A1) as [P1 _].
    intros E2. destruct (IH fl1 fl' Hwf1) as [A2 C2]; [| |done|].
    { intros e He. eapply usable_mono; [exact P1|]. by apply Use. }
    { intros e He. eapply usable_mono; [exact P1|]. by apply Usse. }
    destruct (asteps_mono getName _ _ Hwf1 A2) as [P2 M2].
    split; [by eapply rtc_trans|].
    intros t [->|Hin]%elem_of_cons b e He; [|by eapply C2].
    destruct (C1 b e He) as (cur & Hc & Hcl). exists cur.
    split; [by apply P2|]. intros g T HT. apply Hcl. by apply M2.
Qed.

Variable locsForValue : nat -> gset nat.
Variable reachableLocsForValue : nat -> gset nat.

(** The constraints the second half of [constrainFlowRecord] leaves for
    each place the record writes. *)
Lemma flow_sinks_spec fl record se sse fl' :
  wf_state fl -> usable_opt fl se -> usable_opt fl sse ->
  flow_sinks getName locsForValue reachableLocsForValue fl record se sse = Ok fl' ->
  asteps getName fl fl' /\
  forall c, flow_sink locsForValue reachableLocsForValue record c ->
    forall (b : bool) e, (if b then sse else se) = Some e ->
      exists cur,
        slot_lookup fl' c = Some cur /\
        forall g T,
          kind_models g (kit fl') (kindFromImplicitSink (implicit record) b) T ->
          closed (class_of_initial g) (expanded e cur) T.
Proof using getName locsForValue reachableLocsForValue.
  intros Hwf Use Usse. unfold flow_sinks.
  match goal with |- (foldM ?f _ ?l ≫= _) = _ -> _ =>
    destruct (foldM f fl l) as [fl7| | |] eqn:E7;
      cbn [mbind result_bind]; try done
  end.
  destruct (sinks_fold_spec
              (fun sink fl s e =>
                 putOrConstrainConsElem getName fl (implicit record) s
                   (sinkCtxt record) sink e)
              (slot_value (sinkCtxt record)) (implicit record) se sse _
              (fun sink => putOrConstrainConsElem_spec _ _ sink)
              fl fl7 Hwf Use Usse E7) as [A7 C7].
  pose proof (asteps_wf getName _ _ Hwf A7) as Hwf7.
  destruct (asteps_mono getName _ _ Hwf A7) as [P7 _].
  match goal with |- (foldM ?f _ ?l ≫= _) = _ -> _ =>
    destruct (foldM f fl7 l) as [fl8| | |] eqn:E8;
      cbn [mbind result_bind]; try done
  end.
  destruct (sinks_fold_spec
              (fun sink fl s e =>
                 putOrConstrainVargConsElem getName fl (implicit record) s
                   (sinkCtxt record) sink e)
              (slot_varg (sinkCtxt record)) (implicit record) se sse
              (elements (vargSinks record))
              (fun sink => putOrConstrainVargConsElem_spec _ _ sink)
              fl7 fl8 Hwf7) as [A8 C8]; [| |exact E8|].
  { intros e He. eapply usable_mono; [exact P7|]. by apply Use. }
  { intros e He. eapply usable_mono; [exact P7|]. by apply Usse. }
  pose proof (asteps_wf getName _ _ Hwf7 A8) as Hwf8.
  destruct (asteps_mono getName _ _ Hwf7 A8) as [P8 M8].
  cbv zeta.
  destruct (foldl_union_locs locsForValue (elements (directPtrSinks record)) ∅)
    as [_ HD].
  set (L1 := foldl (fun acc sink => acc ∪ locsForValue sink) ∅
               (elements (directPtrSinks record))) in *.
  destruct (foldl_union_locs reachableLocsForValue
              (elements (reachPtrSinks record)) L1) as [HL1 HR].
  set (SinkLocs := foldl (fun acc sink => acc ∪ reachableLocsForValue sink) L1
                     (elements (reachPtrSinks record))) in *.
  intros E9.
  destruct (sinks_fold_spec
              (fun loc fl s e =>
                 putOrConstrainLocConsElem fl (implicit record) s loc e)
              slot_loc (implicit record) se sse (elements SinkLocs)
              (fun loc => putOrConstrainLocConsElem_spec _ loc)
              fl8 fl' Hwf8) as [A9 C9]; [| |exact E9|].
  { intros e He. eapply usable_mono; [|by apply Use].
    intros s0 e0 Hs0. by apply P8, P7. }
  { intros e He. eapply usable_mono; [|by apply Usse].
    intros s0 e0 Hs0. by apply P8, P7. }
  destruct (asteps_mono getName _ _ Hwf8 A9) as [P9 M9].
  split; [eapply rtc_trans; [exact A7|]; by eapply rtc_trans|].
  intros c [t Ht|f Hf|p l Hp Hl|p l Hp Hl] b e He.
  - destruct (C7 t) with (b := b) (e := e) as (cur & Hc & Hcl);
      [by apply elem_of_elements|done|].
    exists cur. split; [by apply P9, P8|].
    intros g T HT. by apply Hcl, M8, M9.
  - destruct (C8 f) with (b := b) (e := e) as (cur & Hc & Hcl);
      [by apply elem_of_elements|done|].
    exists cur. split; [by apply P9|].
    intros g T HT. by apply Hcl, M9.
  - apply (C9 l); [|done]. apply elem_of_elements, HL1.
    apply (HD p); [by apply elem_of_elements|done].
  - apply (C9 l); [|done]. apply elem_of_elements.
    apply (HR p); [by apply elem_of_elements|done].
Qed.

End FlowSinks.

Section FlowSoundness.

Variable getName : nat -> string.
Variable locsForValue : nat -> gset nat.
Variable reachableLocsForValue : nat -> gset nat.
Variable DepsDropAtSink : bool.
Variable valueIsSink : nat -> bool.
Variable vargIsSink : nat -> bool.
Variable directPtrIsSink : nat -> bool.
Variable reachPtrIsSink : nat -> bool.

(** A flow record that [constrainFlowRecord] has taken links the
    variable of each place it reads to the variable of each place it
    writes: every set a solution of the kind of the flow accepts is
    closed under the constraint between the two. *)
Lemma constrainFlowRecord_flow fl record fl' a b c :
  wf_state fl ->
  constrainFlowRecord getName locsForValue reachableLocsForValue DepsDropAtSink
    valueIsSink vargIsSink directPtrIsSink reachPtrIsSink fl record = Ok fl' ->
  flow_source locsForValue reachableLocsForValue DepsDropAtSink
    valueIsSink vargIsSink directPtrIsSink reachPtrIsSink record a b ->
  flow_sink locsForValue reachableLocsForValue record c ->
  asteps getName fl fl' /\
  exists xs xt,
    slot_lookup fl' a = Some xs /\
    slot_lookup fl' c = Some xt /\
    forall g T,
      kind_models g (kit fl') (kindFromImplicitSink (implicit record) b) T ->
      closed (class_of_initial g) [mkLHConstraint xs xt] T.
Proof.
  intros Hwf H Hs Ht. rewrite constrainFlowRecord_split in H.
  destruct (flow_sources _ _ _ _ _ _ _ _ fl record) as [[[fl6 se] sse]| | |] eqn:E6;
    cbn [mbind result_bind fst snd] in H; try done.
  destruct (flow_sources_spec _ _ _ _ _ _ _ _ fl record fl6 se sse Hwf E6)
    as (A6 & Use & Usse & S & SS & Hse & Hsse & Hsrc).
  pose proof (asteps_wf getName _ _ Hwf A6) as Hwf6.
  destruct (flow_sinks_spec getName _ _ fl6 record se sse fl' Hwf6 Use Usse H)
    as (A & Hc).
  destruct (asteps_mono getName _ _ Hwf6 A) as [P _].
  split; [by eapply rtc_trans|].
  destruct (Hsrc a b Hs) as (xs & Hxs & Hin).
  assert (He : exists X : gset ConsElem,
             xs ∈ X /\ (if b then sse else se) = Some (LHJoin_of X)).
  { destruct b.
    - exists SS. split; [done|]. rewrite Hsse.
      rewrite bool_decide_eq_false_2; [done|]. set_solver.
    - exists S. split; [done|]. rewrite Hse.
      rewrite bool_decide_eq_false_2; [done|]. set_solver. }
  destruct He as (X & HX & He).
  destruct (Hc c Ht b _ He) as (xt & Hxt & Hcl).
  exists xs, xt. split_and!; [by apply P|done|].
  intros g T HT. eapply closed_member; [by apply Hcl|].
  unfold LHJoin_of. cbn [expanded]. apply list_elem_of_fmap.
  exists xs. split; [done|]. by apply elem_of_elements.
Qed.

End FlowSoundness.

Section RecordedFlows.

Variable getName : nat -> string.
Variable locsForValue : nat -> gset nat.
Variable reachableLocsForValue : nat -> gset nat.
Variable DepsDropAtSink : bool.
Variable valueIsSink : nat -> bool.
Variable vargIsSink : nat -> bool.
Variable directPtrIsSink : nat -> bool.
Variable reachPtrIsSink : nat -> bool.

(** A path of flows through a list of records: each step goes from a
    place a record reads to a place the same record writes, and is filed
    under a kind of [solved]. *)
Inductive flow_path (records : list FlowRecord) (solved : gset string)
  : Slot -> Slot -> Prop :=
| path_one record a b c :
    record ∈ records ->
    flow_source locsForValue reachableLocsForValue DepsDropAtSink
      valueIsSink vargIsSink directPtrIsSink reachPtrIsSink record a b ->
    flow_sink locsForValue reachableLocsForValue record c ->
    kindFromImplicitSink (implicit record) b ∈ solved ->
    flow_path records solved a c
| path_step record a c b d :
    flow_path records solved a c ->
    record ∈ records ->
    flow_source locsForValue reachableLocsForValue DepsDropAtSink
      valueIsSink vargIsSink directPtrIsSink reachPtrIsSink record c b ->
    flow_sink locsForValue reachableLocsForValue record d ->
    kindFromImplicitSink (implicit record) b ∈ solved ->
    flow_path records solved a d.

Lemma reachable_records fl records fl1 :
  reachable getName locsForValue reachableLocsForValue DepsDropAtSink
    valueIsSink vargIsSink directPtrIsSink reachPtrIsSink fl ->
  foldM (constrainFlowRecord getName locsForValue reachableLocsForValue
           DepsDropAtSink valueIsSink vargIsSink directPtrIsSink reachPtrIsSink)
        fl records = Ok fl1 ->
  reachable getName locsForValue reachableLocsForValue DepsDropAtSink
    valueIsSink vargIsSink directPtrIsSink reachPtrIsSink fl1.
Proof.
  revert fl. induction records as [|record r IH]; intros fl Hr; cbn [foldM].
  - by intros [= <-].
  - destruct (constrainFlowRecord _ _ _ _ _ _ _ _ fl record) as [fl0| | |] eqn:E;
      cbn [mbind result_bind]; try done.
    apply IH.
    by eapply (reachable_call _ _ _ _ _ _ _ _ fl (call_constrainFlowRecord record)).
Qed.

(** The constraints a sequence of records leaves. *)
Lemma records_flow records : forall fl fl1,
  wf_state fl ->
  foldM (constrainFlowRecord getName locsForValue reachableLocsForValue
           DepsDropAtSink valueIsSink vargIsSink directPtrIsSink reachPtrIsSink)
        fl records = Ok fl1 ->
  asteps getName fl fl1 /\
  forall record a b c,
    record ∈ records ->
    flow_source locsForValue reachableLocsForValue DepsDropAtSink
      valueIsSink vargIsSink directPtrIsSink reachPtrIsSink record a b ->
    flow_sink locsForValue reachableLocsForValue record c ->
    exists xs xt,
      slot_lookup fl1 a = Some xs /\ slot_lookup fl1 c = Some xt /\
      forall g T,
        kind_models g (kit fl1) (kindFromImplicitSink (implicit record) b) T ->
        closed (class_of_initial g) [mkLHConstraint xs xt] T.
Proof.
  induction records as [|r0 r IH]; intros fl fl1 Hwf; cbn [foldM].
  - intros [= <-]. split; [apply rtc_refl|]. by intros record a b c ?%elem_of_nil.
  - destruct (constrainFlowRecord _ _ _ _ _ _ _ _ fl r0) as [fl0| | |] eqn:E;
      cbn [mbind result_bind]; try done.
    intros Hrest.
    assert (A0 : asteps getName fl fl0) by by eapply constrainFlowRecord_asteps.
    pose proof (asteps_wf getName _ _ Hwf A0) as Hwf0.
    destruct (IH fl0 fl1 Hwf0 Hrest) as [A1 Hr].
    destruct (asteps_mono getName _ _ Hwf0 A1) as [P1 M1].
    split; [by eapply rtc_trans|].
    intros record a b c [->|Hin]%elem_of_cons Hs Ht; [|by eapply Hr].
    destruct (constrainFlowRecord_flow _ _ _ _ _ _ _ _ fl r0 fl0 a b c Hwf E Hs Ht)
      as (_ & xs & xt & Hxs & Hxt & Hcl).
    exists xs, xt. split_and!; [by apply P1|by apply P1|].
    intros g T HT. by apply Hcl, M1.
Qed.

(** Along a path, membership in a set that the solved kinds accept goes
    forward for a least solution and backward for a greatest one. *)
Lemma flow_path_models records solved fl fl1 a d :
  wf_state fl ->
  foldM (constrainFlowRecord getName locsForValue reachableLocsForValue
           DepsDropAtSink valueIsSink vargIsSink directPtrIsSink reachPtrIsSink)
        fl records = Ok fl1 ->
  flow_path records solved a d ->
  exists xa xd,
    slot_lookup fl1 a = Some (LHConsVar xa) /\
    slot_lookup fl1 d = Some (LHConsVar xd) /\
    forall (g : bool) M,
      (forall kind, kind ∈ solved -> kind_models g (kit fl1) kind M) ->
      if g then xd ∈ M -> xa ∈ M else xa ∈ M -> xd ∈ M.
Proof.
  intros Hwf Hfold.
  destruct (records_flow records fl fl1 Hwf Hfold) as [A Hrec].
  pose proof (asteps_wf getName _ _ Hwf A) as Hwf1.
  assert (Hedge : forall record a b c,
            record ∈ records ->
            flow_source locsForValue reachableLocsForValue DepsDropAtSink
              valueIsSink vargIsSink directPtrIsSink reachPtrIsSink record a b ->
            flow_sink locsForValue reachableLocsForValue record c ->
            kindFromImplicitSink (implicit record) b ∈ solved ->
            exists xa xc,
              slot_lookup fl1 a = Some (LHConsVar xa) /\
              slot_lookup fl1 c = Some (LHConsVar xc) /\
              forall (g : bool) M,
                (forall kind, kind ∈ solved -> kind_models g (kit fl1) kind M) ->
                if g then xc ∈ M -> xa ∈ M else xa ∈ M -> xc ∈ M).
  { intros record a0 b c Hin Hs Ht Hk.
    destruct (Hrec record a0 b c Hin Hs Ht) as (xs & xt & Hxs & Hxt & Hcl).
    destruct (wf_vars fl1 Hwf1 _ _ Hxs) as (xa & -> & _).
    destruct (wf_vars fl1 Hwf1 _ _ Hxt) as (xc & -> & _).
    exists xa, xc. split_and!; [done|done|].
    intros g M HM. pose proof (Hcl g M (HM _ Hk)) as Hc. destruct g.
    - by eapply closed_greatest_var_var.
    - by eapply closed_least_var_var. }
  induction 1 as [record a b c Hin Hs Ht Hk|record a c b d Hp IH Hin Hs Ht Hk].
  - by eapply Hedge.
  - destruct IH as (xa & xc & Ha & Hc & Hac).
    destruct (Hedge record c b d Hin Hs Ht Hk) as (xc' & xd & Hc' & Hd & Hcd).
    rewrite Hc in Hc'. injection Hc' as <-.
    exists xa, xd. split_and!; [done|done|].
    intros g M HM. specialize (Hac g M HM). specialize (Hcd g M HM).
    destruct g; tauto.
Qed.

(** What a least solution holds after [setTainted]: a set the solved
    kinds accept, with the variables of the value in it; a value with a
    variable in the set is reported tainted. *)
Lemma setTainted_least fl1 fl2 fl3 k s (kinds : gset string) implicit_ sinks S :
  reachable getName locsForValue reachableLocsForValue DepsDropAtSink
    valueIsSink vargIsSink directPtrIsSink reachPtrIsSink fl1 ->
  setTainted getName fl1 k s = Ok fl2 -> k ∈ kinds ->
  leastSolution fl2 kinds implicit_ sinks = Ok (fl3, S) ->
  exists M : gset nat,
    (forall kind, kind ∈ least_kinds kinds implicit_ sinks ->
                  kind_models false (kit fl1) kind M) /\
    (forall ctxt x, slot_lookup fl1 (slot_value ctxt s) = Some (LHConsVar x) ->
                    x ∈ M) /\
    (forall ctxt t x, slot_lookup fl1 (slot_value ctxt t) = Some (LHConsVar x) ->
                      x ∈ M -> isTainted fl3 S t = Ok true) /\
    (forall locs : list nat,
       (forall loc, loc ∈ locs ->
          exists x, slot_lookup fl1 (slot_loc loc) = Some (LHConsVar x) /\ x ∈ M) ->
       locs_tainted_loop fl3 S locs = Ok (negb (bool_decide (locs = [])))).
Proof.
  intros Hr1 Hset Hk Hsol.
  destruct (reachable_inv _ _ _ _ _ _ _ _ fl1 Hr1) as [Hwf1 Hl1].
  unfold setTainted in Hset.
  destruct (not_default_or_implicit k) as [[]| | |];
    cbn [mbind result_bind] in Hset; try done.
  unfold putOrConstrainConsElemSummarySource in Hset.
  destruct (getOrCreateConsElemSummarySource getName fl1 s) as [fl1' sv0] eqn:Eg.
  apply getOrCreateConsElemSummarySource_spec in Eg as (Lsv & Ssv & Fsv & _).
  pose proof (simple_slot_asteps getName fl1 fl1' (slot_source_value s) eq_refl
                Ssv Fsv) as A1.
  pose proof (asteps_wf getName _ _ Hwf1 A1) as Hwf1'.
  destruct (asteps_mono getName _ _ Hwf1 A1) as [P1 M1].
  destruct (wf_vars fl1' Hwf1' _ _ Lsv) as (sv & -> & _).
  destruct (addConstraint (kit fl1') k highConstant (LHConsVar sv)) as [k2| | |]
    eqn:Hadd; cbn [mbind result_bind] in Hset; try done.
  injection Hset as <-.
  destruct (addConstraint_kit _ _ _ _ _ (wf_kit fl1' Hwf1') Hadd)
    as (Hok2 & _ & _ & _ & _ & _ & Hkm).
  unfold leastSolution, kit_leastSolution in Hsol. cbn [kit set_kit] in Hsol.
  destruct (kit_solution false k2 _) as [[k3 ps]| | |] eqn:E;
    cbn [mbind result_bind] in Hsol; try done.
  injection Hsol as <- <-.
  destruct (kit_solution_Ok_model false k2 _ k3 ps Hok2 E) as (M & [HM _] & Hsub).
  assert (HM1 : forall kind, kind ∈ least_kinds kinds implicit_ sinks ->
                  kind_models false (kit fl1) kind M).
  { intros kind Hkind. apply M1. apply (proj1 (Hkm false kind M)). by apply HM. }
  assert (Hin_sv : sv ∈ M).
  { apply closed_least_high_var.
    by apply (proj1 (Hkm false k M) (HM k (least_kinds_kinds _ _ _ _ Hk))). }
  exists M. split_and!; [done| | |].
  - intros ctxt x Hx.
    destruct (Hl1 _ _ _ Hx) as (sv' & x' & tv & [= <-] & Hsv & _ & Hls).
    apply P1 in Hsv. cbn [slot_lookup] in Hsv, Lsv. rewrite Lsv in Hsv.
    injection Hsv as <-.
    pose proof (Hls false M (HM1 _ (least_kinds_default _ _ _))) as Hcl.
    cbn [class_of_initial] in Hcl.
    by eapply closed_least_var_var; [exact Hcl|].
  - intros ctxt t x Hx Hin.
    destruct (Hl1 _ _ _ Hx) as (sv' & x' & tv & [= <-] & _ & Htv & Hlt).
    pose proof (Hlt false M (HM1 _ (least_kinds_default _ _ _))) as Hcl.
    cbn [class_of_initial] in Hcl.
    assert (Hin_tv : tv ∈ M).
    { by eapply closed_least_var_var; [exact (closed_tail _ _ _ _ Hcl)|]. }
    apply P1 in Htv. cbn [slot_lookup] in Htv.
    unfold isTainted.
    cbn [over_sources soln summarySinkValueConstraintMap set_kit kit heap].
    rewrite Htv, Hsub. cbn [mbind result_bind].
    by rewrite (bool_decide_eq_true_2 _ Hin_tv).
  - intros locs Hlocs.
    rewrite (locs_tainted_loop_changed _ _ M false); [done|exact Hsub|].
    intros loc Hin. destruct (Hlocs loc Hin) as (x & Hx & HxM).
    exists x. split; [|done]. apply P1 in Hx. exact Hx.
Qed.

(** Dually for a greatest solution after [setUntainted]. *)
Lemma setUntainted_greatest fl1 fl2 fl3 k t (kinds : gset string) implicit_ S :
  reachable getName locsForValue reachableLocsForValue DepsDropAtSink
    valueIsSink vargIsSink directPtrIsSink reachPtrIsSink fl1 ->
  setUntainted getName fl1 k t = Ok fl2 -> k ∈ kinds ->
  greatestSolution fl2 kinds implicit_ = Ok (fl3, S) ->
  exists M : gset nat,
    (forall kind, kind ∈ greatest_kinds kinds implicit_ ->
                  kind_models true (kit fl1) kind M) /\
    (forall ctxt x, slot_lookup fl1 (slot_value ctxt t) = Some (LHConsVar x) ->
                    x ∈ M) /\
    (forall ctxt s x, slot_lookup fl1 (slot_value ctxt s) = Some (LHConsVar x) ->
                      x ∈ M -> isTainted fl3 S s = Ok false).
Proof.
  intros Hr1 Hset Hk Hsol.
  destruct (reachable_inv _ _ _ _ _ _ _ _ fl1 Hr1) as [Hwf1 Hl1].
  unfold setUntainted in Hset.
  destruct (not_default_or_implicit k) as [[]| | |];
    cbn [mbind result_bind] in Hset; try done.
  destruct (getOrCreateConsElemSummarySink getName fl1 t) as [fl1' tv0] eqn:Eg.
  apply getOrCreateConsElemSummarySink_spec in Eg as (Ltv & Stv & Ftv & _).
  pose proof (simple_slot_asteps getName fl1 fl1' (slot_sink_value t) eq_refl
                Stv Ftv) as A1.
  pose proof (asteps_wf getName _ _ Hwf1 A1) as Hwf1'.
  destruct (asteps_mono getName _ _ Hwf1 A1) as [P1 M1].
  destruct (wf_vars fl1' Hwf1' _ _ Ltv) as (tv & -> & _).
  destruct (addConstraint (kit fl1') k (LHConsVar tv) lowConstant) as [k2| | |]
    eqn:Hadd; cbn [mbind result_bind] in Hset; try done.
  injection Hset as <-.
  destruct (addConstraint_kit _ _ _ _ _ (wf_kit fl1' Hwf1') Hadd)
    as (Hok2 & _ & _ & _ & _ & _ & Hkm).
  unfold greatestSolution, kit_greatestSolution in Hsol. cbn [kit set_kit] in Hsol.
  destruct (kit_solution true k2 _) as [[k3 ps]| | |] eqn:E;
    cbn [mbind result_bind] in Hsol; try done.
  injection Hsol as <- <-.
  destruct (kit_solution_Ok_model true k2 _ k3 ps Hok2 E) as (M & [HM _] & Hsub).
  assert (HM1 : forall kind, kind ∈ greatest_kinds kinds implicit_ ->
                  kind_models true (kit fl1) kind M).
  { intros kind Hkind. apply M1. apply (proj1 (Hkm true kind M)). by apply HM. }
  assert (Hin_tv : tv ∈ M).
  { apply closed_greatest_var_low.
    by apply (proj1 (Hkm true k M) (HM k (greatest_kinds_kinds _ _ _ Hk))). }
  exists M. split_and!; [done| |].
  - intros ctxt x Hx.
    destruct (Hl1 _ _ _ Hx) as (sv & x' & tv' & [= <-] & _ & Htv & Hlt).
    apply P1 in Htv. cbn [slot_lookup] in Htv, Ltv. rewrite Ltv in Htv.
    injection Htv as <-.
    pose proof (Hlt true M (HM1 _ (greatest_kinds_default _ _))) as Hcl.
    cbn [class_of_initial] in Hcl.
    by eapply closed_greatest_var_var; [exact (closed_tail _ _ _ _ Hcl)|].
  - intros ctxt s x Hx Hin.
    destruct (Hl1 _ _ _ Hx) as (sv & x' & tv' & [= <-] & Hsv & _ & Hls).
    pose proof (Hls true M (HM1 _ (greatest_kinds_default _ _))) as Hcl.
    cbn [class_of_initial] in Hcl.
    assert (Hin_sv : sv ∈ M).
    { by eapply closed_greatest_var_var; [exact Hcl|]. }
    apply P1 in Hsv. cbn [slot_lookup] in Hsv.
    unfold isTainted.
    cbn [over_sources soln summarySourceValueConstraintMap set_kit kit heap].
    rewrite Hsv, Hsub. cbn [mbind result_bind].
    by rewrite (bool_decide_eq_true_2 _ Hin_sv).
Qed.

(** X15.  Declared taint follows the recorded flows.  In a state of the
    pass, let [constrainFlowRecord] take a list of records, and let a
    path of flows of these records lead from the variable of a value [s]
    in some context to the variable of a value [t], through variables of
    values, of varargs and of memory locations.  After [setTainted k s],
    a least solution over kinds that hold [k], and that solves the kinds
    the flows of the path are filed under, answers [isTainted t = true];
    after [setUntainted k t], a greatest solution answers
    [isTainted s = false]. *)
Theorem declared_taint_follows_flow_paths (fl fl1 : Infoflow)
    (records : list FlowRecord) (ctxt s ctxt' t : nat) (k : string)
    (kinds : gset string) (implicit_ sinks : bool) :
  reachable getName locsForValue reachableLocsForValue DepsDropAtSink
    valueIsSink vargIsSink directPtrIsSink reachPtrIsSink fl ->
  foldM (constrainFlowRecord getName locsForValue reachableLocsForValue
           DepsDropAtSink valueIsSink vargIsSink directPtrIsSink reachPtrIsSink)
        fl records = Ok fl1 ->
  k ∈ kinds ->
  (flow_path records (least_kinds kinds implicit_ sinks)
     (slot_value ctxt s) (slot_value ctxt' t) ->
   forall fl2 fl3 S,
     setTainted getName fl1 k s = Ok fl2 ->
     leastSolution fl2 kinds implicit_ sinks = Ok (fl3, S) ->
     isTainted fl3 S t = Ok true) /\
  (flow_path records (greatest_kinds kinds implicit_)
     (slot_value ctxt s) (slot_value ctxt' t) ->
   forall fl2 fl3 S,
     setUntainted getName fl1 k t = Ok fl2 ->
     greatestSolution fl2 kinds implicit_ = Ok (fl3, S) ->
     isTainted fl3 S s = Ok false).
Proof.
  intros Hr Hrec Hk.
  destruct (reachable_inv _ _ _ _ _ _ _ _ fl Hr) as [Hwf _].
  pose proof (reachable_records fl records fl1 Hr Hrec) as Hr1.
  split.
  - intros Hpath fl2 fl3 S Hset Hsol.
    destruct (flow_path_models records _ fl fl1 _ _ Hwf Hrec Hpath)
      as (xs & xt & Hxs & Hxt & Hflow).
    destruct (setTainted_least fl1 fl2 fl3 k s kinds implicit_ sinks S
                Hr1 Hset Hk Hsol) as (M & HM & Hsrc & Hread & _).
    apply (Hread ctxt' t xt Hxt).
    apply (Hflow false M HM). by eapply Hsrc.
  - intros Hpath fl2 fl3 S Hset Hsol.
    destruct (flow_path_models records _ fl fl1 _ _ Hwf Hrec Hpath)
      as (xs & xt & Hxs & Hxt & Hflow).
    destruct (setUntainted_greatest fl1 fl2 fl3 k t kinds implicit_ S
                Hr1 Hset Hk Hsol) as (M & HM & Hsnk & Hread).
    apply (Hread ctxt s xs Hxs).
    apply (Hflow true M HM). by eapply Hsnk.
Qed.

(** X16.  Solving freezes the constraints: in a state of the pass, once
    [leastSolution] or [greatestSolution] has returned,
    [constrainFlowRecord] fails on every explicit record that has a
    value sink and a value source that is not dropped at sinks. *)
Theorem flow_records_refused_after_solution (fl fl1 : Infoflow)
    (kinds : gset string) (implicit_ sinks g : bool) (S : InfoflowSolution)
    (record : FlowRecord) (s t : nat) :
  reachable getName locsForValue reachableLocsForValue DepsDropAtSink
    valueIsSink vargIsSink directPtrIsSink reachPtrIsSink fl ->
  (if g then greatestSolution fl kinds implicit_
   else leastSolution fl kinds implicit_ sinks) = Ok (fl1, S) ->
  implicit record = false ->
  s ∈ valueSources record ->
  negb DepsDropAtSink || negb (valueIsSink s) = true ->
  t ∈ valueSinks record ->
  is_Ok (constrainFlowRecord getName locsForValue reachableLocsForValue
           DepsDropAtSink valueIsSink vargIsSink directPtrIsSink reachPtrIsSink
           fl1 record) = false.
Proof.
  intros Hr Hsol Hexp Hs Hkeep Ht.
  destruct (reachable_inv _ _ _ _ _ _ _ _ fl Hr) as [Hwf _].
  assert (Hr1 : reachable getName locsForValue reachableLocsForValue DepsDropAtSink
                  valueIsSink vargIsSink directPtrIsSink reachPtrIsSink fl1).
  { destruct g.
    - eapply (reachable_call _ _ _ _ _ _ _ _ fl
                (call_greatestSolution kinds implicit_)); [done|].
      cbn [run_call]. by rewrite Hsol.
    - eapply (reachable_call _ _ _ _ _ _ _ _ fl
                (call_leastSolution kinds implicit_ sinks)); [done|].
      cbn [run_call]. by rewrite Hsol. }
  destruct (reachable_inv _ _ _ _ _ _ _ _ fl1 Hr1) as [Hwf1 _].
  assert (Hc : exists g' q, solutions g' (kit fl1) !! "default" = Some (Some q)).
  { destruct g.
    - unfold greatestSolution, kit_greatestSolution in Hsol.
      destruct (kit_solution true (kit fl) _) as [[k' ps]| | |] eqn:E;
        cbn [mbind result_bind] in Hsol; try done.
      injection Hsol as <- <-. cbn [kit set_kit]. exists true.
      by destruct (kit_solution_locks true (kit fl) _ k' ps "default"
                     (wf_kit fl Hwf) E (greatest_kinds_default _ _)).
    - unfold leastSolution, kit_leastSolution in Hsol.
      destruct (kit_solution false (kit fl) _) as [[k' ps]| | |] eqn:E;
        cbn [mbind result_bind] in Hsol; try done.
      injection Hsol as <- <-. cbn [kit set_kit]. exists false.
      by destruct (kit_solution_locks false (kit fl) _ k' ps "default"
                     (wf_kit fl Hwf) E (least_kinds_default _ _ _)). }
  destruct Hc as (g' & q & Hq).
  rewrite constrainFlowRecord_split.
  destruct (flow_sources _ _ _ _ _ _ _ _ fl1 record) as [[[fl6 se] sse]| | |] eqn:E6;
    cbn [mbind result_bind fst snd is_Ok]; try done.
  destruct (flow_sources_spec _ _ _ _ _ _ _ _ fl1 record fl6 se sse Hwf1 E6)
    as (A6 & Use & Usse & X & XX & Hse & Hsse & Hsrc).
  destruct (asteps_facts getName _ _ Hwf1 A6) as [Hwf6 P6].
  destruct (Hsrc _ _ (source_value _ _ _ _ _ _ _ record s Hs)) as (xs & Hxs & Hin).
  unfold dropped in Hin. rewrite Hkeep in Hin. cbn [negb] in Hin.
  rewrite bool_decide_eq_false_2 in Hse by set_solver. subst se.
  unfold flow_sinks.
  destruct (elements (valueSinks record)) as [|t0 r] eqn:Et.
  { apply elements_empty_inv, leibniz_equiv in Et. rewrite Et in Ht. set_solver. }
  cbn [foldM].
  match goal with |- is_Ok ((?X ≫= _) ≫= _) = false =>
    assert (is_Ok X = false) as HX; [|by destruct X]
  end.
  unfold to_sink. rewrite Hexp. unfold putOrConstrainConsElem.
  destruct (getOrCreateConsElem getName fl6 (sinkCtxt record) t0)
    as [[c cur]| | |] eqn:Eg; cbn [mbind result_bind is_Ok]; try done.
  destruct (getOrCreateConsElem_asteps getName _ _ _ _ _ Hwf6 Eg) as [Ac _].
  destruct (asteps_facts getName _ _ Hwf6 Ac) as [_ Pc].
  assert (Hl : "default" ∈ lockedConstraintKinds (kit c)).
  { eapply (psteps_locked fl1 c g' "default" q); [done| |done].
    by eapply rtc_trans. }
  cbn [kindFromImplicitSink]. by rewrite addConstraint_locked.
Qed.

End RecordedFlows.

(** Two records: a store of the value 1 through the pointer 2 and a load
    of the value 0 through the pointer 3, on a points-to graph where each
    pointer points to the location 7. *)
Definition example_memory_records : list FlowRecord :=
  [addSinkDirectPtr (addSourceValue (FlowRecord_new false DefaultID DefaultID) 1) 2;
   addSinkValue (addSourceDirectPtr (FlowRecord_new false DefaultID DefaultID) 3) 0].

Definition example_memory_flows : Infoflow :=
match foldM (constrainFlowRecord (fun _ => "v") (fun _ => {[ 7 ]}) (fun _ => ∅)
               false (fun _ => false) (fun _ => false) (fun _ => false)
               (fun _ => false)) Infoflow_new example_memory_records with
| Ok fl => fl
| _ => Infoflow_new
end.

Definition example_memory_flows_tainted : Infoflow :=
match setTainted (fun _ => "v") example_memory_flows "k" 1 with
| Ok fl => fl
| _ => Infoflow_new
end.

Definition example_memory_flows_solution : Infoflow * InfoflowSolution :=
match leastSolution example_memory_flows_tainted {[ "k" ]} false false with
| Ok r => r
| _ => (Infoflow_new, mkInfoflowSolution 0 false false)
end.

Lemma declared_taint_follows_flow_paths_witness :
  foldM (constrainFlowRecord (fun _ => "v") (fun _ => {[ 7 ]}) (fun _ => ∅)
           false (fun _ => false) (fun _ => false) (fun _ => false)
           (fun _ => false)) Infoflow_new example_memory_records
  = Ok example_memory_flows /\
  setTainted (fun _ => "v") example_memory_flows "k" 1
  = Ok example_memory_flows_tainted /\
  leastSolution example_memory_flows_tainted {[ "k" ]} false false
  = Ok (example_memory_flows_solution.1, example_memory_flows_solution.2) /\
  isTainted (example_memory_flows_solution.1) (example_memory_flows_solution.2) 0
  = Ok true.
Proof.
  assert (E1 : foldM (constrainFlowRecord (fun _ => "v") (fun _ => {[ 7 ]})
                        (fun _ => ∅) false (fun _ => false) (fun _ => false)
                        (fun _ => false) (fun _ => false))
                 Infoflow_new example_memory_records
               = Ok example_memory_flows) by by vm_compute.
  assert (E2 : setTainted (fun _ => "v") example_memory_flows "k" 1
               = Ok example_memory_flows_tainted) by by vm_compute.
  assert (E3 : leastSolution example_memory_flows_tainted {[ "k" ]} false false
               = Ok (example_memory_flows_solution.1,
                     example_memory_flows_solution.2)) by by vm_compute.
  split_and!; [exact E1|exact E2|exact E3|].
  refine (proj1 (declared_taint_follows_flow_paths (fun _ => "v")
                   (fun _ => {[ 7 ]}) (fun _ => ∅) false (fun _ => false)
                   (fun _ => false) (fun _ => false) (fun _ => false)
                   Infoflow_new example_memory_flows example_memory_records
                   DefaultID 1 DefaultID 0 "k" {[ "k" ]} false false
                   (reachable_new _ _ _ _ _ _ _ _) E1 _) _ _ _ _ E2 E3).
  - by apply elem_of_singleton.
  - set (LV := fun _ : nat => ({[ 7 ]} : gset nat)).
    set (RV := fun _ : nat => (∅ : gset nat)).
    set (F := fun _ : nat => false).
    set (r1 := addSinkDirectPtr
                 (addSourceValue (FlowRecord_new false DefaultID DefaultID) 1) 2).
    set (r2 := addSinkValue
                 (addSourceDirectPtr (FlowRecord_new false DefaultID DefaultID) 3) 0).
    apply (path_step LV RV false F F F F [r1; r2] _ r2
             (slot_value DefaultID 1) (slot_loc 7) false (slot_value DefaultID 0)).
    + apply (path_one LV RV false F F F F [r1; r2] _ r1
               (slot_value DefaultID 1) false (slot_loc 7)).
      * left.
      * apply (source_value LV RV false F F F F r1 1). cbn. set_solver.
      * apply (sink_directPtr LV RV r1 2 7); [cbn; set_solver|].
        unfold LV. set_solver.
      * apply least_kinds_default.
    + right. left.
    + apply (source_directPtr LV RV false F F F F r2 3 7); [cbn; set_solver|].
      unfold LV. set_solver.
    + apply (sink_value LV RV r2 0). cbn. set_solver.
    + apply least_kinds_default.
Defined.

(** The example state after a least solution was asked for. *)
Definition example_solved_state : Infoflow * InfoflowSolution :=
match leastSolution example_state ∅ false false with
| Ok r => r
| _ => (Infoflow_new, mkInfoflowSolution 0 false false)
end.

Lemma flow_records_refused_after_solution_witness :
  is_Ok (constrainFlowRecord (fun _ => "v") (fun _ => ∅) (fun _ => ∅) false
           (fun _ => false) (fun _ => false) (fun _ => false) (fun _ => false)
           (example_solved_state.1) example_record) = false.
Proof.
  refine (flow_records_refused_after_solution (fun _ => "v") (fun _ => ∅)
            (fun _ => ∅) false (fun _ => false) (fun _ => false)
            (fun _ => false) (fun _ => false) example_state
            (example_solved_state.1) ∅ false false false (example_solved_state.2)
            example_record 1 0 example_state_reachable _ _ _ _ _).
  - by vm_compute.
  - done.
  - by vm_compute.
  - done.
  - by vm_compute.
Defined.

(** ** Dependencies between the values of a function *)

Lemma foldM_appends {A B : Type} (f : list A -> B -> result (list A)) l :
  (forall a x a', x ∈ l -> f a x = Ok a' -> exists more, a' = a ++ more) ->
  forall a a', foldM f a l = Ok a' -> exists more, a' = a ++ more.
Proof.
  induction l as [|x r IH]; intros Hf a a'; cbn [foldM].
  - intros [= <-]. exists []. by rewrite app_nil_r.
  - destruct (f a x) as [a1| | |] eqn:E; cbn [mbind result_bind]; try done.
    destruct (Hf a x a1) as [m1 ->]; [left|done|].
    intros H. destruct (IH (fun a x a' Hx => Hf a x a' (list_elem_of_further _ _ _ Hx))
                          _ _ H) as [m2 ->].
    exists (m1 ++ m2). by rewrite app_assoc.
Qed.

Lemma foldl_addSourceValue_fields l : forall r,
  implicit (foldl addSourceValue r l) = implicit r /\
  sourceCtxt (foldl addSourceValue r l) = sourceCtxt r /\
  sinkCtxt (foldl addSourceValue r l) = sinkCtxt r /\
  valueSinks (foldl addSourceValue r l) = valueSinks r /\
  (forall o, o ∈ l -> o ∈ valueSources (foldl addSourceValue r l)) /\
  valueSources r ⊆ valueSources (foldl addSourceValue r l).
Proof.
  induction l as [|x l IH]; intros r; cbn [foldl].
  - split_and!; try done. by intros o ?%elem_of_nil.
  - destruct (IH (addSourceValue r x)) as (H1 & H2 & H3 & H4 & H5 & H6).
    cbn [addSourceValue implicit sourceCtxt sinkCtxt valueSinks valueSources]
      in H1, H2, H3, H4, H6.
    split_and!; try done.
    + intros o [->|Hin]%elem_of_cons; [|by apply H5]. apply H6. set_solver.
    + set_solver.
Qed.

Section ConditionalSuccessors.

Variable successors : nat -> list nat.
Variable pdt_dominates : nat -> nat -> bool.

(** The loop of [constrainConditionalSuccessors] touches only the value
    sinks of the record. *)
Lemma conditionalSuccessors_loop_fields fuel bb : forall visited wq rec rec',
  conditionalSuccessors_loop successors pdt_dominates fuel bb visited wq rec
  = Ok rec' ->
  implicit rec' = implicit rec /\ sourceCtxt rec' = sourceCtxt rec /\
  sinkCtxt rec' = sinkCtxt rec /\ valueSources rec' = valueSources rec.
Proof.
  induction fuel as [|fuel IH]; intros visited wq rec rec';
    destruct wq as [|cur wq]; cbn [conditionalSuccessors_loop];
    try done; try by intros [= <-].
  destruct (negb (pdt_dominates cur bb)).
  - intros H. apply IH in H. by cbn in H.
  - apply IH.
Qed.

End ConditionalSuccessors.

Section Dependencies.

Variable locsForValue : nat -> gset nat.
Variable reachableLocsForValue : nat -> gset nat.
Variable DepsDropAtSink : bool.
Variable valueIsSink : nat -> bool.
Variable vargIsSink : nat -> bool.
Variable directPtrIsSink : nat -> bool.
Variable reachPtrIsSink : nat -> bool.
Variable currentContext : nat.
Variable successors : nat -> list nat.
Variable pdt_dominates : nat -> nat -> bool.
Variable constrainCallSite :
  Instruction -> bool -> list FlowRecord -> result (list FlowRecord).

(** The rule for call sites adds to the flows it is given, as
    [Infoflow::constrainCallSite] does. *)
Definition appends : Prop :=
  forall inst b flows flows',
    constrainCallSite inst b flows = Ok flows' -> exists more, flows' = flows ++ more.

(** The instructions whose rule hands the call site to the
    interprocedural driver. *)
Definition is_call (inst : Instruction) : bool :=
match inst_class inst with
| CallInst None | InvokeInst _ => true
| _ => false
end.

(** The instructions whose rule is [operandsAndPCtoValue]. *)
Definition operands_to_value (inst : Instruction) : bool :=
match inst_class inst with
| BinaryOperator | CmpInst | ExtractElementInst | GetElementPtrInst
| InsertElementInst | InsertValueInst | LandingPadInst | PHINode
| SelectInst | ShuffleVectorInst | ResumeInst | AllocaInst | CastInst
| ExtractValueInst => true
| CallInst (Some (Intrinsic_sqrt | Intrinsic_powi | Intrinsic_sin
                 | Intrinsic_cos | Intrinsic_pow | Intrinsic_exp
                 | Intrinsic_log | Intrinsic_fma)) => true
| ReturnInst => negb (bool_decide (length (inst_operands inst) = 0))
| _ => false
end.

(** The value a terminator other than an invoke chooses its successor
    by. *)
Definition branches_on (inst : Instruction) : option nat :=
match inst_class inst with
| BranchInst (Some c) => Some c
| IndirectBrInst a => Some a
| SwitchInst c => Some c
| _ => None
end.

Definition in_function (f : list (list Instruction)) (inst : Instruction) : Prop :=
  exists bb, bb ∈ f /\ inst ∈ bb.

(** One step of dependence in a function, between the variables of
    values in the current context and those of memory locations.  The
    steps of data (through operands, and through a store and a load of a
    common location, in whatever order they come) are there always, those
    of control and of addresses when implicit flows are asked for. *)
Inductive dep_step (f : list (list Instruction)) (implicit_ : bool)
  : Slot -> Slot -> Prop :=
| dep_operand inst o :
    in_function f inst -> operands_to_value inst = true ->
    o ∈ inst_operands inst ->
    dep_step f implicit_ (slot_value currentContext o)
      (slot_value currentContext (inst_value inst))
| dep_store inst val p l :
    in_function f inst -> inst_class inst = StoreInst val p ->
    l ∈ locsForValue p ->
    dep_step f implicit_ (slot_value currentContext val) (slot_loc l)
| dep_load inst q l :
    in_function f inst -> inst_class inst = LoadInst q ->
    l ∈ locsForValue q ->
    dep_step f implicit_ (slot_loc l) (slot_value currentContext (inst_value inst))
| dep_pc inst :
    implicit_ = true -> in_function f inst ->
    operands_to_value inst = true \/ (exists q, inst_class inst = LoadInst q) ->
    dep_step f implicit_ (slot_value currentContext (inst_parent inst))
      (slot_value currentContext (inst_value inst))
| dep_load_address inst q :
    implicit_ = true -> in_function f inst -> inst_class inst = LoadInst q ->
    dep_step f implicit_ (slot_value currentContext q)
      (slot_value currentContext (inst_value inst))
| dep_store_pc inst val p l :
    implicit_ = true -> in_function f inst ->
    inst_class inst = StoreInst val p -> l ∈ locsForValue p ->
    dep_step f implicit_ (slot_value currentContext (inst_parent inst)) (slot_loc l)
| dep_store_address inst val p l :
    implicit_ = true -> in_function f inst ->
    inst_class inst = StoreInst val p -> l ∈ locsForValue p ->
    dep_step f implicit_ (slot_value currentContext p) (slot_loc l)
| dep_branch inst c succ :
    implicit_ = true -> in_function f inst -> branches_on inst = Some c ->
    succ ∈ successors (inst_parent inst) ->
    pdt_dominates succ (inst_parent inst) = false ->
    dep_step f implicit_ (slot_value currentContext c)
      (slot_value currentContext succ)
| dep_branch_pc inst c succ :
    implicit_ = true -> in_function f inst -> branches_on inst = Some c ->
    succ ∈ successors (inst_parent inst) ->
    pdt_dominates succ (inst_parent inst) = false ->
    dep_step f implicit_ (slot_value currentContext (inst_parent inst))
      (slot_value currentContext succ).

(** Every rule adds to the flows it is given; the rules other than
    those of call sites add what they return on no flows. *)
Lemma getInstructionFlowsInternal_appends inst b flows flows' :
  appends ->
  getInstructionFlowsInternal currentContext successors pdt_dominates
    constrainCallSite inst b flows = Ok flows' ->
  exists more,
    flows' = flows ++ more /\
    (is_call inst = false ->
     getInstructionFlowsInternal currentContext successors pdt_dominates
       constrainCallSite inst b [] = Ok more).
Proof.
  intros Hcall.
  assert (Hcond : forall c fl0 fl1,
            conditional_flow currentContext successors pdt_dominates inst c fl0
            = Ok fl1 ->
            exists r, fl1 = fl0 ++ [r] /\
              conditional_flow currentContext successors pdt_dominates inst c []
              = Ok [r]).
  { intros c fl0 fl1. unfold conditional_flow.
    destruct (constrainConditionalSuccessors _ _ _ _) as [r| | |];
      cbn [mbind result_bind]; try done.
    intros [= <-]. by exists r. }
  unfold getInstructionFlowsInternal, is_call, constrainCallInst,
    constrainTerminatorInst, constrainUnaryInstruction, constrainIntrinsic,
    constrainBranchInst, constrainInvokeInst, constraintUnreachableInst,
    constrainFenceInst, constrainMemcpyOrmove, constrainMemset,
    constrainReturnInst, operandsAndPCtoValue, constrainStoreInst,
    constrainLoadInst, constrainVAArgInst, constrainAtomicRMWInst,
    constrainAtomicCmpXchgInst.
  destruct (inst_class inst) as
    [ptr cmp new|ptr val| |[id|]| | | | | | | | | | |val ptr|[c|]|addr|called
     | | |c| | | | | |ptr|ptr| |];
    cbn [isa_TerminatorInst isa_UnaryInstruction];
    try (intros [= <-]; eexists; split; [reflexivity|done]);
    try done.
  - (* intrinsics *)
    destruct id;
      try (intros [= <-]; eexists; split; [reflexivity|done]);
      try (intros [= <-]; exists []; split; [by rewrite app_nil_r|done]).
    + destruct (getArgOperand inst 0) as [a0| | |]; cbn [mbind result_bind]; try done.
      destruct (getArgOperand inst 1) as [a1| | |]; cbn [mbind result_bind]; try done.
      destruct (getArgOperand inst 2) as [a2| | |]; cbn [mbind result_bind]; try done.
      destruct (getArgOperand inst 3) as [a3| | |]; cbn [mbind result_bind]; try done.
      intros [= <-]. eexists. split; [reflexivity|done].
    + destruct (getArgOperand inst 0) as [a0| | |]; cbn [mbind result_bind]; try done.
      destruct (getArgOperand inst 1) as [a1| | |]; cbn [mbind result_bind]; try done.
      destruct (getArgOperand inst 2) as [a2| | |]; cbn [mbind result_bind]; try done.
      destruct (getArgOperand inst 3) as [a3| | |]; cbn [mbind result_bind]; try done.
      intros [= <-]. eexists. split; [reflexivity|done].
    + destruct (getArgOperand inst 0) as [a0| | |]; cbn [mbind result_bind]; try done.
      destruct (getArgOperand inst 1) as [a1| | |]; cbn [mbind result_bind]; try done.
      destruct (getArgOperand inst 2) as [a2| | |]; cbn [mbind result_bind]; try done.
      destruct (getArgOperand inst 3) as [a3| | |]; cbn [mbind result_bind]; try done.
      intros [= <-]. eexists. split; [reflexivity|done].
  - (* a call *)
    intros H. destruct (Hcall _ _ _ _ H) as [more ->]. by exists more.
  - (* a conditional branch *)
    intros H. destruct (Hcond _ _ _ H) as (r & -> & Hr). by exists [r].
  - intros [= <-]. exists []. by rewrite app_nil_r.
  - intros H. destruct (Hcond _ _ _ H) as (r & -> & Hr). by exists [r].
  - (* an invoke *)
    destruct (constrainCallSite inst b flows) as [fl1| | |] eqn:E;
      cbn [mbind result_bind]; try done.
    destruct (Hcall _ _ _ _ E) as [more ->].
    intros H. destruct (Hcond _ _ _ H) as (r & -> & _).
    exists (more ++ [r]). by rewrite app_assoc.
  - (* a return *)
    destruct (negb (bool_decide (length (inst_operands inst) = 0)));
      intros [= <-]; [eexists; split; [reflexivity|done]|].
    exists []. by rewrite app_nil_r.
  - intros H. destruct (Hcond _ _ _ H) as (r & -> & Hr). by exists [r].
  - intros [= <-]. exists []. by rewrite app_nil_r.
Qed.

(** The flows of a function hold those of each of its instructions. *)
Lemma function_flows_member f flows inst :
  appends ->
  foldM (fun flows bb =>
           generateBasicBlockConstraints currentContext successors pdt_dominates
             constrainCallSite bb flows) [] f = Ok flows ->
  in_function f inst -> is_call inst = false ->
  exists more,
    getInstructionFlowsInternal currentContext successors pdt_dominates
      constrainCallSite inst true [] = Ok more /\
    forall r, r ∈ more -> r ∈ flows.
Proof.
  intros Hcall Hf (bb & Hbb & Hinst) Hnc.
  assert (Hblock : forall bb0 a a',
            generateBasicBlockConstraints currentContext successors pdt_dominates
              constrainCallSite bb0 a = Ok a' -> exists more, a' = a ++ more).
  { intros bb0 a a'. unfold generateBasicBlockConstraints.
    apply foldM_appends. intros a0 x a0' _ Hx.
    destruct (getInstructionFlowsInternal_appends x true a0 a0' Hcall Hx)
      as (more & -> & _). by exists more. }
  destruct (foldM_member _ _ _ _ bb Hf Hbb) as (l1 & l2 & a1 & a2 & _ & _ & Hb & H2).
  destruct (foldM_appends _ l2 (fun a x a' _ => Hblock x a a') _ _ H2) as [m2 ->].
  unfold generateBasicBlockConstraints in Hb.
  destruct (foldM_member _ _ _ _ inst Hb Hinst)
    as (i1 & i2 & b1 & b2 & _ & _ & Hi & Hi2).
  destruct (getInstructionFlowsInternal_appends inst true b1 b2 Hcall Hi)
    as (more & -> & Hmore).
  assert (Hrest : exists m3, a2 = (b1 ++ more) ++ m3).
  { eapply (foldM_appends _ i2); [|exact Hi2]. intros a0 x a0' _ Hx.
    destruct (getInstructionFlowsInternal_appends x true a0 a0' Hcall Hx)
      as (m & -> & _). by exists m. }
  destruct Hrest as [m3 ->].
  exists more. split; [by apply Hmore|].
  intros r Hr. rewrite !elem_of_app. by left; left; right.
Qed.

(** The rule of the instructions of [operands_to_value]. *)
Lemma operands_rule inst b :
  operands_to_value inst = true ->
  is_call inst = false /\
  getInstructionFlowsInternal currentContext successors pdt_dominates
    constrainCallSite inst b []
  = Ok (operandsAndPCtoValue currentContext inst []).
Proof.
  unfold operands_to_value, is_call, getInstructionFlowsInternal,
    constrainCallInst, constrainIntrinsic, constrainTerminatorInst,
    constrainUnaryInstruction, constrainReturnInst.
  destruct (inst_class inst) as
    [ptr cmp new|ptr val| |[id|]| | | | | | | | | | |val ptr|[c|]|addr|called
     | | |c| | | | | |ptr|ptr| |];
    cbn [isa_TerminatorInst isa_UnaryInstruction]; try done.
  - by destruct id.
  - by intros ->.
Qed.

(** The rule of the terminators of [branches_on]. *)
Lemma branches_rule inst c b :
  branches_on inst = Some c ->
  is_call inst = false /\
  getInstructionFlowsInternal currentContext successors pdt_dominates
    constrainCallSite inst b []
  = conditional_flow currentContext successors pdt_dominates inst c [].
Proof.
  unfold branches_on, is_call, getInstructionFlowsInternal,
    constrainTerminatorInst, constrainBranchInst.
  destruct (inst_class inst) as
    [ptr cmp new|ptr val| |[id|]| | | | | | | | | | |val ptr|[c0|]|addr|called
     | | |c0| | | | | |ptr|ptr| |];
    cbn [isa_TerminatorInst isa_UnaryInstruction]; try done;
    by intros [= ->].
Qed.

Section Edges.

Variable flows : list FlowRecord.
Variable solved : gset string.

Lemma edge_value_value r i c1 c2 s t :
  r ∈ flows -> implicit r = i -> sourceCtxt r = c1 -> sinkCtxt r = c2 ->
  s ∈ valueSources r -> t ∈ valueSinks r ->
  kindFromImplicitSink i (dropped DepsDropAtSink valueIsSink s) ∈ solved ->
  flow_path locsForValue reachableLocsForValue DepsDropAtSink valueIsSink
    vargIsSink directPtrIsSink reachPtrIsSink flows solved
    (slot_value c1 s) (slot_value c2 t).
Proof using Type.
  intros Hin <- <- <- Hs Ht Hk.
  eapply path_one; [exact Hin|by apply source_value|by apply sink_value|exact Hk].
Qed.

Lemma edge_value_loc r i c1 s p l :
  r ∈ flows -> implicit r = i -> sourceCtxt r = c1 ->
  s ∈ valueSources r -> p ∈ directPtrSinks r -> l ∈ locsForValue p ->
  kindFromImplicitSink i (dropped DepsDropAtSink valueIsSink s) ∈ solved ->
  flow_path locsForValue reachableLocsForValue DepsDropAtSink valueIsSink
    vargIsSink directPtrIsSink reachPtrIsSink flows solved
    (slot_value c1 s) (slot_loc l).
Proof using Type.
  intros Hin <- <- Hs Hp Hl Hk.
  eapply path_one;
    [exact Hin|by apply source_value|by eapply sink_directPtr|exact Hk].
Qed.

Lemma edge_loc_value r i c2 p l t :
  r ∈ flows -> implicit r = i -> sinkCtxt r = c2 ->
  p ∈ directPtrSources r -> l ∈ locsForValue p -> t ∈ valueSinks r ->
  kindFromImplicitSink i (dropped DepsDropAtSink directPtrIsSink p) ∈ solved ->
  flow_path locsForValue reachableLocsForValue DepsDropAtSink valueIsSink
    vargIsSink directPtrIsSink reachPtrIsSink flows solved
    (slot_loc l) (slot_value c2 t).
Proof using Type.
  intros Hin <- <- Hp Hl Ht Hk.
  eapply path_one;
    [exact Hin|by eapply source_directPtr|by apply sink_value|exact Hk].
Qed.

End Edges.

(** Each step of dependence is a flow of the records of the function. *)
Lemma dep_step_flow f flows implicit_ (solved : gset string) a c :
  appends ->
  foldM (fun flows bb =>
           generateBasicBlockConstraints currentContext successors pdt_dominates
             constrainCallSite bb flows) [] f = Ok flows ->
  (forall (i : bool) isSink x, (i = true -> implicit_ = true) ->
     kindFromImplicitSink i (dropped DepsDropAtSink isSink x) ∈ solved) ->
  dep_step f implicit_ a c ->
  flow_path locsForValue reachableLocsForValue DepsDropAtSink valueIsSink
    vargIsSink directPtrIsSink reachPtrIsSink flows solved a c.
Proof.
  intros Hcall Hf Hk Hstep.
  assert (Hops : forall inst,
            in_function f inst -> operands_to_value inst = true ->
            forall r, r ∈ operandsAndPCtoValue currentContext inst [] ->
                      r ∈ flows).
  { intros inst Hin Hop.
    destruct (operands_rule inst true Hop) as [Hnc Hrule].
    destruct (function_flows_member f flows inst Hcall Hf Hin Hnc)
      as (more & Hmore & Hsub).
    rewrite Hrule in Hmore. by injection Hmore as <-. }
  assert (Hload : forall inst q,
            in_function f inst -> inst_class inst = LoadInst q ->
            forall r, r ∈ constrainLoadInst currentContext inst q [] -> r ∈ flows).
  { intros inst q Hin Hc.
    destruct (function_flows_member f flows inst Hcall Hf Hin)
      as (more & Hmore & Hsub); [unfold is_call; by rewrite Hc|].
    unfold getInstructionFlowsInternal in Hmore. rewrite Hc in Hmore.
    cbn [isa_TerminatorInst isa_UnaryInstruction] in Hmore.
    unfold constrainUnaryInstruction in Hmore. rewrite Hc in Hmore.
    by injection Hmore as <-. }
  assert (Hstore : forall inst val p,
            in_function f inst -> inst_class inst = StoreInst val p ->
            forall r, r ∈ constrainStoreInst currentContext inst val p [] ->
                      r ∈ flows).
  { intros inst val p Hin Hc.
    destruct (function_flows_member f flows inst Hcall Hf Hin)
      as (more & Hmore & Hsub); [unfold is_call; by rewrite Hc|].
    unfold getInstructionFlowsInternal in Hmore. rewrite Hc in Hmore.
    by injection Hmore as <-. }
  assert (Hbranch : forall inst c0 succ,
            in_function f inst -> branches_on inst = Some c0 ->
            succ ∈ successors (inst_parent inst) ->
            pdt_dominates succ (inst_parent inst) = false ->
            exists r, r ∈ flows /\ implicit r = true /\
              sourceCtxt r = currentContext /\ sinkCtxt r = currentContext /\
              c0 ∈ valueSources r /\ inst_parent inst ∈ valueSources r /\
              succ ∈ valueSinks r).
  { intros inst c0 succ Hin Hb Hsucc Hpd.
    destruct (branches_rule inst c0 true Hb) as [Hnc Hrule].
    destruct (function_flows_member f flows inst Hcall Hf Hin Hnc)
      as (more & Hmore & Hsub).
    rewrite Hrule in Hmore. unfold conditional_flow in Hmore.
    match type of Hmore with
    | (constrainConditionalSuccessors _ _ _ ?r0 ≫= _) = _ =>
        destruct (constrainConditionalSuccessors_sinks successors pdt_dominates
                    (inst_parent inst) r0) as (r & Hr & Hsinks);
        pose proof Hr as Hfields
    end.
    rewrite Hr in Hmore. cbn [mbind result_bind app] in Hmore.
    injection Hmore as <-.
    unfold constrainConditionalSuccessors in Hfields.
    apply conditionalSuccessors_loop_fields in Hfields as (F1 & F2 & F3 & F4).
    exists r. split_and!; [apply Hsub; left|done|done|done| | |].
    - rewrite F4. cbn. set_solver.
    - rewrite F4. cbn. set_solver.
    - apply Hsinks. by right. }
  destruct Hstep as [inst o Hin Hop Ho|inst val p l Hin Hc Hl|inst q l Hin Hc Hl
                    |inst Hi Hin Hcase|inst q Hi Hin Hc|inst val p l Hi Hin Hc Hl
                    |inst val p l Hi Hin Hc Hl|inst c0 succ Hi Hin Hb Hsucc Hpd
                    |inst c0 succ Hi Hin Hb Hsucc Hpd].
  - (* an operand *)
    destruct (foldl_addSourceValue_fields (inst_operands inst)
                (currentContextFlowRecord currentContext false))
      as (F1 & F2 & F3 & F4 & F5 & _).
    eapply (edge_value_value flows solved _ false).
    + apply (Hops inst Hin Hop). unfold operandsAndPCtoValue. cbn [app]. left.
    + cbn [addSinkValue implicit]. exact F1.
    + cbn [addSinkValue sourceCtxt]. exact F2.
    + cbn [addSinkValue sinkCtxt]. exact F3.
    + cbn [addSinkValue valueSources]. by apply F5.
    + cbn [addSinkValue valueSinks]. set_solver.
    + by apply Hk.
  - (* a store *)
    eapply (edge_value_loc flows solved _ false _ val p l);
      [apply (Hstore inst val p Hin Hc); unfold constrainStoreInst; cbn [app];
       right; left
      |done|done|cbn; set_solver|cbn; set_solver|done|by apply Hk].
  - (* a load *)
    eapply (edge_loc_value flows solved _ false _ q l);
      [apply (Hload inst q Hin Hc); unfold constrainLoadInst; cbn [app]; left
      |done|done|cbn; set_solver|done|cbn; set_solver|by apply Hk].
  - (* the block of an instruction *)
    destruct Hcase as [Hop|[q Hc]].
    + eapply (edge_value_value flows solved _ true);
        [apply (Hops inst Hin Hop); unfold operandsAndPCtoValue; cbn [app];
         right; left
        |done|done|done|cbn; set_solver|cbn; set_solver|by apply Hk].
    + eapply (edge_value_value flows solved _ true);
        [apply (Hload inst q Hin Hc); unfold constrainLoadInst; cbn [app];
         right; left
        |done|done|done|cbn; set_solver|cbn; set_solver|by apply Hk].
  - (* the address of a load *)
    eapply (edge_value_value flows solved _ true);
      [apply (Hload inst q Hin Hc); unfold constrainLoadInst; cbn [app];
       right; left
      |done|done|done|cbn; set_solver|cbn; set_solver|by apply Hk].
  - (* the block of a store *)
    eapply (edge_value_loc flows solved _ true _ _ p l);
      [apply (Hstore inst val p Hin Hc); unfold constrainStoreInst; cbn [app]; left
      |done|done|cbn; set_solver|cbn; set_solver|done|by apply Hk].
  - (* the address of a store *)
    eapply (edge_value_loc flows solved _ true _ _ p l);
      [apply (Hstore inst val p Hin Hc); unfold constrainStoreInst; cbn [app]; left
      |done|done|cbn; set_solver|cbn; set_solver|done|by apply Hk].
  - destruct (Hbranch inst c0 succ Hin Hb Hsucc Hpd)
      as (r & Hr & H1 & H2 & H3 & H4 & H5 & H6).
    eapply (edge_value_value flows solved r true); try done. by apply Hk.
  - destruct (Hbranch inst c0 succ Hin Hb Hsucc Hpd)
      as (r & Hr & H1 & H2 & H3 & H4 & H5 & H6).
    eapply (edge_value_value flows solved r true); try done. by apply Hk.
Qed.

End Dependencies.

(** The kinds of the flows are among those a least solution solves when
    sources are not dropped at sinks or the solution is asked with the
    sinks, and among those a greatest solution solves. *)
Lemma least_kinds_flow (DepsDropAtSink : bool) (kinds : gset string) implicit_ sinks (i : bool) isSink x :
  DepsDropAtSink = false \/ sinks = true ->
  (i = true -> implicit_ = true) ->
  kindFromImplicitSink i (dropped DepsDropAtSink isSink x)
  ∈ least_kinds kinds implicit_ sinks.
Proof.
  intros Hd Hi. unfold dropped, least_kinds, kindFromImplicitSink.
  destruct i; [rewrite Hi by done|];
    destruct Hd as [->| ->]; cbn [negb orb andb];
    repeat match goal with |- context [if ?b then _ else _] => destruct b end;
    set_solver.
Qed.

Lemma greatest_kinds_flow (kinds : gset string) implicit_ (i b : bool) :
  (i = true -> implicit_ = true) ->
  kindFromImplicitSink i b ∈ greatest_kinds kinds implicit_.
Proof.
  intros Hi. unfold greatest_kinds, kindFromImplicitSink.
  destruct i; [rewrite Hi by done|]; destruct b;
    repeat match goal with |- context [if ?b then _ else _] => destruct b end;
    set_solver.
Qed.

Section DependenciesTaint.

Variable getName : nat -> string.
Variable locsForValue : nat -> gset nat.
Variable reachableLocsForValue : nat -> gset nat.
Variable DepsDropAtSink : bool.
Variable valueIsSink : nat -> bool.
Variable vargIsSink : nat -> bool.
Variable directPtrIsSink : nat -> bool.
Variable reachPtrIsSink : nat -> bool.
Variable currentContext : nat.
Variable successors : nat -> list nat.
Variable pdt_dominates : nat -> nat -> bool.
Variable constrainCallSite :
  Instruction -> bool -> list FlowRecord -> result (list FlowRecord).

Lemma flow_path_trans records solved a c d :
  flow_path locsForValue reachableLocsForValue DepsDropAtSink valueIsSink
    vargIsSink directPtrIsSink reachPtrIsSink records solved a c ->
  flow_path locsForValue reachableLocsForValue DepsDropAtSink valueIsSink
    vargIsSink directPtrIsSink reachPtrIsSink records solved c d ->
  flow_path locsForValue reachableLocsForValue DepsDropAtSink valueIsSink
    vargIsSink directPtrIsSink reachPtrIsSink records solved a d.
Proof.
  intros Hac Hcd.
  induction Hcd as [record c b d Hin Hs Ht Hk|record c e b d Hp IH Hin Hs Ht Hk].
  - by eapply path_step.
  - eapply path_step; [by apply IH|done..].
Qed.

(** X20.  Declared taint follows the dependencies of a function.  In a
    state of the pass, let [generateFunctionConstraints] take a function,
    with a rule for call sites that adds to the flows it is given, and
    let a chain of steps of dependence lead from a value [s] to a value
    [t]: through operands, through a store and a load that share an
    abstract location and, when implicit flows are asked for, through
    the block of an instruction, the address of a load or a store, and
    the condition of a branch to a successor that does not post-dominate
    the block.  After [setTainted k s], a least solution over kinds that
    hold [k] answers [isTainted t = true], provided sources are not
    dropped at sinks or the solution is asked with the sinks; after
    [setUntainted k t], a greatest solution answers
    [isTainted s = false]. *)
Theorem declared_taint_follows_dependencies (fl fl1 : Infoflow)
    (f : list (list Instruction)) (s t : nat) (k : string)
    (kinds : gset string) (implicit_ sinks : bool) :
  reachable getName locsForValue reachableLocsForValue DepsDropAtSink
    valueIsSink vargIsSink directPtrIsSink reachPtrIsSink fl ->
  appends constrainCallSite ->
  generateFunctionConstraints getName locsForValue reachableLocsForValue
    DepsDropAtSink valueIsSink vargIsSink directPtrIsSink reachPtrIsSink
    currentContext successors pdt_dominates constrainCallSite fl f = Ok fl1 ->
  k ∈ kinds ->
  tc (dep_step locsForValue currentContext successors pdt_dominates f implicit_)
    (slot_value currentContext s) (slot_value currentContext t) ->
  (DepsDropAtSink = false \/ sinks = true ->
   forall fl2 fl3 S,
     setTainted getName fl1 k s = Ok fl2 ->
     leastSolution fl2 kinds implicit_ sinks = Ok (fl3, S) ->
     isTainted fl3 S t = Ok true) /\
  (forall fl2 fl3 S,
     setUntainted getName fl1 k t = Ok fl2 ->
     greatestSolution fl2 kinds implicit_ = Ok (fl3, S) ->
     isTainted fl3 S s = Ok false).
Proof.
  intros Hr Hcall Hgen Hk Hdep.
  destruct (reachable_inv _ _ _ _ _ _ _ _ fl Hr) as [Hwf _].
  unfold generateFunctionConstraints in Hgen.
  destruct (foldM _ [] f) as [flows| | |] eqn:Hf;
    cbn [mbind result_bind] in Hgen; try done.
  pose proof (reachable_records _ _ _ _ _ _ _ _ fl flows fl1 Hr Hgen) as Hr1.
  assert (Hpath : forall solved : gset string,
            (forall (i : bool) isSink x, (i = true -> implicit_ = true) ->
               kindFromImplicitSink i (dropped DepsDropAtSink isSink x) ∈ solved) ->
            flow_path locsForValue reachableLocsForValue DepsDropAtSink
              valueIsSink vargIsSink directPtrIsSink reachPtrIsSink flows solved
              (slot_value currentContext s) (slot_value currentContext t)).
  { intros solved Hsolved.
    induction Hdep as [a c Hstep|a c d Hstep Hrest IH].
    - by eapply dep_step_flow.
    - eapply flow_path_trans; [|exact IH]. by eapply dep_step_flow. }
  split.
  - intros Hd fl2 fl3 S Hset Hsol.
    destruct (flow_path_models _ _ _ _ _ _ _ _ flows _ fl fl1 _ _ Hwf Hgen
                (Hpath (least_kinds kinds implicit_ sinks)
                   (fun i isSink x Hi =>
                      least_kinds_flow DepsDropAtSink kinds implicit_ sinks i isSink x Hd Hi)))
      as (xs & xt & Hxs & Hxt & Hflow).
    destruct (setTainted_least _ _ _ _ _ _ _ _ fl1 fl2 fl3 k s kinds implicit_
                sinks S Hr1 Hset Hk Hsol) as (M & HM & Hsrc & Hread & _).
    apply (Hread currentContext t xt Hxt).
    apply (Hflow false M HM). by eapply Hsrc.
  - intros fl2 fl3 S Hset Hsol.
    destruct (flow_path_models _ _ _ _ _ _ _ _ flows _ fl fl1 _ _ Hwf Hgen
                (Hpath (greatest_kinds kinds implicit_)
                   (fun i isSink x Hi =>
                      greatest_kinds_flow kinds implicit_ i _ Hi)))
      as (xs & xt & Hxs & Hxt & Hflow).
    destruct (setUntainted_greatest _ _ _ _ _ _ _ _ fl1 fl2 fl3 k t kinds
                implicit_ S Hr1 Hset Hk Hsol) as (M & HM & Hsnk & Hread).
    apply (Hread currentContext s xs Hxs).
    apply (Hflow true M HM). by eapply Hsnk.
Qed.

End DependenciesTaint.

(** A block that stores the value 1 through the pointer 2, loads through
    the pointer 3, adds the value 4 to what it loaded and returns the
    sum. *)
Definition example_function : list (list Instruction) :=
  [[mkInstruction 10 100 200 [1; 2] (StoreInst 1 2);
    mkInstruction 11 100 200 [3] (LoadInst 3);
    mkInstruction 12 100 200 [11; 4] BinaryOperator;
    mkInstruction 13 100 200 [12] ReturnInst]].

Definition example_function_state : Infoflow :=
match generateFunctionConstraints (fun _ => "v") (fun _ => {[ 7 ]}) (fun _ => ∅)
        false (fun _ => false) (fun _ => false) (fun _ => false) (fun _ => false)
        DefaultID (fun _ => []) (fun _ _ => false) (fun _ _ flows => Ok flows)
        Infoflow_new example_function with
| Ok fl => fl
| _ => Infoflow_new
end.

Definition example_function_tainted : Infoflow :=
match setTainted (fun _ => "v") example_function_state "k" 1 with
| Ok fl => fl
| _ => Infoflow_new
end.

Definition example_function_solution : Infoflow * InfoflowSolution :=
match leastSolution example_function_tainted {[ "k" ]} false false with
| Ok r => r
| _ => (Infoflow_new, mkInfoflowSolution 0 false false)
end.

Lemma declared_taint_follows_dependencies_witness :
  generateFunctionConstraints (fun _ => "v") (fun _ => {[ 7 ]}) (fun _ => ∅)
    false (fun _ => false) (fun _ => false) (fun _ => false) (fun _ => false)
    DefaultID (fun _ => []) (fun _ _ => false) (fun _ _ flows => Ok flows)
    Infoflow_new example_function
  = Ok example_function_state /\
  setTainted (fun _ => "v") example_function_state "k" 1
  = Ok example_function_tainted /\
  leastSolution example_function_tainted {[ "k" ]} false false
  = Ok (example_function_solution.1, example_function_solution.2) /\
  isTainted (example_function_solution.1) (example_function_solution.2) 12
  = Ok true.
Proof.
  set (LV := fun _ : nat => ({[ 7 ]} : gset nat)).
  set (RV := fun _ : nat => (∅ : gset nat)).
  set (F := fun _ : nat => false).
  set (succs := fun _ : nat => ([] : list nat)).
  set (pdt := fun _ _ : nat => false).
  set (cs := fun (_ : Instruction) (_ : bool) (flows : list FlowRecord) =>
               Ok flows).
  assert (E1 : generateFunctionConstraints (fun _ => "v") LV RV false F F F F
                 DefaultID succs pdt cs Infoflow_new example_function
               = Ok example_function_state) by by vm_compute.
  assert (E2 : setTainted (fun _ => "v") example_function_state "k" 1
               = Ok example_function_tainted) by by vm_compute.
  assert (E3 : leastSolution example_function_tainted {[ "k" ]} false false
               = Ok (example_function_solution.1, example_function_solution.2))
    by by vm_compute.
  split_and!; [exact E1|exact E2|exact E3|].
  assert (Hin : forall inst, inst ∈ [mkInstruction 10 100 200 [1; 2] (StoreInst 1 2);
                                     mkInstruction 11 100 200 [3] (LoadInst 3);
                                     mkInstruction 12 100 200 [11; 4] BinaryOperator;
                                     mkInstruction 13 100 200 [12] ReturnInst] ->
                  in_function example_function inst).
  { intros inst Hinst. eexists. split; [left|exact Hinst]. }
  refine (proj1 (declared_taint_follows_dependencies (fun _ => "v") LV RV false
                   F F F F DefaultID succs pdt cs Infoflow_new
                   example_function_state example_function 1 12 "k" {[ "k" ]}
                   false false (reachable_new _ _ _ _ _ _ _ _) _ E1 _ _)
                (or_introl eq_refl) _ _ _ E2 E3).
  - intros inst b flows flows' [= <-]. exists []. by rewrite app_nil_r.
  - by apply elem_of_singleton.
  - eapply tc_l.
    { apply (dep_store LV DefaultID succs pdt example_function false
               (mkInstruction 10 100 200 [1; 2] (StoreInst 1 2)) 1 2 7);
        [apply Hin; left|done|unfold LV; set_solver]. }
    eapply tc_l.
    { apply (dep_load LV DefaultID succs pdt example_function false
               (mkInstruction 11 100 200 [3] (LoadInst 3)) 3 7);
        [apply Hin; right; left|done|unfold LV; set_solver]. }
    apply tc_once.
    apply (dep_operand LV DefaultID succs pdt example_function false
             (mkInstruction 12 100 200 [11; 4] BinaryOperator) 11);
      [apply Hin; right; right; left|done|left].
Defined.

(** ** Calls *)

Section RecordTaint.

Variable getName : nat -> string.
Variable locsForValue : nat -> gset nat.
Variable reachableLocsForValue : nat -> gset nat.
Variable DepsDropAtSink : bool.
Variable valueIsSink : nat -> bool.
Variable vargIsSink : nat -> bool.
Variable directPtrIsSink : nat -> bool.
Variable reachPtrIsSink : nat -> bool.

(** The taint of a value source of a record reaches its value sinks. *)
Lemma record_taints fl fl1 fl2 fl3 records r s t k (kinds : gset string)
    implicit_ sinks S :
  reachable getName locsForValue reachableLocsForValue DepsDropAtSink
    valueIsSink vargIsSink directPtrIsSink reachPtrIsSink fl ->
  foldM (constrainFlowRecord getName locsForValue reachableLocsForValue
           DepsDropAtSink valueIsSink vargIsSink directPtrIsSink reachPtrIsSink)
        fl records = Ok fl1 ->
  k ∈ kinds -> r ∈ records ->
  s ∈ valueSources r -> t ∈ valueSinks r ->
  kindFromImplicitSink (implicit r) (dropped DepsDropAtSink valueIsSink s)
  ∈ least_kinds kinds implicit_ sinks ->
  setTainted getName fl1 k s = Ok fl2 ->
  leastSolution fl2 kinds implicit_ sinks = Ok (fl3, S) ->
  isTainted fl3 S t = Ok true.
Proof.
  intros Hr Hrec Hk Hin Hs Ht Hkind Hset Hsol.
  destruct (reachable_inv _ _ _ _ _ _ _ _ fl Hr) as [Hwf _].
  pose proof (reachable_records _ _ _ _ _ _ _ _ fl records fl1 Hr Hrec) as Hr1.
  assert (Hpath : flow_path locsForValue reachableLocsForValue DepsDropAtSink
                    valueIsSink vargIsSink directPtrIsSink reachPtrIsSink records
                    (least_kinds kinds implicit_ sinks)
                    (slot_value (sourceCtxt r) s) (slot_value (sinkCtxt r) t)).
  { eapply path_one; [exact Hin|by apply source_value|by apply sink_value|done]. }
  destruct (flow_path_models _ _ _ _ _ _ _ _ records _ fl fl1 _ _ Hwf Hrec Hpath)
    as (xs & xt & Hxs & Hxt & Hflow).
  destruct (setTainted_least _ _ _ _ _ _ _ _ fl1 fl2 fl3 k s kinds implicit_
              sinks S Hr1 Hset Hk Hsol) as (M & HM & Hsrc & Hread & _).
  apply (Hread _ t xt Hxt). apply (Hflow false M HM). by eapply Hsrc.
Qed.

End RecordTaint.

Section Callee.

Variable currentContext : nat.

(** The loop of [constrainCallee] over the parameters. *)
Lemma callee_params_loop (cs : CallSite) (callee : Callee) calleeContext l :
  forall flows flows',
    foldM (fun flows i =>
             a ← getArgument cs i;
             match fn_args callee !! i with
             | Some param =>
                 Ok (flows ++
                       [addSinkValue
                          (addSourceValue
                             (FlowRecord_new false currentContext calleeContext) a)
                          param])
             | None => NullDereference
             end) flows l = Ok flows' ->
    exists more,
      flows' = flows ++ more /\
      forall i, i ∈ l ->
        exists a p,
          getArgument cs i = Ok a /\ fn_args callee !! i = Some p /\
          addSinkValue
            (addSourceValue (FlowRecord_new false currentContext calleeContext) a) p
          ∈ more.
Proof.
  induction l as [|i l IH]; intros flows flows'; cbn [foldM].
  - intros [= <-]. exists []. split; [by rewrite app_nil_r|].
    by intros i ?%elem_of_nil.
  - destruct (getArgument cs i) as [a| | |] eqn:Ea; cbn [mbind result_bind];
      try done.
    destruct (fn_args callee !! i) as [p|] eqn:Ep; cbn [mbind result_bind];
      try done.
    intros H. destruct (IH _ _ H) as (more & -> & Hmore).
    eexists. split; [by rewrite <- app_assoc|].
    intros j [->|Hj]%elem_of_cons.
    + exists a, p. split_and!; [done|done|]. cbn [app]. left.
    + destruct (Hmore j Hj) as (a' & p' & ? & ? & ?).
      exists a', p'. split_and!; [done|done|]. cbn [app]. by right.
Qed.

Lemma callee_params_loop_Ok (cs : CallSite) (callee : Callee) calleeContext l :
  (forall i, i ∈ l -> i < arg_size cs /\ i < length (fn_args callee)) ->
  forall flows,
    is_Ok (foldM (fun flows i =>
             a ← getArgument cs i;
             match fn_args callee !! i with
             | Some param =>
                 Ok (flows ++
                       [addSinkValue
                          (addSourceValue
                             (FlowRecord_new false currentContext calleeContext) a)
                          param])
             | None => NullDereference
             end) flows l) = true.
Proof.
  induction l as [|i l IH]; intros Hl flows; cbn [foldM]; [done|].
  destruct (Hl i) as [Ha Hp]; [left|].
  unfold getArgument, arg_size in *.
  destruct (lookup_lt_is_Some_2 (cs_args cs) i Ha) as [[a b] ->].
  destruct (lookup_lt_is_Some_2 (fn_args callee) i Hp) as [p ->].
  cbn [mbind result_bind]. apply IH. intros j Hj. apply Hl. by right.
Qed.

(** The loop over the arguments beyond the parameters. *)
Lemma callee_varargs_loop (cs : CallSite) l : forall r r',
  foldM (fun varargFlow i =>
           a ← getArgument cs i; Ok (addSourceValue varargFlow a)) r l = Ok r' ->
  implicit r' = implicit r /\ sourceCtxt r' = sourceCtxt r /\
  sinkCtxt r' = sinkCtxt r /\ vargSinks r' = vargSinks r /\
  forall i, i ∈ l -> exists a, getArgument cs i = Ok a /\ a ∈ valueSources r'.
Proof.
  assert (Hsub : forall l r r',
            foldM (fun varargFlow i =>
                     a ← getArgument cs i; Ok (addSourceValue varargFlow a)) r l
            = Ok r' -> valueSources r ⊆ valueSources r').
  { induction l0 as [|i l0 IH]; intros r r'; cbn [foldM]; [by intros [= <-]|].
    destruct (getArgument cs i) as [a| | |]; cbn [mbind result_bind]; try done.
    intros H. apply IH in H. cbn in H. set_solver. }
  induction l as [|i l IH]; intros r r'; cbn [foldM].
  - intros [= <-]. split_and!; try done. by intros i ?%elem_of_nil.
  - destruct (getArgument cs i) as [a| | |] eqn:Ea; cbn [mbind result_bind];
      try done.
    intros H. pose proof (Hsub _ _ _ H) as Hs.
    destruct (IH _ _ H) as (H1 & H2 & H3 & H4 & H5).
    split_and!; try done.
    intros j [->|Hj]%elem_of_cons; [|by apply H5].
    exists a. split; [done|]. apply Hs. cbn. set_solver.
Qed.

Lemma callee_varargs_loop_Ok (cs : CallSite) l :
  (forall i, i ∈ l -> i < arg_size cs) ->
  forall r,
    is_Ok (foldM (fun varargFlow i =>
                    a ← getArgument cs i; Ok (addSourceValue varargFlow a)) r l)
    = true.
Proof.
  induction l as [|i l IH]; intros Hl r; cbn [foldM]; [done|].
  unfold getArgument, arg_size in *.
  destruct (lookup_lt_is_Some_2 (cs_args cs) i) as [[a b] ->]; [apply Hl; left|].
  cbn [mbind result_bind]. apply IH. intros j Hj. apply Hl. by right.
Qed.

(** The loop over the blocks of the callee. *)
Lemma callee_returns_loop (cs : CallSite) calleeContext l : forall flows,
  exists more,
    foldl (fun flows terminator =>
             match terminator with
             | Some retInst =>
                 match inst_class retInst with
                 | ReturnInst =>
                     flows ++
                       [addSinkValue
                          (addSourceValue
                             (FlowRecord_new false calleeContext currentContext)
                             (inst_value retInst))
                          (cs_instruction cs)]
                 | _ => flows
                 end
             | None => flows
             end) flows l = flows ++ more /\
    forall retInst, Some retInst ∈ l -> inst_class retInst = ReturnInst ->
      addSinkValue
        (addSourceValue (FlowRecord_new false calleeContext currentContext)
           (inst_value retInst)) (cs_instruction cs) ∈ more.
Proof.
  induction l as [|t l IH]; intros flows; cbn [foldl].
  - exists []. split; [by rewrite app_nil_r|]. by intros r ?%elem_of_nil.
  - destruct t as [retInst|].
    + destruct (inst_class retInst) eqn:Ec;
        try (destruct (IH flows) as (more & -> & Hmore); exists more;
             split; [done|];
             intros r [[= <-]|Hr]%elem_of_cons Hcr; [congruence|by apply Hmore]).
      destruct (IH (flows ++ [addSinkValue
                          (addSourceValue
                             (FlowRecord_new false calleeContext currentContext)
                             (inst_value retInst))
                          (cs_instruction cs)])) as (more & -> & Hmore).
      eexists. split; [by rewrite <- app_assoc|].
      intros r [[= <-]|Hr]%elem_of_cons Hcr; cbn [app]; [left|right; by apply Hmore].
    + destruct (IH flows) as (more & -> & Hmore). exists more. split; [done|].
      intros r [?|Hr]%elem_of_cons Hcr; [done|by apply Hmore].
Qed.

(** What [constrainCallee] returns: it checks the arity of the call, and
    adds to the flows the flow of the program counter to the entry block
    of the callee, one flow from each argument to its parameter, the flow
    of the remaining arguments to the varargs of the callee, and one flow
    from each return of the callee to the call. *)
Lemma constrainCallee_spec calleeContext callee cs flows :
  (if fn_isVarArg callee then length (fn_args callee) <= arg_size cs
   else arg_size cs = length (fn_args callee)) ->
  exists more,
    constrainCallee currentContext calleeContext callee cs flows
    = Ok (flows ++ more) /\
    (exists r, r ∈ more /\ implicit r = true /\
       sourceCtxt r = currentContext /\ sinkCtxt r = calleeContext /\
       cs_parent cs ∈ valueSources r /\ cs_calledValue cs ∈ valueSources r /\
       fn_entryBlock callee ∈ valueSinks r) /\
    (forall i a p, getArgument cs i = Ok a -> fn_args callee !! i = Some p ->
       exists r, r ∈ more /\ implicit r = false /\
         sourceCtxt r = currentContext /\ sinkCtxt r = calleeContext /\
         a ∈ valueSources r /\ p ∈ valueSinks r) /\
    (forall i a, length (fn_args callee) <= i -> getArgument cs i = Ok a ->
       exists r, r ∈ more /\ implicit r = false /\
         sourceCtxt r = currentContext /\ sinkCtxt r = calleeContext /\
         a ∈ valueSources r /\ fn_value callee ∈ vargSinks r) /\
    (forall retInst, Some retInst ∈ fn_terminators callee ->
       inst_class retInst = ReturnInst ->
       exists r, r ∈ more /\ implicit r = false /\
         sourceCtxt r = calleeContext /\ sinkCtxt r = currentContext /\
         inst_value retInst ∈ valueSources r /\ cs_instruction cs ∈ valueSinks r).
Proof.
  intros Harity. unfold constrainCallee. cbv zeta.
  set (pcFlow := addSinkValue _ (fn_entryBlock callee)).
  assert (Hle : length (fn_args callee) <= arg_size cs).
  { destruct (fn_isVarArg callee); lia. }
  assert (A1 : negb (fn_isVarArg callee)
               || bool_decide (length (fn_args callee) <= arg_size cs) = true).
  { rewrite (bool_decide_eq_true_2 _ Hle). apply orb_true_r. }
  assert (A2 : fn_isVarArg callee
               || bool_decide (arg_size cs = length (fn_args callee)) = true).
  { destruct (fn_isVarArg callee); [done|]. by rewrite (bool_decide_eq_true_2 _ Harity). }
  rewrite A1, A2. cbn [cassert mbind result_bind]. clear A1 A2.
  match goal with |- context [foldM ?f (flows ++ [pcFlow]) ?l] =>
    pose proof (callee_params_loop_Ok cs callee calleeContext l) as HOk;
    destruct (foldM f (flows ++ [pcFlow]) l) as [flows1| | |] eqn:E1
  end.
  2-4: exfalso;
       specialize (HOk ltac:(intros i Hi%elem_of_seq; lia) (flows ++ [pcFlow]));
       rewrite E1 in HOk; done.
  clear HOk. cbn [mbind result_bind].
  apply callee_params_loop in E1 as (more1 & -> & Hparams).
  assert (Hvar : exists more2,
            (if bool_decide (length (fn_args callee) < arg_size cs)
             then
               foldM (fun varargFlow i =>
                        a ← getArgument cs i; Ok (addSourceValue varargFlow a))
                     (FlowRecord_new false currentContext calleeContext)
                     (seq (length (fn_args callee))
                        (arg_size cs - length (fn_args callee)))
               ≫= fun varargFlow =>
                    Ok (((flows ++ [pcFlow]) ++ more1)
                          ++ [addSinkVarg varargFlow (fn_value callee)])
             else Ok ((flows ++ [pcFlow]) ++ more1))
            = Ok (((flows ++ [pcFlow]) ++ more1) ++ more2) /\
            forall i a, length (fn_args callee) <= i -> getArgument cs i = Ok a ->
              exists r, r ∈ more2 /\ implicit r = false /\
                sourceCtxt r = currentContext /\ sinkCtxt r = calleeContext /\
                a ∈ valueSources r /\ fn_value callee ∈ vargSinks r).
  { destruct (decide (length (fn_args callee) < arg_size cs)) as [Hlt|Hlt];
      [rewrite (bool_decide_eq_true_2 _ Hlt)|rewrite (bool_decide_eq_false_2 _ Hlt)].
    - match goal with |- context [foldM ?f ?r0 ?l] =>
        pose proof (callee_varargs_loop_Ok cs l) as HOk;
        destruct (foldM f r0 l) as [vf| | |] eqn:E2
      end.
      2-4: exfalso;
           specialize (HOk ltac:(intros i Hi%elem_of_seq; lia)
                         (FlowRecord_new false currentContext calleeContext));
           rewrite E2 in HOk; done.
      clear HOk. cbn [mbind result_bind].
      apply callee_varargs_loop in E2 as (V1 & V2 & V3 & V4 & V5).
      eexists. split; [reflexivity|].
      intros i a Hi Ha. eexists. split; [left|].
      assert (Hlen : i < arg_size cs).
      { unfold getArgument, arg_size in *.
        destruct (cs_args cs !! i) eqn:El; [|done].
        by apply lookup_lt_Some in El. }
      destruct (V5 i) as (a' & Ha' & Hin); [apply elem_of_seq; lia|].
      rewrite Ha in Ha'. injection Ha' as <-.
      cbn [addSinkVarg implicit sourceCtxt sinkCtxt valueSources vargSinks].
      split_and!; [by rewrite V1|by rewrite V2|by rewrite V3|done|set_solver].
    - exists []. split; [by rewrite app_nil_r|].
      intros i a Hi Ha. exfalso. unfold getArgument, arg_size in *.
      destruct (cs_args cs !! i) eqn:El; [|done].
      apply lookup_lt_Some in El. lia. }
  destruct Hvar as (more2 & -> & Hvarargs). cbn [mbind result_bind].
  destruct (callee_returns_loop cs calleeContext (fn_terminators callee)
              (((flows ++ [pcFlow]) ++ more1) ++ more2)) as (more3 & -> & Hrets).
  exists ([pcFlow] ++ more1 ++ more2 ++ more3).
  split; [by rewrite <- !app_assoc|].
  split_and!.
  - exists pcFlow. split; [left|]. subst pcFlow. cbn. split_and!; try done; set_solver.
  - intros i a p Ha Hp.
    assert (Hi : i ∈ seq 0 (length (fn_args callee))).
    { apply elem_of_seq. apply lookup_lt_Some in Hp. lia. }
    destruct (Hparams i Hi) as (a' & p' & Ha' & Hp' & Hin).
    rewrite Ha in Ha'. rewrite Hp in Hp'. injection Ha' as <-. injection Hp' as <-.
    eexists. split; [right; apply elem_of_app; left; exact Hin|].
    cbn. split_and!; try done; set_solver.
  - intros i a Hi Ha. destruct (Hvarargs i a Hi Ha) as (r & Hr & Hrest).
    exists r. split; [|done]. right. rewrite !elem_of_app. by right; left.
  - intros retInst Hin Hc. eexists.
    split; [right; rewrite !elem_of_app; right; right; by apply Hrets|].
    cbn. split_and!; try done; set_solver.
Qed.

End Callee.

Lemma arity_cases (callee : Callee) (cs : CallSite) :
  (if fn_isVarArg callee then length (fn_args callee) <= arg_size cs
   else arg_size cs = length (fn_args callee)) \/
  ~ (if fn_isVarArg callee then length (fn_args callee) <= arg_size cs
     else arg_size cs = length (fn_args callee)).
Proof. destruct (fn_isVarArg callee); lia. Qed.

Section CalleeTaint.

Variable getName : nat -> string.
Variable locsForValue : nat -> gset nat.
Variable reachableLocsForValue : nat -> gset nat.
Variable DepsDropAtSink : bool.
Variable valueIsSink : nat -> bool.
Variable vargIsSink : nat -> bool.
Variable directPtrIsSink : nat -> bool.
Variable reachPtrIsSink : nat -> bool.
Variable currentContext : nat.

(** X21.  [constrainCallee] checks the arity of the call: it returns
    when the call has as many arguments as the callee has parameters, or
    at least as many when the callee is of variable arity, and fails on
    an assertion otherwise. *)
Theorem constrainCallee_checks_arity (calleeContext : nat) (callee : Callee)
    (cs : CallSite) (flows : list FlowRecord) :
  (is_Ok (constrainCallee currentContext calleeContext callee cs flows) = true
   <-> if fn_isVarArg callee then length (fn_args callee) <= arg_size cs
       else arg_size cs = length (fn_args callee)) /\
  (is_Ok (constrainCallee currentContext calleeContext callee cs flows) = false ->
   is_fatal (constrainCallee currentContext calleeContext callee cs flows) = true).
Proof.
  assert (Hfail : ~ (if fn_isVarArg callee
                     then length (fn_args callee) <= arg_size cs
                     else arg_size cs = length (fn_args callee)) ->
            is_fatal (constrainCallee currentContext calleeContext callee cs flows)
            = true).
  { intros Hn. unfold constrainCallee. cbv zeta.
    destruct (fn_isVarArg callee); cbn [negb orb cassert mbind result_bind];
      by rewrite (bool_decide_eq_false_2 _ Hn). }
  split.
  - split.
    + intros HOk.
      destruct (arity_cases callee cs) as [H|H]; [done|].
      apply Hfail in H.
      by destruct (constrainCallee currentContext calleeContext callee cs flows).
    + intros H.
      destruct (constrainCallee_spec currentContext calleeContext callee cs flows H)
        as (more & -> & _). done.
  - intros HOk. apply Hfail. intros H.
    destruct (constrainCallee_spec currentContext calleeContext callee cs flows H)
      as (more & Heq & _). by rewrite Heq in HOk.
Qed.

(** X22.  A call binds the arguments to the parameters, and the
    returned values to the call.  In a state of the pass, let
    [constrainFlowRecord] take the flows of [constrainCallee] for a call
    site and a callee.  After [setTainted] on the argument at a position,
    a least solution answers [isTainted] with true for the parameter at
    this position; after [setTainted] on a return instruction of the
    callee, for the call instruction; and, when implicit flows are asked
    for, after [setTainted] on the called value, for the entry block of
    the callee.  Sources must not be dropped at sinks, or the solution be
    asked with the sinks. *)
Theorem call_binds_arguments_and_results (fl fl1 : Infoflow)
    (calleeContext : nat) (callee : Callee) (cs : CallSite)
    (flows : list FlowRecord) (k : string) (kinds : gset string)
    (implicit_ sinks : bool) :
  reachable getName locsForValue reachableLocsForValue DepsDropAtSink
    valueIsSink vargIsSink directPtrIsSink reachPtrIsSink fl ->
  constrainCallee currentContext calleeContext callee cs [] = Ok flows ->
  foldM (constrainFlowRecord getName locsForValue reachableLocsForValue
           DepsDropAtSink valueIsSink vargIsSink directPtrIsSink reachPtrIsSink)
        fl flows = Ok fl1 ->
  k ∈ kinds ->
  DepsDropAtSink = false \/ sinks = true ->
  (forall i a p fl2 fl3 S,
     getArgument cs i = Ok a -> fn_args callee !! i = Some p ->
     setTainted getName fl1 k a = Ok fl2 ->
     leastSolution fl2 kinds implicit_ sinks = Ok (fl3, S) ->
     isTainted fl3 S p = Ok true) /\
  (forall retInst fl2 fl3 S,
     Some retInst ∈ fn_terminators callee -> inst_class retInst = ReturnInst ->
     setTainted getName fl1 k (inst_value retInst) = Ok fl2 ->
     leastSolution fl2 kinds implicit_ sinks = Ok (fl3, S) ->
     isTainted fl3 S (cs_instruction cs) = Ok true) /\
  (forall fl2 fl3 S,
     implicit_ = true ->
     setTainted getName fl1 k (cs_calledValue cs) = Ok fl2 ->
     leastSolution fl2 kinds implicit_ sinks = Ok (fl3, S) ->
     isTainted fl3 S (fn_entryBlock callee) = Ok true).
Proof.
  intros Hr Hcallee Hrec Hk Hd.
  assert (Harity : if fn_isVarArg callee
                   then length (fn_args callee) <= arg_size cs
                   else arg_size cs = length (fn_args callee)).
  { destruct (arity_cases callee cs) as [H|H]; [done|].
    exfalso. revert Hcallee. unfold constrainCallee. cbv zeta.
    destruct (fn_isVarArg callee); cbn [negb orb cassert mbind result_bind];
      by rewrite (bool_decide_eq_false_2 _ H). }
  destruct (constrainCallee_spec currentContext calleeContext callee cs [] Harity)
    as (more & Heq & Hpc & Hargs & _ & Hrets).
  rewrite Heq in Hcallee. injection Hcallee as <-. cbn [app] in Hrec.
  split_and!.
  - intros i a p fl2 fl3 S Ha Hp Hset Hsol.
    destruct (Hargs i a p Ha Hp) as (r & Hin & Hi & _ & _ & Hs & Ht).
    eapply (record_taints _ _ _ _ _ _ _ _ fl fl1 fl2 fl3 more r a p);
      [done|done|exact Hk|done|done|done| |done|done].
    rewrite Hi. by apply least_kinds_flow.
  - intros retInst fl2 fl3 S Hin Hc Hset Hsol.
    destruct (Hrets retInst Hin Hc) as (r & Hr' & Hi & _ & _ & Hs & Ht).
    eapply (record_taints _ _ _ _ _ _ _ _ fl fl1 fl2 fl3 more r
              (inst_value retInst) (cs_instruction cs));
      [done|done|exact Hk|done|done|done| |done|done].
    rewrite Hi. by apply least_kinds_flow.
  - intros fl2 fl3 S Himp Hset Hsol.
    destruct Hpc as (r & Hr' & Hi & _ & _ & _ & Hs & Ht).
    eapply (record_taints _ _ _ _ _ _ _ _ fl fl1 fl2 fl3 more r
              (cs_calledValue cs) (fn_entryBlock callee));
      [done|done|exact Hk|done|done|done| |done|done].
    rewrite Hi. by apply least_kinds_flow.
Qed.

End CalleeTaint.

(** A call of a function with the parameters 20 and 21 that returns in
    the instruction 40, on the arguments 1 and 2. *)
Definition example_callee : Callee :=
  mkCallee 200 30 [20; 21] false [Some (mkInstruction 40 30 200 [21] ReturnInst)].

Definition example_call : CallSite :=
  mkCallSite 50 100 200 None [(1, false); (2, false)] false None.

Definition example_call_flows : list FlowRecord :=
match constrainCallee DefaultID 1 example_callee example_call [] with
| Ok flows => flows
| _ => []
end.

Definition example_call_state : Infoflow :=
match foldM (constrainFlowRecord (fun _ => "v") (fun _ => ∅) (fun _ => ∅) false
               (fun _ => false) (fun _ => false) (fun _ => false)
               (fun _ => false)) Infoflow_new example_call_flows with
| Ok fl => fl
| _ => Infoflow_new
end.

Definition example_call_tainted : Infoflow :=
match setTainted (fun _ => "v") example_call_state "k" 2 with
| Ok fl => fl
| _ => Infoflow_new
end.

Definition example_call_solution : Infoflow * InfoflowSolution :=
match leastSolution example_call_tainted {[ "k" ]} false false with
| Ok r => r
| _ => (Infoflow_new, mkInfoflowSolution 0 false false)
end.

Lemma call_binds_arguments_and_results_witness :
  constrainCallee DefaultID 1 example_callee example_call [] = Ok example_call_flows /\
  setTainted (fun _ => "v") example_call_state "k" 2 = Ok example_call_tainted /\
  leastSolution example_call_tainted {[ "k" ]} false false
  = Ok (example_call_solution.1, example_call_solution.2) /\
  isTainted (example_call_solution.1) (example_call_solution.2) 21 = Ok true.
Proof.
  assert (E0 : constrainCallee DefaultID 1 example_callee example_call []
               = Ok example_call_flows) by by vm_compute.
  assert (E1 : foldM (constrainFlowRecord (fun _ => "v") (fun _ => ∅) (fun _ => ∅)
                        false (fun _ => false) (fun _ => false) (fun _ => false)
                        (fun _ => false)) Infoflow_new example_call_flows
               = Ok example_call_state) by by vm_compute.
  assert (E2 : setTainted (fun _ => "v") example_call_state "k" 2
               = Ok example_call_tainted) by by vm_compute.
  assert (E3 : leastSolution example_call_tainted {[ "k" ]} false false
               = Ok (example_call_solution.1, example_call_solution.2))
    by by vm_compute.
  split_and!; [exact E0|exact E2|exact E3|].
  refine (proj1 (call_binds_arguments_and_results (fun _ => "v") (fun _ => ∅)
                   (fun _ => ∅) false (fun _ => false) (fun _ => false)
                   (fun _ => false) (fun _ => false) DefaultID Infoflow_new
                   example_call_state 1 example_callee example_call
                   example_call_flows "k" {[ "k" ]} false false
                   (reachable_new _ _ _ _ _ _ _ _) E0 E1 _ (or_introl eq_refl))
                1 2 21 _ _ _ eq_refl eq_refl E2 E3).
  by apply elem_of_singleton.
Defined.

(** ** Signatures *)

Lemma foldl_addSourceValue_args (args : list (nat * bool)) (exp : FlowRecord) :
  foldl (fun exp arg => addSourceValue exp arg.1) exp args
  = foldl addSourceValue exp args.*1.
Proof. by rewrite foldl_fmap. Qed.

(** The explicit record of [ArgsToRet] and of [OverflowChecks]. *)
Lemma args_to_ret_record ctxt (cs : CallSite) a pa :
  (a, pa) ∈ cs_args cs ->
  let exp :=
    addSinkValue
      (foldl (fun exp arg => addSourceValue exp arg.1)
         (FlowRecord_new false ctxt ctxt) (cs_args cs))
      (cs_instruction cs) in
  implicit exp = false /\ a ∈ valueSources exp /\
  cs_instruction cs ∈ valueSinks exp.
Proof.
  intros Hin exp. subst exp. rewrite foldl_addSourceValue_args.
  destruct (foldl_addSourceValue_fields (cs_args cs).*1
              (FlowRecord_new false ctxt ctxt)) as (F1 & _ & _ & _ & F5 & _).
  cbn [addSinkValue implicit valueSources valueSinks].
  split_and!; [exact F1| |set_solver].
  apply F5. apply list_elem_of_fmap. by exists (a, pa).
Qed.

(** The explicit record of [TaintReachable] after the loop over the
    arguments. *)
Lemma TaintReachable_args_spec args : forall exp imp,
  implicit (foldl TaintReachable_arg (exp, imp) args).1 = implicit exp /\
  valueSinks (foldl TaintReachable_arg (exp, imp) args).1 = valueSinks exp /\
  valueSources exp ⊆ valueSources (foldl TaintReachable_arg (exp, imp) args).1 /\
  reachPtrSinks exp ⊆ reachPtrSinks (foldl TaintReachable_arg (exp, imp) args).1 /\
  forall a (b : bool), (a, b) ∈ args ->
    a ∈ valueSources (foldl TaintReachable_arg (exp, imp) args).1 /\
    (b = true -> a ∈ reachPtrSinks (foldl TaintReachable_arg (exp, imp) args).1).
Proof.
  induction args as [|[a0 b0] args IH]; intros exp imp; cbn [foldl].
  - split_and!; try done. by intros a b ?%elem_of_nil.
  - unfold TaintReachable_arg at 2 4 6 8 10 12. cbn [fst snd].
    destruct b0.
    + match goal with |- context [foldl _ (?e, ?i) args] =>
        destruct (IH e i) as (H1 & H2 & H3 & H4 & H5)
      end.
      cbn [addSinkReachablePtr addSourceReachablePtr addSourceValue implicit
             valueSinks valueSources reachPtrSinks] in H1, H2, H3, H4.
      split_and!; [done|done|set_solver|set_solver|].
      intros a b [[= -> ->]|Hin]%elem_of_cons; [|by apply H5].
      split; [apply H3; set_solver|intros _; apply H4; set_solver].
    + match goal with |- context [foldl _ (?e, ?i) args] =>
        destruct (IH e i) as (H1 & H2 & H3 & H4 & H5)
      end.
      cbn [addSourceValue implicit valueSinks valueSources reachPtrSinks]
        in H1, H2, H3, H4.
      split_and!; [done|done|set_solver|done|].
      intros a b [[= -> ->]|Hin]%elem_of_cons; [|by apply H5].
      split; [apply H3; set_solver|done].
Qed.

Section SignatureTaint.

Variable getName : nat -> string.
Variable locsForValue : nat -> gset nat.
Variable reachableLocsForValue : nat -> gset nat.
Variable DepsDropAtSink : bool.
Variable valueIsSink : nat -> bool.
Variable vargIsSink : nat -> bool.
Variable directPtrIsSink : nat -> bool.
Variable reachPtrIsSink : nat -> bool.

(** X23.  The signature [TaintReachable] is conservative.  In a state of
    the pass, let [constrainFlowRecord] take the flows of the signature
    for a call site.  After [setTainted] on an argument of the call, a
    least solution answers [isTainted] with true for the call when its
    type is not void, and [isReachPtrTainted] with true for each argument
    of pointer type that reaches an abstract location (with false when it
    reaches none).  Sources must not be dropped at sinks, or the solution
    be asked with the sinks. *)
Theorem TaintReachable_is_conservative (fl fl1 fl2 fl3 : Infoflow)
    (ctxt : nat) (cs : CallSite) (flows : list FlowRecord) (a : nat)
    (pa : bool) (k : string) (kinds : gset string) (implicit_ sinks : bool)
    (S : InfoflowSolution) :
  reachable getName locsForValue reachableLocsForValue DepsDropAtSink
    valueIsSink vargIsSink directPtrIsSink reachPtrIsSink fl ->
  process TaintReachable ctxt cs = Ok flows ->
  foldM (constrainFlowRecord getName locsForValue reachableLocsForValue
           DepsDropAtSink valueIsSink vargIsSink directPtrIsSink reachPtrIsSink)
        fl flows = Ok fl1 ->
  (a, pa) ∈ cs_args cs -> k ∈ kinds ->
  DepsDropAtSink = false \/ sinks = true ->
  setTainted getName fl1 k a = Ok fl2 ->
  leastSolution fl2 kinds implicit_ sinks = Ok (fl3, S) ->
  (cs_isVoidTy cs = false -> isTainted fl3 S (cs_instruction cs) = Ok true) /\
  (forall b, (b, true) ∈ cs_args cs ->
     isReachPtrTainted reachableLocsForValue fl3 S b
     = Ok (negb (bool_decide (reachableLocsForValue b = ∅)))).
Proof.
  intros Hr Hproc Hrec Ha Hk Hd Hset Hsol.
  destruct (reachable_inv _ _ _ _ _ _ _ _ fl Hr) as [Hwf _].
  pose proof (reachable_records _ _ _ _ _ _ _ _ fl flows fl1 Hr Hrec) as Hr1.
  cbn [process TaintReachable] in Hproc. unfold TaintReachable_process in Hproc.
  cbv zeta in Hproc.
  match type of Hproc with context [foldl _ (?e, ?i) _] =>
    destruct (TaintReachable_args_spec (cs_args cs) e i) as (F1 & F2 & _ & _ & F5)
  end.
  destruct (foldl TaintReachable_arg _ (cs_args cs)) as [exp imp].
  cbn [fst snd FlowRecord_new implicit valueSinks] in F1, F2, F5.
  destruct (F5 a pa Ha) as [Hsrc _].
  set (exp' := if negb (cs_isVoidTy cs) then addSinkValue exp (cs_instruction cs)
               else exp).
  assert (Hexp' : exp' ∈ flows /\ implicit exp' = false /\
                  a ∈ valueSources exp' /\ reachPtrSinks exp' = reachPtrSinks exp /\
                  (cs_isVoidTy cs = false -> cs_instruction cs ∈ valueSinks exp')).
  { subst exp'. destruct (cs_isVoidTy cs); cbn [negb] in *;
      injection Hproc as <-; (split; [right; left|]); cbn;
      (split_and!; [done|done|done|try done]).
    intros _. set_solver. }
  destruct Hexp' as (Hin & Hi & Hs & Hrs & Hret).
  destruct (setTainted_least _ _ _ _ _ _ _ _ fl1 fl2 fl3 k a kinds implicit_
              sinks S Hr1 Hset Hk Hsol) as (M & HM & HsrcM & Hread & Hmem).
  assert (Hkind : kindFromImplicitSink (implicit exp')
                    (dropped DepsDropAtSink valueIsSink a)
                  ∈ least_kinds kinds implicit_ sinks).
  { rewrite Hi. by apply least_kinds_flow. }
  split.
  - intros Hv.
    assert (Hpath : flow_path locsForValue reachableLocsForValue DepsDropAtSink
                      valueIsSink vargIsSink directPtrIsSink reachPtrIsSink flows
                      (least_kinds kinds implicit_ sinks)
                      (slot_value (sourceCtxt exp') a)
                      (slot_value (sinkCtxt exp') (cs_instruction cs))).
    { eapply path_one;
        [exact Hin|by apply source_value|apply sink_value; by apply Hret|done]. }
    destruct (flow_path_models _ _ _ _ _ _ _ _ flows _ fl fl1 _ _ Hwf Hrec Hpath)
      as (xs & xt & Hxs & Hxt & Hflow).
    apply (Hread _ _ xt Hxt). apply (Hflow false M HM). by eapply HsrcM.
  - intros b Hb. destruct (F5 b true Hb) as [_ Hsink]. specialize (Hsink eq_refl).
    unfold isReachPtrTainted. rewrite Hmem.
    + do 2 f_equal. apply bool_decide_ext. split.
      * intros E0. by apply elements_empty_inv, leibniz_equiv in E0.
      * intros ->. apply elements_empty.
    + intros loc Hloc%elem_of_elements.
      assert (Hpath : flow_path locsForValue reachableLocsForValue DepsDropAtSink
                        valueIsSink vargIsSink directPtrIsSink reachPtrIsSink flows
                        (least_kinds kinds implicit_ sinks)
                        (slot_value (sourceCtxt exp') a) (slot_loc loc)).
      { eapply path_one; [exact Hin|by apply source_value| |done].
        eapply sink_reachPtr; [|exact Hloc]. by rewrite Hrs. }
      destruct (flow_path_models _ _ _ _ _ _ _ _ flows _ fl fl1 _ _ Hwf Hrec Hpath)
        as (xs & xt & Hxs & Hxt & Hflow).
      exists xt. split; [done|]. apply (Hflow false M HM). by eapply HsrcM.
Qed.

End SignatureTaint.

(** A call with the arguments 1 and 2, the second of pointer type. *)
Definition example_external_call : CallSite :=
  mkCallSite 50 100 200 None [(1, false); (2, true)] false None.

Definition example_reachable_flows : list FlowRecord :=
match process TaintReachable DefaultID example_external_call with
| Ok flows => flows
| _ => []
end.

Definition example_reachable_state : Infoflow :=
match foldM (constrainFlowRecord (fun _ => "v") (fun _ => ∅) (fun _ => {[ 7 ]})
               false (fun _ => false) (fun _ => false) (fun _ => false)
               (fun _ => false)) Infoflow_new example_reachable_flows with
| Ok fl => fl
| _ => Infoflow_new
end.

Definition example_reachable_tainted : Infoflow :=
match setTainted (fun _ => "v") example_reachable_state "k" 1 with
| Ok fl => fl
| _ => Infoflow_new
end.

Definition example_reachable_solution : Infoflow * InfoflowSolution :=
match leastSolution example_reachable_tainted {[ "k" ]} false false with
| Ok r => r
| _ => (Infoflow_new, mkInfoflowSolution 0 false false)
end.

Lemma TaintReachable_is_conservative_witness :
  process TaintReachable DefaultID example_external_call
  = Ok example_reachable_flows /\
  setTainted (fun _ => "v") example_reachable_state "k" 1
  = Ok example_reachable_tainted /\
  leastSolution example_reachable_tainted {[ "k" ]} false false
  = Ok (example_reachable_solution.1, example_reachable_solution.2) /\
  isTainted (example_reachable_solution.1) (example_reachable_solution.2) 50
  = Ok true /\
  isReachPtrTainted (fun _ => {[ 7 ]}) (example_reachable_solution.1)
    (example_reachable_solution.2) 2 = Ok true.
Proof.
  set (RV := fun _ : nat => ({[ 7 ]} : gset nat)).
  assert (E0 : process TaintReachable DefaultID example_external_call
               = Ok example_reachable_flows) by by vm_compute.
  assert (E1 : foldM (constrainFlowRecord (fun _ => "v") (fun _ => ∅) RV
                        false (fun _ => false) (fun _ => false) (fun _ => false)
                        (fun _ => false)) Infoflow_new example_reachable_flows
               = Ok example_reachable_state) by by vm_compute.
  assert (E2 : setTainted (fun _ => "v") example_reachable_state "k" 1
               = Ok example_reachable_tainted) by by vm_compute.
  assert (E3 : leastSolution example_reachable_tainted {[ "k" ]} false false
               = Ok (example_reachable_solution.1, example_reachable_solution.2))
    by by vm_compute.
  destruct (TaintReachable_is_conservative (fun _ => "v") (fun _ => ∅) RV false
              (fun _ => false) (fun _ => false) (fun _ => false) (fun _ => false)
              Infoflow_new example_reachable_state example_reachable_tainted
              (example_reachable_solution.1) DefaultID example_external_call
              example_reachable_flows 1 false "k" {[ "k" ]} false false
              (example_reachable_solution.2) (reachable_new _ _ _ _ _ _ _ _)
              E0 E1) as [H1 H2]; [left|by apply elem_of_singleton|by left
                                 |exact E2|exact E3|].
  split_and!; [exact E0|exact E2|exact E3|by apply H1|].
  etransitivity; [apply H2; right; left|]. by vm_compute.
Defined.

(** ** The table of the standard library *)

Lemma ltb_trans a b c :
  String.ltb a b = true -> String.ltb b c = true -> String.ltb a c = true.
Proof.
  unfold String.ltb.
  destruct (String.compare a b) eqn:E1; try done.
  destruct (String.compare b c) eqn:E2; try done.
  intros _ _.
  apply OrderedTypeEx.String_as_OT.cmp_lt in E1, E2.
  pose proof (OrderedTypeEx.String_as_OT.lt_trans _ _ _ E1 E2) as E3.
  apply OrderedTypeEx.String_as_OT.cmp_lt in E3.
  unfold OrderedTypeEx.String_as_OT.cmp in E3. by rewrite E3.
Qed.

Lemma ltb_irrefl a : String.ltb a a = false.
Proof.
  unfold String.ltb. destruct (String.compare a a) eqn:E; try done.
  apply OrderedTypeEx.String_as_OT.cmp_lt in E.
  by apply OrderedTypeEx.String_as_OT.lt_not_eq in E.
Qed.

(** A vector of summaries in strictly ascending order of name. *)
Fixpoint strictly_sorted (l : list StdLibSignatures.CallSummary) : bool :=
match l with
| [] => true
| c :: r =>
    match r with
    | [] => true
    | d :: _ => StdLibSignatures.NameCompare c d && strictly_sorted r
    end
end.

Lemma strictly_sorted_tail c r :
  strictly_sorted (c :: r) = true -> strictly_sorted r = true.
Proof. cbn. destruct r; [done|]. by intros [_ ?]%andb_true_iff. Qed.

Lemma strictly_sorted_head c r d :
  strictly_sorted (c :: r) = true -> d ∈ r ->
  StdLibSignatures.NameCompare c d = true.
Proof.
  revert c. induction r as [|e r IH]; intros c Hs Hd; [by apply elem_of_nil in Hd|].
  cbn in Hs. apply andb_true_iff in Hs as [Hce Hs].
  apply elem_of_cons in Hd as [->|Hd]; [done|].
  unfold StdLibSignatures.NameCompare in *.
  eapply ltb_trans; [exact Hce|]. by apply IH.
Qed.

(** On a sorted vector [lower_bound] stops at the entry of the name. *)
Lemma lower_bound_finds l name c :
  strictly_sorted l = true -> c ∈ l -> StdLibSignatures.Name c = name ->
  exists r, StdLibSignatures.lower_bound l name = c :: r.
Proof.
  induction l as [|c0 l IH]; intros Hs Hc Hn; [by apply elem_of_nil in Hc|].
  cbn [StdLibSignatures.lower_bound]. unfold StdLibSignatures.NameSearch.
  apply elem_of_cons in Hc as [->|Hc].
  - rewrite Hn, ltb_irrefl. by exists l.
  - pose proof (strictly_sorted_head c0 l c Hs Hc) as Hlt.
    unfold StdLibSignatures.NameCompare in Hlt. rewrite Hn in Hlt. rewrite Hlt.
    apply IH; [by eapply strictly_sorted_tail|done|done].
Qed.

Lemma lower_bound_member l name c r :
  StdLibSignatures.lower_bound l name = c :: r -> c ∈ l.
Proof.
  induction l as [|c0 l IH]; cbn [StdLibSignatures.lower_bound]; [done|].
  destruct (StdLibSignatures.NameSearch c0 name).
  - intros H. right. by apply IH.
  - intros [= -> _]. left.
Qed.

(** [findEntry] on a sorted vector. *)
Lemma findEntry_spec Calls cs c :
  strictly_sorted Calls = true ->
  StdLibSignatures.findEntry Calls cs = Some c
  <-> c ∈ Calls /\ cs_calledFunction cs = Some (StdLibSignatures.Name c).
Proof.
  intros Hs. unfold StdLibSignatures.findEntry. split.
  - destruct (cs_calledFunction cs) as [name|]; [|done].
    destruct (StdLibSignatures.lower_bound Calls name) as [|c' r] eqn:El; [done|].
    case_bool_decide as Hn; [done|]. intros [= ->].
    split; [by eapply lower_bound_member|].
    destruct (decide (StdLibSignatures.Name c = name)) as [<-|Hne]; [done|].
    by destruct Hn.
  - intros [Hc ->].
    destruct (lower_bound_finds Calls _ c Hs Hc eq_refl) as [r ->].
    by rewrite bool_decide_eq_false_2 by (intros H; by apply H).
Qed.

Lemma elem_of_sort_insert c l d :
  d ∈ StdLibSignatures.sort_insert c l <-> d = c \/ d ∈ l.
Proof.
  induction l as [|e l IH]; cbn [StdLibSignatures.sort_insert].
  - rewrite list_elem_of_singleton. set_solver.
  - destruct (StdLibSignatures.NameCompare e c).
    + rewrite !elem_of_cons, IH. tauto.
    + rewrite !elem_of_cons. tauto.
Qed.

Lemma elem_of_sort_by_name l d : d ∈ StdLibSignatures.sort_by_name l <-> d ∈ l.
Proof.
  unfold StdLibSignatures.sort_by_name.
  induction l as [|c l IH]; cbn [foldr]; [done|].
  rewrite elem_of_sort_insert, elem_of_cons, IH. tauto.
Qed.

(** The table after its static initialisation. *)
Definition the_table : list StdLibSignatures.CallSummary :=
match StdLibSignatures.CallTable with
| Ok table => table
| _ => []
end.

(** The summary of an entry of the table. *)
Definition summary_of (entry : string * list StdLibSignatures.TaintDecl)
  : option StdLibSignatures.CallSummary :=
  if bool_decide (entry.1 = EmptyString) then None
  else match StdLibSignatures.CallSummary_new entry.1 entry.2 with
       | Ok c => Some c
       | _ => None
       end.

Lemma CallTable_Ok : StdLibSignatures.CallTable = Ok the_table.
Proof. by vm_compute. Qed.

Lemma the_table_sorted :
  strictly_sorted (StdLibSignatures.initCalls the_table) = true.
Proof. by vm_compute. Qed.

Lemma the_table_summaries :
  StdLibSignatures.before_sentinel the_table
  = omap summary_of StdLibSignatures.CallTable_entries.
Proof. by vm_compute. Qed.

Lemma CallSummary_new_Name name decls c :
  StdLibSignatures.CallSummary_new name decls = Ok c ->
  StdLibSignatures.Name c = name.
Proof.
  unfold StdLibSignatures.CallSummary_new.
  assert (Hf : forall l S0,
            StdLibSignatures.Name
              (foldl StdLibSignatures.CallSummary_process S0 l)
            = StdLibSignatures.Name S0).
  { induction l as [|TD l IH]; intros S0; cbn [foldl]; [done|].
    rewrite IH. unfold StdLibSignatures.CallSummary_process.
    by destruct (StdLibSignatures.end_ TD). }
  intros H.
  assert (Hc : c = foldl StdLibSignatures.CallSummary_process
                     (StdLibSignatures.mkCallSummary name [] []) decls).
  { destruct decls as [|TD decls]; [by injection H as <-|].
    destruct (StdLibSignatures.CallSummary_verify _); cbn [mbind result_bind] in H;
      try done.
    by injection H as <-. }
  rewrite Hc. apply (Hf decls (StdLibSignatures.mkCallSummary name [] [])).
Qed.

Lemma elem_of_initCalls c :
  c ∈ StdLibSignatures.initCalls the_table
  <-> exists decls,
        (StdLibSignatures.Name c, decls) ∈ StdLibSignatures.CallTable_entries /\
        StdLibSignatures.Name c <> EmptyString /\
        StdLibSignatures.CallSummary_new (StdLibSignatures.Name c) decls = Ok c.
Proof.
  unfold StdLibSignatures.initCalls.
  rewrite elem_of_sort_by_name, the_table_summaries, list_elem_of_omap.
  split.
  - intros ([name decls] & Hin & Hsum). unfold summary_of in Hsum.
    cbn [fst snd] in Hsum. case_bool_decide as Hn; [done|].
    destruct (StdLibSignatures.CallSummary_new name decls) as [c0| | |] eqn:E;
      try done.
    injection Hsum as ->. pose proof (CallSummary_new_Name _ _ _ E) as Hc. subst name.
    by exists decls.
  - intros (decls & Hin & Hn & Hnew).
    exists (StdLibSignatures.Name c, decls). split; [done|].
    unfold summary_of. cbn [fst snd].
    rewrite bool_decide_eq_false_2 by done. by rewrite Hnew.
Qed.

(** X24.  The static initialisation of the table of the standard library
    passes its assertions, and the signature [StdLib] accepts the call
    sites that call, directly, a function whose name the table holds
    before its sentinel, and no other; the summary [findEntry] returns is
    the one built from the declarations of an entry of this name. *)
Theorem StdLib_accepts_the_names_of_its_table :
  exists table,
    StdLibSignatures.CallTable = Ok table /\
    (forall ctxt cs,
       accept (StdLibSignatures.StdLib table) ctxt cs = true
       <-> exists name decls,
             cs_calledFunction cs = Some name /\ name <> EmptyString /\
             (name, decls) ∈ StdLibSignatures.CallTable_entries) /\
    (forall cs S_,
       StdLibSignatures.findEntry (StdLibSignatures.initCalls table) cs = Some S_ ->
       exists decls,
         cs_calledFunction cs = Some (StdLibSignatures.Name S_) /\
         (StdLibSignatures.Name S_, decls) ∈ StdLibSignatures.CallTable_entries /\
         StdLibSignatures.CallSummary_new (StdLibSignatures.Name S_) decls = Ok S_).
Proof.
  exists the_table. split; [apply CallTable_Ok|]. split.
  - intros ctxt cs. cbn [accept StdLibSignatures.StdLib].
    unfold StdLibSignatures.StdLib_accept. rewrite bool_decide_eq_true. split.
    + intros [c Hc]. apply (findEntry_spec _ _ _ the_table_sorted) in Hc as [Hc Hn].
      apply elem_of_initCalls in Hc as (decls & Hin & Hne & _).
      by exists (StdLibSignatures.Name c), decls.
    + intros (name & decls & Hn & Hne & Hin).
      assert (Hsum : exists c, summary_of (name, decls) = Some c).
      { assert (Hall : forallb (fun e => bool_decide (e.1 = EmptyString)
                                         || bool_decide (is_Some (summary_of e)))
                         StdLibSignatures.CallTable_entries = true)
          by by vm_compute.
        rewrite forallb_forall in Hall.
        specialize (Hall (name, decls)). cbn [fst] in Hall.
        rewrite (bool_decide_eq_false_2 _ Hne) in Hall. cbn [orb] in Hall.
        apply (bool_decide_eq_true_1 (is_Some (summary_of (name, decls)))).
        apply Hall. by apply list_elem_of_In. }
      destruct Hsum as [c Hsum]. exists c.
      apply (findEntry_spec _ _ _ the_table_sorted).
      unfold summary_of in Hsum. cbn [fst snd] in Hsum.
      rewrite (bool_decide_eq_false_2 _ Hne) in Hsum.
      destruct (StdLibSignatures.CallSummary_new name decls) as [c0| | |] eqn:E;
        try done.
      injection Hsum as ->.
      assert (Hc : c ∈ StdLibSignatures.initCalls the_table).
      { unfold StdLibSignatures.initCalls.
        rewrite elem_of_sort_by_name, the_table_summaries, list_elem_of_omap.
        exists (name, decls). split; [done|]. unfold summary_of. cbn [fst snd].
        rewrite (bool_decide_eq_false_2 _ Hne). by rewrite E. }
      split; [done|].
      apply elem_of_initCalls in Hc as (decls' & _ & _ & Hnew').
      rewrite Hn. f_equal. symmetry. by eapply CallSummary_new_Name.
  - intros cs S_ Hf.
    apply (findEntry_spec _ _ _ the_table_sorted) in Hf as [Hc Hn].
    apply elem_of_initCalls in Hc as (decls & Hin & _ & Hnew).
    by exists decls.
Qed.




Section DeclLoops.

Variable cs : CallSite.
Variable e : StdLibSignatures.TEnd.
Variable msg : string.
Variables addV addD addR : FlowRecord -> gset nat -> FlowRecord.


Hypothesis add_fields : forall add r Vs,
  add = addV \/ add = addD \/ add = addR ->
  implicit (add r Vs) = implicit r /\ sourceCtxt (add r Vs) = sourceCtxt r /\
  sinkCtxt (add r Vs) = sinkCtxt r.



End DeclLoops.





Section ExternalCalls.

Variable getName : nat -> string.
Variable locsForValue : nat -> gset nat.
Variable reachableLocsForValue : nat -> gset nat.
Variable DepsDropAtSink : bool.
Variable valueIsSink : nat -> bool.
Variable vargIsSink : nat -> bool.
Variable directPtrIsSink : nat -> bool.
Variable reachPtrIsSink : nat -> bool.
Variable currentContext : nat.

(** X26.  External calls with the signatures of the pass.  With the
    registrar [registerSignatures] fills, let
    [signatureForExternalCall] return on a call site that the signature
    of the standard library does not accept.  When the call is not of
    type void, after [setTainted] on an argument a least solution answers
    [isTainted] with true for the call (sources not dropped at sinks, or
    the solution asked with the sinks); when the call is of type void the
    state is unchanged. *)
Theorem external_call_taints_result (fl fl1 : Infoflow)
    (sigs : SignatureRegistrar) (table : list StdLibSignatures.CallSummary)
    (cs : CallSite) :
  reachable getName locsForValue reachableLocsForValue DepsDropAtSink
    valueIsSink vargIsSink directPtrIsSink reachPtrIsSink fl ->
  registerSignatures = Ok sigs ->
  StdLibSignatures.CallTable = Ok table ->
  accept (StdLibSignatures.StdLib table) currentContext cs = false ->
  signatureForExternalCall getName locsForValue reachableLocsForValue
    DepsDropAtSink valueIsSink vargIsSink directPtrIsSink reachPtrIsSink
    currentContext sigs fl cs = Ok fl1 ->
  (cs_isVoidTy cs = false ->
   forall a pa k (kinds : gset string) implicit_ sinks fl2 fl3 S,
     (a, pa) ∈ cs_args cs -> k ∈ kinds ->
     DepsDropAtSink = false \/ sinks = true ->
     setTainted getName fl1 k a = Ok fl2 ->
     leastSolution fl2 kinds implicit_ sinks = Ok (fl3, S) ->
     isTainted fl3 S (cs_instruction cs) = Ok true) /\
  (cs_isVoidTy cs = true -> fl1 = fl).
Proof.
  intros Hr Hreg Htable Hstd Hsig.
  unfold registerSignatures in Hreg. rewrite Htable in Hreg.
  cbn [mbind result_bind] in Hreg. injection Hreg as <-.
  unfold signatureForExternalCall, registerSignature in Hsig.
  cbn [app SignatureRegistrar_process] in Hsig. rewrite Hstd in Hsig.
  cbn [accept process OverflowChecks ArgsToRet] in Hsig.
  assert (Hflows : exists flows,
            foldM (constrainFlowRecord getName locsForValue reachableLocsForValue
                     DepsDropAtSink valueIsSink vargIsSink directPtrIsSink
                     reachPtrIsSink) fl flows = Ok fl1 /\
            if cs_isVoidTy cs then flows = []
            else addSinkValue
                   (foldl (fun exp arg => addSourceValue exp arg.1)
                      (FlowRecord_new false currentContext currentContext)
                      (cs_args cs))
                   (cs_instruction cs) ∈ flows).
  { destruct (OverflowChecks_accept currentContext cs).
    - unfold OverflowChecks_process in Hsig. cbv zeta in Hsig.
      destruct (cs_isVoidTy cs); cbn [negb cassert mbind result_bind] in Hsig;
        [done|].
      eexists. split; [exact Hsig|]. right. left.
    - unfold ArgsToRet_process in Hsig.
      destruct (cs_isVoidTy cs); cbn [negb mbind result_bind] in Hsig.
      + by exists [].
      + eexists. split; [exact Hsig|]. left. }
  destruct Hflows as (flows & Hrec & Hflows).
  split.
  - intros Hv a pa k kinds implicit_ sinks fl2 fl3 S Ha Hk Hd Hset Hsol.
    rewrite Hv in Hflows.
    destruct (args_to_ret_record currentContext cs a pa Ha) as (Hi & Hs & Ht).
    eapply (record_taints _ _ _ _ _ _ _ _ fl fl1 fl2 fl3 flows _ a
              (cs_instruction cs));
      [done|done|exact Hk|exact Hflows|exact Hs|exact Ht| |done|done].
    rewrite Hi. by apply least_kinds_flow.
  - intros Hv. rewrite Hv in Hflows. subst flows. cbn [foldM] in Hrec.
    by injection Hrec as <-.
Qed.

End ExternalCalls.

(** A call of an unknown function on the arguments 1 and 2. *)
Definition example_unknown_call : CallSite :=
  mkCallSite 50 100 200 (Some "unknown") [(1, false); (2, false)] false None.

Definition example_signatures : SignatureRegistrar :=
  [OverflowChecks; StdLibSignatures.StdLib the_table; ArgsToRet].

Definition example_unknown_state : Infoflow :=
match signatureForExternalCall (fun _ => "v") (fun _ => ∅) (fun _ => ∅) false
        (fun _ => false) (fun _ => false) (fun _ => false) (fun _ => false)
        DefaultID example_signatures Infoflow_new example_unknown_call with
| Ok fl => fl
| _ => Infoflow_new
end.

Definition example_unknown_tainted : Infoflow :=
match setTainted (fun _ => "v") example_unknown_state "k" 2 with
| Ok fl => fl
| _ => Infoflow_new
end.

Definition example_unknown_solution : Infoflow * InfoflowSolution :=
match leastSolution example_unknown_tainted {[ "k" ]} false false with
| Ok r => r
| _ => (Infoflow_new, mkInfoflowSolution 0 false false)
end.

Lemma external_call_taints_result_witness :
  signatureForExternalCall (fun _ => "v") (fun _ => ∅) (fun _ => ∅) false
    (fun _ => false) (fun _ => false) (fun _ => false) (fun _ => false)
    DefaultID example_signatures Infoflow_new example_unknown_call
  = Ok example_unknown_state /\
  setTainted (fun _ => "v") example_unknown_state "k" 2
  = Ok example_unknown_tainted /\
  leastSolution example_unknown_tainted {[ "k" ]} false false
  = Ok (example_unknown_solution.1, example_unknown_solution.2) /\
  isTainted (example_unknown_solution.1) (example_unknown_solution.2) 50
  = Ok true.
Proof.
  assert (E0 : registerSignatures = Ok example_signatures).
  { unfold registerSignatures. by rewrite CallTable_Ok. }
  assert (E1 : signatureForExternalCall (fun _ => "v") (fun _ => ∅) (fun _ => ∅)
                 false (fun _ => false) (fun _ => false) (fun _ => false)
                 (fun _ => false) DefaultID example_signatures Infoflow_new
                 example_unknown_call = Ok example_unknown_state)
    by by vm_compute.
  assert (E2 : setTainted (fun _ => "v") example_unknown_state "k" 2
               = Ok example_unknown_tainted) by by vm_compute.
  assert (E3 : leastSolution example_unknown_tainted {[ "k" ]} false false
               = Ok (example_unknown_solution.1, example_unknown_solution.2))
    by by vm_compute.
  split_and!; [exact E1|exact E2|exact E3|].
  refine (proj1 (external_call_taints_result (fun _ => "v") (fun _ => ∅)
                   (fun _ => ∅) false (fun _ => false) (fun _ => false)
                   (fun _ => false) (fun _ => false) DefaultID Infoflow_new
                   example_unknown_state example_signatures the_table
                   example_unknown_call (reachable_new _ _ _ _ _ _ _ _)
                   E0 CallTable_Ok _ E1)
                eq_refl 2 false "k" {[ "k" ]} false false _ _ _ _ _ (or_introl eq_refl)
                E2 E3).
  - by vm_compute.
  - right. left.
  - by apply elem_of_singleton.
Defined.
